(** * A shallow embedding of the efrt trie builder (class [Trie])

    The JavaScript class keeps every node as a plain object whose own
    properties carry, side by side, the terminal flag (['']), the inline
    terminals (value [1]), the edges (value: another node object) and the
    bookkeeping fields [_c], [_d], [_v] and [_g].  Nodes are shared once the
    canonicalizer has run, so the embedding keeps an explicit store of
    objects addressed by numbers, and every method is a function on the
    store.  Recursion through the store takes a fuel argument; [None] means
    that the fuel ran out or that JavaScript would have thrown. *)

From stdpp Require Import gmap strings list pretty.
From Stdlib Require Import ZArith Ascii Sorting.Sorted.

Open Scope string_scope.
Open Scope list_scope.
Open Scope nat_scope.

(** ** Strings

    JavaScript strings are sequences of code units; the embedding uses Rocq
    strings, that is code units below 256, compared unit by unit as
    JavaScript does. *)

(** [s.slice(n)] *)
Fixpoint slice_from (n : nat) (s : string) : string :=
  match n, s with
  | O, _ => s
  | S n, String _ s => slice_from n s
  | S _, EmptyString => EmptyString
  end.

(** [s.slice(0, n)] *)
Fixpoint slice_to (n : nat) (s : string) : string :=
  match n, s with
  | O, _ => EmptyString
  | S n, String c s => String c (slice_to n s)
  | S _, EmptyString => EmptyString
  end.

(** Modelled from the spec: [fns.commonPrefix] (module [../fns] is not part
    of the sources at hand), "longest shared prefix between two strings". *)
Fixpoint commonPrefix (w1 w2 : string) : string :=
  match w1, w2 with
  | String a w1, String b w2 =>
      if decide (a = b) then String a (commonPrefix w1 w2) else EmptyString
  | _, _ => EmptyString
  end.

(** [prop[0] !== '_'] (true for the empty string, whose [prop[0]] is
    [undefined]). *)
Definition not_underscore (prop : string) : bool :=
  match prop with
  | String c _ => negb (bool_decide (c = "_"%char))
  | EmptyString => true
  end.

(** [prop === word.slice(0, prop.length)] *)
Definition starts (prop word : string) : bool :=
  bool_decide (prop = slice_to (String.length prop) word).

(** ** Values and objects *)

Inductive value : Type :=
  | VUndef
  | VNum (n : Z)
  | VStr (s : string)
  | VObj (a : nat).

Global Instance value_eq_dec : EqDecision value.
Proof. solve_decision. Defined.

Inductive jstype : Type := TUndefined | TNumber | TString | TObject.

Definition typeof (v : value) : jstype :=
  match v with
  | VUndef => TUndefined
  | VNum _ => TNumber
  | VStr _ => TString
  | VObj _ => TObject
  end.

Definition is_object (v : value) : bool :=
  match v with VObj _ => true | _ => false end.

Definition is_number (v : value) : bool :=
  match v with VNum _ => true | _ => false end.

(** Truthiness, as tested by [if (v)] and [!!v]. *)
Definition truthy (v : value) : bool :=
  match v with
  | VUndef => false
  | VNum n => negb (n =? 0)%Z
  | VStr s => negb (bool_decide (s = ""))
  | VObj _ => true
  end.

(** String conversion, as done by [+=], by a computed property name and by
    [Array.prototype.join] on the pushed element ([join] prints [undefined]
    as the empty string, the other two as "undefined"; the flag tells them
    apart). *)
Definition to_string (in_join : bool) (v : value) : string :=
  match v with
  | VUndef => if in_join then "" else "undefined"
  | VNum n => pretty n
  | VStr s => s
  | VObj _ => "[object Object]"
  end.

(** An object is the list of its own properties in the order in which
    [Object.keys] and [for ... in] enumerate them: array indices first, in
    ascending order, then the other names in order of creation. *)
Definition object : Type := list (string * value).

Definition obj_keys (o : object) : list string := o.*1.

Fixpoint js_get (k : string) (o : object) : value :=
  match o with
  | [] => VUndef
  | (k', v) :: o => if decide (k = k') then v else js_get k o
  end.

Fixpoint obj_has (k : string) (o : object) : bool :=
  match o with
  | [] => false
  | (k', _) :: o => if decide (k = k') then true else obj_has k o
  end.

(** [delete o[k]] *)
Fixpoint obj_delete (k : string) (o : object) : object :=
  match o with
  | [] => []
  | (k', v) :: o =>
      if decide (k = k') then obj_delete k o else (k', v) :: obj_delete k o
  end.

Definition digit_of (c : ascii) : option N :=
  let n := N_of_ascii c in
  if ((48 <=? n) && (n <=? 57))%N then Some (n - 48)%N else None.

Fixpoint digits_value (acc : N) (s : string) : option N :=
  match s with
  | EmptyString => Some acc
  | String c s =>
      match digit_of c with
      | Some d => digits_value (10 * acc + d)%N s
      | None => None
      end
  end.

(** A property name is an array index when it is the canonical decimal
    form of an integer below [2^32 - 1]. *)
Definition array_index (s : string) : option N :=
  match s with
  | EmptyString => None
  | String c s' =>
      if decide (c = "0"%char) then
        match s' with EmptyString => Some 0%N | _ => None end
      else
        match digits_value 0 s with
        | Some v => if (v <? 2 ^ 32 - 1)%N then Some v else None
        | None => None
        end
  end.

Fixpoint obj_update (k : string) (v : value) (o : object) : object :=
  match o with
  | [] => []
  | (k', v') :: o =>
      if decide (k = k') then (k, v) :: o else (k', v') :: obj_update k v o
  end.

Fixpoint obj_add_index (n : N) (k : string) (v : value) (o : object) : object :=
  match o with
  | [] => [(k, v)]
  | (k', v') :: o' =>
      match array_index k' with
      | Some n' =>
          if (n' <? n)%N then (k', v') :: obj_add_index n k v o'
          else (k, v) :: o
      | None => (k, v) :: o
      end
  end.

(** [o[k] = v] *)
Definition obj_set (k : string) (v : value) (o : object) : object :=
  if obj_has k o then obj_update k v o
  else match array_index k with
       | Some n => obj_add_index n k v o
       | None => o ++ [(k, v)]
       end.

(** [props.sort()]: the default order of [Array.prototype.sort] on
    strings, code unit by code unit. *)
Fixpoint sort_insert (p : string) (l : list string) : list string :=
  match l with
  | [] => [p]
  | q :: l' => if String.leb p q then p :: l else q :: sort_insert p l'
  end.

Definition sort (l : list string) : list string :=
  foldr sort_insert [] l.

(** [Array.prototype.join] on elements already converted to strings. *)
Fixpoint join (sep : string) (l : list string) : string :=
  match l with
  | [] => ""
  | [s] => s
  | s :: l => s +:+ sep +:+ join sep l
  end.

(** ** The builder *)

Record Trie : Type := mkTrie {
  heap : list object;
  root : nat;
  lastWord : string;
  suffixes : gmap string nat;
  cNext : Z;
  wordCount : Z;
  vCur : Z
}.

Definition set_heap (h : list object) (t : Trie) : Trie :=
  mkTrie h (root t) (lastWord t) (suffixes t) (cNext t) (wordCount t) (vCur t).

Definition set_lastWord (w : string) (t : Trie) : Trie :=
  mkTrie (heap t) (root t) w (suffixes t) (cNext t) (wordCount t) (vCur t).

Definition set_wordCount (n : Z) (t : Trie) : Trie :=
  mkTrie (heap t) (root t) (lastWord t) (suffixes t) (cNext t) n (vCur t).

Definition set_vCur (n : Z) (t : Trie) : Trie :=
  mkTrie (heap t) (root t) (lastWord t) (suffixes t) (cNext t) (wordCount t) n.

(** [this.suffixes[sig] = node; node._c = this.cNext++] without the write
    to the node. *)
Definition register (sig : string) (node : nat) (t : Trie) : Trie :=
  mkTrie (heap t) (root t) (lastWord t) (<[sig := node]> (suffixes t))
         (cNext t + 1)%Z (wordCount t) (vCur t).

(** The constructor before [insertWords]; [vCur] is only read after the
    constructor has set it to 0. *)
Definition new_Trie : Trie :=
  mkTrie [[]] 0 "" ∅ 1%Z 0%Z 0%Z.

(** [{}] *)
Definition alloc (t : Trie) : nat * Trie :=
  (length (heap t), set_heap (heap t ++ [[]]) t).

Definition put (node : nat) (o : object) (t : Trie) : Trie :=
  set_heap (<[node := o]> (heap t)) t.

(** [node[k] = v] *)
Definition set_prop (node : nat) (k : string) (v : value) (t : Trie)
  : option Trie :=
  o ← heap t !! node; Some (put node (obj_set k v o) t).

(** [delete node[k]] *)
Definition delete_prop (node : nat) (k : string) (t : Trie) : option Trie :=
  o ← heap t !! node; Some (put node (obj_delete k o) t).

Fixpoint addTerminal (node : nat) (prop : string) (t : Trie) : option Trie :=
  match prop with
  | String c (String _ _ as rest) =>
      let '(next, t) := alloc t in
      t ← set_prop node (String c "") (VObj next) t;
      addTerminal next rest t
  | _ => set_prop node prop (VNum 1) t
  end.

Definition bump_wordCount (t : Trie) : Trie :=
  set_wordCount (wordCount t + 1)%Z t.

(** The last case of the loop of [_insert]: split the property [prop] at
    the common prefix. *)
Definition insert_split (word : string) (node : nat) (prop prefix : string)
    (v : value) (t : Trie) : option Trie :=
  let '(next, t) := alloc t in
  t ← set_prop next (slice_from (String.length prefix) prop) v t;
  t ← addTerminal next (slice_from (String.length prefix) word) t;
  t ← delete_prop node prop t;
  t ← set_prop node prefix (VObj next) t;
  Some (bump_wordCount t).

(** The loop of [_insert] over [Object.keys(node)]; [o] is the node as it
    was when the keys were taken (nothing is written before the loop
    returns). *)
Fixpoint insert_loop (rec : string → nat → Trie → option Trie)
    (word : string) (node : nat) (o : object) (keys : list string)
    (t : Trie) : option Trie :=
  match keys with
  | [] =>
      t ← addTerminal node word t;
      Some (bump_wordCount t)
  | prop :: keys =>
      let prefix := commonPrefix word prop in
      if (String.length prefix =? 0)%nat then
        insert_loop rec word node o keys t
      else if bool_decide (prop = prefix) && is_object (js_get prop o) then
        match js_get prop o with
        | VObj child => rec (slice_from (String.length prefix) word) child t
        | _ => None
        end
      else if bool_decide (prop = word) && is_number (js_get prop o) then
        Some t
      else insert_split word node prop prefix (js_get prop o) t
  end.

Fixpoint _insert (fuel : nat) (word : string) (node : nat) (t : Trie)
  : option Trie :=
  match fuel with
  | O => None
  | S fuel =>
      o ← heap t !! node;
      insert_loop (_insert fuel) word node o (obj_keys o) t
  end.

(** [nodeProps(node, nodesOnly)] *)
Definition nodeProps (o : object) (nodesOnly : bool) : list string :=
  sort (filter (λ prop,
                  prop ≠ "" ∧ not_underscore prop = true
                  ∧ (nodesOnly = true → is_object (js_get prop o) = true))
               (obj_keys o)).

Definition isTerminal (o : object) : bool := truthy (js_get "" o).

(** [visited(node)]: the answer and the store with the node stamped. *)
Definition visited (node : nat) (t : Trie) : option (bool * Trie) :=
  o ← heap t !! node;
  if decide (js_get "_v" o = VNum (vCur t)) then Some (true, t)
  else Some (false, put node (obj_set "_v" (VNum (vCur t)) o) t).

Definition prepDFS (t : Trie) : Trie := set_vCur (vCur t + 1)%Z t.

(** The loop of [combineSuffixNode] over the sorted properties; [sig] is
    the signature array, its elements already converted as [join] will. *)
Fixpoint combine_loop (rec : nat → Trie → option (nat * Trie))
    (node : nat) (props : list string) (sig : list string) (t : Trie)
  : option (list string * Trie) :=
  match props with
  | [] => Some (sig, t)
  | prop :: props =>
      o ← heap t !! node;
      match js_get prop o with
      | VObj child =>
          '(shared, t) ← rec child t;
          t ← set_prop node prop (VObj shared) t;
          s ← heap t !! shared;
          combine_loop rec node props
            (sig ++ [prop; to_string true (js_get "_c" s)]) t
      | _ => combine_loop rec node props (sig ++ [prop]) t
      end
  end.

Fixpoint combineSuffixNode (fuel : nat) (node : nat) (t : Trie)
  : option (nat * Trie) :=
  match fuel with
  | O => None
  | S fuel =>
      o ← heap t !! node;
      if truthy (js_get "_c" o) then Some (node, t)
      else
        let sig := if isTerminal o then ["!"] else [] in
        '(sig, t) ← combine_loop (combineSuffixNode fuel) node
                      (nodeProps o false) sig t;
        let sig := join "-" sig in
        match suffixes t !! sig with
        | Some shared => Some (shared, t)
        | None =>
            t ← set_prop node "_c" (VNum (cNext t)) t;
            Some (node, register sig node t)
        end
  end.

(** The loop of [uniqueNode] over the child properties of [o]. *)
Fixpoint unique_loop (rec : string → string → nat → option (option nat))
    (word other : string) (o : object) (props : list string)
  : option (option nat) :=
  match props with
  | [] => Some None
  | prop :: props =>
      if starts prop word then
        match js_get prop o with
        | VObj child =>
            if negb (starts prop other) then Some (Some child)
            else rec (slice_from (String.length prop) word)
                     (slice_from (String.length prop) other) child
        | _ => None
        end
      else unique_loop rec word other o props
  end.

Fixpoint uniqueNode (fuel : nat) (word other : string) (node : nat)
    (t : Trie) : option (option nat) :=
  match fuel with
  | O => None
  | S fuel =>
      o ← heap t !! node;
      unique_loop (λ w o' n, uniqueNode fuel w o' n t) word other o
        (nodeProps o true)
  end.

(** [insert(word)]; a word is consumed by at least one code unit per
    level of [_insert] and [uniqueNode], and [combineSuffixNode] never
    nests deeper than there are nodes. *)
Definition insert (word : string) (t : Trie) : option Trie :=
  t ← _insert (S (String.length word)) word (root t) t;
  let lastWord := lastWord t in
  let t := set_lastWord word t in
  let prefix := commonPrefix word lastWord in
  if decide (prefix = lastWord) then Some t
  else
    freeze ← uniqueNode (S (String.length lastWord)) lastWord word (root t) t;
    match freeze with
    | Some freeze =>
        '(_, t) ← combineSuffixNode (S (length (heap t))) freeze t;
        Some t
    | None => Some t
    end.

(** The loop of [insertWords] over the array as [fns.unique] (not part of
    the sources at hand) leaves it. *)
Fixpoint insertWords (words : list string) (t : Trie) : option Trie :=
  match words with
  | [] => Some t
  | word :: words => t ← insert word t; insertWords words t
  end.

(** The loop of [isFragment] over the child properties of [o]. *)
Fixpoint fragment_loop (rec : string → nat → option bool)
    (word : string) (o : object) (props : list string) : option bool :=
  match props with
  | [] => Some false
  | prop :: props =>
      if starts prop word then
        match js_get prop o with
        | VObj child => rec (slice_from (String.length prop) word) child
        | _ => None
        end
      else fragment_loop rec word o props
  end.

Fixpoint isFragment (fuel : nat) (word : string) (node : nat) (t : Trie)
  : option bool :=
  match fuel with
  | O => None
  | S fuel =>
      o ← heap t !! node;
      if (String.length word =? 0)%nat then Some (isTerminal o)
      else if decide (js_get word o = VNum 1) then Some true
      else fragment_loop (λ w n, isFragment fuel w n t) word o
             (nodeProps o true)
  end.

Definition isWord (word : string) (t : Trie) : option bool :=
  isFragment (S (String.length word)) word (root t) t.

(** [node._d++] on a number; the bookkeeping field never holds anything
    else, and the embedding has no NaN. *)
Definition incr (v : value) : option value :=
  match v with
  | VNum n => Some (VNum (n + 1)%Z)
  | _ => None
  end.

(** The loop of [countDegree] over the child properties. *)
Fixpoint count_loop (rec : nat → Trie → option Trie) (node : nat)
    (props : list string) (t : Trie) : option Trie :=
  match props with
  | [] => Some t
  | prop :: props =>
      o ← heap t !! node;
      match js_get prop o with
      | VObj child => t ← rec child t; count_loop rec node props t
      | _ => None
      end
  end.

Fixpoint countDegree (fuel : nat) (node : nat) (t : Trie) : option Trie :=
  match fuel with
  | O => None
  | S fuel =>
      o ← heap t !! node;
      let o := if decide (js_get "_d" o = VUndef)
               then obj_set "_d" (VNum 0) o else o in
      d ← incr (js_get "_d" o);
      let t := put node (obj_set "_d" d o) t in
      '(seen, t) ← visited node t;
      if seen : bool then Some t
      else
        o ← heap t !! node;
        count_loop (countDegree fuel) node (nodeProps o true) t
  end.

(** [v.length]: only strings have one here; for an object it is whatever
    own property of that name it carries. *)
Definition js_length (v : value) (t : Trie) : value :=
  match v with
  | VStr s => VNum (Z.of_nat (String.length s))
  | VObj a => match heap t !! a with Some o => js_get "length" o | None => VUndef end
  | _ => VUndef
  end.

(** [child._g !== undefined && (child._d === 1 || child._g.length === 1)] *)
Definition hoistable (c : object) (t : Trie) : bool :=
  negb (bool_decide (js_get "_g" c = VUndef))
  && (bool_decide (js_get "_d" c = VNum 1)
      || bool_decide (js_length (js_get "_g" c) t = VNum 1)).

(** The three statements that hoist the single property of [child] into
    [node]; the result is the new value of [prop]. *)
Definition hoist_child (node : nat) (prop : string) (child : nat) (t : Trie)
  : option (string * Trie) :=
  t ← delete_prop node prop t;
  c ← heap t !! child;
  let g := to_string false (js_get "_g" c) in
  let prop := prop +:+ g in
  c ← heap t !! child;
  t ← set_prop node prop (js_get g c) t;
  Some (prop, t).

(** The loop of [collapseChains]; [last] is the variable [prop], which
    survives the loop. *)
Fixpoint collapse_loop (rec : nat → Trie → option Trie) (node : nat)
    (props : list string) (last : option string) (t : Trie)
  : option (option string * Trie) :=
  match props with
  | [] => Some (last, t)
  | prop :: props =>
      o ← heap t !! node;
      match js_get prop o with
      | VObj child =>
          t ← rec child t;
          c ← heap t !! child;
          if hoistable c t then
            '(prop, t) ← hoist_child node prop child t;
            collapse_loop rec node props (Some prop) t
          else collapse_loop rec node props (Some prop) t
      | _ => collapse_loop rec node props (Some prop) t
      end
  end.

Definition last_prop (last : option string) : value :=
  match last with Some prop => VStr prop | None => VUndef end.

Fixpoint collapseChains (fuel : nat) (node : nat) (t : Trie) : option Trie :=
  match fuel with
  | O => None
  | S fuel =>
      '(seen, t) ← visited node t;
      if seen : bool then Some t
      else
        o ← heap t !! node;
        let props := nodeProps o false in
        '(prop, t) ← collapse_loop (collapseChains fuel) node props None t;
        o ← heap t !! node;
        if (length props =? 1)%nat && negb (isTerminal o)
        then set_prop node "_g" (last_prop prop) t
        else Some t
  end.

(** The first four statements of [optimize]: everything before
    [collapseChains]. *)
Definition optimize_prepare (t : Trie) : option Trie :=
  '(_, t) ← combineSuffixNode (S (length (heap t))) (root t) t;
  let t := prepDFS t in
  t ← countDegree (S (length (heap t))) (root t) t;
  Some (prepDFS t).

Definition optimize (t : Trie) : option Trie :=
  t ← optimize_prepare t;
  collapseChains (S (length (heap t))) (root t) t.

(** [new Trie(words)] without [optimize]. *)
Definition build (words : list string) : option Trie :=
  insertWords words new_Trie.

(** ** Vocabulary of the statements *)

Definition first_char (s : string) : option ascii :=
  match s with
  | String c _ => Some c
  | EmptyString => None
  end.

(** The names that [nodeProps] lists: neither the terminal flag [''] nor
    anything in the namespace of the bookkeeping fields. *)
Definition label (k : string) : Prop := k ≠ "" ∧ not_underscore k = true.

Global Instance label_dec k : Decision (label k).
Proof. unfold label. apply _. Defined.

Definition labels (o : object) : list string := filter label (obj_keys o).

(** Invariant 1 of the data model on one node: at most one label begins
    with any given code unit. *)
Definition prefix_free (o : object) : Prop :=
  Forall (λ k1, Forall (λ k2, first_char k1 = first_char k2 → k1 = k2)
                       (labels o)) (labels o).

Global Instance prefix_free_dec o : Decision (prefix_free o).
Proof. unfold prefix_free. apply _. Defined.

(** Every edge of the node points into a store of [n] objects. *)
Definition obj_closed (n : nat) (o : object) : Prop :=
  ∀ k a, js_get k o = VObj a → a < n.

Definition value_closed (n : nat) (v : value) : Prop :=
  match v with VObj a => a < n | _ => True end.

(** Well-formed node: no property twice, invariant 1, no dangling edge. *)
Definition node_wf (n : nat) (o : object) : Prop :=
  NoDup (obj_keys o) ∧ prefix_free o ∧ obj_closed n o.

Definition heap_wf (t : Trie) : Prop :=
  (∀ a o, heap t !! a = Some o → node_wf (length (heap t)) o)
  ∧ root t < length (heap t).

(** Before [optimize] a property name is a single code unit, the empty
    string or [_c]. *)
Definition keys_small (o : object) : Prop :=
  ∀ k, k ∈ obj_keys o → (String.length k ≤ 1)%nat ∨ k = "_c".

(** What holds of the builder between two calls of [insert]. *)
Definition builder_inv (t : Trie) : Prop :=
  heap_wf t
  ∧ (∀ a o, heap t !! a = Some o → keys_small o)
  ∧ (∀ sig a, suffixes t !! sig = Some a → a < length (heap t)).

(** The fields of the builder other than the store and the word count. *)
Definition same_meta (t t' : Trie) : Prop :=
  root t' = root t ∧ lastWord t' = lastWord t ∧ suffixes t' = suffixes t
  ∧ cNext t' = cNext t ∧ vCur t' = vCur t.

(** No node is created and no property appears or disappears except the
    bookkeeping fields [_c], [_d] and [_v]. *)
Definition bookkeeping_only (t t' : Trie) : Prop :=
  length (heap t') = length (heap t)
  ∧ ∀ a o, heap t !! a = Some o →
      ∃ o', heap t' !! a = Some o'
        ∧ ∀ k, k ≠ "_c" → k ≠ "_d" → k ≠ "_v" →
               (k ∈ obj_keys o' ↔ k ∈ obj_keys o).

(** What a call of [combineSuffixNode] that returns [r] guarantees. *)
Definition combine_post (t : Trie) (r : nat) (t' : Trie) : Prop :=
  builder_inv t' ∧ bookkeeping_only t t' ∧ r < length (heap t')
  ∧ root t' = root t ∧ vCur t' = vCur t ∧ lastWord t' = lastWord t.


(** ** The graph of the nodes *)

Definition node_at (t : Trie) (a : nat) : object :=
  default ([] : object) (heap t !! a).

(** An edge of the DAWG: a child property of [a] that holds node [c]. *)
Definition edge (t : Trie) (a c : nat) : Prop :=
  ∃ o prop, heap t !! a = Some o ∧ prop ∈ nodeProps o true
            ∧ js_get prop o = VObj c.

Definition reachable (t : Trie) (a : nat) : Prop := rtc (edge t) (root t) a.

(** The in-degree field, 0 while it is [undefined]. *)
Definition degree (o : object) : Z :=
  match js_get "_d" o with VNum n => n | _ => 0%Z end.

Definition out_degree (o : object) : nat := length (nodeProps o true).

Definition sum_degrees (t : Trie) (l : list nat) : Z :=
  foldr (λ a s, (degree (node_at t a) + s)%Z) 0%Z l.

Definition count_edges (t : Trie) (l : list nat) : nat :=
  sum_list_with (λ a, out_degree (node_at t a)) l.

(** [node._v === this.vCur] *)
Definition is_visited (v : Z) (o : object) : bool :=
  bool_decide (js_get "_v" o = VNum v).

Definition visited_in (t : Trie) (a : nat) : Prop :=
  ∃ o, heap t !! a = Some o ∧ is_visited (vCur t) o = true.

(** The nodes that the current traversal has not stamped yet. *)
Definition unvisited (t : Trie) : nat :=
  sum_list_with (λ o, if is_visited (vCur t) o then 0 else 1) (heap t).

(** Sum of the in-degree fields over the whole store, and the number of
    edges that leave stamped nodes. *)
Definition total_degree (t : Trie) : Z :=
  foldr (λ o s, (degree o + s)%Z) 0%Z (heap t).

Definition visited_edges (t : Trie) : nat :=
  sum_list_with (λ o, if is_visited (vCur t) o then out_degree o else 0)
                (heap t).

(** The in-degree field holds a number or nothing. *)
Definition d_numeric (t : Trie) : Prop :=
  ∀ a o, heap t !! a = Some o →
         js_get "_d" o = VUndef ∨ ∃ n, js_get "_d" o = VNum n.

(** Two versions of a node that differ in the fields [_d], [_v] and [_g]
    only (which never hold a node when written): same child properties in
    the same order, same values under every other name. *)
Definition mark (k : string) : Prop := k = "_d" ∨ k = "_v" ∨ k = "_g".

Definition obj_marks (o o' : object) : Prop :=
  (∀ b, nodeProps o' b = nodeProps o b)
  ∧ (∀ k, ¬ mark k → js_get k o' = js_get k o)
  ∧ (∀ k, ¬ mark k → (k ∈ obj_keys o' ↔ k ∈ obj_keys o))
  ∧ (∀ k, js_get k o' = js_get k o ∨ is_object (js_get k o') = false)
  ∧ (NoDup (obj_keys o) → NoDup (obj_keys o')).

Definition marks_only (t t' : Trie) : Prop :=
  length (heap t') = length (heap t)
  ∧ ∀ a o, heap t !! a = Some o →
      ∃ o', heap t' !! a = Some o' ∧ obj_marks o o'.

(** What a call [countDegree(n)] guarantees. *)
Definition count_post (n : nat) (t t' : Trie) : Prop :=
  heap_wf t' ∧ d_numeric t' ∧ marks_only t t' ∧ same_meta t t'
  ∧ (total_degree t' - Z.of_nat (visited_edges t')
     = total_degree t - Z.of_nat (visited_edges t) + 1)%Z
  ∧ (∀ a, visited_in t a → visited_in t' a)
  ∧ visited_in t' n
  ∧ (∀ a, visited_in t' a → ¬ visited_in t a →
          rtc (edge t) n a ∧ ∀ c, edge t a c → visited_in t' c)
  ∧ (∀ a o, heap t !! a = Some o → ¬ visited_in t' a → heap t' !! a = Some o).

(** What the loop of [countDegree] over the child properties [props] of
    node [n] (which is [o] when the loop starts) guarantees. *)
Definition count_loop_post (n : nat) (o : object) (props : list string)
    (t t' : Trie) : Prop :=
  heap_wf t' ∧ d_numeric t' ∧ marks_only t t' ∧ same_meta t t'
  ∧ (total_degree t' - Z.of_nat (visited_edges t')
     = total_degree t - Z.of_nat (visited_edges t)
       + Z.of_nat (length props))%Z
  ∧ (∀ a, visited_in t a → visited_in t' a)
  ∧ (∀ p c, p ∈ props → js_get p o = VObj c → visited_in t' c)
  ∧ (∀ a, visited_in t' a → ¬ visited_in t a →
          (∃ c, edge t n c ∧ rtc (edge t) c a)
          ∧ ∀ c, edge t a c → visited_in t' c)
  ∧ (∀ a oa, heap t !! a = Some oa → ¬ visited_in t' a →
             heap t' !! a = Some oa).

(** The state in which [optimize] calls [countDegree]: no in-degree field
    yet and a visit epoch that no node carries. *)
Definition fresh_marks (t : Trie) : Prop :=
  ∀ a o, heap t !! a = Some o →
         js_get "_d" o = VUndef ∧ js_get "_v" o ≠ VNum (vCur t).

(** ** Membership *)

(** [isFragment(w, a)] with the fuel that the length of [w] calls for. *)
Definition member (t : Trie) (a : nat) (w : string) : option bool :=
  isFragment (S (String.length w)) w a t.

(** The child property that [isFragment] follows on [w]. *)
Definition find_edge (o : object) (w : string) : option string :=
  head (filter (λ p, starts p w = true) (nodeProps o true)).

(** A word without the code unit ['_'], the first character of every
    bookkeeping field. *)
Fixpoint clean (w : string) : bool :=
  match w with
  | EmptyString => true
  | String c w => negb (bool_decide (c = "_"%char)) && clean w
  end.

(** ** [collapseChains] with a record of its hoists

    The same traversal as [collapseChains], returning in addition one entry
    per execution of the body of [if (child._g !== undefined && ...)]: the
    parent, the property, the child, and the child as it was at that
    moment. The first component is what [collapseChains] computes. *)

Record hoist : Type := mkHoist {
  h_parent : nat;
  h_prop : string;
  h_child : nat;
  h_shape : object
}.

Fixpoint collapse_loop_log (rec : nat → Trie → option (Trie * list hoist))
    (node : nat) (props : list string) (last : option string) (t : Trie)
  : option (option string * Trie * list hoist) :=
  match props with
  | [] => Some (last, t, [])
  | prop :: props =>
      o ← heap t !! node;
      match js_get prop o with
      | VObj child =>
          '(t, log1) ← rec child t;
          c ← heap t !! child;
          if hoistable c t then
            '(prop', t) ← hoist_child node prop child t;
            '(last, t, log2) ← collapse_loop_log rec node props (Some prop') t;
            Some (last, t, log1 ++ mkHoist node prop child c :: log2)
          else
            '(last, t, log2) ← collapse_loop_log rec node props (Some prop) t;
            Some (last, t, log1 ++ log2)
      | _ => collapse_loop_log rec node props (Some prop) t
      end
  end.

Fixpoint collapseChains_log (fuel : nat) (node : nat) (t : Trie)
  : option (Trie * list hoist) :=
  match fuel with
  | O => None
  | S fuel =>
      '(seen, t) ← visited node t;
      if seen : bool then Some (t, [])
      else
        o ← heap t !! node;
        let props := nodeProps o false in
        '(prop, t, log) ← collapse_loop_log (collapseChains_log fuel) node
                            props None t;
        o ← heap t !! node;
        if (length props =? 1)%nat && negb (isTerminal o)
        then t ← set_prop node "_g" (last_prop prop) t; Some (t, log)
        else Some (t, log)
  end.

(** A node that carries [_g] has been visited, has no terminal flag, and
    its labels are exactly the one that [_g] names. *)
Definition g_ok (t : Trie) : Prop :=
  ∀ a o, heap t !! a = Some o → js_get "_g" o ≠ VUndef →
    is_visited (vCur t) o = true ∧ isTerminal o = false
    ∧ ∃ g, js_get "_g" o = VStr g ∧ ∀ k, k ∈ labels o ↔ k = g.

Definition collapse_inv (t : Trie) : Prop := heap_wf t ∧ g_ok t.

(** The shape of a child at the moment it is hoisted: one property in all
    (edge or inline terminal), named by [_g], no terminal flag, and
    in-degree 1 or a name of length 1. *)
Definition hoist_ok (h : hoist) : Prop :=
  ∃ g, js_get "_g" (h_shape h) = VStr g
       ∧ nodeProps (h_shape h) false = [g]
       ∧ isTerminal (h_shape h) = false
       ∧ (js_get "_d" (h_shape h) = VNum 1 ∨ String.length g = 1).

(** Same answers of [isFragment] at every node for every word without
    underscore. *)
Definition same_members (t t' : Trie) : Prop :=
  ∀ w a, clean w = true → member t' a w = member t a w.

(** What a call [collapseChains(n)] guarantees. *)
Definition collapse_post (n : nat) (t t' : Trie) (log : list hoist) : Prop :=
  collapse_inv t' ∧ length (heap t') = length (heap t) ∧ same_meta t t'
  ∧ (∀ a o, heap t !! a = Some o → is_visited (vCur t) o = true →
            heap t' !! a = Some o)
  ∧ visited_in t' n
  ∧ same_members t t'
  ∧ Forall hoist_ok log.

(** What the loop of [collapseChains] over the properties [props] of the
    visited node [node] guarantees; [o] is the node when the loop starts. *)
Definition collapse_loop_post (node : nat) (o : object) (props : list string)
    (last : option string) (t : Trie) (last' : option string) (t' : Trie)
    (log : list hoist) : Prop :=
  collapse_inv t' ∧ length (heap t') = length (heap t) ∧ same_meta t t'
  ∧ (∀ a oa, a ≠ node → heap t !! a = Some oa →
             is_visited (vCur t) oa = true → heap t' !! a = Some oa)
  ∧ (∃ o', heap t' !! node = Some o'
           ∧ is_visited (vCur t) o' = true
           ∧ js_get "_g" o' = VUndef
           ∧ isTerminal o' = isTerminal o
           ∧ (∀ k, k ∈ labels o' →
                   ∃ k0, k0 ∈ labels o ∧ first_char k = first_char k0)
           ∧ (props ≠ [] → ∃ q, last' = Some q ∧ q ∈ labels o')
           ∧ (props = [] → last' = last ∧ o' = o))
  ∧ same_members t t'
  ∧ Forall hoist_ok log.

(** ** The path of a word and the node that [insert] freezes *)

(** The nodes that the descent of [isFragment] and [uniqueNode] meets
    below [node] on [word], each with the part of the word consumed when
    it is reached ([pre] is what was consumed before [node]). *)
Fixpoint path (fuel : nat) (pre word : string) (node : nat) (t : Trie)
  : list (string * nat) :=
  match fuel with
  | O => []
  | S fuel =>
      match heap t !! node with
      | None => []
      | Some o =>
          match find_edge o word with
          | Some prop =>
              match js_get prop o with
              | VObj child =>
                  (pre +:+ prop, child)
                  :: path fuel (pre +:+ prop)
                       (slice_from (String.length prop) word) child t
              | _ => []
              end
          | None => []
          end
      end
  end.

Definition path_of (word : string) (t : Trie) : list (string * nat) :=
  path (S (String.length word)) "" word (root t) t.

(** The first entry of the path of [word] (a consumed prefix and the node
    reached there) that is not an entry of the path of [other]. *)
Definition highest_off_path (word other : string) (t : Trie) : option nat :=
  snd <$> head (filter (λ e, e ∉ path_of other t) (path_of word t)).

(** [insert] with the node to freeze found by comparing the two paths
    entry by entry. *)
Definition insert_spec (word : string) (t : Trie) : option Trie :=
  t1 ← _insert (S (String.length word)) word (root t) t;
  let t1 := set_lastWord word t1 in
  if starts (lastWord t) word then Some t1
  else match highest_off_path (lastWord t) word t1 with
       | Some freeze =>
           snd <$> combineSuffixNode (S (length (heap t1))) freeze t1
       | None => Some t1
       end.

(** The store keeps every [_g] field as it is. *)
Definition g_same (t t' : Trie) : Prop :=
  ∀ a o', heap t' !! a = Some o' →
          ∃ o, heap t !! a = Some o ∧ js_get "_g" o' = js_get "_g" o.

(** The spec's singleton: exactly one outgoing edge, no terminal flag, no
    inline terminal. *)
Definition spec_singleton (o : object) : Prop :=
  ∃ g, nodeProps o true = [g] ∧ nodeProps o false = [g]
       ∧ isTerminal o = false.

(** ** The root while the builder runs

    Until [optimize] the root is never frozen: no property holds it, the
    registry of frozen nodes does not hold it, and its own property names
    are single code units or the empty string. *)
Definition root_free (t : Trie) : Prop :=
  root t < length (heap t)
  ∧ (∀ a o k, heap t !! a = Some o → js_get k o ≠ VObj (root t))
  ∧ (∀ sig, suffixes t !! sig ≠ Some (root t))
  ∧ (∀ o k, heap t !! root t = Some o → k ∈ obj_keys o →
            String.length k ≤ 1).

(** ** Words over a part of the alphabet

    What follows is the vocabulary of the properties proved beyond the
    statements above. *)

Fixpoint word_over (ok : ascii → bool) (w : string) : bool :=
  match w with
  | EmptyString => true
  | String c w => ok c && word_over ok w
  end.

Definition not_us (c : ascii) : bool := negb (bool_decide (c = "_"%char)).

Definition is_digit (c : ascii) : bool :=
  ((48 <=? N_of_ascii c) && (N_of_ascii c <=? 57))%N.

(** A code unit that the signatures of [combineSuffixNode] cannot
    misread: not a digit (child ids are written in digits), not ['-'] (the
    separator), not ['!'] (the terminal mark), and not ['_']. *)
Definition safe_char (c : ascii) : bool :=
  not_us c && negb (bool_decide (c = "-"%char))
  && negb (bool_decide (c = "!"%char)) && negb (is_digit c).

Definition safe (w : string) : bool := word_over safe_char w.

(** [node._c] is truthy: the node is frozen. *)
Definition frozen (o : object) : bool := truthy (js_get "_c" o).

(** The value [v] that a node may hold under the name [k] before
    [optimize], when the words are over the code units [ok] and [cn] is the
    next canonical id: the terminal flag, a canonical id below [cn], or,
    under a single code unit, an inline terminal or an edge. *)
Definition val_ok (ok : ascii → bool) (cn : Z) (k : string) (v : value)
  : Prop :=
  (k = "" ∧ v = VNum 1)
  ∨ (k = "_c" ∧ ∃ n, v = VNum n ∧ (1 ≤ n < cn)%Z)
  ∨ (∃ c, k = String c "" ∧ ok c = true
          ∧ (v = VNum 1 ∨ ∃ a, v = VObj a)).

Definition keys_ok (ok : ascii → bool) (t : Trie) : Prop :=
  (1 ≤ cNext t)%Z
  ∧ ∀ a o k, heap t !! a = Some o → k ∈ obj_keys o →
             val_ok ok (cNext t) k (js_get k o).

(** The nodes that [addTerminal(next, r)] creates below a new empty node
    at address [b], for [r] of at least one code unit. *)
Fixpoint chain (b : nat) (r : string) : list object :=
  match r with
  | EmptyString => []
  | String c EmptyString => [[(String c "", VNum 1)]]
  | String c r' => [(String c "", VObj (S b))] :: chain (S b) r'
  end.

(** The same below a node that starts as [o0]: its first node is [o0]
    with the first property of the chain added. *)
Definition chain_from (o0 : object) (b : nat) (r : string) : list object :=
  match r with
  | EmptyString => [obj_set "" (VNum 1) o0]
  | String c EmptyString => [obj_set (String c "") (VNum 1) o0]
  | String c r' => obj_set (String c "") (VObj (S b)) o0 :: chain (S b) r'
  end.

(** The builder after a write to node [D] and the creation of the nodes
    [fresh] by one call of [_insert] that counts a word. *)
Definition grow (D : nat) (oD' : object) (fresh : list object) (t : Trie)
  : Trie :=
  bump_wordCount (set_heap (<[D := oD']> (heap t) ++ fresh) t).

(** The new nodes of one [_insert]: each holds the terminal flag, inline
    terminals and at most one edge, to the node created next. *)
Definition fresh_ok (ok : ascii → bool) (len : nat) (fresh : list object)
  : Prop :=
  ∀ i o, fresh !! i = Some o →
    (∀ k, k ∈ obj_keys o → val_ok ok 1 k (js_get k o))
    ∧ (∀ k c, js_get k o = VObj c → c = len + S i ∧ S i < length fresh)
    ∧ (∀ k1 k2 c, js_get k1 o = VObj c → js_get k2 o = VObj c → k1 = k2).

(** The node [oD] that one [_insert] writes to becomes [oD']: its canonical
    id is untouched, and the only edge it can gain leads to the first new
    node. *)
Definition grow_ok (ok : ascii → bool) (len : nat) (oD oD' : object)
    (fresh : list object) : Prop :=
  (∀ k, k ∈ obj_keys oD' →
        (k ∈ obj_keys oD ∧ js_get k oD' = js_get k oD)
        ∨ val_ok ok 1 k (js_get k oD'))
  ∧ js_get "_c" oD' = js_get "_c" oD
  ∧ (∀ k c, js_get k oD' = VObj c →
            js_get k oD = VObj c ∨ (c = len ∧ fresh ≠ []))
  ∧ (∀ k1 k2, js_get k1 oD' = VObj len → js_get k2 oD' = VObj len → k1 = k2)
  ∧ fresh_ok ok len fresh.

(** ** The course of one [_insert]

    [_insert] follows the edges named by the code units of the word from
    node [a] down to a node [D], and there it writes; [l] lists the edges
    taken, each as the node it leaves and the code unit that names it. *)
Inductive descends (t : Trie)
  : nat → string → list (nat * ascii) → nat → string → Prop :=
  | descends_here a z : descends t a z [] a z
  | descends_edge a o c z child l D z' :
      heap t !! a = Some o →
      js_get (String c "") o = VObj child →
      descends t child z l D z' →
      descends t a (String c z) ((a, c) :: l) D z'.

(** The code units of the edges taken. *)
Fixpoint spelled (l : list (nat * ascii)) : string :=
  match l with
  | [] => ""
  | (_, c) :: l => String c (spelled l)
  end.

(** [isFragment] on a store whose property names are single code units,
    by recursion on the word. *)
Fixpoint accepts (t : Trie) (a : nat) (q : string) : bool :=
  match q with
  | EmptyString => isTerminal (node_at t a)
  | String c q' =>
      match js_get (String c "") (node_at t a) with
      | VObj child => accepts t child q'
      | VNum _ => bool_decide (q' = "")
      | _ => false
      end
  end.

(** What [_insert] does at the node [D] where its descent ends, [z] being
    what is left of the word: it sets the terminal flag, adds an inline
    terminal, hangs a chain of new nodes, finds the word already there, or
    splits an inline terminal. *)
Inductive step_at (t : Trie) (D : nat) : string → Trie → Prop :=
  | step_flag oD :
      heap t !! D = Some oD →
      step_at t D "" (grow D (obj_set "" (VNum 1) oD) [] t)
  | step_leaf oD c :
      heap t !! D = Some oD → String c "" ∉ obj_keys oD →
      step_at t D (String c "")
        (grow D (obj_set (String c "") (VNum 1) oD) [] t)
  | step_chain oD c z :
      heap t !! D = Some oD → String c "" ∉ obj_keys oD → z ≠ "" →
      step_at t D (String c z)
        (grow D (obj_set (String c "") (VObj (length (heap t))) oD)
           (chain (length (heap t)) z) t)
  | step_dup oD c :
      heap t !! D = Some oD → js_get (String c "") oD = VNum 1 →
      step_at t D (String c "") t
  | step_split oD c z :
      heap t !! D = Some oD → js_get (String c "") oD = VNum 1 → z ≠ "" →
      step_at t D (String c z)
        (grow D
           (obj_set (String c "") (VObj (length (heap t)))
              (obj_delete (String c "") oD))
           (chain_from [("", VNum 1)] (length (heap t)) z) t).

(** ** No cycle among the nodes that are not frozen

    A rank that decreases along every edge between two nodes that are not
    frozen bounds the depth of the recursion of [combineSuffixNode]. *)
Definition ranked (rank : nat → nat) (t : Trie) : Prop :=
  (∀ a, a < length (heap t) → rank a < length (heap t))
  ∧ ∀ a o k c oc,
      heap t !! a = Some o → frozen o = false →
      js_get k o = VObj c → heap t !! c = Some oc → frozen oc = false →
      rank c < rank a.

(** Every node of the registry is frozen. *)
Definition reg_frozen (t : Trie) : Prop :=
  ∀ sig a, suffixes t !! sig = Some a →
           ∃ o, heap t !! a = Some o ∧ frozen o = true.

(** What holds between two inserts of words over [ok], as far as the
    termination of the builder goes. *)
Definition term_inv (ok : ascii → bool) (t : Trie) : Prop :=
  builder_inv t ∧ keys_ok ok t ∧ reg_frozen t ∧ ∃ rank, ranked rank t.

(** What a call [combineSuffixNode(node)] that returns [r] guarantees for
    the termination of later calls: frozen nodes and nodes of higher rank
    are left alone, and [r] is frozen. *)
Definition combine_rank_post (ok : ascii → bool) (rank : nat → nat)
    (t : Trie) (node r : nat) (t' : Trie) : Prop :=
  builder_inv t' ∧ keys_ok ok t' ∧ reg_frozen t' ∧ ranked rank t'
  ∧ length (heap t') = length (heap t)
  ∧ (∃ o, heap t' !! r = Some o ∧ frozen o = true)
  ∧ (∀ a o, heap t !! a = Some o →
            frozen o = true ∨ rank node < rank a →
            heap t' !! a = Some o)
  ∧ (∀ o, heap t !! node = Some o → frozen o = true → t' = t ∧ r = node).

(** ** The DAWG between two inserts *)

(** The node at address [a] is frozen. *)
Definition frz (t : Trie) (a : nat) : bool := frozen (node_at t a).

(** What [combineSuffixNode] pushes for the property [prop] of a node
    whose children are combined already, as [join] prints it. *)
Definition sig_prop (t : Trie) (o : object) (prop : string) : list string :=
  match js_get prop o with
  | VObj c => [prop; to_string true (js_get "_c" (node_at t c))]
  | _ => [prop]
  end.

(** The signature of such a node. *)
Definition sig_of (t : Trie) (o : object) : string :=
  join "-" ((if isTerminal o then ["!"] else [])
            ++ flat_map (sig_prop t o) (nodeProps o false)).

Definition not_dash (c : ascii) : bool := negb (bool_decide (c = "-"%char)).

(** An element of a signature that [join] cannot run into its
    neighbours: not empty and without the separator. *)
Definition sig_elem (s : string) : Prop :=
  s ≠ "" ∧ word_over not_dash s = true.

(** The children of a frozen node are frozen; a node that is not frozen
    is held by at most one property; the registry files every node under
    its signature; no two frozen nodes have the same canonical id; every
    frozen node is in the registry; and the canonical id of a frozen node
    is above those of its children. *)
Definition dawg_inv (t : Trie) : Prop :=
  (∀ a k c, frz t a = true → js_get k (node_at t a) = VObj c →
            frz t c = true)
  ∧ (∀ a1 k1 a2 k2 c,
       js_get k1 (node_at t a1) = VObj c → js_get k2 (node_at t a2) = VObj c →
       frz t c = false → a1 = a2 ∧ k1 = k2)
  ∧ (∀ sig a, suffixes t !! sig = Some a → sig_of t (node_at t a) = sig)
  ∧ (∀ a b, frz t a = true → frz t b = true →
            js_get "_c" (node_at t a) = js_get "_c" (node_at t b) → a = b)
  ∧ (∀ a, frz t a = true →
          suffixes t !! sig_of t (node_at t a) = Some a)
  ∧ (∀ a k c n m, frz t a = true → js_get k (node_at t a) = VObj c →
                  js_get "_c" (node_at t a) = VNum n →
                  js_get "_c" (node_at t c) = VNum m → (m < n)%Z).

(** A property of a node ready for its signature: a safe code unit that
    holds an inline terminal or a frozen node. *)
Definition sig_ready_prop (t : Trie) (o : object) (p : string) : Prop :=
  ∃ c, p = String c "" ∧ safe_char c = true
       ∧ (js_get p o = VNum 1
          ∨ ∃ x n, js_get p o = VObj x ∧ frz t x = true
                   ∧ js_get "_c" (node_at t x) = VNum n ∧ (1 ≤ n)%Z).

Definition sig_ready (t : Trie) (o : object) : Prop :=
  (∀ k, k ∈ obj_keys o → val_ok safe_char (cNext t) k (js_get k o))
  ∧ (∀ k c, js_get k o = VObj c → frz t c = true).

(** A set [Q] of nodes that a call of [combineSuffixNode] cannot reach:
    none is frozen, and a node that is not frozen and holds one of them is
    one of them. *)
Definition protected (Q : nat → Prop) (t : Trie) : Prop :=
  (∀ a, Q a → frz t a = false)
  ∧ (∀ a k c, frz t a = false → js_get k (node_at t a) = VObj c →
              Q c → Q a).

(** Every edge of [t'] is an edge of [t] or leads to a frozen node. *)
Definition edges_kept (t t' : Trie) : Prop :=
  ∀ a k c, js_get k (node_at t' a) = VObj c →
           js_get k (node_at t a) = VObj c ∨ frz t' c = true.

(** The frozen nodes of [t] are what they were. *)
Definition frozen_kept (t t' : Trie) : Prop :=
  ∀ a, frz t a = true → node_at t' a = node_at t a.

(** What a call [combineSuffixNode(node)] that returns [r] guarantees for
    the words: every node accepts what it did, [r] accepts what [node]
    does and holds what [node] holds under every name but [_c], and the
    nodes of [Q] are left alone. *)
Definition combine_dawg_post (Q : nat → Prop) (t : Trie) (node r : nat)
    (t' : Trie) : Prop :=
  dawg_inv t' ∧ protected Q t'
  ∧ (∀ a, Q a → node_at t' a = node_at t a)
  ∧ (∀ a q, accepts t' a q = accepts t a q)
  ∧ (∀ q, accepts t' r q = accepts t' node q)
  ∧ edges_kept t t' ∧ frozen_kept t t'
  ∧ (∀ k, k ≠ "_c" → js_get k (node_at t' r) = js_get k (node_at t' node)).

(** ** The builder on words in ascending order *)

(** No node that a descent on [x] from [a] reaches is frozen. *)
Definition free_from (t : Trie) (a : nat) (x : string) : Prop :=
  ∀ l D z, descends t a x l D z → frz t D = false.

Definition spine_free (w : string) (t : Trie) : Prop :=
  free_from t (root t) w.

(** What holds between two inserts when the words [ws] inserted so far
    came in ascending order and are over the safe code units: the root
    accepts exactly [ws], no word of [ws] is above the last one, every
    other node accepts some word, and the path of the last word is not
    frozen. *)
Definition sorted_inv (ws : list string) (t : Trie) : Prop :=
  term_inv safe_char t ∧ root_free t ∧ dawg_inv t
  ∧ (∀ q, accepts t (root t) q = bool_decide (q ∈ ws))
  ∧ (∀ w, w ∈ ws → String.leb w (lastWord t) = true)
  ∧ (∀ a, a < length (heap t) → a ≠ root t → ∃ q, accepts t a q = true)
  ∧ spine_free (lastWord t) t
  ∧ safe (lastWord t) = true.

(** The nodes that a descent on the last word from the root reaches. *)
Definition on_spine (t : Trie) (a : nat) : Prop :=
  ∃ l z, descends t (root t) (lastWord t) l a z.

(** Every node but the root has a child property or an inline terminal. *)
Definition nonleaf (t : Trie) : Prop :=
  ∀ a o, heap t !! a = Some o → a ≠ root t →
         ∃ k, label k ∧ k ∈ obj_keys o.

(** ** In-degrees node by node *)

(** The number of child properties of [o] that hold node [a]. *)
Definition holds (o : object) (a : nat) : nat :=
  length (filter (λ p, js_get p o = VObj a) (nodeProps o true)).

(** The child properties of the nodes of [l] that hold node [a]. *)
Definition count_into (t : Trie) (l : list nat) (a : nat) : nat :=
  sum_list_with (λ x, holds (node_at t x) a) l.

(** The child properties of the stamped nodes that hold node [a]. *)
Definition visited_into (t : Trie) (a : nat) : nat :=
  sum_list_with (λ o, if is_visited (vCur t) o then holds o a else 0)
                (heap t).

(** What a call [countDegree(n)] does to the in-degree field of each
    node [a]: it grows by the child properties of the newly stamped nodes
    that hold [a], and by one more on [n] itself. *)
Definition into_post (n : nat) (t t' : Trie) : Prop :=
  ∀ a, (degree (node_at t' a) - Z.of_nat (visited_into t' a)
        = degree (node_at t a) - Z.of_nat (visited_into t a)
          + (if decide (a = n) then 1 else 0))%Z.

(** ** The node that [insert] freezes, by the edges of the store *)




(** ** The shape of a hoisted child, by its property names *)

(** The child as it was when it was hoisted: [g], the name that [_g]
    holds, is a property of the child, it is neither empty nor begins with
    ['_'], and every other property name of the child is empty or begins
    with ['_'] (such names are not counted, whatever they hold); the child
    has no terminal flag; and its in-degree field is 1 or [g] has length
    1. *)
Definition hoist_single (h : hoist) : Prop :=
  ∃ g, js_get "_g" (h_shape h) = VStr g
       ∧ nodeProps (h_shape h) false = [g]
       ∧ g ∈ obj_keys (h_shape h) ∧ g ≠ "" ∧ not_underscore g = true
       ∧ (∀ k, k ∈ obj_keys (h_shape h) →
               k = g ∨ k = "" ∨ not_underscore k = false)
       ∧ isTerminal (h_shape h) = false
       ∧ (js_get "_d" (h_shape h) = VNum 1 ∨ String.length g = 1).


(** * Strings *)

Lemma str_app_cons c s1 s2 : String c s1 +:+ s2 = String c (s1 +:+ s2).
Proof. reflexivity. Qed.

Lemma str_app_nil_l s : "" +:+ s = s.
Proof. reflexivity. Qed.

Lemma str_app_nil_r s : s +:+ "" = s.
Proof. induction s as [|c s IH]; [done|]. by rewrite str_app_cons, IH. Qed.

Lemma str_app_assoc s1 s2 s3 : (s1 +:+ s2) +:+ s3 = s1 +:+ (s2 +:+ s3).
Proof. induction s1 as [|c s1 IH]; [done|]. by rewrite !str_app_cons, IH. Qed.

Lemma str_length_app s1 s2 :
  String.length (s1 +:+ s2) = String.length s1 + String.length s2.
Proof. induction s1 as [|c s1 IH]; [done|]. rewrite str_app_cons. simpl. by rewrite IH. Qed.

Lemma str_length_zero s : String.length s = 0 ↔ s = "".
Proof. destruct s; naive_solver. Qed.

Lemma str_app_eq_nil s1 s2 : s1 +:+ s2 = "" → s1 = "" ∧ s2 = "".
Proof. destruct s1; [done|]. rewrite str_app_cons. done. Qed.

Lemma str_app_inv_head s s1 s2 : s +:+ s1 = s +:+ s2 → s1 = s2.
Proof. induction s as [|c s IH]; [done|]. rewrite !str_app_cons. intros [=]. auto. Qed.

Lemma slice_to_app p s : slice_to (String.length p) (p +:+ s) = p.
Proof. induction p as [|c p IH]; [done|]. rewrite str_app_cons. simpl. by rewrite IH. Qed.

Lemma slice_from_app p s : slice_from (String.length p) (p +:+ s) = s.
Proof. induction p as [|c p IH]; [done|]. rewrite str_app_cons. simpl. by rewrite IH. Qed.

Lemma slice_to_from n s : slice_to n s +:+ slice_from n s = s.
Proof.
  revert s. induction n as [|n IH]; intros [|c s]; simpl; try done.
  by rewrite str_app_cons, IH.
Qed.

Lemma length_slice_from n s :
  String.length (slice_from n s) = String.length s - n.
Proof. revert s. induction n as [|n IH]; intros [|c s]; simpl; auto with lia. Qed.

Lemma slice_from_0 s : slice_from 0 s = s.
Proof. by destruct s. Qed.

Lemma starts_spec p w : starts p w = true ↔ ∃ s, w = p +:+ s.
Proof.
  unfold starts. rewrite bool_decide_eq_true. split.
  - intros H. exists (slice_from (String.length p) w).
    rewrite H at 1. by rewrite slice_to_from.
  - intros [s ->]. by rewrite slice_to_app.
Qed.

Lemma starts_slice p w :
  starts p w = true → w = p +:+ slice_from (String.length p) w.
Proof. intros [s ->]%starts_spec. by rewrite slice_from_app. Qed.

Lemma starts_app p s : starts p (p +:+ s) = true.
Proof. apply starts_spec. eauto. Qed.

Lemma starts_nil_r p : starts p "" = true → p = "".
Proof. intros [s H]%starts_spec. symmetry in H. by apply str_app_eq_nil in H as [? ?]. Qed.

Lemma first_char_app p s : p ≠ "" → first_char (p +:+ s) = first_char p.
Proof. by destruct p. Qed.

Lemma starts_first_char p w :
  p ≠ "" → starts p w = true → first_char w = first_char p.
Proof. intros Hp [s ->]%starts_spec. by apply first_char_app. Qed.

Lemma not_underscore_first k1 k2 :
  first_char k1 = first_char k2 → not_underscore k1 = not_underscore k2.
Proof. destruct k1, k2; simpl; intros [=]; by subst. Qed.

Lemma label_app p s : label p → label (p +:+ s).
Proof.
  intros [Hne Hu]. split.
  - intros [? ?]%str_app_eq_nil. done.
  - rewrite <- Hu. apply not_underscore_first. by apply first_char_app.
Qed.

Lemma commonPrefix_starts_l w p : starts (commonPrefix w p) w = true.
Proof.
  apply starts_spec. revert p. induction w as [|a w IH]; intros [|b p]; simpl; eauto.
  case_decide; [|eauto]. destruct (IH p) as [s Hs]. exists s.
  rewrite str_app_cons. by rewrite <- Hs.
Qed.

Lemma commonPrefix_starts_r w p : starts (commonPrefix w p) p = true.
Proof.
  apply starts_spec. revert p. induction w as [|a w IH]; intros [|b p]; simpl; eauto.
  case_decide; [|eauto]. subst. destruct (IH p) as [s Hs]. exists s.
  rewrite str_app_cons. by rewrite <- Hs.
Qed.

Lemma commonPrefix_nil w p :
  String.length (commonPrefix w p) = 0 →
  w = "" ∨ p = "" ∨ first_char w ≠ first_char p.
Proof.
  destruct w as [|a w], p as [|b p]; simpl; auto.
  case_decide; simpl; [done|]. intros _. right; right. congruence.
Qed.

Lemma commonPrefix_first w p :
  String.length (commonPrefix w p) ≠ 0 →
  first_char (commonPrefix w p) = first_char w
  ∧ first_char (commonPrefix w p) = first_char p.
Proof.
  destruct w as [|a w], p as [|b p]; simpl; try done.
  case_decide; simpl; [|done]. by subst.
Qed.

(** The common prefix is the longest one: what follows it in the two
    strings does not begin with the same code unit. *)
Lemma commonPrefix_longest w p :
  let n := String.length (commonPrefix w p) in
  first_char (slice_from n w) = first_char (slice_from n p) →
  slice_from n w = "" ∧ slice_from n p = "".
Proof.
  revert p. induction w as [|a w IH]; intros [|b p]; simpl; try done.
  case_decide; simpl; [apply IH|]. intros [=]. done.
Qed.

Lemma commonPrefix_self w : commonPrefix w w = w.
Proof. induction w as [|a w IH]; simpl; [done|]. case_decide; [|done]. by rewrite IH. Qed.

Lemma commonPrefix_eq_r w p : commonPrefix w p = p ↔ starts p w = true.
Proof.
  split.
  - intros <-. apply commonPrefix_starts_l.
  - intros [s ->]%starts_spec. induction p as [|a p IH].
    + rewrite str_app_nil_l. by destruct s.
    + rewrite str_app_cons. simpl. case_decide; [|done]. by rewrite IH.
Qed.

(** * Objects *)

Lemma obj_keys_cons k v o : obj_keys ((k, v) :: o) = k :: obj_keys o.
Proof. reflexivity. Qed.

Lemma obj_has_keys k o : obj_has k o = true ↔ k ∈ obj_keys o.
Proof.
  induction o as [|[k' v] o IH].
  - simpl. split; [done|]. by intros ?%elem_of_nil.
  - rewrite obj_keys_cons, elem_of_cons. simpl. case_decide; [tauto|].
    rewrite IH. tauto.
Qed.

Lemma js_get_not_key k o : k ∉ obj_keys o → js_get k o = VUndef.
Proof.
  induction o as [|[k' v] o IH]; [done|].
  rewrite obj_keys_cons, not_elem_of_cons. simpl. intros [? ?].
  case_decide; [done|]. auto.
Qed.

Lemma js_get_defined_key k o : js_get k o ≠ VUndef → k ∈ obj_keys o.
Proof.
  intros H. destruct (decide (k ∈ obj_keys o)) as [|Hn]; [done|].
  by apply js_get_not_key in Hn.
Qed.

Lemma keys_update k v o : obj_keys (obj_update k v o) = obj_keys o.
Proof.
  induction o as [|[k' v'] o IH]; [done|]. simpl.
  case_decide; rewrite !obj_keys_cons; [by subst|]. by rewrite IH.
Qed.

Lemma js_get_update k v o k' :
  k ∈ obj_keys o →
  js_get k' (obj_update k v o) = if decide (k' = k) then v else js_get k' o.
Proof.
  induction o as [|[k0 v0] o IH].
  - by intros ?%elem_of_nil.
  - rewrite obj_keys_cons, elem_of_cons. simpl.
    intros Hk. destruct (decide (k = k0)) as [->|Hne]; simpl.
    + repeat case_decide; done.
    + destruct Hk as [|Hk]; [done|]. specialize (IH Hk).
      repeat case_decide; subst; done.
Qed.

Lemma keys_add_index n k v o : obj_keys (obj_add_index n k v o) ≡ₚ k :: obj_keys o.
Proof.
  induction o as [|[k' v'] o IH]; [done|]. simpl.
  destruct (array_index k'); [|done]. destruct (_ <? _)%N; [|done].
  rewrite !obj_keys_cons, IH. apply Permutation_swap.
Qed.

Lemma js_get_add_index n k v o k' :
  k ∉ obj_keys o →
  js_get k' (obj_add_index n k v o) = if decide (k' = k) then v else js_get k' o.
Proof.
  induction o as [|[k0 v0] o IH]; [done|].
  rewrite obj_keys_cons, not_elem_of_cons. intros [Hne Hk]. specialize (IH Hk).
  simpl. destruct (array_index k0); simpl; [|done].
  destruct (_ <? _)%N; simpl; [|done].
  rewrite IH. repeat case_decide; subst; done.
Qed.

Lemma js_get_snoc k v o k' :
  k ∉ obj_keys o →
  js_get k' (o ++ [(k, v)]) = if decide (k' = k) then v else js_get k' o.
Proof.
  induction o as [|[k0 v0] o IH]; [done|].
  rewrite obj_keys_cons, not_elem_of_cons. intros [Hne Hk]. specialize (IH Hk).
  simpl. rewrite IH. repeat case_decide; subst; done.
Qed.

Lemma js_get_set k v o k' :
  js_get k' (obj_set k v o) = if decide (k' = k) then v else js_get k' o.
Proof.
  unfold obj_set. destruct (obj_has k o) eqn:Hh.
  - apply js_get_update. by apply obj_has_keys.
  - assert (k ∉ obj_keys o) by (rewrite <- obj_has_keys; congruence).
    destruct (array_index k); [by apply js_get_add_index|by apply js_get_snoc].
Qed.

Lemma js_get_set_eq k v o : js_get k (obj_set k v o) = v.
Proof. rewrite js_get_set. by case_decide. Qed.

Lemma js_get_set_ne k v o k' : k' ≠ k → js_get k' (obj_set k v o) = js_get k' o.
Proof. intros. rewrite js_get_set. by case_decide. Qed.

Lemma keys_set_has k v o :
  k ∈ obj_keys o → obj_keys (obj_set k v o) = obj_keys o.
Proof.
  intros Hk. unfold obj_set. apply obj_has_keys in Hk as ->. apply keys_update.
Qed.

Lemma keys_set_new k v o :
  k ∉ obj_keys o → obj_keys (obj_set k v o) ≡ₚ k :: obj_keys o.
Proof.
  intros Hk. unfold obj_set. rewrite <- obj_has_keys in Hk.
  destruct (obj_has k o); [done|].
  destruct (array_index k); [apply keys_add_index|].
  unfold obj_keys. rewrite fmap_app. simpl. by rewrite Permutation_app_comm.
Qed.

Lemma elem_of_keys_set k v o k' :
  k' ∈ obj_keys (obj_set k v o) ↔ k' = k ∨ k' ∈ obj_keys o.
Proof.
  destruct (decide (k ∈ obj_keys o)) as [Hk|Hk].
  - rewrite keys_set_has by done. naive_solver.
  - rewrite keys_set_new by done. by rewrite elem_of_cons.
Qed.

Lemma NoDup_keys_set k v o : NoDup (obj_keys o) → NoDup (obj_keys (obj_set k v o)).
Proof.
  intros Hnd. destruct (decide (k ∈ obj_keys o)) as [Hk|Hk].
  - by rewrite keys_set_has.
  - rewrite keys_set_new by done. by constructor.
Qed.

Lemma elem_of_keys_delete k o k' :
  k' ∈ obj_keys (obj_delete k o) ↔ k' ≠ k ∧ k' ∈ obj_keys o.
Proof.
  induction o as [|[k0 v0] o IH].
  - simpl. split; [by intros ?%elem_of_nil|]. by intros [_ ?%elem_of_nil].
  - simpl. case_decide; rewrite ?obj_keys_cons, ?elem_of_cons, IH; naive_solver.
Qed.

Lemma NoDup_keys_delete k o : NoDup (obj_keys o) → NoDup (obj_keys (obj_delete k o)).
Proof.
  induction o as [|[k0 v0] o IH]; [done|].
  rewrite obj_keys_cons, NoDup_cons. intros [Hn Hnd]. simpl. case_decide; [auto|].
  rewrite obj_keys_cons. apply NoDup_cons. split; [|auto].
  rewrite elem_of_keys_delete. naive_solver.
Qed.

Lemma js_get_delete k o k' :
  js_get k' (obj_delete k o) = if decide (k' = k) then VUndef else js_get k' o.
Proof.
  induction o as [|[k0 v0] o IH]; simpl.
  - by case_decide.
  - destruct (decide (k = k0)) as [->|Hne]; simpl; rewrite ?IH;
      repeat case_decide; subst; done.
Qed.

(** * [sort] and [nodeProps] *)

Lemma sort_insert_perm p l : sort_insert p l ≡ₚ p :: l.
Proof.
  induction l as [|q l IH]; simpl; [done|].
  case_match; [done|]. rewrite IH. apply Permutation_swap.
Qed.

Lemma sort_perm l : sort l ≡ₚ l.
Proof.
  induction l as [|p l IH]; simpl; [done|].
  by rewrite sort_insert_perm, IH.
Qed.

Lemma elem_of_nodeProps k o b :
  k ∈ nodeProps o b ↔
  k ∈ obj_keys o ∧ label k ∧ (b = true → is_object (js_get k o) = true).
Proof.
  unfold nodeProps. rewrite sort_perm, list_elem_of_filter. unfold label. naive_solver.
Qed.

Lemma NoDup_nodeProps o b : NoDup (obj_keys o) → NoDup (nodeProps o b).
Proof. intros. unfold nodeProps. rewrite sort_perm. by apply NoDup_filter. Qed.

Lemma elem_of_labels k o : k ∈ labels o ↔ k ∈ obj_keys o ∧ label k.
Proof. unfold labels. rewrite list_elem_of_filter. naive_solver. Qed.

Lemma nodeProps_labels o : nodeProps o false ≡ₚ labels o.
Proof.
  unfold nodeProps, labels. rewrite sort_perm.
  induction (obj_keys o) as [|k l IH]; [done|].
  rewrite !filter_cons. unfold label.
  repeat case_decide; rewrite ?IH; try done; naive_solver.
Qed.

Lemma prefix_free_spec o :
  prefix_free o ↔
  ∀ k1 k2, k1 ∈ obj_keys o → k2 ∈ obj_keys o → label k1 → label k2 →
           first_char k1 = first_char k2 → k1 = k2.
Proof.
  unfold prefix_free. rewrite Forall_forall. split.
  - intros H k1 k2 H1 H2 L1 L2. specialize (H k1). rewrite Forall_forall in H.
    apply H; by apply elem_of_labels.
  - intros H k1 [??]%elem_of_labels. apply Forall_forall.
    intros k2 [??]%elem_of_labels. by apply H.
Qed.


(** * The store *)

Lemma set_prop_inv node k v t t' :
  set_prop node k v t = Some t' →
  ∃ o, heap t !! node = Some o ∧ t' = put node (obj_set k v o) t.
Proof. unfold set_prop. intros (o & Ho & [= <-])%bind_Some. eauto. Qed.

Lemma delete_prop_inv node k t t' :
  delete_prop node k t = Some t' →
  ∃ o, heap t !! node = Some o ∧ t' = put node (obj_delete k o) t.
Proof. unfold delete_prop. intros (o & Ho & [= <-])%bind_Some. eauto. Qed.

Lemma length_put node o t : length (heap (put node o t)) = length (heap t).
Proof. apply length_insert. Qed.

Lemma lookup_put_eq node o t :
  node < length (heap t) → heap (put node o t) !! node = Some o.
Proof. apply list_lookup_insert_eq. Qed.

Lemma lookup_put_ne node o t a :
  a ≠ node → heap (put node o t) !! a = heap t !! a.
Proof. intros. by apply list_lookup_insert_ne. Qed.

Lemma lookup_put node o o' t a :
  heap (put node o t) !! a = Some o' →
  (a = node ∧ o' = o) ∨ (a ≠ node ∧ heap t !! a = Some o').
Proof.
  unfold put. simpl. rewrite list_lookup_insert_Some. naive_solver.
Qed.

(** * Well-formed nodes under the writes of the builder *)

Lemma obj_closed_mono n m o : n ≤ m → obj_closed n o → obj_closed m o.
Proof. intros Hle Hc k a Hk. specialize (Hc k a Hk). lia. Qed.

Lemma node_wf_mono n m o : n ≤ m → node_wf n o → node_wf m o.
Proof. intros Hle (?&?&?). repeat split; eauto using obj_closed_mono. Qed.

Lemma node_wf_empty n : node_wf n [].
Proof.
  repeat split.
  - constructor.
  - apply prefix_free_spec. by intros k1 k2 ?%elem_of_nil.
  - by intros k a.
Qed.

(** Writing a property keeps the node well formed when no other label
    begins with the same code unit. *)
Lemma node_wf_set n o k v :
  node_wf n o → value_closed n v →
  (label k → ∀ k', k' ∈ obj_keys o → label k' →
             first_char k' = first_char k → k' = k) →
  node_wf n (obj_set k v o).
Proof.
  intros (Hnd & Hpf & Hcl) Hv Hk. repeat split.
  - by apply NoDup_keys_set.
  - rewrite prefix_free_spec in Hpf |- *.
    intros k1 k2 [->|H1]%elem_of_keys_set [->|H2]%elem_of_keys_set L1 L2 Hf; auto.
    symmetry. apply Hk; auto.
  - intros k' a. rewrite js_get_set. case_decide; [|apply Hcl].
    intros ->. exact Hv.
Qed.

Lemma node_wf_delete n o k : node_wf n o → node_wf n (obj_delete k o).
Proof.
  intros (Hnd & Hpf & Hcl). repeat split.
  - by apply NoDup_keys_delete.
  - rewrite prefix_free_spec in Hpf |- *.
    intros k1 k2 [_ H1]%elem_of_keys_delete [_ H2]%elem_of_keys_delete. auto.
  - intros k' a. rewrite js_get_delete. case_decide; [done|apply Hcl].
Qed.

Lemma node_wf_get n o k a : node_wf n o → js_get k o = VObj a → a < n.
Proof. intros (_ & _ & Hcl). apply Hcl. Qed.

Lemma keys_small_set o k v :
  keys_small o → ((String.length k ≤ 1)%nat ∨ k = "_c") → keys_small (obj_set k v o).
Proof. intros Ho Hk k' [->|?]%elem_of_keys_set; auto. Qed.

Lemma keys_small_delete o k : keys_small o → keys_small (obj_delete k o).
Proof. intros Ho k' [_ ?]%elem_of_keys_delete. auto. Qed.

Lemma keys_small_empty : keys_small [].
Proof. by intros k ?%elem_of_nil. Qed.

(** A property name that is present keeps the labels as they are. *)
Lemma node_wf_set_present n o k v :
  node_wf n o → value_closed n v → k ∈ obj_keys o → node_wf n (obj_set k v o).
Proof.
  intros Hwf Hv Hk. apply node_wf_set; [done..|].
  intros Lk k' Hk' Lk' Hf. destruct Hwf as (_ & Hpf & _).
  rewrite prefix_free_spec in Hpf. by apply Hpf.
Qed.

(** A name outside the labels never disturbs them. *)
Lemma node_wf_set_bookkeeping n o k v :
  node_wf n o → value_closed n v → ¬ label k → node_wf n (obj_set k v o).
Proof. intros Hwf Hv Hk. apply node_wf_set; [done..|]. by intros ?. Qed.

(** * The invariant of the builder under its primitive steps *)

Lemma same_meta_refl t : same_meta t t.
Proof. by repeat split. Qed.

Lemma same_meta_trans t1 t2 t3 : same_meta t1 t2 → same_meta t2 t3 → same_meta t1 t3.
Proof. unfold same_meta. intros (?&?&?&?&?) (?&?&?&?&?). repeat split; congruence. Qed.

Lemma same_meta_put node o t : same_meta t (put node o t).
Proof. by repeat split. Qed.

Lemma builder_inv_put node o o' t :
  builder_inv t → heap t !! node = Some o →
  node_wf (length (heap t)) o' → keys_small o' →
  builder_inv (put node o' t).
Proof.
  intros ([Hwf Hroot] & Hsm & Hsuf) Hnode Ho' Hs'.
  split; [split|split]; rewrite ?length_put; try done.
  - intros a oa [[-> ->]|[_ Ha]]%lookup_put; eauto.
  - intros a oa [[-> ->]|[_ Ha]]%lookup_put; eauto.
Qed.

Lemma builder_inv_alloc t :
  builder_inv t → builder_inv (alloc t).2.
Proof.
  intros ([Hwf Hroot] & Hsm & Hsuf). unfold alloc. simpl.
  split; [split|split]; simpl.
  - intros a o [[Hlt Ha]|[-> <-]]%lookup_snoc_Some.
    + eapply node_wf_mono; [|eauto]. rewrite length_app. lia.
    + apply node_wf_empty.
  - rewrite length_app. lia.
  - intros a o [[Hlt Ha]|[-> <-]]%lookup_snoc_Some; eauto using keys_small_empty.
  - intros sig a Ha. apply Hsuf in Ha. rewrite length_app. lia.
Qed.

Lemma lookup_alloc_old t a :
  a < length (heap t) → heap (alloc t).2 !! a = heap t !! a.
Proof. intros. unfold alloc. simpl. by apply lookup_app_l. Qed.

Lemma lookup_alloc_new t : heap (alloc t).2 !! length (heap t) = Some [].
Proof. unfold alloc. simpl. by apply list_lookup_middle. Qed.

Lemma length_alloc t : length (heap (alloc t).2) = S (length (heap t)).
Proof. unfold alloc. simpl. rewrite length_app. simpl. lia. Qed.

Lemma builder_inv_wf t a o :
  builder_inv t → heap t !! a = Some o → node_wf (length (heap t)) o ∧ keys_small o.
Proof. intros ([Hwf _] & Hsm & _) Ha. eauto. Qed.

Lemma builder_inv_bump t : builder_inv t → builder_inv (bump_wordCount t).
Proof. done. Qed.

Lemma builder_inv_lastWord w t : builder_inv t → builder_inv (set_lastWord w t).
Proof. done. Qed.

(** [addTerminal] under a node none of whose labels begins like [prop]. *)
Lemma addTerminal_inv prop : ∀ node t t' o,
  builder_inv t → heap t !! node = Some o →
  (∀ k, k ∈ obj_keys o → label k → first_char k ≠ first_char prop) →
  addTerminal node prop t = Some t' →
  builder_inv t' ∧ length (heap t) ≤ length (heap t') ∧ same_meta t t'
  ∧ wordCount t' = wordCount t
  ∧ (∀ a, a ≠ node → a < length (heap t) → heap t' !! a = heap t !! a).
Proof.
  induction prop as [|c rest IH]; intros node t t' o Hinv Hnode Hfresh Hadd.
  { simpl in Hadd. apply set_prop_inv in Hadd as (o' & Ho' & ->).
    assert (o' = o) as -> by congruence.
    destruct (builder_inv_wf _ _ _ Hinv Hnode) as [Hwf Hsm].
    split; [|split; [|split; [|split]]]; rewrite ?length_put; try done.
    - eapply builder_inv_put; eauto.
      + apply node_wf_set; [done..|]. by intros [? _].
      + apply keys_small_set; [done|]. left. simpl. lia.
    - intros a Ha _. by apply lookup_put_ne. }
  destruct rest as [|c' rest'].
  { simpl in Hadd. apply set_prop_inv in Hadd as (o' & Ho' & ->).
    assert (o' = o) as -> by congruence.
    destruct (builder_inv_wf _ _ _ Hinv Hnode) as [Hwf Hsm].
    split; [|split; [|split; [|split]]]; rewrite ?length_put; try done.
    - eapply builder_inv_put; eauto.
      + apply node_wf_set; [done..|]. intros _ k' Hk' Lk' Hf.
        by destruct (Hfresh k' Hk' Lk').
      + apply keys_small_set; [done|]. left. simpl. lia.
    - intros a Ha _. by apply lookup_put_ne. }
  remember (String c' rest') as rest eqn:Hrest.
  assert (Hnode_lt : node < length (heap t)) by (by eapply lookup_lt_Some).
  assert (addTerminal node (String c rest) t =
          (let '(next, t) := alloc t in
           t ← set_prop node (String c "") (VObj next) t;
           addTerminal next rest t)) as Heq by (by subst rest).
  rewrite Heq in Hadd. clear Heq. unfold alloc in Hadd at 1.
  change (set_heap (heap t ++ [[]]) t) with (alloc t).2 in Hadd.
  apply bind_Some in Hadd as (t2 & Hset & Hadd).
  apply set_prop_inv in Hset as (o' & Ho' & ->).
  rewrite lookup_alloc_old in Ho' by done.
  assert (o' = o) as -> by congruence.
  pose proof (builder_inv_alloc _ Hinv) as Hinv1.
  destruct (builder_inv_wf _ _ _ Hinv Hnode) as [Hwf Hsm].
  set (t1 := (alloc t).2) in *.
  assert (Hn1 : heap t1 !! node = Some o) by (unfold t1; by rewrite lookup_alloc_old).
  assert (Hinv2 : builder_inv (put node (obj_set (String c "") (VObj (length (heap t))) o) t1)).
  { eapply builder_inv_put; eauto.
    - apply node_wf_set.
      + eapply node_wf_mono; [|done]. unfold t1. rewrite length_alloc. lia.
      + unfold value_closed, t1. rewrite length_alloc. lia.
      + intros _ k' Hk' Lk' Hf. by destruct (Hfresh k' Hk' Lk').
    - apply keys_small_set; [done|]. left. simpl. lia. }
  eapply IH in Hadd as (Hinv' & Hlen & Hmeta & Hwc & Hframe); [|done| |].
  - split; [done|]. rewrite length_put in Hlen. unfold t1 in Hlen.
    rewrite length_alloc in Hlen.
    split; [lia|]. split; [|split].
    + eapply same_meta_trans; [|exact Hmeta]. by repeat split.
    + by rewrite Hwc.
    + intros a Ha Hlt. rewrite Hframe.
      * rewrite lookup_put_ne by done. unfold t1. by rewrite lookup_alloc_old.
      * lia.
      * rewrite length_put. unfold t1. rewrite length_alloc. lia.
  - rewrite lookup_put_ne by lia. unfold t1. apply lookup_alloc_new.
  - by intros k ?%elem_of_nil.
Qed.

Lemma starts_length p w : starts p w = true → String.length p ≤ String.length w.
Proof. intros [s ->]%starts_spec. rewrite str_length_app. lia. Qed.

Lemma starts_same_length p w :
  starts p w = true → String.length p = String.length w → p = w.
Proof.
  intros [s ->]%starts_spec. rewrite str_length_app. intros Hl.
  assert (s = "") as -> by (apply str_length_zero; lia). by rewrite str_app_nil_r.
Qed.

Lemma label_first_char k1 k2 :
  first_char k1 = first_char k2 → k2 ≠ "" → label k1 → label k2.
Proof.
  intros Hf Hne [_ Hu]. split; [done|]. rewrite <- Hu. symmetry.
  by apply not_underscore_first.
Qed.

Lemma obj_set_empty k v : obj_set k v [] = [(k, v)].
Proof. unfold obj_set. simpl. by destruct (array_index k). Qed.

(** The split of a property at the common prefix. *)
Lemma insert_split_inv word node prop t t' o :
  builder_inv t → heap t !! node = Some o → prop ∈ obj_keys o →
  String.length (commonPrefix word prop) ≠ 0 →
  insert_split word node prop (commonPrefix word prop) (js_get prop o) t = Some t' →
  builder_inv t' ∧ length (heap t) ≤ length (heap t') ∧ same_meta t t'.
Proof.
  intros Hinv Hnode Hprop Hne Hsplit.
  set (prefix := commonPrefix word prop) in *.
  set (n := String.length prefix) in *.
  assert (Hnode_lt : node < length (heap t)) by (by eapply lookup_lt_Some).
  destruct (builder_inv_wf _ _ _ Hinv Hnode) as [Hwf Hsm].
  pose proof (commonPrefix_starts_r word prop) as Hsp. fold prefix in Hsp.
  destruct (commonPrefix_first word prop Hne) as [Hfw Hfp]. fold prefix in Hfw, Hfp.
  assert (Hprop_ne : prop ≠ "").
  { intros ->. apply starts_nil_r in Hsp. apply Hne. unfold n. by rewrite Hsp. }
  unfold insert_split in Hsplit. unfold alloc in Hsplit at 1.
  change (set_heap (heap t ++ [[]]) t) with (alloc t).2 in Hsplit.
  set (next := length (heap t)) in *. set (t1 := (alloc t).2) in *.
  pose proof (builder_inv_alloc _ Hinv) as Hinv1. fold t1 in Hinv1.
  assert (Hlen1 : length (heap t1) = S next) by apply length_alloc.
  apply bind_Some in Hsplit as (t2 & Hset & Hsplit).
  apply set_prop_inv in Hset as (o0 & Ho0 & ->).
  assert (o0 = []) as ->.
  { unfold t1, next in Ho0. rewrite lookup_alloc_new in Ho0. congruence. }
  rewrite obj_set_empty in *.
  set (k1 := slice_from n prop) in *. set (v := js_get prop o) in *.
  assert (Hinv2 : builder_inv (put next [(k1, v)] t1)).
  { eapply builder_inv_put; eauto.
    - rewrite <- obj_set_empty. apply node_wf_set.
      + apply node_wf_empty.
      + destruct v as [| | |a] eqn:Hv; try done. unfold value_closed.
        apply (node_wf_get _ _ _ _ Hwf) in Hv. lia.
      + by intros _ k' ?%elem_of_nil.
    - rewrite <- obj_set_empty. apply keys_small_set; [apply keys_small_empty|].
      left. unfold k1. rewrite length_slice_from.
      destruct (Hsm _ Hprop) as [?| ->]; [lia|]. simpl. lia. }
  apply bind_Some in Hsplit as (t3 & Hadd & Hsplit).
  eapply addTerminal_inv in Hadd as (Hinv3 & Hlen3 & Hmeta3 & _ & Hframe3);
    [|exact Hinv2|by apply lookup_put_eq; lia|].
  2:{ intros k Hk Lk Hf. rewrite obj_keys_cons in Hk.
      apply elem_of_cons in Hk as [->|Hk]; [|by apply elem_of_nil in Hk].
      destruct Lk as [Lk _]. apply Lk. unfold k1.
      by apply (commonPrefix_longest word prop). }
  rewrite length_put, Hlen1 in Hlen3.
  assert (Hn3 : heap t3 !! node = Some o).
  { rewrite Hframe3; [|lia|rewrite length_put; lia].
    rewrite lookup_put_ne by lia. unfold t1. by rewrite lookup_alloc_old. }
  apply bind_Some in Hsplit as (t4 & Hdel & Hsplit).
  apply delete_prop_inv in Hdel as (o3 & Ho3 & ->).
  assert (o3 = o) as -> by congruence.
  destruct (builder_inv_wf _ _ _ Hinv3 Hn3) as [Hwf3 Hsm3].
  assert (Hinv4 : builder_inv (put node (obj_delete prop o) t3)).
  { eapply builder_inv_put; eauto using node_wf_delete, keys_small_delete. }
  apply bind_Some in Hsplit as (t5 & Hset & [= <-]).
  apply set_prop_inv in Hset as (o4 & Ho4 & ->).
  rewrite lookup_put_eq in Ho4 by (eapply lookup_lt_Some; eauto).
  injection Ho4 as <-.
  split; [|split].
  - apply builder_inv_bump. eapply builder_inv_put; eauto.
    + apply lookup_put_eq. by eapply lookup_lt_Some.
    + rewrite length_put. apply node_wf_set.
      * by apply node_wf_delete.
      * unfold value_closed. lia.
      * intros Lp k' [Hk' Hin]%elem_of_keys_delete Lk' Hf. exfalso. apply Hk'.
        destruct Hwf as (_ & Hpf & _). rewrite prefix_free_spec in Hpf.
        apply Hpf; auto.
        -- eapply label_first_char; [|done|exact Lp]. done.
        -- congruence.
    + apply keys_small_set; [by apply keys_small_delete|].
      pose proof (starts_length _ _ Hsp) as Hl.
      destruct (Hsm _ Hprop) as [?|Hc]; [left; lia|].
      destruct (decide (String.length prefix = String.length prop)) as [He|He].
      * right. apply starts_same_length in He; [congruence|done].
      * left. rewrite Hc in Hl, He. simpl in Hl, He. lia.
  - simpl. rewrite !length_insert. lia.
  - eapply same_meta_trans; [|eapply same_meta_trans; [exact Hmeta3|]]; by repeat split.
Qed.

Lemma label_first_char_Some k : label k → ∃ c, first_char k = Some c.
Proof. intros [Hne _]. destruct k; [done|]. simpl. eauto. Qed.

Lemma insert_loop_inv rec word node o keys t t' :
  (∀ w n t t', builder_inv t → rec w n t = Some t' →
     builder_inv t' ∧ length (heap t) ≤ length (heap t') ∧ same_meta t t') →
  builder_inv t → heap t !! node = Some o →
  (∀ k, k ∈ keys → k ∈ obj_keys o) →
  (∀ k, k ∈ obj_keys o → k ∈ keys ∨ String.length (commonPrefix word k) = 0) →
  insert_loop rec word node o keys t = Some t' →
  builder_inv t' ∧ length (heap t) ≤ length (heap t') ∧ same_meta t t'.
Proof.
  intros Hrec Hinv Hnode. induction keys as [|prop keys IH]; intros Hsub Hskip Hloop.
  - simpl in Hloop. apply bind_Some in Hloop as (t1 & Hadd & [= <-]).
    eapply addTerminal_inv in Hadd as (Hinv' & Hlen & Hmeta & _ & _); [|done..|].
    + auto using builder_inv_bump.
    + intros k Hk Lk Hf. destruct (Hskip k Hk) as [?%elem_of_nil|Hz]; [done|].
      destruct (label_first_char_Some _ Lk) as [c Hc].
      apply commonPrefix_nil in Hz as [->|[->|Hd]].
      * rewrite Hc in Hf. done.
      * done.
      * congruence.
  - simpl in Hloop.
    destruct (String.length (commonPrefix word prop) =? 0) eqn:Hz.
    { apply Nat.eqb_eq in Hz. apply IH; [| |done].
      - intros k Hk. apply Hsub. by right.
      - intros k Hk. destruct (Hskip k Hk) as [[->|?]%elem_of_cons|?]; auto. }
    apply Nat.eqb_neq in Hz.
    assert (Hprop : prop ∈ obj_keys o) by (apply Hsub; by left).
    destruct (bool_decide (prop = commonPrefix word prop) && is_object (js_get prop o)) eqn:Hc1.
    { destruct (js_get prop o); try done. by eapply Hrec. }
    destruct (bool_decide (prop = word) && is_number (js_get prop o)) eqn:Hc2.
    { injection Hloop as <-. split; [done|]. split; [lia|]. apply same_meta_refl. }
    eapply insert_split_inv; eauto.
Qed.

Lemma _insert_inv fuel : ∀ word node t t',
  builder_inv t → _insert fuel word node t = Some t' →
  builder_inv t' ∧ length (heap t) ≤ length (heap t') ∧ same_meta t t'.
Proof.
  induction fuel as [|fuel IH]; intros word node t t' Hinv Hins; [done|].
  simpl in Hins. apply bind_Some in Hins as (o & Ho & Hloop).
  eapply insert_loop_inv; eauto.
Qed.

(** * [uniqueNode] and the canonicalizer *)

Lemma unique_loop_valid rec word other o props n f :
  (∀ w w' c f, rec w w' c = Some (Some f) → f < n) →
  obj_closed n o →
  unique_loop rec word other o props = Some (Some f) → f < n.
Proof.
  intros Hrec Hcl. induction props as [|prop props IH]; [done|]. simpl.
  destruct (starts prop word); [|done].
  destruct (js_get prop o) as [| | |child] eqn:Hg; try done.
  destruct (negb (starts prop other)).
  - intros [= <-]. eauto.
  - apply Hrec.
Qed.

Lemma uniqueNode_valid fuel : ∀ word other node t f,
  heap_wf t → uniqueNode fuel word other node t = Some (Some f) →
  f < length (heap t).
Proof.
  induction fuel as [|fuel IH]; intros word other node t f Hwf Hu; [done|].
  simpl in Hu. apply bind_Some in Hu as (o & Ho & Hu).
  eapply unique_loop_valid; [| |exact Hu].
  - intros w w' c f'. by apply IH.
  - destruct Hwf as [Hwf _]. by destruct (Hwf _ _ Ho) as (_ & _ & ?).
Qed.

Lemma bookkeeping_only_refl t : bookkeeping_only t t.
Proof. split; [done|]. intros a o Ha. exists o. naive_solver. Qed.

Lemma bookkeeping_only_trans t1 t2 t3 :
  bookkeeping_only t1 t2 → bookkeeping_only t2 t3 → bookkeeping_only t1 t3.
Proof.
  intros [Hl1 H1] [Hl2 H2]. split; [congruence|].
  intros a o Ha. destruct (H1 _ _ Ha) as (o' & Ha' & Hk').
  destruct (H2 _ _ Ha') as (o'' & Ha'' & Hk''). exists o''. split; [done|].
  intros k ???. rewrite Hk'', Hk'; done.
Qed.

Lemma bookkeeping_only_put node k v o t :
  heap t !! node = Some o →
  k ∈ obj_keys o ∨ k = "_c" ∨ k = "_d" ∨ k = "_v" →
  bookkeeping_only t (put node (obj_set k v o) t).
Proof.
  intros Hnode Hk. split; [apply length_put|].
  intros a oa Ha. destruct (decide (a = node)) as [->|Hne].
  - rewrite lookup_put_eq by (by eapply lookup_lt_Some).
    assert (oa = o) as -> by congruence. eexists; split; [done|].
    intros k' ???. rewrite elem_of_keys_set. naive_solver.
  - rewrite lookup_put_ne by done. eauto.
Qed.

Lemma label_not_bookkeeping k : label k → k ≠ "_c" ∧ k ≠ "_d" ∧ k ≠ "_v" ∧ k ≠ "_g".
Proof. intros [_ Hu]. repeat split; intros ->; done. Qed.

Lemma bookkeeping_only_label t t' a o o' k :
  bookkeeping_only t t' → heap t !! a = Some o → heap t' !! a = Some o' →
  label k → (k ∈ obj_keys o' ↔ k ∈ obj_keys o).
Proof.
  intros [_ H] Ha Ha' Lk. destruct (H _ _ Ha) as (o'' & Ha'' & Hk).
  assert (o'' = o') as -> by congruence.
  destruct (label_not_bookkeeping _ Lk) as (?&?&?&?). by apply Hk.
Qed.

Lemma combine_loop_inv rec node : ∀ props sig t sig' t' o,
  (∀ n t r t', builder_inv t → rec n t = Some (r, t') → combine_post t r t') →
  builder_inv t → heap t !! node = Some o →
  (∀ p, p ∈ props → p ∈ obj_keys o ∧ label p) →
  combine_loop rec node props sig t = Some (sig', t') →
  combine_post t node t'.
Proof.
  induction props as [|prop props IH]; intros sig t sig' t' o Hrec Hinv Hnode Hprops Hloop.
  { injection Hloop as <- <-. unfold combine_post. split_and!; try done.
    - apply bookkeeping_only_refl.
    - by eapply lookup_lt_Some. }
  simpl in Hloop. rewrite Hnode in Hloop. simpl in Hloop.
  assert (Hrest : ∀ p, p ∈ props → p ∈ obj_keys o ∧ label p).
  { intros p Hp. apply Hprops. by right. }
  destruct (js_get prop o) as [| | |child] eqn:Hg; try by eapply IH.
  apply bind_Some in Hloop as ([shared t1] & Hr & Hloop).
  apply Hrec in Hr as (Hinv1 & Hbk1 & Hsh & Hroot1 & Hv1 & Hl1); [|done].
  apply bind_Some in Hloop as (t2 & Hset & Hloop).
  apply set_prop_inv in Hset as (o1 & Ho1 & ->).
  apply bind_Some in Hloop as (s & Hs & Hloop).
  destruct (Hprops prop) as [Hin Lp]; [by left|].
  assert (Hin1 : prop ∈ obj_keys o1).
  { by apply (bookkeeping_only_label _ _ _ _ _ _ Hbk1 Hnode Ho1 Lp). }
  destruct (builder_inv_wf _ _ _ Hinv1 Ho1) as [Hwf1 Hsm1].
  assert (Hinv2 : builder_inv (put node (obj_set prop (VObj shared) o1) t1)).
  { eapply builder_inv_put; eauto.
    - by apply node_wf_set_present.
    - intros k. rewrite keys_set_has by done. apply Hsm1. }
  assert (Hbk2 : bookkeeping_only t1 (put node (obj_set prop (VObj shared) o1) t1)).
  { apply bookkeeping_only_put; auto. }
  eapply IH in Hloop as (Hinv' & Hbk' & Hn' & Hroot' & Hv' & Hl'); [|done|done| |].
  - simpl in Hroot', Hv', Hl'. unfold combine_post.
    split_and!; try done; try congruence.
    eauto using bookkeeping_only_trans.
  - apply lookup_put_eq. by eapply lookup_lt_Some.
  - intros p Hp. destruct (Hrest p Hp) as [Hpo Lpp]. split; [|done].
    rewrite elem_of_keys_set. right.
    by apply (bookkeeping_only_label _ _ _ _ _ _ Hbk1 Hnode Ho1 Lpp).
Qed.

Lemma combineSuffixNode_inv fuel : ∀ node t r t',
  builder_inv t → combineSuffixNode fuel node t = Some (r, t') →
  combine_post t r t'.
Proof.
  induction fuel as [|fuel IH]; intros node t r t' Hinv Hc; [done|].
  simpl in Hc. apply bind_Some in Hc as (o & Ho & Hc).
  destruct (truthy (js_get "_c" o)).
  { injection Hc as <- <-. unfold combine_post. split_and!; try done.
    - apply bookkeeping_only_refl.
    - by eapply lookup_lt_Some. }
  apply bind_Some in Hc as ([sig t1] & Hloop & Hc).
  eapply combine_loop_inv in Hloop as (Hinv1 & Hbk1 & Hn1 & Hroot1 & Hv1 & Hl1);
    [|exact IH|done|done|].
  2:{ intros p [? [? _]]%elem_of_nodeProps. done. }
  destruct (suffixes t1 !! join "-" sig) as [shared|] eqn:Hsuf.
  { injection Hc as <- <-. unfold combine_post. split_and!; try done.
    destruct Hinv1 as (_ & _ & Hsv). eauto. }
  apply bind_Some in Hc as (t2 & Hset & [= <- <-]).
  apply set_prop_inv in Hset as (o1 & Ho1 & ->).
  destruct (builder_inv_wf _ _ _ Hinv1 Ho1) as [Hwf1 Hsm1].
  assert (Hinv2 : builder_inv (put node (obj_set "_c" (VNum (cNext t1)) o1) t1)).
  { eapply builder_inv_put; eauto.
    - apply node_wf_set_bookkeeping; [done..|]. by intros [_ ?].
    - apply keys_small_set; auto. }
  assert (Hinv3 : builder_inv (register (join "-" sig) node
            (put node (obj_set "_c" (VNum (cNext t1)) o1) t1))).
  { destruct Hinv2 as (Hw2 & Hs2 & Hsuf2). split; [done|]. split; [done|].
    intros s a. simpl. destruct (decide (s = join "-" sig)) as [->|Hne].
    - rewrite lookup_insert_eq. intros [= <-]. by rewrite length_insert.
    - rewrite lookup_insert_ne by done. rewrite length_insert. apply Hinv1. }
  split; [done|]. split; [|split; [|by split_and!]].
  - eapply bookkeeping_only_trans; [exact Hbk1|].
    apply (bookkeeping_only_put node "_c" _ o1 t1); auto.
  - simpl. by rewrite length_insert.
Qed.

(** * [insert] and [build] keep the invariant *)

Lemma new_Trie_inv : builder_inv new_Trie.
Proof.
  split; [split|split]; simpl.
  - intros [|a] o; [|done]. intros [= <-]. apply node_wf_empty.
  - lia.
  - intros [|a] o; [|done]. intros [= <-]. apply keys_small_empty.
  - intros sig a. by rewrite lookup_empty.
Qed.

Lemma insert_inv word t t' :
  builder_inv t → insert word t = Some t' →
  builder_inv t' ∧ root t' = root t ∧ vCur t' = vCur t ∧ lastWord t' = word.
Proof.
  intros Hinv Hins. unfold insert in Hins.
  apply bind_Some in Hins as (t1 & Hi & Hins).
  apply _insert_inv in Hi as (Hinv1 & _ & (Hroot & _ & _ & _ & Hv)); [|done].
  case_decide; [by injection Hins as <-|].
  apply bind_Some in Hins as (freeze & Hu & Hins).
  destruct freeze as [freeze|]; [|by injection Hins as <-].
  apply bind_Some in Hins as ([r t2] & Hc & [= <-]).
  apply combineSuffixNode_inv in Hc as (Hinv2 & _ & _ & Hroot2 & Hv2 & Hl2).
  - simpl in *. split_and!; congruence.
  - by apply builder_inv_lastWord.
Qed.

Lemma insertWords_inv words : ∀ t t',
  builder_inv t → insertWords words t = Some t' →
  builder_inv t' ∧ root t' = root t ∧ vCur t' = vCur t.
Proof.
  induction words as [|word words IH]; intros t t' Hinv Hins.
  - injection Hins as <-. done.
  - simpl in Hins. apply bind_Some in Hins as (t1 & Hi & Hins).
    apply insert_inv in Hi as (Hinv1 & Hr1 & Hv1 & _); [|done].
    apply IH in Hins as (? & ? & ?); [|done]. split_and!; congruence.
Qed.

Lemma build_inv words t :
  build words = Some t → builder_inv t ∧ root t = 0 ∧ vCur t = 0%Z.
Proof. intros H. by apply insertWords_inv in H; [|apply new_Trie_inv]. Qed.

Lemma builder_inv_no_g t a o :
  builder_inv t → heap t !! a = Some o →
  ("_g" ∉ obj_keys o) ∧ ("_d" ∉ obj_keys o) ∧ ("_v" ∉ obj_keys o).
Proof.
  intros (_ & Hsm & _) Ha. split_and!; intros Hk; apply (Hsm _ _ Ha) in Hk as [Hk|Hk];
    simpl in Hk; (lia || done).
Qed.


(** * Sums over the store *)

Lemma sum_list_with_insert {A} (f : A → nat) l i x y :
  l !! i = Some x →
  sum_list_with f (<[i:=y]> l) + f x = sum_list_with f l + f y.
Proof.
  revert i. induction l as [|z l IH]; intros [|i] Hi; simplify_eq/=; [lia|].
  specialize (IH _ Hi). lia.
Qed.

Lemma Zsum_insert {A} (f : A → Z) l i x y :
  l !! i = Some x →
  (foldr (λ o s, f o + s) 0 (<[i:=y]> l) + f x
   = foldr (λ o s, f o + s) 0 l + f y)%Z.
Proof.
  revert i. induction l as [|z l IH]; intros [|i] Hi; simplify_eq/=; [lia|].
  specialize (IH _ Hi). lia.
Qed.

Lemma sum_list_with_pointwise {A} (f g : A → nat) l l' :
  length l = length l' →
  (∀ i x y, l !! i = Some x → l' !! i = Some y → g y ≤ f x) →
  sum_list_with g l' ≤ sum_list_with f l.
Proof.
  revert l'. induction l as [|x l IH]; intros [|y l'] Hlen H; simplify_eq/=; [lia|].
  pose proof (H 0 x y eq_refl eq_refl).
  specialize (IH l' Hlen (λ i, H (S i))). lia.
Qed.

Lemma filter_ext_in {A} (P Q : A → Prop) `{∀ x, Decision (P x)}
    `{∀ x, Decision (Q x)} (l : list A) :
  (∀ x, x ∈ l → (P x ↔ Q x)) → filter P l = filter Q l.
Proof.
  induction l as [|x l IH]; intros Hl; [done|].
  rewrite !filter_cons. rewrite IH by (intros; apply Hl; by right).
  destruct (Hl x) as [H1 H2]; [by left|].
  repeat case_decide; naive_solver.
Qed.

Lemma filter_none {A} (P : A → Prop) `{∀ x, Decision (P x)} (l : list A) :
  Forall (λ x, ¬ P x) l → filter P l = [].
Proof.
  induction 1 as [|x l Hx _ IH]; [done|]. rewrite filter_cons.
  by case_decide.
Qed.

(** * Bookkeeping writes do not move the labels *)

Lemma nodeProps_ext o o' extra b :
  obj_keys o' = obj_keys o ++ extra →
  Forall (λ k, ¬ label k) extra →
  (∀ k, k ∈ obj_keys o → label k → js_get k o' = js_get k o) →
  nodeProps o' b = nodeProps o b.
Proof.
  intros Hk Hex Hg. unfold nodeProps. f_equal. rewrite Hk, filter_app.
  rewrite (filter_none _ extra).
  2:{ eapply Forall_impl; [exact Hex|]. intros k Hn (? & ? & _). by apply Hn. }
  rewrite app_nil_r. apply filter_ext_in. intros k Hin.
  split; intros (H1 & H2 & H3); (split; [done|]; split; [done|]);
    intros Hb; specialize (H3 Hb); by rewrite ?Hg in * by done.
Qed.

Lemma nodeProps_set_mark k v o b :
  ¬ label k → array_index k = None →
  nodeProps (obj_set k v o) b = nodeProps o b.
Proof.
  intros Hl Hai.
  assert (Hg : ∀ k', k' ∈ obj_keys o → label k' →
                 js_get k' (obj_set k v o) = js_get k' o).
  { intros k' _ Lk'. apply js_get_set_ne. by intros ->. }
  destruct (decide (k ∈ obj_keys o)) as [Hin|Hin].
  - apply (nodeProps_ext _ _ []); [|done|done].
    rewrite app_nil_r. by apply keys_set_has.
  - apply (nodeProps_ext _ _ [k]); [|by repeat constructor|done].
    unfold obj_set. rewrite <- obj_has_keys in Hin.
    destruct (obj_has k o); [done|]. rewrite Hai.
    unfold obj_keys. by rewrite fmap_app.
Qed.

Lemma not_label_d : ¬ label "_d".
Proof. by intros [_ ?]. Qed.

Lemma not_label_v : ¬ label "_v".
Proof. by intros [_ ?]. Qed.

Lemma not_label_g : ¬ label "_g".
Proof. by intros [_ ?]. Qed.

Lemma obj_marks_refl o : obj_marks o o.
Proof. unfold obj_marks. split_and!; auto. Qed.

Lemma obj_marks_trans o1 o2 o3 : obj_marks o1 o2 → obj_marks o2 o3 → obj_marks o1 o3.
Proof.
  intros (Hp' & Hg' & Hk' & Hv' & Hn') (Hp'' & Hg'' & Hk'' & Hv'' & Hn'').
  unfold obj_marks. split_and!.
  - intros b. by rewrite Hp'', Hp'.
  - intros k ?. by rewrite Hg'', Hg'.
  - intros k ?. by rewrite Hk'', Hk'.
  - intros k. destruct (Hv'' k) as [->|?]; auto.
  - auto.
Qed.

Lemma obj_marks_set k v o :
  mark k → is_object v = false → obj_marks o (obj_set k v o).
Proof.
  intros Hk Hv. unfold obj_marks. split_and!.
  - intros b. destruct Hk as [-> | [-> | ->]]; apply nodeProps_set_mark;
      solve [by intros [_ ?] | done].
  - intros k' Hk'. apply js_get_set_ne. by intros ->.
  - intros k' Hk'. rewrite elem_of_keys_set. split; [|auto].
    intros [->|?]; done.
  - intros k'. rewrite js_get_set. case_decide; eauto.
  - apply NoDup_keys_set.
Qed.

Lemma mark_d : mark "_d".
Proof. by left. Qed.

Lemma mark_v : mark "_v".
Proof. right; by left. Qed.

Lemma mark_g : mark "_g".
Proof. right; by right. Qed.

Lemma label_not_mark k : label k → ¬ mark k.
Proof. intros [_ Hu] [->|[->| ->]]; done. Qed.

Lemma marks_only_refl t : marks_only t t.
Proof. split; [done|]. intros a o Ha. exists o. split; [done|apply obj_marks_refl]. Qed.

Lemma marks_only_trans t1 t2 t3 :
  marks_only t1 t2 → marks_only t2 t3 → marks_only t1 t3.
Proof.
  intros [Hl1 H1] [Hl2 H2]. split; [congruence|].
  intros a o Ha. destruct (H1 _ _ Ha) as (o' & Ha' & Hm').
  destruct (H2 _ _ Ha') as (o'' & Ha'' & Hm'').
  exists o''. eauto using obj_marks_trans.
Qed.

Lemma marks_only_put node o o' t :
  heap t !! node = Some o → obj_marks o o' → marks_only t (put node o' t).
Proof.
  intros Hnode Hm. split; [apply length_put|].
  intros a oa Ha. destruct (decide (a = node)) as [->|Hne].
  - rewrite lookup_put_eq by (by eapply lookup_lt_Some).
    assert (oa = o) as -> by congruence. eauto.
  - rewrite lookup_put_ne by done. eauto using obj_marks_refl.
Qed.

Lemma marks_only_lookup t t' a o' :
  marks_only t t' → heap t' !! a = Some o' →
  ∃ o, heap t !! a = Some o ∧ obj_marks o o'.
Proof.
  intros [Hl H] Ha'. destruct (heap t !! a) as [o|] eqn:Ha.
  2:{ apply lookup_ge_None in Ha. apply lookup_lt_Some in Ha'. lia. }
  destruct (H _ _ Ha) as (o'' & Ha'' & ?). exists o.
  assert (o'' = o') as -> by congruence. done.
Qed.

Lemma nodeProps_not_mark prop o b : prop ∈ nodeProps o b → ¬ mark prop.
Proof. intros (_ & Lp & _)%elem_of_nodeProps. by apply label_not_mark. Qed.

Lemma marks_only_edge t t' a c : marks_only t t' → edge t a c ↔ edge t' a c.
Proof.
  intros Hm. split.
  - intros (o & prop & Ha & Hp & Hg).
    destruct Hm as [_ H]. destruct (H _ _ Ha) as (o' & Ha' & Hp' & Hg' & _).
    exists o', prop. rewrite Hp'. split_and!; [done..|].
    pose proof (nodeProps_not_mark _ _ _ Hp). by rewrite Hg'.
  - intros (o' & prop & Ha' & Hp & Hg).
    destruct (marks_only_lookup _ _ _ _ Hm Ha') as (o & Ha & Hp' & Hg' & _).
    exists o, prop. rewrite <- Hp'. split_and!; [done..|].
    pose proof (nodeProps_not_mark _ _ _ Hp). by rewrite <- Hg'.
Qed.

Lemma marks_only_rtc t t' a c :
  marks_only t t' → rtc (edge t) a c ↔ rtc (edge t') a c.
Proof.
  intros Hm. split; induction 1 as [|x y z Hxy _ IH]; try done;
    (eapply rtc_l; [|exact IH]); by apply (marks_only_edge _ _ _ _ Hm).
Qed.

Lemma marks_only_wf t t' :
  marks_only t t' → root t' = root t → heap_wf t → heap_wf t'.
Proof.
  intros Hm Hr [Hwf Hroot]. pose proof Hm as [Hl _]. split; [|congruence].
  intros a o' Ha'.
  destruct (marks_only_lookup _ _ _ _ Hm Ha') as (o & Ha & Hp & Hg & Hk & Hv & Hn).
  destruct (Hwf _ _ Ha) as (Hnd & Hpf & Hcl). rewrite Hl. split_and!; [auto|..].
  - rewrite prefix_free_spec in Hpf |- *. intros k1 k2 H1 H2 L1 L2.
    pose proof (label_not_mark _ L1). pose proof (label_not_mark _ L2).
    apply Hpf; try done; by apply Hk.
  - intros k c Hkc. destruct (Hv k) as [He|He]; [|by rewrite Hkc in He].
    rewrite He in Hkc. eauto.
Qed.

(** * The counters under a write to one node *)

Lemma total_degree_put n o o' t :
  heap t !! n = Some o →
  (total_degree (put n o' t) + degree o = total_degree t + degree o')%Z.
Proof. intros H. unfold total_degree. simpl. by apply Zsum_insert. Qed.

Lemma visited_edges_put n o o' t :
  heap t !! n = Some o →
  visited_edges (put n o' t) + (if is_visited (vCur t) o then out_degree o else 0)
  = visited_edges t + (if is_visited (vCur t) o' then out_degree o' else 0).
Proof.
  intros H. unfold visited_edges. simpl.
  by apply (sum_list_with_insert
              (λ o, if is_visited (vCur t) o then out_degree o else 0)).
Qed.

Lemma unvisited_put n o o' t :
  heap t !! n = Some o →
  unvisited (put n o' t) + (if is_visited (vCur t) o then 0 else 1)
  = unvisited t + (if is_visited (vCur t) o' then 0 else 1).
Proof.
  intros H. unfold unvisited. simpl.
  by apply (sum_list_with_insert (λ o, if is_visited (vCur t) o then 0 else 1)).
Qed.

Lemma obj_marks_out_degree o o' : obj_marks o o' → out_degree o' = out_degree o.
Proof. intros (Hp & _). unfold out_degree. by rewrite Hp. Qed.

Lemma is_visited_set_d v x o : is_visited v (obj_set "_d" x o) = is_visited v o.
Proof. unfold is_visited. by rewrite js_get_set_ne. Qed.

Lemma degree_set_v x o : degree (obj_set "_v" x o) = degree o.
Proof. unfold degree. by rewrite js_get_set_ne. Qed.

Lemma degree_set_d n o : degree (obj_set "_d" (VNum n) o) = n.
Proof. unfold degree. by rewrite js_get_set_eq. Qed.

Lemma is_visited_set_v v o : is_visited v (obj_set "_v" (VNum v) o) = true.
Proof. unfold is_visited. rewrite js_get_set_eq. by apply bool_decide_eq_true. Qed.

Lemma visited_in_cases t a : visited_in t a ∨ ¬ visited_in t a.
Proof.
  unfold visited_in. destruct (heap t !! a) as [o|] eqn:Ha.
  - destruct (is_visited (vCur t) o) eqn:Hv; [eauto|].
    right. intros (o' & [= <-] & ?). congruence.
  - right. by intros (o' & ? & _).
Qed.

Lemma visited_in_lookup t a o :
  heap t !! a = Some o → visited_in t a ↔ is_visited (vCur t) o = true.
Proof.
  intros Ha. split; [|by exists o].
  intros (o' & Ha' & Hv). congruence.
Qed.

Lemma d_numeric_put n o' t :
  d_numeric t →
  (js_get "_d" o' = VUndef ∨ ∃ d, js_get "_d" o' = VNum d) →
  d_numeric (put n o' t).
Proof. intros Hd Ho' a o [[_ ->]|[_ Ha]]%lookup_put; eauto. Qed.

(** A traversal step never lets the number of unstamped nodes grow. *)
Lemma unvisited_mono t t' :
  length (heap t') = length (heap t) → vCur t' = vCur t →
  (∀ a, visited_in t a → visited_in t' a) →
  unvisited t' ≤ unvisited t.
Proof.
  intros Hl Hv Hmono. unfold unvisited. apply sum_list_with_pointwise; [done|].
  intros i x y Hx Hy. destruct (is_visited (vCur t) x) eqn:Hvx; [|case_match; lia].
  assert (visited_in t' i) as (y' & Hy' & Hvy) by (apply Hmono; by exists x).
  assert (y' = y) as -> by congruence. by rewrite Hvy.
Qed.

(** The two statements [if (node._d === undefined) node._d = 0; node._d++]. *)
Lemma bump_degree o v :
  js_get "_d" o = VUndef ∨ (∃ n, js_get "_d" o = VNum n) →
  let o1 := if decide (js_get "_d" o = VUndef)
            then obj_set "_d" (VNum 0) o else o in
  ∃ d, incr (js_get "_d" o1) = Some (VNum d)
       ∧ d = (degree o + 1)%Z
       ∧ obj_marks o (obj_set "_d" (VNum d) o1)
       ∧ is_visited v (obj_set "_d" (VNum d) o1) = is_visited v o.
Proof.
  intros Hd o1. unfold o1. case_decide as Hu.
  - exists 1%Z. rewrite js_get_set_eq. split; [done|]. split.
    { unfold degree. by rewrite Hu. }
    split.
    + eapply obj_marks_trans; apply obj_marks_set; auto using mark_d.
    + by rewrite !is_visited_set_d.
  - destruct Hd as [?|[n Hn]]; [done|]. exists (n + 1)%Z. rewrite Hn.
    split; [done|]. split.
    { unfold degree. by rewrite Hn. }
    split; [apply obj_marks_set; auto using mark_d|apply is_visited_set_d].
Qed.

(** * The traversal of [countDegree] *)

Lemma same_meta_vCur t t' : same_meta t t' → vCur t' = vCur t.
Proof. by intros (_&_&_&_&?). Qed.

Lemma same_meta_root t t' : same_meta t t' → root t' = root t.
Proof. by intros (?&_). Qed.

Lemma count_loop_spec rec fuel n :
  (∀ c s, heap_wf s → d_numeric s → c < length (heap s) → unvisited s < fuel →
          ∃ s', rec c s = Some s' ∧ count_post c s s') →
  ∀ props s o,
    heap_wf s → d_numeric s → heap s !! n = Some o → unvisited s < fuel →
    (∀ p, p ∈ props → p ∈ nodeProps o true) →
    ∃ s', count_loop rec n props s = Some s' ∧ count_loop_post n o props s s'.
Proof.
  intros Hrec. induction props as [|prop props IH]; intros s o Hwf Hd Hn Hfuel Hprops.
  { exists s. split; [done|]. unfold count_loop_post.
    split_and!; [done|done|apply marks_only_refl|apply same_meta_refl
                 |simpl; lia|done|by intros p c ?%elem_of_nil|done|done]. }
  simpl. rewrite Hn. simpl.
  assert (Hp : prop ∈ nodeProps o true) by (apply Hprops; by left).
  pose proof Hp as (Hpk & Lp & Hobj)%elem_of_nodeProps.
  specialize (Hobj eq_refl).
  destruct (js_get prop o) as [| | |child] eqn:Hg; try done.
  assert (Hchild : child < length (heap s)).
  { destruct Hwf as [Hwf _]. by destruct (Hwf _ _ Hn) as (_ & _ & Hcl); eauto. }
  destruct (Hrec child s Hwf Hd Hchild Hfuel)
    as (s1 & Hr & Hwf1 & Hd1 & Hm1 & Hmeta1 & HQ1 & Hmono1 & Hvis1 & Hnew1 & Hunch1).
  rewrite Hr. simpl.
  pose proof Hm1 as [Hlen1 Hm1'].
  destruct (Hm1' _ _ Hn) as (o1 & Hn1 & Hom1).
  pose proof Hom1 as (Hp1 & Hg1 & _).
  destruct (IH s1 o1) as (s' & Hloop & Hwf' & Hd' & Hm' & Hmeta' & HQ' & Hmono'
                          & Hch' & Hnew' & Hunch'); try done.
  { eapply Nat.le_lt_trans; [|exact Hfuel].
    apply unvisited_mono; [done|by apply same_meta_vCur|done]. }
  { intros p Hin. rewrite Hp1. apply Hprops. by right. }
  exists s'. split; [done|]. unfold count_loop_post. split_and!.
  - done.
  - done.
  - eauto using marks_only_trans.
  - eauto using same_meta_trans.
  - simpl length. lia.
  - auto.
  - intros p c [->|Hin]%elem_of_cons Hpc.
    + assert (c = child) as -> by congruence. auto.
    + apply (Hch' p c Hin).
      assert (Hpin : p ∈ nodeProps o true) by (apply Hprops; by right).
      pose proof (nodeProps_not_mark _ _ _ Hpin). by rewrite Hg1.
  - intros a Ha' Ha. destruct (visited_in_cases s1 a) as [Ha1|Ha1].
    + destruct (Hnew1 a Ha1 Ha) as [Hreach Hclos]. split.
      * exists child. split; [|done]. by exists o, prop.
      * intros c Hc. auto.
    + destruct (Hnew' a Ha' Ha1) as [(c & Hec & Hreach) Hclos]. split.
      * exists c. split; [by apply (marks_only_edge _ _ _ _ Hm1)|].
        by apply (marks_only_rtc _ _ _ _ Hm1).
      * intros c' Hc'. apply Hclos. by apply (marks_only_edge _ _ _ _ Hm1).
  - intros a oa Ha Hnv. apply Hunch'; [|done]. apply Hunch1; [done|]. auto.
Qed.

Lemma countDegree_spec fuel : ∀ n t,
  heap_wf t → d_numeric t → n < length (heap t) → unvisited t < fuel →
  ∃ t', countDegree fuel n t = Some t' ∧ count_post n t t'.
Proof.
  induction fuel as [|fuel IH]; intros n t Hwf Hd Hn Hfuel; [lia|].
  apply lookup_lt_is_Some in Hn as [o Ho].
  simpl. rewrite Ho. simpl.
  destruct (bump_degree o (vCur t) (Hd _ _ Ho)) as (d & Hincr & Hdeg & Hmarks & Hvis).
  set (o1 := if decide (js_get "_d" o = VUndef)
             then obj_set "_d" (VNum 0) o else o) in *.
  rewrite Hincr. simpl.
  set (oA := obj_set "_d" (VNum d) o1) in *.
  set (t1 := put n oA t).
  assert (Hn_lt : n < length (heap t)) by (by eapply lookup_lt_Some).
  assert (Ho1 : heap t1 !! n = Some oA) by (by apply lookup_put_eq).
  assert (Hm1 : marks_only t t1) by (by apply marks_only_put with o).
  assert (Hwf1 : heap_wf t1) by (by apply (marks_only_wf t)).
  assert (Hd1 : d_numeric t1).
  { apply d_numeric_put; [done|]. right. exists d. apply js_get_set_eq. }
  assert (HD1 : (total_degree t1 = total_degree t + 1)%Z).
  { pose proof (total_degree_put n o oA t Ho) as H. fold t1 in H.
    assert (degree oA = d) by apply degree_set_d. lia. }
  assert (HW1 : visited_edges t1 = visited_edges t).
  { pose proof (visited_edges_put n o oA t Ho) as H. fold t1 in H.
    rewrite Hvis, (obj_marks_out_degree _ _ Hmarks) in H. lia. }
  assert (HU1 : unvisited t1 = unvisited t).
  { pose proof (unvisited_put n o oA t Ho) as H. fold t1 in H.
    rewrite Hvis in H. lia. }
  assert (Hvis1 : ∀ a, visited_in t a ↔ visited_in t1 a).
  { intros a. unfold visited_in. destruct (decide (a = n)) as [->|Hne].
    - rewrite Ho, Ho1. change (vCur t1) with (vCur t).
      split; intros (o' & [= <-] & Hv'); eexists; split; try done; congruence.
    - unfold t1. by rewrite lookup_put_ne. }
  unfold visited. fold t1. rewrite Ho1. simpl.
  change (vCur t1) with (vCur t).
  destruct (decide (js_get "_v" oA = VNum (vCur t))) as [Hseen|Hseen].
  { exists t1. split; [done|]. unfold count_post. split_and!.
    - done.
    - done.
    - done.
    - by repeat split.
    - lia.
    - intros a. apply Hvis1.
    - exists oA. split; [done|]. by apply bool_decide_eq_true.
    - intros a Ha1 Ha. by apply Hvis1 in Ha1.
    - intros a oa Ha Hnv. unfold t1. rewrite lookup_put_ne; [done|].
      intros ->. apply Hnv. exists oA. split; [done|]. by apply bool_decide_eq_true. }
  set (oB := obj_set "_v" (VNum (vCur t)) oA).
  set (t2 := put n oB t1).
  assert (HvA : is_visited (vCur t) oA = false) by (by apply bool_decide_eq_false).
  assert (HvB : is_visited (vCur t) oB = true) by apply is_visited_set_v.
  assert (HmB : obj_marks oA oB) by (apply obj_marks_set; auto using mark_v).
  assert (Ho2 : heap t2 !! n = Some oB).
  { apply lookup_put_eq. unfold t1. by rewrite length_put. }
  assert (Hm2 : marks_only t1 t2) by (by apply marks_only_put with oA).
  assert (Hwf2 : heap_wf t2) by (by apply (marks_only_wf t1)).
  assert (Hd2 : d_numeric t2).
  { apply d_numeric_put; [done|]. right. exists d. unfold oB.
    rewrite js_get_set_ne by done. apply js_get_set_eq. }
  assert (HD2 : (total_degree t2 = total_degree t + 1)%Z).
  { pose proof (total_degree_put n oA oB t1 Ho1) as H. fold t2 in H.
    assert (degree oB = degree oA) by apply degree_set_v. lia. }
  assert (HW2 : visited_edges t2 = visited_edges t + out_degree o).
  { pose proof (visited_edges_put n oA oB t1 Ho1) as H. fold t2 in H.
    change (vCur t1) with (vCur t) in H. rewrite HvA, HvB in H.
    rewrite (obj_marks_out_degree _ _ HmB), (obj_marks_out_degree _ _ Hmarks) in H.
    lia. }
  assert (HU2 : unvisited t2 + 1 = unvisited t).
  { pose proof (unvisited_put n oA oB t1 Ho1) as H. fold t2 in H.
    change (vCur t1) with (vCur t) in H. rewrite HvA, HvB in H. lia. }
  assert (Hvis2 : ∀ a, visited_in t2 a ↔ a = n ∨ visited_in t a).
  { intros a. unfold visited_in at 1. destruct (decide (a = n)) as [->|Hne].
    - rewrite Ho2. split; [auto|]. intros _. by exists oB.
    - unfold t2. rewrite lookup_put_ne by done.
      change (vCur (put n oB t1)) with (vCur t1). fold (visited_in t1 a).
      rewrite <- Hvis1. naive_solver. }
  assert (Hnv : ¬ visited_in t n).
  { intros Hv. apply Hvis1 in Hv as (o' & Ho' & Hv).
    change (vCur t1) with (vCur t) in Hv. congruence. }
  destruct (count_loop_spec (countDegree fuel) fuel n IH (nodeProps oB true) t2 oB)
    as (t' & Hloop & Hwf' & Hd' & Hm' & Hmeta' & HQ' & Hmono' & Hch' & Hnew' & Hunch');
    try done; try lia.
  exists t'. split.
  { change (heap t2 !! n ≫= (λ o0, count_loop (countDegree fuel) n
                                 (nodeProps o0 true) t2) = Some t').
    by rewrite Ho2. }
  assert (Hm02 : marks_only t t2) by eauto using marks_only_trans.
  unfold count_post. split_and!.
  - done.
  - done.
  - eauto using marks_only_trans.
  - eapply same_meta_trans; [|exact Hmeta']. by repeat split.
  - fold (out_degree oB) in HQ'.
    rewrite (obj_marks_out_degree _ _ HmB), (obj_marks_out_degree _ _ Hmarks) in HQ'.
    lia.
  - intros a Ha. apply Hmono'. apply Hvis2. auto.
  - apply Hmono'. apply Hvis2. auto.
  - intros a Ha' Ha. destruct (visited_in_cases t2 a) as [Ha2|Ha2].
    + apply Hvis2 in Ha2 as [->|?]; [|done]. split; [done|].
      intros c (o' & prop & Ho' & Hp & Hg).
      assert (o' = o) as -> by congruence.
      apply (Hch' prop c).
      * destruct (obj_marks_trans _ _ _ Hmarks HmB) as (Hpp & _). by rewrite Hpp.
      * destruct (obj_marks_trans _ _ _ Hmarks HmB) as (_ & Hgg & _).
        pose proof (nodeProps_not_mark _ _ _ Hp). by rewrite Hgg.
    + destruct (Hnew' a Ha' Ha2) as [(c & Hec & Hreach) Hclos]. split.
      * eapply rtc_l; [by apply (marks_only_edge _ _ _ _ Hm02)|].
        by apply (marks_only_rtc _ _ _ _ Hm02).
      * intros c' Hc'. apply Hclos. by apply (marks_only_edge _ _ _ _ Hm02).
  - intros a oa Ha Hnva. apply Hunch'; [|done].
    assert (a ≠ n).
    { intros ->. apply Hnva. apply Hmono'. apply Hvis2. auto. }
    unfold t2, t1. by rewrite !lookup_put_ne.
Qed.

(** * Sums over a list of addresses *)

Lemma Zsum_listing (f : object → Z) : ∀ l (h : list object),
  f [] = 0%Z → NoDup l → (∀ a, a ∈ l → a < length h) →
  (∀ a o, h !! a = Some o → a ∉ l → f o = 0%Z) →
  foldr (λ a s, (f (default ([] : object) (h !! a)) + s)%Z) 0%Z l
  = foldr (λ o s, (f o + s)%Z) 0%Z h.
Proof.
  induction l as [|a l IH]; intros h Hf Hnd Hl Hout.
  - simpl. clear Hl. induction h as [|o h IHh]; [done|]. simpl.
    rewrite <- IHh.
    + rewrite (Hout 0 o); [done|done|apply not_elem_of_nil].
    + intros a' o' Ha' _. apply (Hout (S a') o'); [done|apply not_elem_of_nil].
  - apply NoDup_cons in Hnd as [Hna Hnd].
    destruct (lookup_lt_is_Some_2 h a) as [o Ho]; [apply Hl; by left|].
    cbn [foldr]. rewrite Ho. cbn [default from_option id].
    pose proof (Zsum_insert f h a o ([]:object) Ho) as Hins.
    rewrite <- (IH (<[a:=([]:object)]> h)) in Hins; try done.
    + assert (foldr (λ a0 s, (f (default ([] : object) (<[a:=([]:object)]> h !! a0)) + s)%Z) 0%Z l
              = foldr (λ a0 s, (f (default ([] : object) (h !! a0)) + s)%Z) 0%Z l) as Heq.
      { clear -Hna. induction l as [|b l IHl]; [done|].
        apply not_elem_of_cons in Hna as [Hne Hna]. simpl.
        rewrite list_lookup_insert_ne by done. by rewrite IHl. }
      rewrite Heq in Hins. lia.
    + intros b Hb. rewrite length_insert. apply Hl. by right.
    + intros b ob Hb Hnb. destruct (decide (b = a)) as [->|Hne].
      * rewrite list_lookup_insert_eq in Hb by (by eapply lookup_lt_Some).
        by injection Hb as <-.
      * rewrite list_lookup_insert_ne in Hb by done.
        apply (Hout b); [done|]. rewrite not_elem_of_cons. done.
Qed.

Lemma sum_listing (f : object → nat) : ∀ l (h : list object),
  f [] = 0 → NoDup l → (∀ a, a ∈ l → a < length h) →
  (∀ a o, h !! a = Some o → a ∉ l → f o = 0) →
  sum_list_with (λ a, f (default ([] : object) (h !! a))) l = sum_list_with f h.
Proof.
  induction l as [|a l IH]; intros h Hf Hnd Hl Hout.
  - simpl. clear Hl. induction h as [|o h IHh]; [done|]. simpl.
    rewrite <- IHh.
    + rewrite (Hout 0 o); [done|done|apply not_elem_of_nil].
    + intros a' o' Ha' _. apply (Hout (S a') o'); [done|apply not_elem_of_nil].
  - apply NoDup_cons in Hnd as [Hna Hnd].
    destruct (lookup_lt_is_Some_2 h a) as [o Ho]; [apply Hl; by left|].
    cbn [sum_list_with]. rewrite Ho. cbn [default from_option id].
    pose proof (sum_list_with_insert f h a o ([]:object) Ho) as Hins.
    rewrite <- (IH (<[a:=([]:object)]> h)) in Hins; try done.
    + assert (sum_list_with (λ a0, f (default ([] : object) (<[a:=([]:object)]> h !! a0))) l
              = sum_list_with (λ a0, f (default ([] : object) (h !! a0))) l) as Heq.
      { clear -Hna. induction l as [|b l IHl]; [done|].
        apply not_elem_of_cons in Hna as [Hne Hna]. simpl.
        rewrite list_lookup_insert_ne by done. by rewrite IHl. }
      rewrite Heq in Hins. lia.
    + intros b Hb. rewrite length_insert. apply Hl. by right.
    + intros b ob Hb Hnb. destruct (decide (b = a)) as [->|Hne].
      * rewrite list_lookup_insert_eq in Hb by (by eapply lookup_lt_Some).
        by injection Hb as <-.
      * rewrite list_lookup_insert_ne in Hb by done.
        apply (Hout b); [done|]. rewrite not_elem_of_cons. done.
Qed.

Lemma sum_list_with_ext_in {A} (f g : A → nat) l :
  (∀ x, x ∈ l → f x = g x) → sum_list_with f l = sum_list_with g l.
Proof.
  induction l as [|x l IH]; intros H; [done|]. simpl.
  rewrite (H x) by (by left). rewrite IH; [done|]. intros; apply H; by right.
Qed.

(** * In-degrees after [countDegree] from the root *)

Lemma fresh_total_degree t : fresh_marks t → total_degree t = 0%Z.
Proof.
  intros Hf. unfold total_degree.
  assert (∀ o, o ∈ heap t → degree o = 0%Z) as H.
  { intros o (a & Ha)%list_elem_of_lookup. unfold degree.
    by destruct (Hf _ _ Ha) as [-> _]. }
  induction (heap t) as [|o h IH]; [done|]. simpl.
  rewrite (H o), IH; [done| |by left]. intros; apply H; by right.
Qed.

Lemma fresh_not_visited t a : fresh_marks t → ¬ visited_in t a.
Proof.
  intros Hf (o & Ha & Hv). apply bool_decide_eq_true in Hv.
  by destruct (Hf _ _ Ha) as [_ ?].
Qed.

Lemma fresh_visited_edges t : fresh_marks t → visited_edges t = 0.
Proof.
  intros Hf. unfold visited_edges.
  assert (∀ o, o ∈ heap t → is_visited (vCur t) o = false) as H.
  { intros o (a & Ha)%list_elem_of_lookup. apply bool_decide_eq_false.
    by destruct (Hf _ _ Ha) as [_ ?]. }
  induction (heap t) as [|o h IH]; [done|]. simpl.
  rewrite (H o), IH; [done| |by left]. intros; apply H; by right.
Qed.

Lemma unvisited_le t : unvisited t ≤ length (heap t).
Proof.
  unfold unvisited. induction (heap t) as [|o h IH]; [done|]. simpl.
  case_match; lia.
Qed.

Lemma fresh_d_numeric t : fresh_marks t → d_numeric t.
Proof. intros Hf a o Ha. left. by destruct (Hf _ _ Ha). Qed.

(** From a fresh state the traversal stamps exactly the reachable nodes,
    every in-degree outside them stays [undefined], and the in-degrees add
    up to the edges between reachable nodes plus one for the root. *)
Lemma countDegree_total t :
  heap_wf t → fresh_marks t →
  ∃ t', countDegree (S (length (heap t))) (root t) t = Some t'
    ∧ heap_wf t' ∧ marks_only t t' ∧ same_meta t t'
    ∧ (∀ a, visited_in t' a ↔ reachable t' a)
    ∧ ∀ l, NoDup l → (∀ a, a ∈ l ↔ reachable t' a) →
           sum_degrees t' l = (Z.of_nat (count_edges t' l) + 1)%Z.
Proof.
  intros Hwf Hf.
  destruct (countDegree_spec (S (length (heap t))) (root t) t)
    as (t' & Hc & Hwf' & Hd' & Hm & Hmeta & HQ & Hmono & Hroot & Hnew & Hunch);
    [done|by apply fresh_d_numeric|apply Hwf|pose proof (unvisited_le t); lia|].
  exists t'. split; [done|]. split; [done|]. split; [done|]. split; [done|].
  rewrite (fresh_total_degree t Hf), (fresh_visited_edges t Hf) in HQ.
  assert (Hvr : ∀ a, visited_in t' a ↔ reachable t' a).
  { intros a. unfold reachable. rewrite (same_meta_root _ _ Hmeta). split.
    - intros Ha. destruct (Hnew a Ha (fresh_not_visited t a Hf)) as [Hr _].
      by apply (marks_only_rtc _ _ _ _ Hm).
    - intros Hr.
      eapply (rtc_ind_r (λ a, visited_in t' a)); [exact Hroot| |exact Hr].
      intros b c Hb Hbc IH.
      destruct (Hnew b IH (fresh_not_visited t b Hf)) as [_ Hcl].
      apply Hcl. by apply (marks_only_edge _ _ _ _ Hm). }
  split; [done|]. intros l Hnd Hl.
  assert (Hlt : ∀ a, a ∈ l → a < length (heap t')).
  { intros a Ha. apply Hl, Hvr in Ha as (o & Ho & _). by eapply lookup_lt_Some. }
  assert (Hout : ∀ a o, heap t' !! a = Some o → a ∉ l →
                        degree o = 0%Z ∧ is_visited (vCur t') o = false).
  { intros a o Ho Hnl.
    assert (Hnv : ¬ visited_in t' a) by (rewrite Hvr, <- Hl; done).
    destruct (marks_only_lookup _ _ _ _ Hm Ho) as (o0 & Ho0 & _).
    rewrite (Hunch _ _ Ho0 Hnv) in Ho. injection Ho as <-. split.
    - unfold degree. by destruct (Hf _ _ Ho0) as [-> _].
    - destruct (is_visited (vCur t') o0) eqn:Hv; [|done].
      exfalso. apply Hnv. exists o0. split; [by apply Hunch|done]. }
  unfold sum_degrees, count_edges, node_at.
  rewrite (Zsum_listing degree l (heap t')); [|done|done|done|].
  2:{ intros a o Ho Hnl. by destruct (Hout a o Ho Hnl). }
  rewrite (sum_list_with_ext_in _
             (λ a, (λ o, if is_visited (vCur t') o then out_degree o else 0)
                     (default ([] : object) (heap t' !! a)))).
  2:{ intros a Ha. apply Hl, Hvr in Ha as (o & Ho & Hv). rewrite Ho. simpl.
      by rewrite Hv. }
  rewrite (sum_listing (λ o, if is_visited (vCur t') o then out_degree o else 0)
             l (heap t')); [|done|done|done|].
  2:{ intros a o Ho Hnl. by destruct (Hout a o Ho Hnl) as [_ ->]. }
  fold (total_degree t') (visited_edges t'). lia.
Qed.


(** * Words without underscore *)

Lemma clean_app p s : clean (p +:+ s) = clean p && clean s.
Proof.
  induction p as [|c p IH]; [done|]. rewrite str_app_cons. simpl.
  rewrite IH. by rewrite andb_assoc.
Qed.

Lemma clean_slice_from n w : clean w = true → clean (slice_from n w) = true.
Proof.
  revert w. induction n as [|n IH]; intros [|c w]; simpl; try done.
  intros [_ ?]%andb_true_iff. auto.
Qed.

Lemma clean_label w : clean w = true → w ≠ "" → label w.
Proof.
  intros Hc Hne. split; [done|]. destruct w as [|c w]; [done|]. simpl in *.
  by apply andb_true_iff in Hc as [? _].
Qed.

Lemma clean_not_mark w : clean w = true → ¬ mark w.
Proof. intros Hc [->|[->| ->]]; done. Qed.

(** * [isFragment] and its fuel *)

Lemma fragment_loop_find rec w o props :
  fragment_loop rec w o props =
  match head (filter (λ p, starts p w = true) props) with
  | None => Some false
  | Some p => match js_get p o with
              | VObj c => rec (slice_from (String.length p) w) c
              | _ => None
              end
  end.
Proof.
  induction props as [|p props IH]; [done|]. simpl. rewrite filter_cons.
  destruct (starts p w) eqn:Hs.
  - rewrite decide_True by done. done.
  - rewrite decide_False by (by intros ?). done.
Qed.

Lemma isFragment_unfold f w a t :
  isFragment (S f) w a t =
  o ← heap t !! a;
  if (String.length w =? 0) then Some (isTerminal o)
  else if decide (js_get w o = VNum 1) then Some true
  else match find_edge o w with
       | None => Some false
       | Some p => match js_get p o with
                   | VObj c => isFragment f (slice_from (String.length p) w) c t
                   | _ => None
                   end
       end.
Proof.
  simpl. destruct (heap t !! a) as [o|]; [|done]. simpl.
  destruct (_ =? _); [done|]. case_decide; [done|].
  by rewrite fragment_loop_find.
Qed.

Lemma find_edge_elem o w p :
  find_edge o w = Some p → p ∈ nodeProps o true ∧ starts p w = true.
Proof.
  unfold find_edge. intros H%head_Some_elem_of.
  by apply list_elem_of_filter in H as [? ?].
Qed.

Lemma find_edge_None o w :
  find_edge o w = None ↔ ∀ p, p ∈ nodeProps o true → starts p w = false.
Proof.
  unfold find_edge. rewrite head_None. split.
  - intros H p Hp. destruct (starts p w) eqn:Hs; [|done].
    assert (p ∈ filter (λ p, starts p w = true) (nodeProps o true)) as Hin.
    { by apply list_elem_of_filter. }
    rewrite H in Hin. by apply elem_of_nil in Hin.
  - intros H. apply filter_none. apply Forall_forall. intros p Hp.
    rewrite (H p Hp). done.
Qed.

(** With invariant 1 the child property that matches a word is unique. *)
Lemma find_edge_Some o w p :
  prefix_free o → w ≠ "" →
  find_edge o w = Some p ↔ p ∈ nodeProps o true ∧ starts p w = true.
Proof.
  intros Hpf Hw. split; [apply find_edge_elem|]. intros [Hp Hs].
  destruct (find_edge o w) as [q|] eqn:Hq.
  - apply find_edge_elem in Hq as [Hq Hsq]. f_equal.
    apply elem_of_nodeProps in Hp as (Hpk & Lp & _).
    apply elem_of_nodeProps in Hq as (Hqk & Lq & _).
    rewrite prefix_free_spec in Hpf. apply Hpf; try done.
    rewrite <- (starts_first_char q w), <- (starts_first_char p w); try done.
    + apply Lp.
    + apply Lq.
  - rewrite find_edge_None in Hq. rewrite (Hq p Hp) in Hs. done.
Qed.

Lemma find_edge_child n o w p :
  obj_closed n o → find_edge o w = Some p →
  p ≠ "" ∧ ∃ c, js_get p o = VObj c ∧ c < n.
Proof.
  intros Hcl [Hp Hs]%find_edge_elem.
  apply elem_of_nodeProps in Hp as (Hpk & [Hne _] & Hobj).
  specialize (Hobj eq_refl). split; [done|].
  destruct (js_get p o) as [| | |c] eqn:Hg; try done. eauto.
Qed.

Lemma length_slice_lt p w :
  p ≠ "" → w ≠ "" →
  String.length (slice_from (String.length p) w) < String.length w.
Proof.
  intros Hp Hw. rewrite length_slice_from.
  destruct p; [done|]. destruct w; [done|]. simpl. lia.
Qed.

Lemma isFragment_mono f : ∀ w a t b,
  isFragment f w a t = Some b → isFragment (S f) w a t = Some b.
Proof.
  induction f as [|f IH]; intros w a t b H; [done|].
  rewrite isFragment_unfold in H |- *.
  destruct (heap t !! a) as [o|]; [|done]. simpl in *.
  destruct (_ =? _); [done|]. case_decide; [done|].
  destruct (find_edge o w) as [p|]; [|done].
  destruct (js_get p o); try done. by apply IH.
Qed.

Lemma isFragment_mono_le f f' w a t b :
  f ≤ f' → isFragment f w a t = Some b → isFragment f' w a t = Some b.
Proof. intros Hle H. induction Hle; [done|]. by apply isFragment_mono. Qed.

Lemma isFragment_total f : ∀ w a t,
  heap_wf t → a < length (heap t) → String.length w < f →
  is_Some (isFragment f w a t).
Proof.
  induction f as [|f IH]; intros w a t Hwf Ha Hf; [lia|].
  rewrite isFragment_unfold.
  apply lookup_lt_is_Some in Ha as [o Ho]. rewrite Ho. simpl.
  destruct (String.length w =? 0) eqn:Hz; [done|].
  apply Nat.eqb_neq in Hz. case_decide; [done|].
  destruct (find_edge o w) as [p|] eqn:Hp; [|done].
  destruct Hwf as [Hwf' Hroot]. destruct (Hwf' _ _ Ho) as (_ & _ & Hcl).
  destruct (find_edge_child _ _ _ _ Hcl Hp) as (Hpne & c & -> & Hc).
  apply IH; [done|done|].
  assert (Hw : w ≠ "") by (by intros ->).
  pose proof (length_slice_lt p w Hpne Hw). lia.
Qed.

Lemma isFragment_fuel f w a t :
  heap_wf t → a < length (heap t) → String.length w < f →
  isFragment f w a t = member t a w.
Proof.
  intros Hwf Ha Hf. unfold member.
  destruct (isFragment_total (S (String.length w)) w a t) as [b Hb]; [done..|lia|].
  rewrite Hb. eapply isFragment_mono_le; [|exact Hb]. lia.
Qed.

Lemma member_is_Some t a w :
  heap_wf t → a < length (heap t) → is_Some (member t a w).
Proof. intros. apply isFragment_total; auto. Qed.

(** The equation of [isFragment], free of fuel. *)
Lemma member_unfold t a o w :
  heap_wf t → heap t !! a = Some o →
  member t a w =
  if decide (w = "") then Some (isTerminal o)
  else if decide (js_get w o = VNum 1) then Some true
  else match find_edge o w with
       | None => Some false
       | Some p => match js_get p o with
                   | VObj c => member t c (slice_from (String.length p) w)
                   | _ => None
                   end
       end.
Proof.
  intros Hwf Ho. unfold member at 1. rewrite isFragment_unfold, Ho. simpl.
  destruct (decide (w = "")) as [->|Hw]; [done|].
  destruct (String.length w =? 0) eqn:Hz.
  { apply Nat.eqb_eq, str_length_zero in Hz. done. }
  case_decide; [done|].
  destruct (find_edge o w) as [p|] eqn:Hp; [|done].
  destruct Hwf as [Hwf' Hroot]. destruct (Hwf' _ _ Ho) as (_ & _ & Hcl).
  destruct (find_edge_child _ _ _ _ Hcl Hp) as (Hpne & c & -> & Hc).
  apply isFragment_fuel; [by split|done|]. by apply length_slice_lt.
Qed.

(** Bookkeeping fields are invisible to words without underscore. *)
Lemma isFragment_marks f : ∀ w a t t',
  marks_only t t' → clean w = true →
  isFragment f w a t' = isFragment f w a t.
Proof.
  induction f as [|f IH]; intros w a t t' Hm Hc; [done|].
  rewrite !isFragment_unfold.
  destruct (heap t !! a) as [o|] eqn:Ho.
  2:{ destruct Hm as [Hl _]. apply lookup_ge_None in Ho.
      rewrite (proj2 (lookup_ge_None (heap t') a)); [done|lia]. }
  destruct Hm as [Hl Hm'].
  destruct (Hm' _ _ Ho) as (o' & Ho' & Hp & Hg & _). rewrite Ho'. simpl.
  assert (Hterm : isTerminal o' = isTerminal o).
  { unfold isTerminal. rewrite Hg; [done|]. by intros [?|[?|?]]. }
  rewrite Hterm. destruct (_ =? _); [done|].
  rewrite (Hg w) by (by apply clean_not_mark).
  case_decide; [done|].
  unfold find_edge. rewrite Hp. fold (find_edge o w).
  destruct (find_edge o w) as [p|] eqn:Hfp; [|done].
  apply find_edge_elem in Hfp as [Hpin _].
  rewrite (Hg p) by (by eapply nodeProps_not_mark).
  destruct (js_get p o); try done. apply IH; [by split|].
  by apply clean_slice_from.
Qed.

Lemma member_marks t t' a w :
  marks_only t t' → clean w = true → member t' a w = member t a w.
Proof. intros. by apply isFragment_marks. Qed.


(** * One hoist *)

Lemma str_app_ne_l p g : g ≠ "" → p +:+ g ≠ p.
Proof.
  intros Hg Heq. apply Hg. apply (str_app_inv_head p). by rewrite str_app_nil_r.
Qed.

Lemma starts_app_iff p g w : starts (p +:+ g) (p +:+ w) = starts g w.
Proof.
  apply eq_true_iff_eq. rewrite !starts_spec. split.
  - intros [s Hs]. exists s. rewrite str_app_assoc in Hs.
    by apply str_app_inv_head in Hs.
  - intros [s ->]. exists s. by rewrite str_app_assoc.
Qed.

Lemma starts_app_l p g w : starts (p +:+ g) w = true → starts p w = true.
Proof.
  rewrite !starts_spec. intros [s ->]. exists (g +:+ s). by rewrite str_app_assoc.
Qed.

Lemma slice_from_app_app p g w :
  slice_from (String.length (p +:+ g)) (p +:+ w) = slice_from (String.length g) w.
Proof.
  induction p as [|c p IH]; [done|]. rewrite !str_app_cons. simpl. apply IH.
Qed.

Lemma starts_refl p : starts p p = true.
Proof. apply starts_spec. exists "". by rewrite str_app_nil_r. Qed.

Lemma slice_from_self p : slice_from (String.length p) p = "".
Proof. rewrite <- (str_app_nil_r p) at 2. apply slice_from_app. Qed.

Lemma find_edge_single o w q :
  prefix_free o → w ≠ "" →
  (∀ k, k ∈ nodeProps o true → first_char k = first_char w → k = q) →
  find_edge o w =
  if decide (q ∈ nodeProps o true ∧ starts q w = true) then Some q else None.
Proof.
  intros Hpf Hw Hq. case_decide as Hd.
  - by apply find_edge_Some.
  - apply find_edge_None. intros k Hk. destruct (starts k w) eqn:Hs; [|done].
    destruct Hd. assert (k = q) as <-; [|done]. apply Hq; [done|].
    symmetry. apply starts_first_char; [|done].
    by apply elem_of_nodeProps in Hk as (_ & [? _] & _).
Qed.

Lemma member_None t a w : heap t !! a = None → member t a w = None.
Proof. intros H. unfold member. simpl. by rewrite H. Qed.

Section hoist.
Context (t : Trie) (N : nat) (oN : object) (p : string) (c : nat)
        (oC : object) (g : string) (v : value).
Hypothesis Hwf : heap_wf t.
Hypothesis HN : heap t !! N = Some oN.
Hypothesis HC : heap t !! c = Some oC.
Hypothesis Hne : c ≠ N.
Hypothesis Hp : p ∈ obj_keys oN.
Hypothesis Lp : label p.
Hypothesis Hpc : js_get p oN = VObj c.
Hypothesis Hg : ∀ k, k ∈ labels oC ↔ k = g.
Hypothesis Hterm : isTerminal oC = false.
Hypothesis Hv : js_get g oC = v.

Let oN' := obj_set (p +:+ g) v (obj_delete p oN).
Let t' := put N oN' t.

Local Lemma Lg : label g.
Proof. pose proof (proj2 (Hg g) eq_refl) as H. by apply elem_of_labels in H as [_ ?]. Qed.

Local Lemma g_key : g ∈ obj_keys oC.
Proof. pose proof (proj2 (Hg g) eq_refl) as H. by apply elem_of_labels in H as [? _]. Qed.

Local Lemma oC_label k : k ∈ obj_keys oC → label k → k = g.
Proof. intros Hk Lk. apply Hg, elem_of_labels. done. Qed.

Local Lemma wf_N : node_wf (length (heap t)) oN.
Proof. destruct Hwf as [H _]. eauto. Qed.

Local Lemma wf_C : node_wf (length (heap t)) oC.
Proof. destruct Hwf as [H _]. eauto. Qed.

Local Lemma N_first k :
  k ∈ obj_keys oN → label k → first_char k = first_char p → k = p.
Proof.
  intros Hk Lk Hf. destruct wf_N as (_ & Hpf & _).
  rewrite prefix_free_spec in Hpf. by apply Hpf.
Qed.

Local Lemma Lpg : label (p +:+ g).
Proof. by apply label_app. Qed.

Local Lemma first_pg : first_char (p +:+ g) = first_char p.
Proof. apply first_char_app, Lp. Qed.

Local Lemma pg_ne_p : p +:+ g ≠ p.
Proof. apply str_app_ne_l, Lg. Qed.

Local Lemma get_N' k :
  js_get k oN' = if decide (k = p +:+ g) then v
                 else if decide (k = p) then VUndef else js_get k oN.
Proof. unfold oN'. by rewrite js_get_set, js_get_delete. Qed.

Local Lemma keys_N' k :
  k ∈ obj_keys oN' ↔ k = p +:+ g ∨ (k ≠ p ∧ k ∈ obj_keys oN).
Proof. unfold oN'. by rewrite elem_of_keys_set, elem_of_keys_delete. Qed.

Local Lemma wf_N' : node_wf (length (heap t)) oN'.
Proof.
  unfold oN'. apply node_wf_set.
  - apply node_wf_delete, wf_N.
  - destruct v as [| | |d] eqn:Hd; try done. unfold value_closed.
    apply (node_wf_get _ _ g _ wf_C). congruence.
  - intros _ k [Hkp Hk]%elem_of_keys_delete Lk Hf. exfalso. apply Hkp.
    apply N_first; [done..|]. by rewrite Hf, first_pg.
Qed.

Lemma hoist_wf : heap_wf t'.
Proof.
  destruct Hwf as [Hn Hr]. split; [|by unfold t'; rewrite length_put].
  intros a o. unfold t'. rewrite length_put.
  intros [[-> ->]|[_ Ha]]%lookup_put; [apply wf_N'|eauto].
Qed.

Local Lemma term_N' : isTerminal oN' = isTerminal oN.
Proof.
  unfold isTerminal. rewrite get_N'.
  rewrite decide_False by (intros H; symmetry in H; by apply str_app_eq_nil in H as [? _]; destruct Lp).
  rewrite decide_False; [done|]. intros <-. by destruct Lp.
Qed.

Local Lemma nodeProps_N' q :
  q ∈ nodeProps oN' true ↔
  (q = p +:+ g ∧ is_object v = true) ∨ (q ≠ p ∧ q ∈ nodeProps oN true).
Proof.
  rewrite !elem_of_nodeProps, keys_N', get_N'. split.
  - intros ([->|[Hqp Hq]] & Lq & Hobj); specialize (Hobj eq_refl).
    + left. by rewrite decide_True in Hobj.
    + right. split; [done|]. split; [done|]. split; [done|]. intros _.
      destruct (decide (q = p +:+ g)) as [->|?].
      * exfalso. apply pg_ne_p. apply N_first; [done|done|apply first_pg].
      * by rewrite decide_False in Hobj.
  - intros [[-> Hov]|(Hqp & Hq & Lq & Hobj)].
    + split; [by left|]. split; [apply Lpg|]. intros _. by rewrite decide_True.
    + split; [by right|]. split; [done|]. intros _. specialize (Hobj eq_refl).
      destruct (decide (q = p +:+ g)) as [->|?].
      * exfalso. apply pg_ne_p. apply N_first; [done|done|apply first_pg].
      * by rewrite decide_False.
Qed.

Local Lemma lookup_t' a : a ≠ N → heap t' !! a = heap t !! a.
Proof. intros. unfold t'. by apply lookup_put_ne. Qed.

Local Lemma lookup_t'_N : heap t' !! N = Some oN'.
Proof. unfold t'. apply lookup_put_eq. by eapply lookup_lt_Some. Qed.

Local Lemma get_N_B w :
  first_char w = first_char p → label w →
  js_get w oN = if decide (w = p) then VObj c else VUndef.
Proof.
  intros Hf Lw. case_decide as Hd; [by subst|].
  apply js_get_not_key. intros Hk. by apply Hd, N_first.
Qed.

Local Lemma p_edge : p ∈ nodeProps oN true.
Proof. apply elem_of_nodeProps. split_and!; [done..|]. by rewrite Hpc. Qed.

Local Lemma find_N_B w :
  first_char w = first_char p → w ≠ "" →
  find_edge oN w = if starts p w then Some p else None.
Proof.
  intros Hf Hw. rewrite (find_edge_single oN w p); [|apply wf_N|done|].
  - destruct (starts p w); case_decide as Hd; try done.
    + destruct Hd. split; [apply p_edge|done].
    + by destruct Hd.
  - intros k (Hk & Lk & _)%elem_of_nodeProps Hfk. apply N_first; [done..|congruence].
Qed.

Local Lemma get_N'_B w :
  first_char w = first_char p → label w →
  js_get w oN' = if decide (w = p +:+ g) then v else VUndef.
Proof.
  intros Hf Lw. rewrite get_N'. case_decide; [done|]. case_decide; [done|].
  rewrite get_N_B by done. by rewrite decide_False.
Qed.

Local Lemma pg_edge : p +:+ g ∈ nodeProps oN' true ↔ is_object v = true.
Proof.
  rewrite nodeProps_N'. split; [|auto].
  intros [[_ ?]|[Hne' (Hk & Lk & _)%elem_of_nodeProps]]; [done|].
  exfalso. apply pg_ne_p. apply N_first; [done|done|apply first_pg].
Qed.

Local Lemma find_N'_B w :
  first_char w = first_char p → w ≠ "" →
  find_edge oN' w =
  if starts (p +:+ g) w && is_object v then Some (p +:+ g) else None.
Proof.
  intros Hf Hw. rewrite (find_edge_single oN' w (p +:+ g)); [|apply wf_N'|done|].
  - destruct (starts (p +:+ g) w) eqn:Hs, (is_object v) eqn:Ho; simpl;
      case_decide as Hd; try done.
    + destruct Hd. split; [by apply pg_edge|done].
    + destruct Hd as [Hd _]. apply pg_edge in Hd. congruence.
    + by destruct Hd.
    + by destruct Hd.
  - intros k [[-> _]|[Hkp (Hk & Lk & _)%elem_of_nodeProps]]%nodeProps_N' Hfk; [done|].
    exfalso. apply Hkp. apply N_first; [done..|congruence].
Qed.

Local Lemma get_C w' :
  label w' → js_get w' oC = if decide (w' = g) then v else VUndef.
Proof.
  intros Lw. case_decide as Hd; [by subst|].
  apply js_get_not_key. intros Hk. by apply Hd, oC_label.
Qed.

Local Lemma g_edge : g ∈ nodeProps oC true ↔ is_object v = true.
Proof.
  rewrite elem_of_nodeProps, Hv. split; [intros (_ & _ & H); by apply H|].
  intros Ho. split_and!; [apply g_key|apply Lg|done].
Qed.

Local Lemma find_C w' :
  w' ≠ "" →
  find_edge oC w' = if starts g w' && is_object v then Some g else None.
Proof.
  intros Hw. rewrite (find_edge_single oC w' g); [|apply wf_C|done|].
  - destruct (starts g w') eqn:Hs, (is_object v) eqn:Ho; simpl;
      case_decide as Hd; try done.
    + destruct Hd. split; [by apply g_edge|done].
    + destruct Hd as [Hd _]. apply g_edge in Hd. congruence.
    + by destruct Hd.
    + by destruct Hd.
  - intros k (Hk & Lk & _)%elem_of_nodeProps _. by apply oC_label.
Qed.

(** Hoisting the single property of [c] into [N] changes the answer of
    [isFragment] at no node for no word without underscore. *)
Lemma hoist_member : ∀ w a, clean w = true → member t' a w = member t a w.
Proof.
  intros w. remember (String.length w) as n eqn:Hn. revert w Hn.
  induction n as [n IH] using lt_wf_ind. intros w Hn a Hcl.
  destruct (heap t !! a) as [o|] eqn:Ha.
  2:{ rewrite !member_None; [done|done|]. apply lookup_ge_None.
      apply lookup_ge_None in Ha. unfold t'. by rewrite length_put. }
  assert (Hrec : ∀ q d, q ≠ "" → w ≠ "" →
            member t' d (slice_from (String.length q) w)
            = member t d (slice_from (String.length q) w)).
  { intros q d Hq Hw. eapply IH; [|done|by apply clean_slice_from].
    subst n. by apply length_slice_lt. }
  destruct (decide (a = N)) as [->|HaN].
  2:{ rewrite (member_unfold t' a o), (member_unfold t a o);
        [|done|done|apply hoist_wf|by rewrite lookup_t'].
      destruct (decide (w = "")); [done|]. case_decide; [done|].
      destruct (find_edge o w) as [q|] eqn:Hq; [|done].
      destruct (js_get q o); try done. apply Hrec; [|done].
      apply find_edge_elem in Hq as [Hq _].
      by apply elem_of_nodeProps in Hq as (_ & [? _] & _). }
  assert (o = oN) as -> by congruence.
  rewrite (member_unfold t' N oN'), (member_unfold t N oN);
    [|done|done|apply hoist_wf|apply lookup_t'_N].
  rewrite term_N'. destruct (decide (w = "")) as [|Hw]; [done|].
  pose proof (clean_label w Hcl Hw) as Lw.
  destruct (decide (first_char w = first_char p)) as [Hf|Hf].
  - (* the word begins like the hoisted property *)
    rewrite get_N'_B, get_N_B, find_N'_B, find_N_B by done.
    rewrite (decide_False (P := (if decide (w = p) then VObj c else VUndef) = VNum 1))
      by (by case_decide).
    destruct (starts p w) eqn:Hsp.
    2:{ rewrite decide_False.
        - destruct (starts (p +:+ g) w) eqn:Hs; [|done].
          apply starts_app_l in Hs. congruence.
        - case_decide as Hd; [|done]. subst w. rewrite starts_app in Hsp. done. }
    rewrite Hpc. apply starts_slice in Hsp.
    set (w' := slice_from (String.length p) w) in *.
    assert (Hcl' : clean w' = true) by (by apply clean_slice_from).
    rewrite (member_unfold t c oC w') by done. rewrite Hterm.
    destruct (decide (w' = "")) as [Hw'|Hw'].
    { rewrite Hw', str_app_nil_r in Hsp. subst w.
      rewrite decide_False.
      - rewrite <- (str_app_nil_r p) at 2. rewrite starts_app_iff.
        destruct (starts g "") eqn:Hs; [|done].
        apply starts_nil_r in Hs. by destruct Lg.
      - rewrite decide_False by (intros H; symmetry in H; by apply pg_ne_p in H).
        done. }
    pose proof (clean_label w' Hcl' Hw') as Lw'.
    rewrite get_C, find_C by done.
    assert (Hdec : (w = p +:+ g) ↔ (w' = g)).
    { rewrite Hsp. split; [apply str_app_inv_head|by intros ->]. }
    destruct (decide (w' = g)) as [Hwg|Hwg].
    + rewrite (decide_True (P := w = p +:+ g)) by (by apply Hdec).
      case_decide; [done|].
      rewrite Hsp at 1. rewrite starts_app_iff.
      destruct (starts g w' && is_object v) eqn:Hso; [|done].
      rewrite Hv. rewrite get_N'. rewrite decide_True by done.
      destruct v as [| | |d]; try done.
      rewrite Hsp at 1. rewrite slice_from_app_app.
      subst n. eapply IH; [|done|by apply clean_slice_from].
      pose proof (length_slice_lt g w' (proj1 Lg) Hw') as H1.
      rewrite Hsp, str_length_app. lia.
    + rewrite (decide_False (P := w = p +:+ g)) by (by rewrite Hdec).
      rewrite !(decide_False (P := VUndef = VNum 1)) by done.
      rewrite Hsp at 1. rewrite starts_app_iff.
      destruct (starts g w' && is_object v) eqn:Hso; [|done].
      rewrite Hv. rewrite get_N'. rewrite decide_True by done.
      destruct v as [| | |d]; try done.
      rewrite Hsp at 1. rewrite slice_from_app_app.
      subst n. eapply IH; [|done|by apply clean_slice_from].
      pose proof (length_slice_lt g w' (proj1 Lg) Hw') as H1.
      rewrite Hsp, str_length_app. lia.
  - (* the word begins otherwise *)
    assert (Hwp : w ≠ p) by (by intros ->).
    assert (Hwpg : w ≠ p +:+ g).
    { intros ->. by rewrite first_pg in Hf. }
    rewrite get_N'.
    rewrite (decide_False (P := w = p +:+ g)), (decide_False (P := w = p)) by done.
    case_decide; [done|].
    assert (Hfe : find_edge oN' w = find_edge oN w).
    { destruct (find_edge oN w) as [q|] eqn:Hq.
      - apply find_edge_elem in Hq as [Hq Hs].
        apply find_edge_Some; [apply wf_N'|done|]. split; [|done].
        apply nodeProps_N'. right. split; [|done]. intros ->.
        apply Hf. apply starts_first_char; [apply Lp|done].
      - rewrite find_edge_None in Hq |- *.
        intros q [[-> _]|[_ Hq']]%nodeProps_N'; [|auto].
        destruct (starts (p +:+ g) w) eqn:Hs; [|done].
        destruct Hf. rewrite <- first_pg. apply starts_first_char; [|done].
        apply Lpg. }
    rewrite Hfe. destruct (find_edge oN w) as [q|] eqn:Hq; [|done].
    apply find_edge_elem in Hq as [Hq Hs].
    assert (Hqne : q ≠ "") by (by apply elem_of_nodeProps in Hq as (_ & [? _] & _)).
    assert (Hfq : first_char w = first_char q) by (by apply starts_first_char).
    rewrite get_N'.
    rewrite (decide_False (P := q = p +:+ g)), (decide_False (P := q = p)).
    + destruct (js_get q oN); try done. by apply Hrec.
    + intros ->. done.
    + intros ->. by rewrite first_pg in Hfq.
Qed.
End hoist.


(** * The record of hoists does not change what is computed *)

Lemma collapse_loop_erase rec rec_log node :
  (∀ n t, rec n t = fst <$> rec_log n t) →
  ∀ props last t,
    collapse_loop rec node props last t
    = (λ r, (r.1.1, r.1.2)) <$> collapse_loop_log rec_log node props last t.
Proof.
  intros Hrec. induction props as [|prop props IH]; intros last t; [done|].
  simpl. destruct (heap t !! node) as [o|]; [|done]. simpl.
  destruct (js_get prop o) as [| | |child]; try apply IH.
  rewrite Hrec. destruct (rec_log child t) as [[t1 log1]|]; [|done]. simpl.
  destruct (heap t1 !! child) as [c|]; [|done]. simpl.
  destruct (hoistable c t1).
  - destruct (hoist_child node prop child t1) as [[prop' t2]|]; [|done]. simpl.
    rewrite IH.
    by destruct (collapse_loop_log rec_log node props (Some prop') t2) as [[[??]?]|].
  - rewrite IH.
    by destruct (collapse_loop_log rec_log node props (Some prop) t1) as [[[??]?]|].
Qed.

Lemma collapseChains_erase fuel : ∀ n t,
  collapseChains fuel n t = fst <$> collapseChains_log fuel n t.
Proof.
  induction fuel as [|fuel IH]; intros n t; [done|]. simpl.
  destruct (visited n t) as [[[] t1]|]; [done| |done]. simpl.
  destruct (heap t1 !! n) as [o|]; [|done]. simpl.
  rewrite (collapse_loop_erase _ (collapseChains_log fuel)) by done.
  destruct (collapse_loop_log _ _ _ _ _) as [[[last t2] log]|]; [|done]. simpl.
  destruct (heap t2 !! n) as [o2|]; [|done]. simpl.
  destruct (_ && _); [|done].
  by destruct (set_prop n "_g" (last_prop last) t2).
Qed.

(** * Small steps *)

Lemma put_put n o o' t : put n o' (put n o t) = put n o' t.
Proof. unfold put, set_heap. simpl. by rewrite list_insert_insert_eq. Qed.

Lemma same_members_refl t : same_members t t.
Proof. by intros w a _. Qed.

Lemma same_members_trans t1 t2 t3 :
  same_members t1 t2 → same_members t2 t3 → same_members t1 t3.
Proof. intros H1 H2 w a Hc. by rewrite H2, H1. Qed.

Lemma same_members_marks t t' : marks_only t t' → same_members t t'.
Proof. intros Hm w a Hc. by apply member_marks. Qed.

Lemma unvisited_put_same n o o' t :
  heap t !! n = Some o → is_visited (vCur t) o' = is_visited (vCur t) o →
  unvisited (put n o' t) = unvisited t.
Proof.
  intros Hn Hv. pose proof (unvisited_put n o o' t Hn) as H. rewrite Hv in H. lia.
Qed.

Lemma singleton_list (l : list string) g :
  NoDup l → (∀ k, k ∈ l ↔ k = g) → l = [g].
Proof.
  intros Hnd Hl. destruct l as [|a l].
  - exfalso. by apply (elem_of_nil g), Hl.
  - assert (a = g) as -> by (apply Hl; by left).
    destruct l as [|b l]; [done|]. exfalso.
    assert (b = g) as -> by (apply Hl; right; by left).
    apply NoDup_cons in Hnd as [Hn _]. apply Hn. by left.
Qed.

Lemma labels_nodeProps o k : k ∈ nodeProps o false ↔ k ∈ labels o.
Proof. by rewrite nodeProps_labels. Qed.

Lemma obj_marks_labels o o' k : obj_marks o o' → k ∈ labels o' ↔ k ∈ labels o.
Proof. intros (Hp & _). by rewrite <- !labels_nodeProps, Hp. Qed.

Lemma obj_marks_terminal o o' : obj_marks o o' → isTerminal o' = isTerminal o.
Proof.
  intros (_ & Hg & _). unfold isTerminal. rewrite Hg; [done|].
  by intros [?|[?|?]].
Qed.

Lemma marks_wf n o o' : obj_marks o o' → node_wf n o → node_wf n o'.
Proof.
  intros (Hp & Hg & Hk & Hv & Hn) (Hnd & Hpf & Hcl). split_and!; [auto|..].
  - rewrite prefix_free_spec in Hpf |- *. intros k1 k2 H1 H2 L1 L2.
    pose proof (label_not_mark _ L1). pose proof (label_not_mark _ L2).
    apply Hpf; try done; by apply Hk.
  - intros k c Hkc. destruct (Hv k) as [He|He]; [|by rewrite Hkc in He].
    rewrite He in Hkc. eauto.
Qed.

Lemma heap_wf_put n o o' t :
  heap_wf t → heap t !! n = Some o → node_wf (length (heap t)) o' →
  heap_wf (put n o' t).
Proof.
  intros [Hwf Hr] Hn Ho'. split; [|by rewrite length_put].
  intros a oa. rewrite length_put. intros [[-> ->]|[_ Ha]]%lookup_put; eauto.
Qed.

(** * The body of the loop *)

Lemma hoistable_spec c t :
  hoistable c t = true →
  js_get "_g" c ≠ VUndef
  ∧ (js_get "_d" c = VNum 1 ∨ js_length (js_get "_g" c) t = VNum 1).
Proof.
  unfold hoistable. intros [H1 H2]%andb_true_iff.
  apply negb_true_iff, bool_decide_eq_false in H1.
  apply orb_true_iff in H2 as [H2|H2]; apply bool_decide_eq_true in H2; auto.
Qed.

Lemma js_get_hoisted k p g v o :
  js_get k (obj_set (p +:+ g) v (obj_delete p o))
  = if decide (k = p +:+ g) then v
    else if decide (k = p) then VUndef else js_get k o.
Proof. by rewrite js_get_set, js_get_delete. Qed.

Lemma label_app_ne p g k : label p → ¬ label k → k ≠ p +:+ g.
Proof. intros Lp Hk ->. by apply Hk, label_app. Qed.

Lemma not_label_nil : ¬ label "".
Proof. by intros [? _]. Qed.

Lemma hoist_step s node o prop child oC :
  collapse_inv s → heap s !! node = Some o →
  is_visited (vCur s) o = true → js_get "_g" o = VUndef →
  prop ∈ labels o → js_get prop o = VObj child →
  heap s !! child = Some oC → hoistable oC s = true →
  ∃ g, let o' := obj_set (prop +:+ g) (js_get g oC) (obj_delete prop o) in
       let s' := put node o' s in
       hoist_child node prop child s = Some (prop +:+ g, s')
       ∧ collapse_inv s' ∧ same_members s s'
       ∧ is_visited (vCur s) o' = true ∧ js_get "_g" o' = VUndef
       ∧ isTerminal o' = isTerminal o
       ∧ (∀ k, k ∈ labels o' ↔ k = prop +:+ g ∨ (k ≠ prop ∧ k ∈ labels o))
       ∧ hoist_ok (mkHoist node prop child oC).
Proof.
  intros [Hwf Hgok] Hnode Hvis Hgn [Hpk Lp]%elem_of_labels Hpc Hc Hh.
  apply hoistable_spec in Hh as [Hgc Hdeg].
  destruct (Hgok _ _ Hc Hgc) as (Hvc & Htc & g & Hg & Hlab).
  assert (Hne : child ≠ node).
  { intros ->. assert (oC = o) as -> by congruence. congruence. }
  assert (Lg : label g).
  { pose proof (proj2 (Hlab g) eq_refl) as H. by apply elem_of_labels in H as [_ ?]. }
  exists g. intros o' s'.
  assert (Hnode_lt : node < length (heap s)) by (by eapply lookup_lt_Some).
  assert (Hwf' : heap_wf s').
  { unfold s', o'. eapply (hoist_wf s node o prop child oC g); eauto. }
  assert (Hget : ∀ k, ¬ label k → js_get k o' = js_get k o).
  { intros k Hk. unfold o'. rewrite js_get_hoisted.
    rewrite decide_False by (by apply label_app_ne).
    rewrite decide_False; [done|]. by intros ->. }
  assert (Hg' : js_get "_g" o' = VUndef).
  { rewrite Hget; [done|apply not_label_g]. }
  split_and!.
  - unfold hoist_child, delete_prop. rewrite Hnode. cbn [mbind option_bind].
    rewrite lookup_put_ne by done. rewrite Hc. cbn [mbind option_bind].
    rewrite Hg. cbn [to_string]. unfold set_prop.
    rewrite lookup_put_eq by done. cbn [mbind option_bind]. by rewrite put_put.
  - split; [done|]. intros a oa Ha Hga.
    change (vCur s') with (vCur s).
    apply lookup_put in Ha as [[-> ->]|[_ Ha]]; [congruence|]. eauto.
  - intros w a Hcl. unfold s', o'.
    eapply (hoist_member s node o prop child oC g); eauto.
  - unfold is_visited in *. rewrite Hget; [done|apply not_label_v].
  - done.
  - unfold isTerminal. rewrite Hget; [done|apply not_label_nil].
  - intros k. rewrite !elem_of_labels. unfold o'.
    rewrite elem_of_keys_set, elem_of_keys_delete. split.
    + intros [[->|[??]] Lk]; auto.
    + intros [->|(? & ? & ?)]; [|auto]. split; [by left|by apply label_app].
  - exists g. simpl. split_and!; [done| |done|].
    + apply singleton_list.
      * apply NoDup_nodeProps. destruct Hwf as [Hw _].
        by destruct (Hw _ _ Hc) as (? & _).
      * intros k. by rewrite labels_nodeProps.
    + destruct Hdeg as [?|Hl]; [by left|right].
      rewrite Hg in Hl. simpl in Hl. injection Hl as Hl. lia.
Qed.

(** * The loop *)

Lemma frame_visited s s' :
  vCur s' = vCur s →
  (∀ a o, heap s !! a = Some o → is_visited (vCur s) o = true →
          heap s' !! a = Some o) →
  ∀ a, visited_in s a → visited_in s' a.
Proof.
  intros Hv Hf a (o & Ha & Hvo). exists o. rewrite Hv. eauto.
Qed.

Lemma collapse_loop_post_cons node o prop rest last s s1 o1 q last' s' log1 log2 :
  length (heap s1) = length (heap s) → same_meta s s1 →
  (∀ a oa, a ≠ node → heap s !! a = Some oa →
           is_visited (vCur s) oa = true → heap s1 !! a = Some oa) →
  isTerminal o1 = isTerminal o →
  (∀ k, k ∈ labels o1 → ∃ k0, k0 ∈ labels o ∧ first_char k = first_char k0) →
  q ∈ labels o1 →
  same_members s s1 → Forall hoist_ok log1 →
  collapse_loop_post node o1 rest (Some q) s1 last' s' log2 →
  collapse_loop_post node o (prop :: rest) last s last' s' (log1 ++ log2).
Proof.
  intros Hlen Hmeta Hframe Hterm Hfirst Hq Hmem Hlog1
    (Hinv' & Hlen' & Hmeta' & Hframe' & (o' & Ho' & Hvo' & Hgo' & Hto' & Hfo' & Hlast' & Hnil') & Hmem' & Hlog2).
  pose proof (same_meta_vCur _ _ Hmeta) as Hv1.
  unfold collapse_loop_post. split_and!.
  - done.
  - congruence.
  - eauto using same_meta_trans.
  - intros a oa Hne Ha Hva. apply Hframe'; [done| |by rewrite Hv1].
    by apply Hframe.
  - exists o'. split_and!; try done.
    + by rewrite <- Hv1.
    + congruence.
    + intros k Hk. destruct (Hfo' k Hk) as (k1 & Hk1 & Hf1).
      destruct (Hfirst k1 Hk1) as (k0 & Hk0 & Hf0). exists k0. split; congruence.
    + intros _. destruct rest as [|p' rest'].
      * destruct Hnil' as [-> ->]; [done|]. eauto.
      * by apply Hlast'.
  - eauto using same_members_trans.
  - by apply Forall_app.
Qed.

Lemma collapse_loop_spec rec fuel node :
  (∀ c s, collapse_inv s → c < length (heap s) → unvisited s < fuel →
          ∃ s' log, rec c s = Some (s', log) ∧ collapse_post c s s' log) →
  ∀ props last s o,
    collapse_inv s → heap s !! node = Some o →
    is_visited (vCur s) o = true → js_get "_g" o = VUndef →
    unvisited s < fuel → NoDup props → (∀ p, p ∈ props → p ∈ labels o) →
    ∃ last' s' log,
      collapse_loop_log rec node props last s = Some (last', s', log)
      ∧ collapse_loop_post node o props last s last' s' log.
Proof.
  intros Hrec. induction props as [|prop rest IH];
    intros last s o Hinv Hnode Hvis Hg Hfuel Hnd Hprops.
  { exists last, s, []. split; [done|]. unfold collapse_loop_post.
    split_and!; [done|done|apply same_meta_refl|done| |apply same_members_refl|done].
    exists o. split_and!; [done|done|done|done|eauto|done|done]. }
  apply NoDup_cons in Hnd as [Hnin Hnd].
  assert (Hp : prop ∈ labels o) by (apply Hprops; by left).
  assert (Hrest : ∀ p, p ∈ rest → p ∈ labels o) by (intros; apply Hprops; by right).
  cbn [collapse_loop_log]. rewrite Hnode. cbn [mbind option_bind].
  assert (Hstay : ∃ last' s' log,
             collapse_loop_log rec node rest (Some prop) s = Some (last', s', log)
             ∧ collapse_loop_post node o (prop :: rest) last s last' s' log).
  { destruct (IH (Some prop) s o) as (last' & s' & log & Hloop & Hpost); try done.
    exists last', s', log. split; [done|].
    change log with ([] ++ log).
    eapply collapse_loop_post_cons; eauto using same_members_refl, same_meta_refl. }
  destruct (js_get prop o) as [| | |child] eqn:Hpc; try done.
  clear Hstay.
  assert (Hchild : child < length (heap s)).
  { destruct Hinv as [[Hw _] _]. destruct (Hw _ _ Hnode) as (_ & _ & Hcl). eauto. }
  destruct (Hrec child s Hinv Hchild Hfuel)
    as (s1 & log1 & Hr & Hinv1 & Hlen1 & Hmeta1 & Hframe1 & Hvc1 & Hmem1 & Hlog1).
  rewrite Hr. cbn [mbind option_bind].
  pose proof (same_meta_vCur _ _ Hmeta1) as Hv1.
  assert (Hnode1 : heap s1 !! node = Some o) by (by apply Hframe1).
  assert (Hfuel1 : unvisited s1 < fuel).
  { eapply Nat.le_lt_trans; [|exact Hfuel].
    apply unvisited_mono; [done|done|]. by apply frame_visited. }
  destruct (lookup_lt_is_Some_2 (heap s1) child) as [oC HoC]; [lia|].
  rewrite HoC. cbn [mbind option_bind].
  destruct (hoistable oC s1) eqn:Hh.
  - destruct (hoist_step s1 node o prop child oC) as
      (g & Hhoist & Hinv2 & Hmem2 & Hvis2 & Hg2 & Hterm2 & Hlab2 & Hok);
      try done; [by rewrite Hv1|].
    rewrite Hhoist. cbn [mbind option_bind].
    set (o2 := obj_set (prop +:+ g) (js_get g oC) (obj_delete prop o)) in *.
    set (s2 := put node o2 s1) in *.
    assert (Hnode_lt : node < length (heap s1)) by (by eapply lookup_lt_Some).
    destruct (IH (Some (prop +:+ g)) s2 o2) as (last' & s' & log2 & Hloop & Hpost);
      try done.
    { unfold s2. by apply lookup_put_eq. }
    { unfold s2. rewrite (unvisited_put_same node o); [done|done|].
      by rewrite Hvis2, Hv1. }
    { intros p Hpr. apply Hlab2. right. split; [by intros ->|auto]. }
    rewrite Hloop. cbn [mbind option_bind].
    exists last', s', (log1 ++ mkHoist node prop child oC :: log2).
    split; [done|]. rewrite cons_middle, app_assoc.
    eapply (collapse_loop_post_cons node o prop rest last s s2 o2 (prop +:+ g)).
    + unfold s2. by rewrite length_put.
    + eapply same_meta_trans; [exact Hmeta1|]. by repeat split.
    + intros a oa Hne Ha Hva. unfold s2. rewrite lookup_put_ne by done.
      by apply Hframe1.
    + done.
    + intros k [->|[_ Hk]]%Hlab2; [|eauto].
      exists prop. split; [done|]. apply first_char_app.
      by apply elem_of_labels in Hp as [_ [? _]].
    + apply Hlab2. by left.
    + eauto using same_members_trans.
    + apply Forall_app. split; [done|]. by repeat constructor.
    + done.
  - destruct (IH (Some prop) s1 o) as (last' & s' & log2 & Hloop & Hpost);
      try done; [by rewrite Hv1|].
    rewrite Hloop. cbn [mbind option_bind].
    exists last', s', (log1 ++ log2). split; [done|].
    eapply (collapse_loop_post_cons node o prop rest last s s1 o prop); eauto.
Qed.

(** * The traversal *)

Lemma collapse_inv_mark n o o' t :
  collapse_inv t → heap t !! n = Some o → obj_marks o o' →
  (js_get "_g" o' ≠ VUndef →
     is_visited (vCur t) o' = true ∧ isTerminal o' = false
     ∧ ∃ g, js_get "_g" o' = VStr g ∧ ∀ k, k ∈ labels o' ↔ k = g) →
  collapse_inv (put n o' t).
Proof.
  intros [Hwf Hgok] Hn Hm Hg. split.
  - eapply heap_wf_put; eauto. eapply marks_wf; eauto.
    destruct Hwf as [Hw _]. eauto.
  - intros a oa [[-> ->]|[_ Ha]]%lookup_put; [done|]. exact (Hgok _ _ Ha).
Qed.

Lemma collapseChains_log_spec fuel : ∀ n t,
  collapse_inv t → n < length (heap t) → unvisited t < fuel →
  ∃ t' log, collapseChains_log fuel n t = Some (t', log)
            ∧ collapse_post n t t' log.
Proof.
  induction fuel as [|fuel IH]; intros n t Hinv Hn Hfuel; [lia|].
  apply lookup_lt_is_Some in Hn as [o0 Ho0].
  cbn [collapseChains_log]. unfold visited. rewrite Ho0. cbn [mbind option_bind].
  destruct (decide (js_get "_v" o0 = VNum (vCur t))) as [Hseen|Hseen].
  { exists t, []. split; [done|]. unfold collapse_post.
    split_and!; [done|done|apply same_meta_refl|done| |apply same_members_refl|done].
    exists o0. split; [done|]. by apply bool_decide_eq_true. }
  set (o := obj_set "_v" (VNum (vCur t)) o0).
  set (t1 := put n o t).
  assert (Hn_lt : n < length (heap t)) by (by eapply lookup_lt_Some).
  assert (Hv0 : is_visited (vCur t) o0 = false) by (by apply bool_decide_eq_false).
  assert (Hvo : is_visited (vCur t) o = true) by apply is_visited_set_v.
  assert (Hmo : obj_marks o0 o) by (apply obj_marks_set; auto using mark_v).
  assert (Hg0 : js_get "_g" o0 = VUndef).
  { destruct (decide (js_get "_g" o0 = VUndef)) as [|Hne]; [done|].
    destruct Hinv as [_ Hgok]. destruct (Hgok _ _ Ho0 Hne) as (? & _). congruence. }
  assert (Hgo : js_get "_g" o = VUndef).
  { unfold o. by rewrite js_get_set_ne. }
  assert (Hinv1 : collapse_inv t1).
  { eapply collapse_inv_mark; eauto. by rewrite Hgo. }
  assert (Ho1 : heap t1 !! n = Some o) by (by apply lookup_put_eq).
  assert (HU1 : unvisited t1 + 1 = unvisited t).
  { pose proof (unvisited_put n o0 o t Ho0) as H. fold t1 in H.
    rewrite Hv0, Hvo in H. lia. }
  cbn [mbind option_bind]. rewrite Ho1. cbn [mbind option_bind].
  set (props := nodeProps o false).
  assert (Hnd : NoDup props).
  { apply NoDup_nodeProps. destruct Hinv1 as [[Hw _] _].
    by destruct (Hw _ _ Ho1) as (? & _). }
  destruct (collapse_loop_spec (collapseChains_log fuel) fuel n IH props None t1 o)
    as (last' & t2 & log & Hloop & Hinv2 & Hlen2 & Hmeta2 & Hframe2
        & (o' & Ho' & Hvo' & Hgo' & Hto' & Hfo' & Hlast' & _) & Hmem2 & Hlog);
    try done; [lia|by intros p ?%labels_nodeProps|].
  rewrite Hloop. cbn [mbind option_bind]. rewrite Ho'. cbn [mbind option_bind].
  pose proof (same_meta_vCur _ _ Hmeta2) as Hv2. change (vCur t1) with (vCur t) in *.
  assert (Hm01 : marks_only t t1) by (by apply marks_only_put with o0).
  assert (Hframe02 : ∀ a oa, heap t !! a = Some oa →
            is_visited (vCur t) oa = true → heap t2 !! a = Some oa).
  { intros a oa Ha Hva. assert (a ≠ n) by (intros ->; congruence).
    apply Hframe2; [done| |done]. unfold t1. by rewrite lookup_put_ne. }
  assert (Hmem02 : same_members t t2).
  { eapply same_members_trans; [by apply same_members_marks|done]. }
  assert (Hmeta02 : same_meta t t2).
  { eapply same_meta_trans; [|exact Hmeta2]. by repeat split. }
  destruct ((length props =? 1) && negb (isTerminal o')) eqn:Hcond.
  2:{ exists t2, log. split; [done|]. unfold collapse_post.
      split_and!; [done| |done|done| |done|done].
      - rewrite Hlen2. apply length_put.
      - exists o'. split; [done|]. by rewrite Hv2. }
  apply andb_true_iff in Hcond as [Hlen1 Hnt].
  apply Nat.eqb_eq in Hlen1. apply negb_true_iff in Hnt.
  destruct props as [|p0 [|? ?]] eqn:Hprops; try done.
  destruct Hlast' as (q & -> & Hq); [done|].
  unfold set_prop. rewrite Ho'. cbn [mbind option_bind last_prop].
  set (o3 := obj_set "_g" (VStr q) o').
  set (t3 := put n o3 t2).
  assert (Hm3 : obj_marks o' o3) by (apply obj_marks_set; auto using mark_g).
  assert (Hlab : ∀ k, k ∈ labels o' ↔ k = q).
  { intros k. split; [|by intros ->]. intros Hk.
    destruct (Hfo' k Hk) as (k0 & Hk0 & Hf0).
    destruct (Hfo' q Hq) as (q0 & Hq0 & Hfq).
    apply labels_nodeProps in Hk0, Hq0. fold props in Hk0, Hq0.
    rewrite Hprops in Hk0, Hq0.
    apply list_elem_of_singleton in Hk0 as ->.
    apply list_elem_of_singleton in Hq0 as ->.
    destruct Hinv2 as [[Hw _] _]. destruct (Hw _ _ Ho') as (_ & Hpf & _).
    rewrite prefix_free_spec in Hpf.
    apply elem_of_labels in Hk as [? ?]. apply elem_of_labels in Hq as [? ?].
    apply Hpf; try done. congruence. }
  exists t3, log. split; [done|]. unfold collapse_post.
  split_and!.
  - eapply collapse_inv_mark; eauto. intros _.
    rewrite Hv2. split_and!.
    + unfold o3, is_visited. by rewrite js_get_set_ne.
    + by rewrite (obj_marks_terminal _ _ Hm3).
    + exists q. split; [apply js_get_set_eq|]. intros k.
      by rewrite (obj_marks_labels _ _ _ Hm3).
  - unfold t3. rewrite length_put, Hlen2. apply length_put.
  - eapply same_meta_trans; [exact Hmeta02|]. by repeat split.
  - intros a oa Ha Hva. assert (a ≠ n) by (intros ->; congruence).
    unfold t3. rewrite lookup_put_ne by done. by apply Hframe02.
  - exists o3. split; [apply lookup_put_eq; by eapply lookup_lt_Some|].
    change (vCur t3) with (vCur t2). rewrite Hv2.
    unfold o3, is_visited. by rewrite js_get_set_ne.
  - eapply same_members_trans; [exact Hmem02|].
    apply same_members_marks. by apply marks_only_put with o'.
  - done.
Qed.


(** * [countDegree] leaves [_g] alone *)

Lemma g_same_refl t : g_same t t.
Proof. intros a o Ha. eauto. Qed.

Lemma g_same_trans t1 t2 t3 : g_same t1 t2 → g_same t2 t3 → g_same t1 t3.
Proof.
  intros H1 H2 a o3 Ha3. destruct (H2 _ _ Ha3) as (o2 & Ha2 & Hg2).
  destruct (H1 _ _ Ha2) as (o1 & Ha1 & Hg1). exists o1. split; congruence.
Qed.

Lemma g_same_put n o o' t :
  heap t !! n = Some o → js_get "_g" o' = js_get "_g" o → g_same t (put n o' t).
Proof. intros Hn Hg a oa [[-> ->]|[_ Ha]]%lookup_put; eauto. Qed.

Lemma count_loop_g rec n :
  (∀ c s s', rec c s = Some s' → g_same s s') →
  ∀ props s s', count_loop rec n props s = Some s' → g_same s s'.
Proof.
  intros Hrec. induction props as [|prop props IH]; intros s s' Hl.
  { injection Hl as <-. apply g_same_refl. }
  simpl in Hl. apply bind_Some in Hl as (o & Ho & Hl).
  destruct (js_get prop o); try done.
  apply bind_Some in Hl as (s1 & Hr & Hl).
  eauto using g_same_trans.
Qed.

Lemma countDegree_g fuel : ∀ n t t',
  countDegree fuel n t = Some t' → g_same t t'.
Proof.
  induction fuel as [|fuel IH]; intros n t t' Hc; [done|].
  simpl in Hc. apply bind_Some in Hc as (o & Ho & Hc).
  apply bind_Some in Hc as (d & Hd & Hc).
  set (o1 := if decide (js_get "_d" o = VUndef)
             then obj_set "_d" (VNum 0) o else o) in *.
  set (oA := obj_set "_d" d o1) in *.
  assert (HgA : js_get "_g" oA = js_get "_g" o).
  { unfold oA, o1. rewrite js_get_set_ne by done.
    case_decide; [by rewrite js_get_set_ne|done]. }
  assert (H1 : g_same t (put n oA t)) by (by apply g_same_put with o).
  unfold visited in Hc. rewrite lookup_put_eq in Hc by (by eapply lookup_lt_Some).
  cbn [mbind option_bind] in Hc.
  case_decide.
  { cbn [mbind option_bind] in Hc. by injection Hc as <-. }
  cbn [mbind option_bind] in Hc.
  apply bind_Some in Hc as (o2 & Ho2 & Hc).
  apply count_loop_g in Hc; [|exact IH].
  eapply g_same_trans; [|exact Hc].
  eapply g_same_trans; [exact H1|].
  eapply g_same_put.
  - apply lookup_put_eq. by eapply lookup_lt_Some.
  - by rewrite js_get_set_ne.
Qed.

(** * From the builder to the state that [collapseChains] receives *)

Lemma builder_fresh t : builder_inv t → fresh_marks (prepDFS t).
Proof.
  intros Hinv a o Ha. destruct (builder_inv_no_g t a o Hinv Ha) as (_ & Hd & Hv).
  rewrite (js_get_not_key "_d"), (js_get_not_key "_v"); done.
Qed.

Lemma heap_wf_prepDFS t : heap_wf t → heap_wf (prepDFS t).
Proof. done. Qed.

Lemma optimize_prepare_inv t p :
  builder_inv t → optimize_prepare t = Some p →
  collapse_inv p ∧ root p = root t
  ∧ ∃ r t1 t2,
      combineSuffixNode (S (length (heap t))) (root t) t = Some (r, t1)
      ∧ builder_inv t1
      ∧ countDegree (S (length (heap (prepDFS t1)))) (root (prepDFS t1))
          (prepDFS t1) = Some t2
      ∧ p = prepDFS t2.
Proof.
  intros Hinv Hp. unfold optimize_prepare in Hp.
  apply bind_Some in Hp as ([r t1] & Hc & Hp).
  apply bind_Some in Hp as (t2 & Hcd & [= <-]).
  pose proof (combineSuffixNode_inv _ _ _ _ _ Hinv Hc)
    as (Hinv1 & _ & _ & Hroot1 & _ & _).
  destruct (countDegree_total (prepDFS t1)) as (t2' & Hcd' & Hwf2 & Hm2 & Hmeta2 & _);
    [apply Hinv1|by apply builder_fresh|].
  assert (t2' = t2) as -> by congruence.
  split; [|split].
  - split; [done|]. intros a o Ha Hg. exfalso. apply Hg.
    destruct (countDegree_g _ _ _ _ Hcd a o Ha) as (o1 & Ha1 & ->).
    apply js_get_not_key. by destruct (builder_inv_no_g t1 a o1 Hinv1 Ha1) as (? & _).
  - simpl. rewrite (same_meta_root _ _ Hmeta2). done.
  - exists r, t1, t2. done.
Qed.

(** After the canonicalizer the first half of [optimize] always completes. *)
Lemma optimize_prepare_total t r t1 :
  builder_inv t →
  combineSuffixNode (S (length (heap t))) (root t) t = Some (r, t1) →
  is_Some (optimize_prepare t).
Proof.
  intros Hinv Hc. unfold optimize_prepare. rewrite Hc. cbn [mbind option_bind].
  pose proof (combineSuffixNode_inv _ _ _ _ _ Hinv Hc) as (Hinv1 & _).
  destruct (countDegree_total (prepDFS t1)) as (t2 & Hcd & _);
    [apply Hinv1|by apply builder_fresh|].
  rewrite Hcd. done.
Qed.

Lemma collapse_total p :
  collapse_inv p →
  ∃ t' log,
    collapseChains_log (S (length (heap p))) (root p) p = Some (t', log)
    ∧ collapseChains (S (length (heap p))) (root p) p = Some t'
    ∧ collapse_post (root p) p t' log.
Proof.
  intros Hinv.
  destruct (collapseChains_log_spec (S (length (heap p))) (root p) p)
    as (t' & log & Hc & Hpost); [done|apply Hinv|pose proof (unvisited_le p); lia|].
  exists t', log. split; [done|]. split; [|done].
  by rewrite collapseChains_erase, Hc.
Qed.

(** The stamped nodes can be listed. *)
Lemma visited_listing t : ∃ l, NoDup l ∧ ∀ a, a ∈ l ↔ visited_in t a.
Proof.
  exists (filter (λ a, is_visited (vCur t) (node_at t a) = true)
            (seq 0 (length (heap t)))).
  split; [apply NoDup_filter, NoDup_seq|].
  intros a. rewrite list_elem_of_filter, elem_of_seq. unfold visited_in, node_at.
  split.
  - intros [Hv [_ Hlt]]. destruct (lookup_lt_is_Some_2 (heap t) a) as [o Ho]; [lia|].
    rewrite Ho in Hv. eauto.
  - intros (o & Ho & Hv). rewrite Ho. split; [done|].
    apply lookup_lt_Some in Ho. lia.
Qed.


(** * [uniqueNode] against the path of a word *)

Lemma unique_loop_find rec w other o props :
  unique_loop rec w other o props =
  match head (filter (λ p, starts p w = true) props) with
  | None => Some None
  | Some p =>
      match js_get p o with
      | VObj c =>
          if negb (starts p other) then Some (Some c)
          else rec (slice_from (String.length p) w)
                   (slice_from (String.length p) other) c
      | _ => None
      end
  end.
Proof.
  induction props as [|p props IH]; [done|]. simpl. rewrite filter_cons.
  destruct (starts p w) eqn:Hs.
  - rewrite decide_True by done. done.
  - rewrite decide_False by (by intros ?). done.
Qed.

Lemma path_unfold f pre w n t :
  path (S f) pre w n t =
  match heap t !! n with
  | None => []
  | Some o =>
      match find_edge o w with
      | Some prop =>
          match js_get prop o with
          | VObj child =>
              (pre +:+ prop, child)
              :: path f (pre +:+ prop)
                   (slice_from (String.length prop) w) child t
          | _ => []
          end
      | None => []
      end
  end.
Proof. done. Qed.

(** Every entry of a path extends the property taken at its first node. *)
Lemma path_prefix fuel : ∀ pre w n t e,
  e ∈ path fuel pre w n t →
  ∃ o p x, heap t !! n = Some o ∧ find_edge o w = Some p
           ∧ e.1 = pre +:+ (p +:+ x).
Proof.
  induction fuel as [|fuel IH]; intros pre w n t e He.
  { by apply elem_of_nil in He. }
  rewrite path_unfold in He.
  destruct (heap t !! n) as [o|] eqn:Ho; [|by apply elem_of_nil in He].
  destruct (find_edge o w) as [p|] eqn:Hp; [|by apply elem_of_nil in He].
  destruct (js_get p o) as [| | |c] eqn:Hg; try by apply elem_of_nil in He.
  exists o, p. apply elem_of_cons in He as [->|He].
  - exists "". simpl. by rewrite str_app_nil_r.
  - apply IH in He as (o' & p' & x & _ & _ & ->).
    exists (p' +:+ x). split; [done|]. split; [done|].
    by rewrite str_app_assoc.
Qed.

Lemma find_edge_label o w p : find_edge o w = Some p → p ≠ "".
Proof.
  intros [Hp _]%find_edge_elem.
  by apply elem_of_nodeProps in Hp as (_ & [? _] & _).
Qed.

Lemma uniqueNode_path fuel : ∀ fo pre word other node t A,
  heap_wf t → node < length (heap t) →
  String.length word < fuel → String.length other < fo →
  (∀ e, e ∈ A → String.length e.1 ≤ String.length pre) →
  uniqueNode fuel word other node t =
  Some (snd <$> head (filter (λ e, e ∉ A ++ path fo pre other node t)
                        (path fuel pre word node t))).
Proof.
  induction fuel as [|fuel IH]; intros fo pre word other node t A Hwf Hn Hf Hfo HA;
    [lia|].
  apply lookup_lt_is_Some in Hn as [o Ho].
  cbn [uniqueNode]. rewrite Ho. cbn [mbind option_bind].
  rewrite unique_loop_find. fold (find_edge o word).
  rewrite (path_unfold fuel), Ho.
  destruct (find_edge o word) as [p|] eqn:Hp; [|done].
  pose proof Hwf as [Hwf' _]. destruct (Hwf' _ _ Ho) as (Hnd & Hpf & Hcl).
  destruct (find_edge_child _ _ _ _ Hcl Hp) as (Hpne & c & Hg & Hc).
  rewrite Hg. pose proof (find_edge_elem _ _ _ Hp) as [Hpin Hsw].
  assert (Hw : word ≠ "").
  { intros ->. by apply starts_nil_r in Hsw. }
  rewrite filter_cons.
  destruct (starts p other) eqn:Hso; cbn [negb].
  - assert (Hoth : other ≠ "").
    { intros ->. by apply starts_nil_r in Hso. }
    destruct fo as [|fo]; [lia|].
    assert (Hpo : find_edge o other = Some p) by (by apply find_edge_Some).
    rewrite (path_unfold fo), Ho, Hpo, Hg.
    rewrite decide_False.
    2:{ intros Hnot. apply Hnot. apply elem_of_app. right. by left. }
    rewrite (IH fo (pre +:+ p) _ _ c t (A ++ [(pre +:+ p, c)])); try done.
    + do 3 f_equal. apply list_filter_iff. intros e.
      by rewrite <- (assoc_L (++)).
    + pose proof (length_slice_lt p word Hpne Hw). lia.
    + pose proof (length_slice_lt p other Hpne Hoth). lia.
    + intros e [He| ->%list_elem_of_singleton]%elem_of_app.
      * specialize (HA _ He). rewrite str_length_app. lia.
      * done.
  - rewrite decide_True; [done|].
    intros [He|He]%elem_of_app.
    + specialize (HA _ He). cbn [fst] in HA. rewrite str_length_app in HA.
      destruct p; [done|]. simpl in HA. lia.
    + apply path_prefix in He as (o' & p' & x & Ho' & Hp' & Heq).
      assert (o' = o) as -> by congruence. cbn [fst] in Heq.
      apply str_app_inv_head in Heq.
      pose proof (find_edge_elem _ _ _ Hp') as [Hp'in Hs'].
      pose proof (find_edge_label _ _ _ Hp') as Hp'ne.
      assert (p = p') as ->.
      { apply elem_of_nodeProps in Hpin as (Hk & Lp & _).
        apply elem_of_nodeProps in Hp'in as (Hk' & Lp' & _).
        rewrite prefix_free_spec in Hpf. apply Hpf; try done.
        rewrite Heq. by apply first_char_app. }
      congruence.
Qed.

(** [uniqueNode(word, other, root)] is the highest node on the path of
    [word] that is not on the path of [other]. *)
Lemma uniqueNode_highest word other t :
  heap_wf t →
  uniqueNode (S (String.length word)) word other (root t) t
  = Some (highest_off_path word other t).
Proof.
  intros Hwf. unfold highest_off_path, path_of.
  rewrite (uniqueNode_path _ (S (String.length other)) "" word other (root t) t []);
    try done; try lia.
  - apply Hwf.
  - intros e He. by apply elem_of_nil in He.
Qed.

(** * [insert] as the spec describes it *)

Lemma insert_refines word t :
  builder_inv t → insert word t = insert_spec word t.
Proof.
  intros Hinv. unfold insert, insert_spec.
  destruct (_insert _ word (root t) t) as [t1|] eqn:Hi; [|done].
  cbn [mbind option_bind].
  pose proof (_insert_inv _ _ _ _ _ Hinv Hi) as (Hinv1 & _ & Hmeta).
  destruct Hmeta as (Hroot & Hlast & _).
  rewrite <- Hlast.
  destruct (starts (lastWord t1) word) eqn:Hs.
  - rewrite decide_True; [done|]. by apply commonPrefix_eq_r.
  - rewrite decide_False.
    2:{ intros H%commonPrefix_eq_r. congruence. }
    change (root (set_lastWord word t1)) with (root t1).
    replace (root t1) with (root (set_lastWord word t1)) by done.
    rewrite uniqueNode_highest by apply Hinv1. cbn [mbind option_bind].
    destruct (highest_off_path _ _ _) as [freeze|]; [|done].
    destruct (combineSuffixNode _ freeze _) as [[r t2]|]; done.
Qed.

(** * Nothing is rejected *)

Lemma addTerminal_total prop : ∀ node t,
  node < length (heap t) → is_Some (addTerminal node prop t).
Proof.
  induction prop as [|c rest IH]; intros node t Hn.
  { simpl. apply lookup_lt_is_Some in Hn as [o Ho].
    unfold set_prop. rewrite Ho. done. }
  apply lookup_lt_is_Some in Hn as [o Ho].
  simpl. destruct rest as [|c' rest'].
  { simpl. unfold set_prop. rewrite Ho. done. }
  cbn [String.length Nat.leb].
  destruct (alloc t) as [next t1] eqn:Ha.
  unfold alloc in Ha. injection Ha as <- <-.
  unfold set_prop at 1. cbn [heap set_heap].
  rewrite lookup_app_l by (by eapply lookup_lt_Some). rewrite Ho.
  cbn [mbind option_bind]. apply IH.
  rewrite length_put. cbn [heap set_heap]. rewrite length_app. simpl. lia.
Qed.

Lemma addTerminal_cons node c c' rest t :
  addTerminal node (String c (String c' rest)) t =
  t1 ← set_prop node (String c "") (VObj (length (heap t)))
         (set_heap (heap t ++ [[]]) t);
  addTerminal (length (heap t)) (String c' rest) t1.
Proof. done. Qed.

Lemma addTerminal_frame prop : ∀ node t t',
  addTerminal node prop t = Some t' →
  (∃ h, t' = set_heap h t) ∧ length (heap t) ≤ length (heap t')
  ∧ ∀ a, a < length (heap t) → a ≠ node → heap t' !! a = heap t !! a.
Proof.
  assert (Hset : ∀ node k v t t', set_prop node k v t = Some t' →
    (∃ h, t' = set_heap h t) ∧ length (heap t) ≤ length (heap t')
    ∧ ∀ a, a < length (heap t) → a ≠ node → heap t' !! a = heap t !! a).
  { intros node k v t t' (o & Ho & ->)%set_prop_inv. split; [by eexists|].
    rewrite length_put. split; [done|]. intros a _ Ha. by apply lookup_put_ne. }
  induction prop as [|c rest IH]; intros node t t' Hadd; [by eapply Hset|].
  destruct rest as [|c' rest']; [by eapply Hset|].
  cbn [addTerminal] in Hadd. unfold alloc in Hadd.
  apply bind_Some in Hadd as (t1 & Hs & Hadd).
  apply Hset in Hs as ([h1 ->] & Hl1 & Hf1).
  apply IH in Hadd as ([h2 ->] & Hl2 & Hf2).
  cbn [heap set_heap] in *. rewrite length_app in Hl1. simpl in Hl1.
  split; [by eexists|]. split; [lia|]. intros a Ha Hne.
  rewrite Hf2 by lia. rewrite Hf1 by (rewrite ?length_app; simpl; lia).
  by apply lookup_app_l.
Qed.

Lemma insert_split_total word node prop prefix v t :
  node < length (heap t) →
  is_Some (insert_split word node prop prefix v t).
Proof.
  intros Hn. unfold insert_split, alloc.
  set (t0 := set_heap (heap t ++ [[]]) t).
  assert (Hl0 : length (heap t0) = S (length (heap t))).
  { unfold t0. cbn [heap set_heap]. rewrite length_app. simpl. lia. }
  destruct (lookup_lt_is_Some_2 (heap t0) (length (heap t))) as [o0 Ho0]; [lia|].
  unfold set_prop at 2. rewrite Ho0. cbn [mbind option_bind].
  set (t1 := put _ _ t0).
  assert (Hl1 : length (heap t1) = S (length (heap t))).
  { unfold t1. by rewrite length_put. }
  destruct (addTerminal_total (slice_from (String.length prefix) word)
              (length (heap t)) t1) as [t2 Ht2]; [lia|].
  rewrite Ht2. cbn [mbind option_bind].
  apply addTerminal_frame in Ht2 as (_ & Hl2 & _).
  destruct (lookup_lt_is_Some_2 (heap t2) node) as [o2 Ho2]; [lia|].
  unfold delete_prop. rewrite Ho2. cbn [mbind option_bind].
  unfold set_prop. rewrite lookup_put_eq by lia. done.
Qed.

Lemma insert_loop_total rec word node o keys t :
  (∀ w c, String.length w < String.length word → c < length (heap t) →
          is_Some (rec w c t)) →
  node < length (heap t) → obj_closed (length (heap t)) o →
  is_Some (insert_loop rec word node o keys t).
Proof.
  intros Hrec Hn Hcl. induction keys as [|prop keys IH].
  { simpl. destruct (addTerminal_total word node t Hn) as [t1 ->]. done. }
  cbn [insert_loop].
  destruct (String.length (commonPrefix word prop) =? 0) eqn:Hz; [done|].
  apply Nat.eqb_neq in Hz.
  destruct (bool_decide (prop = commonPrefix word prop)
            && is_object (js_get prop o)) eqn:Hb.
  { apply andb_true_iff in Hb as [_ Hobj].
    destruct (js_get prop o) as [| | |child] eqn:Hg; try done.
    apply Hrec; [|by eapply Hcl].
    rewrite length_slice_from.
    pose proof (commonPrefix_starts_l word prop) as [s Hs]%starts_spec.
    apply (f_equal String.length) in Hs. rewrite str_length_app in Hs. lia. }
  destruct (bool_decide (prop = word) && is_number (js_get prop o)); [done|].
  by apply insert_split_total.
Qed.

(** The trie insertion returns for every word at every node of a closed
    store. *)
Lemma _insert_total fuel : ∀ word node t,
  heap_wf t → node < length (heap t) → String.length word < fuel →
  is_Some (_insert fuel word node t).
Proof.
  induction fuel as [|fuel IH]; intros word node t Hwf Hn Hf; [lia|].
  cbn [_insert]. destruct (lookup_lt_is_Some_2 _ _ Hn) as [o Ho]. rewrite Ho.
  cbn [mbind option_bind]. apply insert_loop_total; [|done|].
  - intros w c Hw Hc. apply IH; [done|done|lia].
  - destruct Hwf as [Hwf _]. by destruct (Hwf _ _ Ho) as (_ & _ & ?).
Qed.

Lemma insert_total_prefix word t :
  builder_inv t → starts (lastWord t) word = true → is_Some (insert word t).
Proof.
  intros Hinv Hs. rewrite insert_refines by done. unfold insert_spec.
  destruct (_insert_total (S (String.length word)) word (root t) t) as [t1 ->];
    [apply Hinv|apply Hinv|lia|].
  cbn [mbind option_bind]. by rewrite Hs.
Qed.


(** * The root is not frozen before [optimize] *)

Lemma root_free_put n o o' t :
  root_free t → heap t !! n = Some o →
  (∀ k, js_get k o' ≠ VObj (root t)) →
  (n = root t → ∀ k, k ∈ obj_keys o' → String.length k ≤ 1) →
  root_free (put n o' t).
Proof.
  intros (Hlt & H1 & H2 & H3) Hn Hv Hk. unfold root_free.
  rewrite length_put. change (root (put n o' t)) with (root t).
  change (suffixes (put n o' t)) with (suffixes t). split_and!; [done| |done|].
  - intros a oa k [[-> ->]|[_ Ha]]%lookup_put; eauto.
  - intros oa k [[Heq ->]|[_ Ha]]%lookup_put; eauto.
Qed.

Lemma set_prop_root_free n k v t t' :
  root_free t → set_prop n k v t = Some t' →
  v ≠ VObj (root t) → (n = root t → String.length k ≤ 1) →
  root_free t' ∧ root t' = root t ∧ length (heap t') = length (heap t).
Proof.
  intros Hrf (o & Ho & ->)%set_prop_inv Hv Hk.
  split; [|split; [done|apply length_put]].
  eapply root_free_put; [done|done| |].
  - intros k'. rewrite js_get_set. case_decide; [done|].
    destruct Hrf as (_ & H1 & _). eauto.
  - intros Heq k' [->|Hin]%elem_of_keys_set; [auto|].
    destruct Hrf as (_ & _ & _ & H3). subst n. eauto.
Qed.

Lemma delete_prop_root_free n k t t' :
  root_free t → delete_prop n k t = Some t' →
  root_free t' ∧ root t' = root t ∧ length (heap t') = length (heap t).
Proof.
  intros Hrf (o & Ho & ->)%delete_prop_inv.
  split; [|split; [done|apply length_put]].
  eapply root_free_put; [done|done| |].
  - intros k'. rewrite js_get_delete. case_decide; [done|].
    destruct Hrf as (_ & H1 & _). eauto.
  - intros Heq k' [_ Hin]%elem_of_keys_delete.
    destruct Hrf as (_ & _ & _ & H3). subst n. eauto.
Qed.

Lemma root_free_alloc t : root_free t → root_free (set_heap (heap t ++ [[]]) t).
Proof.
  intros (Hlt & H1 & H2 & H3). unfold root_free. cbn [heap root suffixes set_heap].
  rewrite length_app. split_and!; [simpl; lia| |done|].
  - intros a o k Ha. apply lookup_app_Some in Ha as [Ha|[_ Ha]]; [eauto|].
    apply list_lookup_singleton_Some in Ha as [_ <-]. done.
  - intros o k Ho. rewrite lookup_app_l in Ho by done. eauto.
Qed.

Lemma root_free_meta t t' :
  heap t' = heap t → root t' = root t → suffixes t' = suffixes t →
  root_free t → root_free t'.
Proof. unfold root_free. intros -> -> ->. done. Qed.

Lemma addTerminal_root_free prop : ∀ node t t',
  root_free t → addTerminal node prop t = Some t' →
  root_free t' ∧ root t' = root t ∧ length (heap t) ≤ length (heap t').
Proof.
  assert (Hleaf : ∀ node p t t', root_free t → String.length p ≤ 1 →
    set_prop node p (VNum 1) t = Some t' →
    root_free t' ∧ root t' = root t ∧ length (heap t) ≤ length (heap t')).
  { intros node p t t' Hrf Hp Hs.
    apply set_prop_root_free in Hs as (? & ? & ?); [|done|done|done].
    split_and!; [done|done|lia]. }
  induction prop as [|c rest IH]; intros node t t' Hrf Hadd.
  { eapply Hleaf; [done| |exact Hadd]. simpl. lia. }
  destruct rest as [|c' rest'].
  { eapply Hleaf; [done| |exact Hadd]. simpl. lia. }
  rewrite addTerminal_cons in Hadd.
  apply bind_Some in Hadd as (t1 & Hs & Hadd).
  pose proof Hrf as (Hlt & _).
  apply set_prop_root_free in Hs as (Hrf1 & Hr1 & Hl1).
  - apply IH in Hadd as (Hrf' & Hr' & Hl'); [|done].
    cbn [heap root set_heap] in *. rewrite length_app in Hl1. simpl in Hl1.
    split_and!; [done|congruence|lia].
  - by apply root_free_alloc.
  - cbn [root set_heap]. intros [= Heq]. lia.
  - simpl. lia.
Qed.

Lemma commonPrefix_length_r w p :
  String.length (commonPrefix w p) ≤ String.length p.
Proof.
  pose proof (commonPrefix_starts_r w p) as [s Hs]%starts_spec.
  apply (f_equal String.length) in Hs. rewrite str_length_app in Hs. lia.
Qed.

Lemma insert_split_root_free word node prop t t' o :
  root_free t → heap t !! node = Some o → prop ∈ obj_keys o →
  insert_split word node prop (commonPrefix word prop) (js_get prop o) t
    = Some t' →
  root_free t' ∧ root t' = root t.
Proof.
  intros Hrf Hnode Hprop Hsplit. unfold insert_split, alloc in Hsplit.
  pose proof Hrf as (Hlt & H1 & _ & H3).
  apply bind_Some in Hsplit as (t1 & Hs1 & Hsplit).
  apply bind_Some in Hsplit as (t2 & Hadd & Hsplit).
  apply bind_Some in Hsplit as (t3 & Hdel & Hsplit).
  apply bind_Some in Hsplit as (t4 & Hs4 & [= <-]).
  apply set_prop_root_free in Hs1 as (Hrf1 & Hr1 & Hl1);
    [|by apply root_free_alloc|cbn [root set_heap]; eauto
     |cbn [root set_heap]; intros ?; lia].
  apply addTerminal_root_free in Hadd as (Hrf2 & Hr2 & Hl2); [|done].
  apply delete_prop_root_free in Hdel as (Hrf3 & Hr3 & Hl3); [|done].
  cbn [root set_heap heap] in *.
  apply set_prop_root_free in Hs4 as (Hrf4 & Hr4 & Hl4); [|done| |].
  - split; [|simpl; congruence].
    eapply root_free_meta; [| | |exact Hrf4]; done.
  - intros [= Heq]. lia.
  - intros Heq. assert (node = root t) as -> by congruence.
    pose proof (commonPrefix_length_r word prop).
    specialize (H3 _ _ Hnode Hprop). lia.
Qed.

Lemma insert_loop_root_free rec word node o keys t t' :
  (∀ w n t', rec w n t = Some t' → root_free t' ∧ root t' = root t) →
  root_free t → heap t !! node = Some o →
  (∀ k, k ∈ keys → k ∈ obj_keys o) →
  insert_loop rec word node o keys t = Some t' →
  root_free t' ∧ root t' = root t.
Proof.
  intros Hrec Hrf Hnode. induction keys as [|prop keys IH]; intros Hsub Hloop.
  { simpl in Hloop. apply bind_Some in Hloop as (t1 & Hadd & [= <-]).
    apply addTerminal_root_free in Hadd as (Hrf1 & Hr1 & _); [|done].
    split; [|done]. eapply root_free_meta; [| | |exact Hrf1]; done. }
  cbn [insert_loop] in Hloop.
  destruct (String.length (commonPrefix word prop) =? 0).
  { apply IH; [|done]. intros k Hk. apply Hsub. by right. }
  destruct (bool_decide (prop = commonPrefix word prop)
            && is_object (js_get prop o)).
  { destruct (js_get prop o); try done. by eapply Hrec. }
  destruct (bool_decide (prop = word) && is_number (js_get prop o)).
  { by injection Hloop as <-. }
  eapply insert_split_root_free; [done|done| |done]. apply Hsub. by left.
Qed.

Lemma _insert_root_free fuel : ∀ word node t t',
  root_free t → _insert fuel word node t = Some t' →
  root_free t' ∧ root t' = root t.
Proof.
  induction fuel as [|fuel IH]; intros word node t t' Hrf Hins; [done|].
  simpl in Hins. apply bind_Some in Hins as (o & Ho & Hloop).
  eapply insert_loop_root_free; [|done|done| |done]; [|done].
  intros w n t''. by apply IH.
Qed.

Lemma unique_loop_not_root rec word other o props r f :
  (∀ w w' c f, rec w w' c = Some (Some f) → f ≠ r) →
  (∀ k, js_get k o ≠ VObj r) →
  unique_loop rec word other o props = Some (Some f) → f ≠ r.
Proof.
  intros Hrec Ho. induction props as [|prop props IH]; [done|]. simpl.
  destruct (starts prop word); [|done].
  destruct (js_get prop o) as [| | |child] eqn:Hg; try done.
  destruct (negb (starts prop other)).
  - intros [= <-] ->. by apply (Ho prop).
  - apply Hrec.
Qed.

Lemma uniqueNode_not_root fuel : ∀ word other node t f,
  root_free t → uniqueNode fuel word other node t = Some (Some f) →
  f ≠ root t.
Proof.
  induction fuel as [|fuel IH]; intros word other node t f Hrf Hu; [done|].
  simpl in Hu. apply bind_Some in Hu as (o & Ho & Hu).
  eapply unique_loop_not_root; [| |exact Hu].
  - intros w w' c f'. by apply IH.
  - destruct Hrf as (_ & H1 & _). eauto.
Qed.

Lemma combine_loop_root_free rec node : ∀ props sig t sig' t',
  (∀ c s r s', root_free s → c ≠ root s → rec c s = Some (r, s') →
     root_free s' ∧ r ≠ root s ∧ root s' = root s) →
  root_free t → node ≠ root t →
  combine_loop rec node props sig t = Some (sig', t') →
  root_free t' ∧ root t' = root t.
Proof.
  induction props as [|prop props IH]; intros sig t sig' t' Hrec Hrf Hne Hloop.
  { by injection Hloop as <- <-. }
  simpl in Hloop. apply bind_Some in Hloop as (o & Ho & Hloop).
  destruct (js_get prop o) as [| | |child] eqn:Hg; try by eapply IH.
  apply bind_Some in Hloop as ([shared t1] & Hr & Hloop).
  apply Hrec in Hr as (Hrf1 & Hsh & Hr1); [|done|].
  2:{ intros ->. destruct Hrf as (_ & H1 & _). by eapply H1. }
  apply bind_Some in Hloop as (t2 & Hset & Hloop).
  apply set_prop_root_free in Hset as (Hrf2 & Hr2 & _); [|done| |].
  - apply bind_Some in Hloop as (s & Hs & Hloop).
    apply IH in Hloop as (Hrf' & Hr'); [|done|done|congruence].
    split; [done|congruence].
  - intros [= ->]. congruence.
  - intros ->. congruence.
Qed.

Lemma combineSuffixNode_root_free fuel : ∀ node t r t',
  root_free t → node ≠ root t →
  combineSuffixNode fuel node t = Some (r, t') →
  root_free t' ∧ r ≠ root t ∧ root t' = root t.
Proof.
  induction fuel as [|fuel IH]; intros node t r t' Hrf Hne Hc; [done|].
  simpl in Hc. apply bind_Some in Hc as (o & Ho & Hc).
  destruct (truthy (js_get "_c" o)); [by injection Hc as <- <-|].
  apply bind_Some in Hc as ([sig t1] & Hloop & Hc).
  eapply combine_loop_root_free in Hloop as (Hrf1 & Hr1); [|exact IH|done|done].
  destruct (suffixes t1 !! join "-" sig) as [shared|] eqn:Hsuf.
  { injection Hc as <- <-. split_and!; [done| |done].
    intros ->. destruct Hrf1 as (_ & _ & H2 & _).
    apply (H2 (join "-" sig)). by rewrite Hr1. }
  apply bind_Some in Hc as (t2 & Hset & [= <- <-]).
  apply set_prop_root_free in Hset as (Hrf2 & Hr2 & _); [|done|done|congruence].
  split_and!; [|done|simpl; congruence].
  destruct Hrf2 as (Hlt & H1 & H2 & H3). unfold root_free, register.
  cbn [heap root suffixes]. split_and!; [done|done| |done].
  intros s. destruct (decide (s = join "-" sig)) as [->|Hs].
  - rewrite lookup_insert_eq. intros [= ->]. congruence.
  - rewrite lookup_insert_ne by done. apply H2.
Qed.

Lemma insert_root_free word t t' :
  root_free t → insert word t = Some t' → root_free t' ∧ root t' = root t.
Proof.
  intros Hrf Hins. unfold insert in Hins.
  apply bind_Some in Hins as (t1 & Hi & Hins).
  apply _insert_root_free in Hi as (Hrf1 & Hr1); [|done].
  assert (Hrf1' : root_free (set_lastWord word t1)).
  { eapply root_free_meta; [| | |exact Hrf1]; done. }
  case_decide; [by injection Hins as <-|].
  apply bind_Some in Hins as (freeze & Hu & Hins).
  destruct freeze as [freeze|]; [|by injection Hins as <-].
  apply bind_Some in Hins as ([r t2] & Hc & [= <-]).
  apply uniqueNode_not_root in Hu; [|done].
  apply combineSuffixNode_root_free in Hc as (? & _ & Hr2); [|done|done].
  split; [done|]. simpl in Hr2. congruence.
Qed.

Lemma new_Trie_root_free : root_free new_Trie.
Proof.
  unfold root_free. simpl. split_and!; [lia| |done|].
  - intros [|a] o k; [|done]. by intros [= <-].
  - intros o k [= <-]. by intros ?%elem_of_nil.
Qed.

Lemma insertWords_root_free words : ∀ t t',
  root_free t → insertWords words t = Some t' → root_free t'.
Proof.
  induction words as [|word words IH]; intros t t' Hrf Hins.
  - by injection Hins as <-.
  - simpl in Hins. apply bind_Some in Hins as (t1 & Hi & Hins).
    apply insert_root_free in Hi as (Hrf1 & _); eauto.
Qed.

Lemma build_root_free words t : build words = Some t → root_free t.
Proof. apply insertWords_root_free, new_Trie_root_free. Qed.

(** A word of two code units or more that begins with ['_'] is not found
    while the root is not frozen. *)
Lemma underscore_not_word c rest t :
  root_free t → isWord (String "_" (String c rest)) t = Some false.
Proof.
  intros (Hlt & _ & _ & H3). set (w := String "_" (String c rest)).
  unfold isWord. rewrite isFragment_unfold.
  destruct (lookup_lt_is_Some_2 _ _ Hlt) as [o Ho]. rewrite Ho.
  cbn [mbind option_bind]. change (String.length w =? 0) with false.
  rewrite decide_False.
  2:{ rewrite js_get_not_key; [done|]. intros Hin.
      specialize (H3 _ _ Ho Hin). simpl in H3. lia. }
  destruct (find_edge o w) as [p|] eqn:Hp; [|done].
  apply find_edge_elem in Hp as [Hin Hs].
  apply elem_of_nodeProps in Hin as (_ & [Hne Hu] & _).
  pose proof (starts_first_char _ _ Hne Hs) as Hf.
  destruct p as [|a p]; [done|]. simpl in Hf. injection Hf as <-. done.
Qed.


(** * Words without underscore, again *)

Lemma clean_word_over w : clean w = word_over not_us w.
Proof. induction w as [|c w IH]; [done|]. simpl. by rewrite IH. Qed.

Lemma word_over_app ok p s :
  word_over ok (p +:+ s) = word_over ok p && word_over ok s.
Proof.
  induction p as [|c p IH]; [done|]. rewrite str_app_cons. simpl.
  rewrite IH. by rewrite andb_assoc.
Qed.

Lemma word_over_impl (ok ok' : ascii → bool) w :
  (∀ c, ok c = true → ok' c = true) →
  word_over ok w = true → word_over ok' w = true.
Proof.
  intros H. induction w as [|c w IH]; [done|]. simpl.
  intros [? ?]%andb_true_iff. apply andb_true_iff. auto.
Qed.

Lemma safe_clean w : safe w = true → clean w = true.
Proof.
  rewrite clean_word_over. apply word_over_impl. intros c. unfold safe_char.
  by intros [[[? _]%andb_true_iff _]%andb_true_iff _]%andb_true_iff.
Qed.

(** * Closed forms of [addTerminal] *)

Lemma chain_from_nil b r : r ≠ "" → chain_from [] b r = chain b r.
Proof.
  destruct r as [|c [|c' r']]; [done| |]; intros _; simpl;
    by rewrite obj_set_empty.
Qed.

Lemma length_chain b r : length (chain b r) = String.length r.
Proof.
  revert b. induction r as [|c r IH]; intros b; [done|].
  destruct r as [|c' r']; [done|].
  change (chain b (String c (String c' r')))
    with ([(String c "", VObj (S b))] :: chain (S b) (String c' r')).
  cbn [length]. rewrite IH. done.
Qed.

Lemma length_chain_from o0 b r :
  length (chain_from o0 b r) = Nat.max 1 (String.length r).
Proof.
  destruct r as [|c [|c' r']]; [done|done|].
  change (chain_from o0 b (String c (String c' r')))
    with (obj_set (String c "") (VObj (S b)) o0 :: chain (S b) (String c' r')).
  cbn [length]. rewrite length_chain. simpl. lia.
Qed.

Lemma put_snoc h o0 o1 t :
  heap t = h ++ [o0] →
  put (length h) o1 t = set_heap (h ++ [o1]) t.
Proof.
  intros Hh. unfold put. rewrite Hh. f_equal.
  rewrite insert_app_r_alt by lia. by rewrite Nat.sub_diag.
Qed.

Lemma addTerminal_fresh r : ∀ h o0 t,
  heap t = h ++ [o0] →
  addTerminal (length h) r t
  = Some (set_heap (h ++ chain_from o0 (length h) r) t).
Proof.
  induction r as [|c r IH]; intros h o0 t Hh.
  { simpl. unfold set_prop. rewrite Hh, list_lookup_middle by done.
    cbn [mbind option_bind]. f_equal. by eapply put_snoc. }
  destruct r as [|c' r'].
  { simpl. unfold set_prop. rewrite Hh, list_lookup_middle by done.
    cbn [mbind option_bind]. f_equal. by eapply put_snoc. }
  rewrite addTerminal_cons. unfold set_prop. cbn [heap set_heap].
  rewrite Hh. rewrite <- (assoc_L (++)). cbn [app].
  rewrite list_lookup_middle by done. cbn [mbind option_bind].
  set (o1 := obj_set (String c "") (VObj (length (h ++ [o0]))) o0).
  assert (Hlen : length (h ++ [o0]) = S (length h)).
  { rewrite length_app. simpl. lia. }
  replace (length (h ++ [o0])) with (length (h ++ [o1])).
  2:{ rewrite !length_app. done. }
  rewrite (IH (h ++ [o1]) [] _).
  - f_equal.
    change (set_heap ?X (put _ _ (set_heap _ t))) with (set_heap X t).
    f_equal. rewrite chain_from_nil by done.
    change (chain_from o0 (length h) (String c (String c' r')))
      with (obj_set (String c "") (VObj (S (length h))) o0
            :: chain (S (length h)) (String c' r')).
    rewrite <- (assoc_L (++)). unfold o1. rewrite Hlen.
    replace (length (h ++ [obj_set (String c "") (VObj (S (length h))) o0]))
      with (S (length h)); [done|].
    rewrite length_app. simpl. lia.
  - unfold put. cbn [heap set_heap].
    rewrite insert_app_r_alt by lia. rewrite Nat.sub_diag. simpl.
    by rewrite <- (assoc_L (++)).
Qed.

Lemma addTerminal_leaf node p t o :
  String.length p ≤ 1 → heap t !! node = Some o →
  addTerminal node p t = Some (put node (obj_set p (VNum 1) o) t).
Proof.
  intros Hp Ho. destruct p as [|c [|c' p']]; [| |simpl in Hp; lia];
    simpl; unfold set_prop; by rewrite Ho.
Qed.

Lemma addTerminal_chain node c c' r t o :
  heap t !! node = Some o →
  addTerminal node (String c (String c' r)) t
  = Some (set_heap
            (<[node := obj_set (String c "") (VObj (length (heap t))) o]>
               (heap t)
             ++ chain (length (heap t)) (String c' r)) t).
Proof.
  intros Ho. rewrite addTerminal_cons. unfold set_prop. cbn [heap set_heap].
  rewrite lookup_app_l by (by eapply lookup_lt_Some). rewrite Ho.
  cbn [mbind option_bind].
  set (o1 := obj_set _ _ o).
  set (h := <[node := o1]> (heap t)).
  assert (Hl : length h = length (heap t)) by apply length_insert.
  rewrite <- Hl.
  rewrite (addTerminal_fresh _ h [] _).
  - f_equal. rewrite chain_from_nil by done. done.
  - unfold put. cbn [heap set_heap]. unfold h.
    rewrite insert_app_l by (by eapply lookup_lt_Some). done.
Qed.

(** * What [_insert] does at one node

    With single code units as property names, the loop of [_insert] looks
    at one property only: the one named by the first code unit of the
    word. *)

Lemma commonPrefix_nil_r w : commonPrefix w "" = "".
Proof. by destruct w. Qed.

Lemma commonPrefix_char c z c' :
  commonPrefix (String c z) (String c' "")
  = if decide (c = c') then String c "" else "".
Proof. simpl. case_decide; [|done]. by rewrite commonPrefix_nil_r. Qed.

Lemma commonPrefix_self_char c z :
  commonPrefix (String c z) (String c "") = String c "".
Proof. rewrite commonPrefix_char. by rewrite decide_True. Qed.

Lemma insert_loop_skip rec z node o keys t :
  (∀ p, p ∈ keys → String.length (commonPrefix z p) = 0) →
  insert_loop rec z node o keys t
  = (t ← addTerminal node z t; Some (bump_wordCount t)).
Proof.
  induction keys as [|p keys IH]; intros Hs; [done|].
  cbn [insert_loop]. rewrite (Hs p) by (by left). simpl.
  apply IH. intros q Hq. apply Hs. by right.
Qed.

Lemma insert_loop_hit rec z node o keys1 k keys2 t :
  (∀ p, p ∈ keys1 → String.length (commonPrefix z p) = 0) →
  String.length (commonPrefix z k) ≠ 0 →
  insert_loop rec z node o (keys1 ++ k :: keys2) t
  = let prefix := commonPrefix z k in
    if bool_decide (k = prefix) && is_object (js_get k o) then
      match js_get k o with
      | VObj child => rec (slice_from (String.length prefix) z) child t
      | _ => None
      end
    else if bool_decide (k = z) && is_number (js_get k o) then Some t
    else insert_split z node k prefix (js_get k o) t.
Proof.
  induction keys1 as [|p keys1 IH]; intros Hs Hk.
  - cbn [app insert_loop]. apply Nat.eqb_neq in Hk. by rewrite Hk.
  - cbn [app insert_loop]. rewrite (Hs p) by (by left). simpl.
    apply IH; [|done]. intros q Hq. apply Hs. by right.
Qed.

Section ok.
Context (ok : ascii → bool) (Hok : ok "_"%char = false).

Lemma ok_not_underscore c : ok c = true → c ≠ "_"%char.
Proof. intros H ->. congruence. Qed.

Lemma val_ok_mono cn cn' k v :
  (cn ≤ cn')%Z → val_ok ok cn k v → val_ok ok cn' k v.
Proof.
  intros Hle [?|[(-> & n & -> & Hn)|?]]; [by left| |by right; right].
  right; left. split; [done|]. exists n. split; [done|lia].
Qed.

Lemma val_ok_label cn k v : val_ok ok cn k v → label k →
  ∃ c, k = String c "" ∧ ok c = true ∧ (v = VNum 1 ∨ ∃ a, v = VObj a).
Proof.
  intros H L. destruct H as [[-> _]|[[-> _]|H]];
    [by destruct L|by destruct L|done].
Qed.

Lemma val_ok_char cn c v : ok c = true → val_ok ok cn (String c "") v →
  v = VNum 1 ∨ ∃ a, v = VObj a.
Proof.
  intros Hc H. destruct H as [[? _]|[[? _]|(c' & [= <-] & _ & H)]]; done.
Qed.

Lemma ok_char_label c : ok c = true → label (String c "").
Proof.
  intros Hc. split; [done|]. simpl.
  apply negb_true_iff, bool_decide_eq_false. by apply ok_not_underscore.
Qed.

Lemma val_ok_obj cn k v a : val_ok ok cn k v → v = VObj a →
  ∃ c, k = String c "" ∧ ok c = true.
Proof.
  intros H Hv. destruct H as [[_ ->]|[(_ & n & -> & _)|(c & -> & Hc & _)]];
    [done|done|eauto].
Qed.

(** A property other than the one named by the first code unit shares no
    prefix with the word. *)
Lemma commonPrefix_other cn c z p v :
  ok c = true → val_ok ok cn p v → p ≠ String c "" →
  String.length (commonPrefix (String c z) p) = 0.
Proof.
  intros Hc [[-> _]|[[-> _]|(c' & -> & _)]] Hne.
  - done.
  - simpl. rewrite decide_False; [done|]. by apply ok_not_underscore.
  - rewrite commonPrefix_char. rewrite decide_False; [done|]. congruence.
Qed.

Lemma _insert_sem f z D t oD :
  keys_ok ok t → heap t !! D = Some oD → word_over ok z = true →
  _insert (S f) z D t =
  match z with
  | EmptyString => Some (grow D (obj_set "" (VNum 1) oD) [] t)
  | String c z' =>
      if decide (String c "" ∈ obj_keys oD) then
        match js_get (String c "") oD with
        | VObj child => _insert f z' child t
        | v =>
            if decide (z' = "") then Some t
            else Some (grow D
                         (obj_set (String c "") (VObj (length (heap t)))
                            (obj_delete (String c "") oD))
                         (chain_from [("", v)] (length (heap t)) z') t)
        end
      else
        match z' with
        | EmptyString =>
            Some (grow D (obj_set (String c "") (VNum 1) oD) [] t)
        | _ =>
            Some (grow D (obj_set (String c "") (VObj (length (heap t))) oD)
                    (chain (length (heap t)) z') t)
        end
  end.
Proof.
  intros [Hcn Hk] Ho Hz. cbn [_insert]. rewrite Ho. cbn [mbind option_bind].
  assert (Hleaf : ∀ p, String.length p ≤ 1 →
    (t1 ← addTerminal D p t; Some (bump_wordCount t1))
    = Some (grow D (obj_set p (VNum 1) oD) [] t)).
  { intros p Hp. rewrite (addTerminal_leaf _ _ _ oD) by done.
    cbn [mbind option_bind]. unfold grow. by rewrite app_nil_r. }
  destruct z as [|c z'].
  { rewrite insert_loop_skip.
    - apply Hleaf. simpl. lia.
    - intros p _. done. }
  simpl in Hz. apply andb_true_iff in Hz as [Hc Hz'].
  set (k := String c "").
  case_decide as Hin.
  - apply list_elem_of_split_l in Hin as (keys1 & keys2 & Hkeys & Hnot).
    rewrite Hkeys.
    rewrite insert_loop_hit.
    2:{ intros p Hp. apply (commonPrefix_other (cNext t) c z' p (js_get p oD)); [done| |].
        - apply (Hk D oD); [done|]. rewrite Hkeys. apply elem_of_app. by left.
        - intros ->. done. }
    2:{ unfold k. by rewrite (commonPrefix_self_char c z'). }
    cbv zeta. unfold k. rewrite (commonPrefix_self_char c z'). fold k.
    rewrite bool_decide_eq_true_2 by done. cbn [andb].
    assert (Hv : js_get k oD = VNum 1 ∨ ∃ a, js_get k oD = VObj a).
    { eapply val_ok_char; [done|]. apply (Hk D oD); [done|].
      rewrite Hkeys. apply elem_of_app. right. by left. }
    destruct Hv as [Hv|[a Hv]]; rewrite Hv; cbn [is_object is_number andb].
    2:{ done. }
    case_decide as Hz0.
    + subst z'. rewrite bool_decide_eq_true_2 by done. done.
    + rewrite bool_decide_eq_false_2.
      2:{ unfold k. intros [= ?]. done. }
      cbn [andb]. unfold insert_split, alloc.
      change (String.length k) with 1. change (slice_from 1 k) with "".
      change (slice_from 1 (String c z')) with z'.
      assert (H1 : set_prop (length (heap t)) "" (VNum 1)
                     (set_heap (heap t ++ [[]]) t)
                   = Some (set_heap (heap t ++ [[("", VNum 1)]]) t)).
      { unfold set_prop. cbn [heap set_heap].
        rewrite list_lookup_middle by done. cbn [mbind option_bind].
        rewrite obj_set_empty. f_equal.
        by rewrite (put_snoc (heap t) [] _ (set_heap (heap t ++ [[]]) t)). }
      rewrite H1. cbn [mbind option_bind].
      rewrite (addTerminal_fresh z' (heap t) [("", VNum 1)]) by done.
      cbn [mbind option_bind]. unfold delete_prop. cbn [heap set_heap].
      rewrite lookup_app_l by (by eapply lookup_lt_Some). rewrite Ho.
      cbn [mbind option_bind]. unfold put. cbn [heap set_heap].
      rewrite insert_app_l by (by eapply lookup_lt_Some).
      unfold set_prop. cbn [heap set_heap].
      rewrite lookup_app_l by (rewrite length_insert; by eapply lookup_lt_Some).
      rewrite list_lookup_insert_eq by (by eapply lookup_lt_Some).
      cbn [mbind option_bind]. unfold grow, put. cbn [heap set_heap].
      rewrite insert_app_l by (rewrite length_insert; by eapply lookup_lt_Some).
      by rewrite list_insert_insert_eq.
  - rewrite insert_loop_skip.
    2:{ intros p Hp. apply (commonPrefix_other (cNext t) c z' p (js_get p oD)); [done| |].
        - by apply (Hk D oD).
        - intros ->. done. }
    destruct z' as [|c' r].
    + apply Hleaf. simpl. lia.
    + rewrite (addTerminal_chain _ _ _ _ _ oD) by done. done.
Qed.

End ok.

(** * The shapes of one insertion *)

Section shapes.
Context (ok : ascii → bool) (Hok : ok "_"%char = false).

Lemma val_ok_1_not_c k v : val_ok ok 1 k v → k ≠ "_c".
Proof. intros [[-> _]|[(_ & n & _ & Hn)|(c & -> & _)]]; [done|lia|done]. Qed.

Lemma fresh_ok_nil len : fresh_ok ok len [].
Proof. by intros i o. Qed.

Lemma js_get_single k v k' :
  js_get k' [(k, v)] = if decide (k' = k) then v else VUndef.
Proof. done. Qed.

Lemma fresh_ok_cons len o fresh :
  (∀ k, k ∈ obj_keys o → val_ok ok 1 k (js_get k o)) →
  (∀ k c, js_get k o = VObj c → c = S len ∧ fresh ≠ []) →
  (∀ k1 k2 c, js_get k1 o = VObj c → js_get k2 o = VObj c → k1 = k2) →
  fresh_ok ok (S len) fresh →
  fresh_ok ok len (o :: fresh).
Proof.
  intros Hk He Hu Hf [|i] o'.
  - intros [= <-]. split; [done|]. split; [|done].
    intros k c Hc. destruct (He k c Hc) as [-> Hne]. split; [lia|].
    destruct fresh; [done|]. simpl. lia.
  - intros Hi. simpl in Hi. destruct (Hf i o' Hi) as (H1 & H2 & H3).
    split; [done|]. split; [|done]. intros k c Hc.
    destruct (H2 k c Hc) as [-> Hlt]. split; [lia|]. simpl. lia.
Qed.

Lemma fresh_ok_chain r : ∀ b,
  word_over ok r = true → fresh_ok ok b (chain b r).
Proof.
  induction r as [|c r IH]; intros b Hr; [apply fresh_ok_nil|].
  simpl in Hr. apply andb_true_iff in Hr as [Hc Hr].
  destruct r as [|c' r'].
  - apply fresh_ok_cons; [| | |apply fresh_ok_nil].
    + intros k [->|?%elem_of_nil]%elem_of_cons; [|done].
      rewrite js_get_single, decide_True by done. right; right.
      exists c. simpl. eauto.
    + intros k c0. rewrite js_get_single. by case_decide.
    + intros k1 k2 c0. rewrite js_get_single. by case_decide.
  - change (chain b (String c (String c' r')))
      with ([(String c "", VObj (S b))] :: chain (S b) (String c' r')).
    apply fresh_ok_cons; [| | |by apply IH].
    + intros k [->|?%elem_of_nil]%elem_of_cons; [|done].
      rewrite js_get_single, decide_True by done. right; right.
      exists c. simpl. eauto.
    + intros k c0. rewrite js_get_single. case_decide; [|done].
      intros [= <-]. split; [done|]. by destruct r'.
    + intros k1 k2 c0. rewrite !js_get_single.
      repeat case_decide; try done. congruence.
Qed.

Lemma fresh_ok_chain_from r b :
  r ≠ "" → word_over ok r = true →
  fresh_ok ok b (chain_from [("", VNum 1)] b r).
Proof.
  intros Hne Hr. destruct r as [|c r]; [done|].
  simpl in Hr. apply andb_true_iff in Hr as [Hc Hr].
  assert (Hk : ∀ v, (v = VNum 1 ∨ ∃ a, v = VObj a) →
    ∀ k, k ∈ obj_keys (obj_set (String c "") v [("", VNum 1)]) →
         val_ok ok 1 k (js_get k (obj_set (String c "") v [("", VNum 1)]))).
  { intros v Hv k. rewrite elem_of_keys_set, js_get_set.
    intros [->|[->|?%elem_of_nil]%elem_of_cons]; [| |done].
    - rewrite decide_True by done. right; right. eauto.
    - rewrite decide_False by done. by left. }
  assert (Hg : ∀ v k, js_get k (obj_set (String c "") v [("", VNum 1)])
                 = if decide (k = String c "") then v
                   else if decide (k = "") then VNum 1 else VUndef).
  { intros v k. rewrite js_get_set. case_decide; [done|]. done. }
  destruct r as [|c' r'].
  - apply fresh_ok_cons; [| | |apply fresh_ok_nil].
    + apply Hk. by left.
    + intros k c0. rewrite Hg. repeat case_decide; done.
    + intros k1 k2 c0. rewrite !Hg. repeat case_decide; done.
  - change (chain_from [("", VNum 1)] b (String c (String c' r')))
      with (obj_set (String c "") (VObj (S b)) [("", VNum 1)]
            :: chain (S b) (String c' r')).
    apply fresh_ok_cons; [| | |by apply fresh_ok_chain].
    + apply Hk. right. eauto.
    + intros k c0. rewrite Hg. repeat case_decide; try done.
      intros [= <-]. split; [done|]. by destruct r'.
    + intros k1 k2 c0. rewrite !Hg. repeat case_decide; try done. congruence.
Qed.

Lemma grow_ok_leaf len oD k :
  obj_closed len oD → k ≠ "_c" → val_ok ok 1 k (VNum 1) →
  grow_ok ok len oD (obj_set k (VNum 1) oD) [].
Proof.
  intros Hcl Hkc Hv. unfold grow_ok. split_and!.
  - intros k'. rewrite elem_of_keys_set, js_get_set. case_decide as Hd.
    + subst. intros _. by right.
    + intros [?|?]; [done|]. by left.
  - by rewrite js_get_set_ne.
  - intros k' c. rewrite js_get_set. case_decide; [done|]. by left.
  - intros k1 k2. rewrite js_get_set. case_decide; [done|].
    intros H1%Hcl. lia.
  - apply fresh_ok_nil.
Qed.

Lemma grow_ok_edge len oD oD0 c fresh :
  obj_closed len oD → ok c = true →
  (∀ k, js_get k oD0 = js_get k oD ∨ (k = String c "" ∧ js_get k oD0 = VUndef)) →
  (∀ k, k ∈ obj_keys oD0 → k ∈ obj_keys oD) →
  fresh ≠ [] → fresh_ok ok len fresh →
  grow_ok ok len oD (obj_set (String c "") (VObj len) oD0) fresh.
Proof.
  intros Hcl Hc Hg0 Hk0 Hne Hf. unfold grow_ok. split_and!; [| | | |done].
  - intros k'. rewrite elem_of_keys_set, js_get_set. case_decide as Hd.
    + subst. intros _. right. right; right. exists c. eauto.
    + intros [?|Hin]; [done|]. left. split; [auto|].
      destruct (Hg0 k') as [?|[? _]]; done.
  - rewrite js_get_set_ne by done. destruct (Hg0 "_c") as [?|[? _]]; done.
  - intros k' c0. rewrite js_get_set. case_decide.
    + intros [= <-]. by right.
    + intros Hv. left. destruct (Hg0 k') as [<-|[? Hu]]; [done|congruence].
  - intros k1 k2. rewrite !js_get_set.
    assert (Hold : ∀ k, js_get k oD0 ≠ VObj len).
    { intros k Hv. destruct (Hg0 k) as [Heq|[_ Hu]]; [|congruence].
      rewrite Heq in Hv. apply Hcl in Hv. lia. }
    repeat case_decide; intros H1 H2; try congruence;
      by (apply Hold in H1 || apply Hold in H2).
Qed.

End shapes.


(** * The course of [_insert] on words over [ok] *)

Section term.
Context (ok : ascii → bool) (Hok : ok "_"%char = false).

Lemma _insert_descends fuel : ∀ z a t t',
  builder_inv t → keys_ok ok t → word_over ok z = true →
  _insert fuel z a t = Some t' →
  ∃ l D z', descends t a z l D z' ∧ step_at t D z' t'
            ∧ word_over ok z' = true ∧ D < length (heap t).
Proof.
  induction fuel as [|fuel IH]; intros z a t t' Hinv Hk Hz Hi; [done|].
  destruct (heap t !! a) as [o|] eqn:Ho.
  2:{ simpl in Hi. by rewrite Ho in Hi. }
  assert (Ha : a < length (heap t)) by (by eapply lookup_lt_Some).
  rewrite (_insert_sem ok Hok fuel z a t o) in Hi by done.
  destruct z as [|c z'].
  { injection Hi as <-. exists [], a, "". split; [constructor|].
    split; [by constructor|done]. }
  pose proof Hz as Hz0. simpl in Hz. apply andb_true_iff in Hz as [Hc Hz'].
  case_decide as Hin.
  - destruct Hk as [Hcn Hk'].
    destruct (val_ok_char ok _ c _ Hc (Hk' a o _ Ho Hin)) as [Hv|[child Hv]];
      rewrite Hv in Hi.
    + case_decide as Hz0'.
      * injection Hi as <-. subst z'. exists [], a, (String c "").
        split; [constructor|]. split; [by eapply step_dup|done].
      * injection Hi as <-. exists [], a, (String c z').
        split; [constructor|]. split; [by eapply step_split|done].
    + apply IH in Hi as (l & D & z'' & Hd & Hs & Hw & HD);
        [|done|by split|done].
      exists ((a, c) :: l), D, z''. split; [|done]. by eapply descends_edge.
  - destruct z' as [|c' r].
    + injection Hi as <-. exists [], a, (String c "").
      split; [constructor|]. split; [by eapply step_leaf|done].
    + injection Hi as <-. exists [], a, (String c (String c' r)).
      split; [constructor|]. split; [by eapply step_chain|done].
Qed.

(** Every step is the identity or a [grow] of a good shape. *)
Lemma step_at_grow t D z t' :
  builder_inv t → word_over ok z = true → step_at t D z t' →
  t' = t ∨ ∃ oD oD' fresh,
    heap t !! D = Some oD ∧ t' = grow D oD' fresh t
    ∧ grow_ok ok (length (heap t)) oD oD' fresh.
Proof.
  intros Hinv Hz Hs.
  assert (Hcl : ∀ oD, heap t !! D = Some oD → obj_closed (length (heap t)) oD).
  { intros oD HD. destruct Hinv as ([Hwf _] & _).
    by destruct (Hwf _ _ HD) as (_ & _ & ?). }
  destruct Hs as [oD HD|oD c HD Hnk|oD c z HD Hnk Hne|oD c HD Hv|oD c z HD Hv Hne].
  - right. eexists oD, _, _. split; [done|]. split; [reflexivity|].
    apply grow_ok_leaf; [auto|done|by left].
  - right. eexists oD, _, _. split; [done|]. split; [reflexivity|].
    simpl in Hz. apply andb_true_iff in Hz as [Hc _].
    apply grow_ok_leaf; [auto|done|]. right; right. eauto.
  - right. eexists oD, _, _. split; [done|]. split; [reflexivity|].
    simpl in Hz. apply andb_true_iff in Hz as [Hc Hz].
    apply grow_ok_edge; [auto|done|by left|done| |by apply fresh_ok_chain].
    destruct z as [|c1 [|c2 z]]; done.
  - by left.
  - right. eexists oD, _, _. split; [done|]. split; [reflexivity|].
    simpl in Hz. apply andb_true_iff in Hz as [Hc Hz].
    apply grow_ok_edge; [auto|done| | | |by apply fresh_ok_chain_from].
    + intros k. rewrite js_get_delete. case_decide; [by right|by left].
    + by intros k [_ ?]%elem_of_keys_delete.
    + destruct z as [|c1 [|c2 z]]; done.
Qed.

(** * The invariants of termination under one insertion *)

Lemma lookup_grow D oD' fresh t a o :
  D < length (heap t) →
  heap (grow D oD' fresh t) !! a = Some o →
  (a = D ∧ o = oD')
  ∨ (a ≠ D ∧ a < length (heap t) ∧ heap t !! a = Some o)
  ∨ (∃ i, a = length (heap t) + i ∧ fresh !! i = Some o).
Proof.
  intros HD. unfold grow. cbn [heap bump_wordCount set_wordCount set_heap].
  intros [Ha|[Hlen Ha]]%lookup_app_Some.
  - apply list_lookup_insert_Some in Ha as [(-> & -> & _)|[Hne Ha]]; [by left|].
    right; left. split; [done|]. split; [by eapply lookup_lt_Some|done].
  - right; right. rewrite length_insert in Hlen, Ha.
    exists (a - length (heap t)). split; [lia|done].
Qed.

Lemma length_grow D oD' fresh t :
  length (heap (grow D oD' fresh t)) = length (heap t) + length fresh.
Proof.
  unfold grow. cbn [heap bump_wordCount set_wordCount set_heap].
  by rewrite length_app, length_insert.
Qed.

Lemma keys_ok_grow D oD oD' fresh t :
  keys_ok ok t → heap t !! D = Some oD →
  grow_ok ok (length (heap t)) oD oD' fresh →
  keys_ok ok (grow D oD' fresh t).
Proof.
  intros [Hcn Hk] HD (Hg1 & _ & _ & _ & Hf). split; [done|].
  change (cNext (grow D oD' fresh t)) with (cNext t).
  intros a o k Ha Hin.
  apply lookup_grow in Ha as [[-> ->]|[(_ & _ & Ha)|(i & -> & Hi)]];
    [| | |by eapply lookup_lt_Some].
  - destruct (Hg1 k Hin) as [[Hin' ->]|Hv]; [eauto|].
    eapply val_ok_mono; [|done]. done.
  - eauto.
  - destruct (Hf i o Hi) as (H1 & _).
    eapply val_ok_mono; [|by apply H1]. done.
Qed.

Lemma fresh_not_frozen len fresh i o :
  fresh_ok ok len fresh → fresh !! i = Some o → frozen o = false.
Proof.
  intros Hf Hi. destruct (Hf i o Hi) as (H1 & _). unfold frozen.
  rewrite js_get_not_key; [done|]. intros Hin.
  by apply (val_ok_1_not_c ok _ _ (H1 _ Hin)).
Qed.

Lemma frozen_grow len oD oD' fresh :
  grow_ok ok len oD oD' fresh → frozen oD' = frozen oD.
Proof. intros (_ & Hc & _). unfold frozen. by rewrite Hc. Qed.

Lemma reg_frozen_grow D oD oD' fresh t :
  reg_frozen t → heap t !! D = Some oD →
  grow_ok ok (length (heap t)) oD oD' fresh →
  reg_frozen (grow D oD' fresh t).
Proof.
  intros Hr HD Hg sig a Hs. destruct (Hr sig a Hs) as (o & Ha & Hf).
  unfold grow. cbn [heap bump_wordCount set_wordCount set_heap].
  destruct (decide (a = D)) as [->|Hne].
  - exists oD'. split.
    + rewrite lookup_app_l by (rewrite length_insert; by eapply lookup_lt_Some).
      apply list_lookup_insert_eq. by eapply lookup_lt_Some.
    + rewrite (frozen_grow _ _ _ _ Hg). congruence.
  - exists o. split; [|done].
    rewrite lookup_app_l by (rewrite length_insert; by eapply lookup_lt_Some).
    by rewrite list_lookup_insert_ne.
Qed.

Lemma ranked_grow rank D oD oD' fresh t :
  heap_wf t → ranked rank t → heap t !! D = Some oD →
  grow_ok ok (length (heap t)) oD oD' fresh →
  ranked (λ a, if decide (a < length (heap t)) then rank a + length fresh
               else length fresh - S (a - length (heap t)))
         (grow D oD' fresh t).
Proof.
  intros [Hwf _] [Hb Hr] HD Hg.
  pose proof (lookup_lt_Some _ _ _ HD) as HDlt.
  pose proof Hg as (_ & _ & He & _ & Hf).
  set (len := length (heap t)) in *. set (m := length fresh).
  assert (Hcl : ∀ a o k c, heap t !! a = Some o → js_get k o = VObj c → c < len).
  { intros a o k c Ha Hv. destruct (Hwf _ _ Ha) as (_ & _ & Hcl). eauto. }
  assert (Hfr : ∀ a o o', heap t !! a = Some o →
            heap (grow D oD' fresh t) !! a = Some o' → frozen o' = frozen o).
  { intros a o o' Ha Ha'.
    apply lookup_grow in Ha' as [[-> ->]|[(_ & _ & Ha')|(i & -> & Hi)]];
      [| | |done].
    - rewrite (frozen_grow _ _ _ _ Hg). congruence.
    - congruence.
    - apply lookup_lt_Some in Ha. fold len in Ha. lia. }
  split.
  - intros a. rewrite length_grow. fold len m. intros Ha.
    case_decide; [specialize (Hb a); lia|lia].
  - intros a o k c oc Ha Hfa Hv Hc Hfc.
    apply lookup_grow in Ha as [[-> ->]|[(Hne & Hlt & Ha)|(i & -> & Hi)]];
      [| | |done]; fold len in Hc, Hv |- *.
    + destruct (He k c Hv) as [Hold|[-> Hne]].
      * pose proof (Hcl _ _ _ _ HD Hold) as Hclt.
        destruct (lookup_lt_is_Some_2 (heap t) c Hclt) as [oc0 Hc0].
        pose proof (Hfr _ _ _ Hc0 Hc) as Hfeq.
        pose proof (frozen_grow _ _ _ _ Hg) as HfD.
        assert (rank c < rank D).
        { eapply Hr; [exact HD|congruence|exact Hold|exact Hc0|congruence]. }
        repeat case_decide; lia.
      * assert (0 < m) by (unfold m; destruct fresh; [done|simpl; lia]).
        repeat case_decide; lia.
    + pose proof (Hcl _ _ _ _ Ha Hv) as Hclt.
      destruct (lookup_lt_is_Some_2 (heap t) c Hclt) as [oc0 Hc0].
      pose proof (Hfr _ _ _ Hc0 Hc) as Hfeq.
      assert (rank c < rank a).
      { eapply Hr; [exact Ha|done|exact Hv|exact Hc0|congruence]. }
      repeat case_decide; lia.
    + destruct (Hf i o Hi) as (_ & H2 & _). destruct (H2 k c Hv) as [-> Hlt].
      fold m in Hlt. repeat case_decide; lia.
Qed.

Lemma term_inv_step t D z t' :
  term_inv ok t → word_over ok z = true → step_at t D z t' →
  builder_inv t' → term_inv ok t'.
Proof.
  intros (Hinv & Hk & Hr & rank & Hrk) Hz Hs Hinv'.
  destruct (step_at_grow _ _ _ _ Hinv Hz Hs)
    as [->|(oD & oD' & fresh & HD & -> & Hg)]; [by split_and!; eauto|].
  split; [done|]. split; [by eapply keys_ok_grow|].
  split; [by eapply reg_frozen_grow|].
  eexists. eapply ranked_grow; [apply Hinv|done..].
Qed.

Lemma term_inv__insert z t t' :
  term_inv ok t → word_over ok z = true →
  _insert (S (String.length z)) z (root t) t = Some t' → term_inv ok t'.
Proof.
  intros Ht Hz Hi. pose proof Ht as (Hinv & Hk & _).
  destruct (_insert_descends _ _ _ _ _ Hinv Hk Hz Hi)
    as (l & D & z' & _ & Hs & Hz' & _).
  eapply term_inv_step; [done|done|done|].
  by apply (_insert_inv _ _ _ _ _ Hinv Hi).
Qed.

End term.

(** * [combineSuffixNode] returns *)

Section combine.
Context (ok : ascii → bool) (Hok : ok "_"%char = false).

Lemma frozen_set_ne k v o : k ≠ "_c" → frozen (obj_set k v o) = frozen o.
Proof. intros Hk. unfold frozen. by rewrite js_get_set_ne. Qed.

Lemma label_not_c k : label k → k ≠ "_c".
Proof. by intros [_ Hu] ->. Qed.

(** Redirecting an edge of a node that is not frozen to a frozen node. *)
Lemma redirect_inv rank node prop shared o c os t :
  builder_inv t → keys_ok ok t → reg_frozen t → ranked rank t →
  heap t !! node = Some o → frozen o = false →
  prop ∈ obj_keys o → label prop → js_get prop o = VObj c →
  heap t !! shared = Some os → frozen os = true →
  let t' := put node (obj_set prop (VObj shared) o) t in
  builder_inv t' ∧ keys_ok ok t' ∧ reg_frozen t' ∧ ranked rank t'
  ∧ heap t' !! shared = Some os.
Proof.
  intros Hinv Hk Hr Hrk Hn Hfo Hin Lp Hv Hs Hfs t'. subst t'.
  pose proof (lookup_lt_Some _ _ _ Hn) as Hnlt.
  pose proof (lookup_lt_Some _ _ _ Hs) as Hslt.
  assert (Hne : shared ≠ node) by (intros ->; congruence).
  destruct (builder_inv_wf _ _ _ Hinv Hn) as [Hwf Hsm].
  set (o' := obj_set prop (VObj shared) o) in *.
  assert (Hfo' : frozen o' = false).
  { unfold o'. rewrite frozen_set_ne; [done|by apply label_not_c]. }
  split_and!.
  - eapply builder_inv_put; eauto.
    + by apply node_wf_set_present.
    + intros k. unfold o'. rewrite keys_set_has by done. apply Hsm.
  - destruct Hk as [Hcn Hk]. split; [done|].
    intros a oa k [[-> ->]|[_ Ha]]%lookup_put; [|eauto].
    unfold o'. rewrite keys_set_has by done. intros Hk'.
    rewrite js_get_set. case_decide as Hd; [|eauto]. subst k.
    destruct (val_ok_obj ok _ _ _ _ (Hk _ _ _ Hn Hin) Hv) as (c0 & -> & Hc0).
    right; right. exists c0. eauto.
  - intros sig a Hsig. destruct (Hr sig a Hsig) as (oa & Ha & Hfa).
    exists oa. split; [|done]. rewrite lookup_put_ne; [done|].
    intros ->. congruence.
  - destruct Hrk as [Hb Hrk]. split.
    + intros a. rewrite length_put. apply Hb.
    + intros a oa k c' oc Ha Hfa Hva Hc' Hfc.
      assert (Hold : ∀ x ox, heap (put node o' t) !! x = Some ox →
                frozen ox = false →
                ∃ ox0, heap t !! x = Some ox0 ∧ frozen ox0 = false).
      { intros x ox [[-> ->]|[_ Hx]]%lookup_put _Hf; eauto. }
      destruct (Hold _ _ Hc' Hfc) as (oc0 & Hc0 & Hfc0).
      apply lookup_put in Ha as [[-> ->]|[_ Ha]].
      * unfold o' in Hva. rewrite js_get_set in Hva. case_decide as Hd.
        -- injection Hva as <-. congruence.
        -- eapply Hrk; [exact Hn|done|exact Hva|exact Hc0|done].
      * eapply Hrk; [exact Ha|done|exact Hva|exact Hc0|done].
  - by rewrite lookup_put_ne.
Qed.

Lemma combine_loop_total rec rank node f :
  (∀ c s oc, builder_inv s → keys_ok ok s → reg_frozen s → ranked rank s →
     heap s !! c = Some oc → frozen oc = true ∨ rank c + 2 ≤ f → 1 ≤ f →
     ∃ r s', rec c s = Some (r, s') ∧ combine_rank_post ok rank s c r s') →
  1 ≤ f → rank node + 1 ≤ f →
  ∀ props sig t o,
    builder_inv t → keys_ok ok t → reg_frozen t → ranked rank t →
    heap t !! node = Some o → frozen o = false →
    (∀ p, p ∈ props → p ∈ obj_keys o ∧ label p) →
    ∃ sig' t' o', combine_loop rec node props sig t = Some (sig', t')
      ∧ builder_inv t' ∧ keys_ok ok t' ∧ reg_frozen t' ∧ ranked rank t'
      ∧ length (heap t') = length (heap t)
      ∧ heap t' !! node = Some o' ∧ frozen o' = false
      ∧ (∀ a oa, heap t !! a = Some oa →
                 frozen oa = true ∨ rank node < rank a →
                 heap t' !! a = Some oa).
Proof.
  intros Hrec Hf1 Hfn.
  induction props as [|prop props IH];
    intros sig t o Hinv Hk Hr Hrk Hn Hfo Hprops.
  { exists sig, t, o. split_and!; done. }
  cbn [combine_loop]. rewrite Hn. cbn [mbind option_bind].
  destruct (Hprops prop) as [Hin Lp]; [by left|].
  assert (Hrest : ∀ o', (∀ k, k ∈ obj_keys o' ↔ k ∈ obj_keys o) →
            ∀ p, p ∈ props → p ∈ obj_keys o' ∧ label p).
  { intros o' Hk' p Hp. destruct (Hprops p) as [? ?]; [by right|].
    split; [by apply Hk'|done]. }
  destruct (js_get prop o) as [| | |c] eqn:Hv;
    try (destruct (IH (sig ++ [prop]) t o) as (sig' & t' & o' & ? & ?);
         [done..|by apply Hrest|]; by exists sig', t', o').
  destruct (builder_inv_wf _ _ _ Hinv Hn) as [Hwf Hsm].
  pose proof (node_wf_get _ _ _ _ Hwf Hv) as Hclt.
  destruct (lookup_lt_is_Some_2 _ _ Hclt) as [oc Hc].
  assert (Hcf : frozen oc = true ∨ rank c + 2 ≤ f).
  { destruct (frozen oc) eqn:Hfc; [by left|right].
    destruct Hrk as [_ Hrk]. specialize (Hrk _ _ _ _ _ Hn Hfo Hv Hc Hfc). lia. }
  destruct (Hrec c t oc Hinv Hk Hr Hrk Hc Hcf Hf1)
    as (shared & t1 & -> & Hinv1 & Hk1 & Hr1 & Hrk1 & Hl1 & (os & Hs & Hfs)
        & Hun1 & Hfz1).
  cbn [mbind option_bind].
  assert (Hn1 : heap t1 !! node = Some o).
  { destruct (frozen oc) eqn:Hfc.
    - destruct (Hfz1 _ Hc Hfc) as [-> _]. done.
    - apply Hun1; [done|]. right. destruct Hrk as [_ Hrk].
      exact (Hrk _ _ _ _ _ Hn Hfo Hv Hc Hfc). }
  unfold set_prop. rewrite Hn1. cbn [mbind option_bind].
  destruct (redirect_inv rank node prop shared o c os t1)
    as (Hinv2 & Hk2 & Hr2 & Hrk2 & Hs2); [done..|].
  rewrite Hs2. cbn [mbind option_bind].
  set (o2 := obj_set prop (VObj shared) o) in *.
  set (t2 := put node o2 t1) in *.
  assert (Hn2 : heap t2 !! node = Some o2).
  { apply lookup_put_eq. by eapply lookup_lt_Some. }
  destruct (IH (sig ++ [prop; to_string true (js_get "_c" os)]) t2 o2)
    as (sig' & t' & o' & Hloop & Hinv' & Hk' & Hr' & Hrk' & Hl' & Hn' & Hfo'
        & Hun'); [done..| | |].
  { unfold o2. rewrite frozen_set_ne; [done|by apply label_not_c]. }
  { apply Hrest. intros k. unfold o2. by rewrite keys_set_has. }
  exists sig', t', o'. split_and!; try done.
  - rewrite Hl'. unfold t2. rewrite length_put. done.
  - intros a oa Ha Hcond. apply Hun'; [|done].
    assert (a ≠ node).
    { intros ->. destruct Hcond as [?|?]; [congruence|lia]. }
    unfold t2. rewrite lookup_put_ne by done.
    destruct (frozen oc) eqn:Hfc.
    + destruct (Hfz1 _ Hc Hfc) as [-> _]. done.
    + apply Hun1; [done|]. destruct Hcond as [?|?]; [by left|right].
      destruct Hrk as [_ Hrk].
      pose proof (Hrk _ _ _ _ _ Hn Hfo Hv Hc Hfc). lia.
Qed.

Lemma combine_total fuel : ∀ node t rank o,
  builder_inv t → keys_ok ok t → reg_frozen t → ranked rank t →
  heap t !! node = Some o → frozen o = true ∨ rank node + 2 ≤ fuel →
  1 ≤ fuel →
  ∃ r t', combineSuffixNode fuel node t = Some (r, t')
          ∧ combine_rank_post ok rank t node r t'.
Proof.
  induction fuel as [|f IH]; intros node t rank o Hinv Hk Hr Hrk Hn Hcond Hf1;
    [lia|].
  destruct (frozen o) eqn:Hfo.
  { exists node, t. split.
    - cbn [combineSuffixNode]. rewrite Hn. cbn [mbind option_bind].
      fold (frozen o). by rewrite Hfo.
    - unfold combine_rank_post. split_and!; eauto. }
  destruct Hcond as [?|Hrank]; [done|].
  destruct (combine_loop_total (combineSuffixNode f) rank node f)
    with (props := nodeProps o false)
         (sig := if isTerminal o then ["!"] else []) (t := t) (o := o)
    as (sig' & t1 & o1 & Hloop & Hinv1 & Hk1 & Hr1 & Hrk1 & Hl1 & Hn1 & Hfo1
        & Hun1); try done; try lia.
  { intros c s oc ? ? ? ? ? ? ?. by eapply IH. }
  { intros p [? [? _]]%elem_of_nodeProps. done. }
  assert (Heq : ∃ r t', combineSuffixNode (S f) node t = Some (r, t')
                  ∧ keys_ok ok t' ∧ reg_frozen t' ∧ ranked rank t'
                  ∧ (∃ o, heap t' !! r = Some o ∧ frozen o = true)
                  ∧ (∀ a oa, heap t !! a = Some oa →
                        frozen oa = true ∨ rank node < rank a →
                        heap t' !! a = Some oa)).
  { cbn [combineSuffixNode]. rewrite Hn. cbn [mbind option_bind].
    fold (frozen o). rewrite Hfo, Hloop. cbn [mbind option_bind].
    destruct (suffixes t1 !! join "-" sig') as [shared|] eqn:Hsuf.
    { exists shared, t1. split; [done|]. split_and!; eauto. }
    unfold set_prop. rewrite Hn1. cbn [mbind option_bind].
    set (o2 := obj_set "_c" (VNum (cNext t1)) o1).
    set (t2 := register (join "-" sig') node (put node o2 t1)).
    pose proof (lookup_lt_Some _ _ _ Hn1) as Hnlt.
    assert (Hfo2 : frozen o2 = true).
    { unfold frozen, o2. rewrite js_get_set_eq. simpl.
      destruct Hk1 as [Hcn _]. apply negb_true_iff, Z.eqb_neq. lia. }
    assert (Hlook : ∀ a oa, heap t2 !! a = Some oa →
              (a = node ∧ oa = o2) ∨ (a ≠ node ∧ heap t1 !! a = Some oa)).
    { intros a oa Ha. by apply lookup_put in Ha. }
    exists node, t2. split; [done|]. split_and!.
    - destruct Hk1 as [Hcn Hk1]. split; [simpl; lia|].
      intros a oa k Ha Hin. change (cNext t2) with (cNext t1 + 1)%Z.
      apply Hlook in Ha as [[-> ->]|[_ Ha]].
      + unfold o2 in Hin |- *. rewrite js_get_set.
        apply elem_of_keys_set in Hin. case_decide as Hd.
        * subst. right; left. split; [done|]. eexists. split; [done|lia].
        * destruct Hin as [?|Hin]; [done|].
          eapply val_ok_mono; [|by eapply Hk1]. lia.
      + eapply val_ok_mono; [|by eapply Hk1]. lia.
    - intros sig a. unfold t2, register. cbn [suffixes heap].
      destruct (decide (sig = join "-" sig')) as [->|Hs].
      + rewrite lookup_insert_eq. intros [= <-]. exists o2.
        split; [|done]. apply list_lookup_insert_eq. done.
      + rewrite lookup_insert_ne by done. intros Hsig.
        destruct (Hr1 _ _ Hsig) as (oa & Ha & Hfa).
        destruct (decide (a = node)) as [->|Hne].
        * exists o2. split; [|done]. apply list_lookup_insert_eq. done.
        * exists oa. split; [|done]. by rewrite lookup_put_ne.
    - destruct Hrk1 as [Hb Hrk1]. split.
      + intros a. unfold t2, register. cbn [heap]. rewrite length_put.
        apply Hb.
      + intros a oa k c oc Ha Hfa Hv Hc Hfc.
        apply Hlook in Ha as [[-> ->]|[_ Ha]]; [congruence|].
        apply Hlook in Hc as [[-> ->]|[_ Hc]]; [congruence|].
        by eapply Hrk1.
    - exists o2. split; [|done]. apply list_lookup_insert_eq. done.
    - intros a oa Ha Hcond.
      assert (a ≠ node).
      { intros ->. destruct Hcond as [?|?]; [congruence|lia]. }
      unfold t2, register. cbn [heap]. rewrite lookup_put_ne by done.
      by apply Hun1. }
  destruct Heq as (r & t' & Hc & Hk' & Hr' & Hrk' & Hfr & Hun).
  exists r, t'. split; [done|].
  pose proof (combineSuffixNode_inv _ _ _ _ _ Hinv Hc) as (Hinv' & [Hl _] & _).
  unfold combine_rank_post. split_and!; try done.
  intros o0 Hn0 Hf0. congruence.
Qed.

End combine.

(** * [insert], [build] and [optimize] return *)

Section total.
Context (ok : ascii → bool) (Hok : ok "_"%char = false).

Lemma term_inv_new : term_inv ok new_Trie.
Proof.
  split; [apply new_Trie_inv|]. split; [|split].
  - split; [done|]. intros [|a] o k; [|done]. intros [= <-]. by intros ?%elem_of_nil.
  - intros sig a. simpl. by rewrite lookup_empty.
  - exists (λ _, 0). split.
    + simpl. lia.
    + intros [|a] o k c oc; [|done]. by intros [= <-].
Qed.

Lemma term_inv_lastWord w t : term_inv ok t → term_inv ok (set_lastWord w t).
Proof. done. Qed.

Lemma insert_total_ok w t :
  term_inv ok t → word_over ok w = true →
  ∃ t', insert w t = Some t' ∧ term_inv ok t'.
Proof.
  intros Ht Hw. pose proof Ht as (Hinv & _). unfold insert.
  destruct (_insert_total (S (String.length w)) w (root t) t) as [t1 Hi];
    [apply Hinv|apply Hinv|lia|].
  rewrite Hi. cbn [mbind option_bind].
  pose proof (term_inv__insert ok Hok _ _ _ Ht Hw Hi) as Ht1.
  apply (term_inv_lastWord w) in Ht1.
  case_decide; [eauto|].
  set (t1' := set_lastWord w t1) in *.
  pose proof Ht1 as (Hinv1 & Hk1 & Hr1 & rank & Hrk1).
  change (root t1) with (root t1').
  rewrite uniqueNode_highest by apply Hinv1. cbn [mbind option_bind].
  destruct (highest_off_path (lastWord t1) w t1') as [freeze|] eqn:Hu; [|eauto].
  assert (Hfv : freeze < length (heap t1')).
  { eapply uniqueNode_valid; [apply Hinv1|].
    rewrite uniqueNode_highest by apply Hinv1. by rewrite Hu. }
  destruct (lookup_lt_is_Some_2 _ _ Hfv) as [ofr Hof].
  destruct (combine_total ok (S (length (heap t1'))) freeze t1' rank ofr)
    as (r & t2 & Hc & Hinv2 & Hk2 & Hr2 & Hrk2 & _); try done; try lia.
  { right. destruct Hrk1 as [Hb _]. specialize (Hb _ Hfv). lia. }
  change (length (heap t1)) with (length (heap t1')).
  rewrite Hc. cbn [mbind option_bind]. eexists. split; [done|].
  split_and!; eauto.
Qed.

Lemma insertWords_total_ok words : ∀ t,
  term_inv ok t → Forall (λ w, word_over ok w = true) words →
  ∃ t', insertWords words t = Some t' ∧ term_inv ok t'.
Proof.
  induction words as [|w words IH]; intros t Ht Hall; [by exists t|].
  apply Forall_cons in Hall as [Hw Hall]. simpl.
  destruct (insert_total_ok w t Ht Hw) as (t1 & -> & Ht1).
  cbn [mbind option_bind]. by apply IH.
Qed.

Lemma optimize_total_ok t :
  term_inv ok t → ∃ t', optimize t = Some t'.
Proof.
  intros (Hinv & Hk & Hr & rank & Hrk).
  assert (Hroot : root t < length (heap t)) by apply Hinv.
  destruct (lookup_lt_is_Some_2 _ _ Hroot) as [o Ho].
  destruct (combine_total ok (S (length (heap t))) (root t) t rank o)
    as (r & t1 & Hc & _); try done; try lia.
  { right. destruct Hrk as [Hb _]. specialize (Hb _ Hroot). lia. }
  destruct (optimize_prepare_total _ _ _ Hinv Hc) as [p Hp].
  destruct (optimize_prepare_inv _ _ Hinv Hp) as (Hci & _).
  destruct (collapse_total p Hci) as (t' & log & _ & Hcol & _).
  exists t'. unfold optimize. by rewrite Hp.
Qed.

End total.


(** * [isFragment] on a store whose property names are single code units *)

Section lang.
Context (ok : ascii → bool) (Hok : ok "_"%char = false).

Lemma keys_ok_long t a o k :
  keys_ok ok t → heap t !! a = Some o → k ∈ obj_keys o →
  1 < String.length k → k = "_c".
Proof.
  intros [_ Hk] Ha Hin Hl.
  destruct (Hk _ _ _ Ha Hin) as [[-> _]|[[-> _]|(c & -> & _)]];
    [simpl in Hl; lia|done|simpl in Hl; lia].
Qed.

(** The equation of [isFragment] on a word that begins with a code unit
    other than ['_']. *)
Lemma member_cons t a o c q :
  heap_wf t → keys_ok ok t → heap t !! a = Some o → c ≠ "_"%char →
  member t a (String c q) =
  match js_get (String c "") o with
  | VObj child => member t child q
  | VNum _ => Some (bool_decide (q = ""))
  | _ => Some false
  end.
Proof.
  intros Hwf Hk Ha Hc. rewrite (member_unfold t a o) by done.
  rewrite decide_False by done.
  set (k := String c "").
  assert (Lk : label k).
  { split; [done|]. simpl. by apply negb_true_iff, bool_decide_eq_false. }
  assert (Hlong : q ≠ "" → js_get (String c q) o = VUndef).
  { intros Hq. apply js_get_not_key. intros Hin.
    assert (String c q = "_c") as [= -> _]; [|done].
    eapply keys_ok_long; [done..|]. destruct q; [done|]. simpl. lia. }
  destruct Hwf as [Hwf' _]. destruct (Hwf' _ _ Ha) as (Hnd & Hpf & Hcl).
  assert (Hsk : starts k (String c q) = true).
  { apply starts_spec. by exists q. }
  assert (Hedge : ∀ p, find_edge o (String c q) = Some p → p = k).
  { intros p [Hp Hs]%find_edge_elem.
    apply elem_of_nodeProps in Hp as (Hin & Lp & _).
    destruct Hk as [_ Hk].
    destruct (val_ok_label ok _ _ _ (Hk _ _ _ Ha Hin) Lp) as (c' & -> & _).
    apply starts_spec in Hs as [s Hs]. by injection Hs as <-. }
  destruct (decide (k ∈ obj_keys o)) as [Hin|Hnin].
  - destruct Hk as [_ Hk].
    destruct (val_ok_label ok _ _ _ (Hk _ _ _ Ha Hin) Lk) as (c' & _ & _ & Hv).
    destruct Hv as [Hv|[child Hv]]; rewrite Hv.
    + destruct (decide (q = "")) as [->|Hq].
      * fold k. rewrite Hv. rewrite decide_True by done.
        by rewrite bool_decide_eq_true_2.
      * rewrite (Hlong Hq). rewrite decide_False by done.
        rewrite bool_decide_eq_false_2 by done.
        destruct (find_edge o (String c q)) as [p|] eqn:Hp; [|done].
        pose proof (Hedge _ eq_refl) as ->.
        apply find_edge_elem in Hp as [Hp _].
        apply elem_of_nodeProps in Hp as (_ & _ & Hobj).
        specialize (Hobj eq_refl). by rewrite Hv in Hobj.
    + assert (Hne1 : js_get (String c q) o ≠ VNum 1).
      { destruct (decide (q = "")) as [->|Hq]; [fold k; by rewrite Hv|].
        by rewrite (Hlong Hq). }
      rewrite decide_False by done.
      assert (Hf : find_edge o (String c q) = Some k).
      { apply find_edge_Some; [done|done|]. split; [|done].
        apply elem_of_nodeProps. split; [done|]. split; [done|].
        intros _. by rewrite Hv. }
      rewrite Hf, Hv. done.
  - rewrite (js_get_not_key k) by done.
    assert (Hne1 : js_get (String c q) o ≠ VNum 1).
    { destruct (decide (q = "")) as [->|Hq].
      - fold k. by rewrite (js_get_not_key k).
      - by rewrite (Hlong Hq). }
    rewrite decide_False by done.
    destruct (find_edge o (String c q)) as [p|] eqn:Hp; [|done].
    pose proof (Hedge _ eq_refl) as ->.
    apply find_edge_elem in Hp as [Hp _].
    by apply elem_of_nodeProps in Hp as (? & _).
Qed.

Lemma member_nil t a o :
  heap_wf t → heap t !! a = Some o → member t a "" = Some (isTerminal o).
Proof. intros Hwf Ha. rewrite (member_unfold t a o) by done. done. Qed.


Lemma node_at_lookup t a o : heap t !! a = Some o → node_at t a = o.
Proof. intros Ha. unfold node_at. by rewrite Ha. Qed.

Lemma node_at_ge t a : length (heap t) ≤ a → node_at t a = [].
Proof. intros Ha. unfold node_at. by rewrite lookup_ge_None_2. Qed.

Lemma node_at_edge_lt t a k c :
  heap_wf t → js_get k (node_at t a) = VObj c → c < length (heap t).
Proof.
  intros [Hwf _] Hv. unfold node_at in Hv.
  destruct (heap t !! a) as [o|] eqn:Ha; [|done].
  destruct (Hwf _ _ Ha) as (_ & _ & Hcl). eauto.
Qed.

(** On a well-formed store of single-code-unit names, [isFragment] is
    [accepts]. *)
Lemma member_accepts t q :
  heap_wf t → keys_ok ok t → clean q = true →
  ∀ a, a < length (heap t) → member t a q = Some (accepts t a q).
Proof.
  intros Hwf Hk. induction q as [|c q IH]; intros Hq a Ha.
  - destruct (lookup_lt_is_Some_2 _ _ Ha) as [o Ho].
    rewrite (member_nil t a o) by done. simpl. by rewrite (node_at_lookup _ _ _ Ho).
  - simpl in Hq. apply andb_true_iff in Hq as [Hc Hq].
    apply negb_true_iff, bool_decide_eq_false in Hc.
    destruct (lookup_lt_is_Some_2 _ _ Ha) as [o Ho].
    rewrite (member_cons t a o) by done. simpl.
    rewrite (node_at_lookup _ _ _ Ho).
    destruct (js_get (String c "") o) as [| | |child] eqn:Hv; try done.
    apply IH; [done|]. eapply node_at_edge_lt; [done|].
    by rewrite (node_at_lookup _ _ _ Ho).
Qed.

End lang.

(** * The words that a node accepts *)

(** A store that differs from another one only in edges redirected to
    nodes that accept the same words accepts the same words at every
    node. *)
Lemma accepts_ext t t' :
  (∀ a, isTerminal (node_at t' a) = isTerminal (node_at t a)) →
  (∀ a c, js_get (String c "") (node_at t' a) = js_get (String c "") (node_at t a)
          ∨ ∃ x y, js_get (String c "") (node_at t' a) = VObj x
                   ∧ js_get (String c "") (node_at t a) = VObj y
                   ∧ ∀ q, accepts t x q = accepts t y q) →
  ∀ q a, accepts t' a q = accepts t a q.
Proof.
  intros Ht He. induction q as [|c q IH]; intros a; simpl; [done|].
  destruct (He a c) as [->|(x & y & -> & -> & Hxy)].
  - destruct (js_get (String c "") (node_at t a)); auto.
  - by rewrite IH, Hxy.
Qed.

(** Two nodes with the same properties other than [_c] accept the same
    words. *)
Lemma accepts_same_props t a b :
  (∀ k, k ≠ "_c" → js_get k (node_at t a) = js_get k (node_at t b)) →
  ∀ q, accepts t a q = accepts t b q.
Proof.
  intros H [|c q]; simpl.
  - unfold isTerminal. by rewrite H.
  - by rewrite H.
Qed.

(** The nodes outside a set [X] that no edge enters from outside accept
    what they accepted when nothing changed but the nodes of [X] and the
    nodes beyond the old store. *)
Lemma accepts_frame t t' (X : nat → Prop) :
  (∀ a, ¬ X a → a < length (heap t) → node_at t' a = node_at t a) →
  (∀ a k c, ¬ X a → a < length (heap t) →
            js_get k (node_at t a) = VObj c → ¬ X c) →
  heap_wf t →
  ∀ q a, ¬ X a → a < length (heap t) → accepts t' a q = accepts t a q.
Proof.
  intros Hsame Hcl Hwf. induction q as [|c q IH]; intros a Ha Hlt; simpl.
  - by rewrite Hsame.
  - rewrite Hsame by done.
    destruct (js_get (String c "") (node_at t a)) as [| | |child] eqn:Hv; try done.
    apply IH; [by eapply Hcl|by eapply node_at_edge_lt].
Qed.

(** ** Along a descent *)

Lemma descends_spelled t a x l D z :
  descends t a x l D z → x = spelled l +:+ z.
Proof. induction 1 as [|a o c z child l D z' Ha Hv _ IH]; [done|]. simpl. by rewrite IH. Qed.

Lemma accepts_descends t a x l D z :
  descends t a x l D z → ∀ q, accepts t a (spelled l +:+ q) = accepts t D q.
Proof.
  induction 1 as [|a o c z child l D z' Ha Hv _ IH]; intros q; [done|].
  simpl. by rewrite (node_at_lookup _ _ _ Ha), Hv.
Qed.

Lemma descends_valid t a x l D z :
  heap_wf t → descends t a x l D z → a < length (heap t) → D < length (heap t).
Proof.
  intros Hwf. induction 1 as [|a o c z child l D z' Ha Hv _ IH]; [done|].
  intros _. apply IH. eapply node_at_edge_lt; [done|].
  by rewrite (node_at_lookup _ _ _ Ha).
Qed.

(** A descent can be cut at its last edge, and extended by one edge. *)
Lemma descends_snoc t a x l b c z d :
  descends t a x l b (String c z) →
  js_get (String c "") (node_at t b) = VObj d →
  descends t a x (l ++ [(b, c)]) d z.
Proof.
  intros Hd Hv. remember (String c z) as y eqn:Hy.
  induction Hd as [a y|a o c' z0 child l D z' Ha Hv' _ IH]; subst.
  - simpl. unfold node_at in Hv. destruct (heap t !! a) as [o|] eqn:Ha; [|done].
    eapply descends_edge; [done|done|constructor].
  - simpl. eapply descends_edge; [done|done|]. by apply IH.
Qed.

Lemma descends_snoc_inv t a x l b c D z :
  descends t a x (l ++ [(b, c)]) D z →
  descends t a x l b (String c z)
  ∧ js_get (String c "") (node_at t b) = VObj D.
Proof.
  revert a x. induction l as [|[b0 c0] l IH]; intros a x Hd; simpl in Hd.
  - inversion Hd as [|a' o c' z0 child l' D' z' Ha Hv Hd']; subst.
    inversion Hd'; subst. split; [constructor|].
    by rewrite (node_at_lookup _ _ _ Ha).
  - inversion Hd as [|a' o c' z0 child l' D' z' Ha Hv Hd']; subst.
    apply IH in Hd' as [Hd' Hv']. split; [|done].
    by eapply descends_edge.
Qed.

(** Every node of a descent but the first is entered by an edge of the
    descent. *)
Lemma descends_entered t a x l D z b :
  descends t a x l D z → b ∈ l.*1 ++ [D] →
  b = a ∨ ∃ p k, (p, k) ∈ l ∧ js_get (String k "") (node_at t p) = VObj b.
Proof.
  induction 1 as [|a o c z child l D z' Ha Hv _ IH]; simpl.
  - intros ->%list_elem_of_singleton. by left.
  - intros [->|Hb]%elem_of_cons; [by left|]. right.
    destruct (IH Hb) as [->|(p & k & Hin & Hp)].
    + exists a, c. split; [by left|]. by rewrite (node_at_lookup _ _ _ Ha).
    + exists p, k. split; [by right|done].
Qed.

(** The effect of a change at the end of a descent on the words accepted
    at its start. *)
Lemma effect_descends t t' a x l D z :
  descends t a x l D z →
  (∀ b c, (b, c) ∈ l → node_at t' b = node_at t b) →
  (∀ b c k child q, (b, c) ∈ l → k ≠ c →
     js_get (String k "") (node_at t b) = VObj child →
     accepts t' child q = accepts t child q) →
  (∀ q, accepts t' D q = accepts t D q || bool_decide (q = z)) →
  ∀ q, accepts t' a q = accepts t a q || bool_decide (q = x).
Proof.
  induction 1 as [|a o c z child l D z' Ha Hv _ IH]; intros Hsame Hoff HD q;
    [done|].
  assert (Hin : (a, c) ∈ (a, c) :: l) by left.
  destruct q as [|k q]; simpl.
  - rewrite (Hsame _ _ Hin). by rewrite orb_false_r.
  - rewrite (Hsame _ _ Hin). destruct (decide (k = c)) as [->|Hk].
    + rewrite (node_at_lookup _ _ _ Ha), Hv. rewrite IH.
      * f_equal. apply bool_decide_ext. naive_solver.
      * intros b c' Hb. apply (Hsame b c'). by right.
      * intros b c' k' ch q' Hb. apply (Hoff b c'). by right.
      * done.
    + rewrite (bool_decide_eq_false_2 (String k q = String c z))
        by naive_solver.
      rewrite orb_false_r.
      destruct (js_get (String k "") (node_at t a)) as [| | |ch] eqn:Hv';
        try done.
      by eapply Hoff.
Qed.

(** The words accepted depend on the store only. *)
Lemma accepts_heap t t' :
  heap t' = heap t → ∀ q a, accepts t' a q = accepts t a q.
Proof.
  intros Hh. induction q as [|c q IH]; intros a; simpl; unfold node_at;
    rewrite Hh; [done|].
  destruct (js_get _ _); auto.
Qed.

(** The visit epoch is no part of the answers of [isFragment]. *)
Lemma isFragment_set_vCur f v : ∀ w a t,
  isFragment f w a (set_vCur v t) = isFragment f w a t.
Proof.
  induction f as [|f IH]; intros w a t; [done|].
  rewrite !isFragment_unfold. cbn [heap set_vCur].
  destruct (heap t !! a) as [o|]; [|done]. cbn [mbind option_bind].
  destruct (_ =? _); [done|]. case_decide; [done|].
  destruct (find_edge o w) as [p|]; [|done].
  destruct (js_get p o); auto.
Qed.


(** * What one [_insert] adds to the words accepted *)

Lemma node_at_grow_D D oD' fresh t :
  D < length (heap t) → node_at (grow D oD' fresh t) D = oD'.
Proof.
  intros HD. unfold node_at, grow.
  cbn [heap bump_wordCount set_wordCount set_heap].
  rewrite lookup_app_l by (by rewrite length_insert).
  by rewrite list_lookup_insert_eq.
Qed.

Lemma node_at_grow_old D oD' fresh t a :
  a < length (heap t) → a ≠ D →
  node_at (grow D oD' fresh t) a = node_at t a.
Proof.
  intros Ha Hne. unfold node_at, grow.
  cbn [heap bump_wordCount set_wordCount set_heap].
  rewrite lookup_app_l by (by rewrite length_insert).
  by rewrite list_lookup_insert_ne.
Qed.

Lemma node_at_grow_fresh D oD' fresh t i o :
  fresh !! i = Some o →
  node_at (grow D oD' fresh t) (length (heap t) + i) = o.
Proof.
  intros Hi. unfold node_at, grow.
  cbn [heap bump_wordCount set_wordCount set_heap].
  rewrite lookup_app_r by (rewrite length_insert; lia).
  rewrite length_insert.
  replace (length (heap t) + i - length (heap t)) with i by lia.
  by rewrite Hi.
Qed.

(** The first node of a chain accepts the word of the chain and nothing
    else. *)
Lemma chain_accepts t : ∀ r b q,
  r ≠ "" →
  (∀ i o, chain b r !! i = Some o → node_at t (b + i) = o) →
  accepts t b q = bool_decide (q = r).
Proof.
  induction r as [|c r IH]; intros b q Hne Hat; [done|].
  destruct r as [|c' r'].
  - specialize (Hat 0 _ eq_refl). rewrite Nat.add_0_r in Hat.
    destruct q as [|k q]; simpl; rewrite Hat; [done|].
    rewrite js_get_single. case_decide as Hk.
    + injection Hk as ->. apply bool_decide_ext. naive_solver.
    + symmetry. apply bool_decide_eq_false_2. naive_solver.
  - pose proof (Hat 0 _ eq_refl) as H0. rewrite Nat.add_0_r in H0.
    destruct q as [|k q]; simpl; rewrite H0; [done|].
    rewrite js_get_single. case_decide as Hk.
    + injection Hk as ->. rewrite (IH (S b) q); [|done|].
      * apply bool_decide_ext. naive_solver.
      * intros i o Hi. specialize (Hat (S i) o Hi).
        by rewrite Nat.add_succ_r in Hat.
    + symmetry. apply bool_decide_eq_false_2. naive_solver.
Qed.

Lemma chain_live t : ∀ r b i,
  (∀ i o, chain b r !! i = Some o → node_at t (b + i) = o) →
  i < length (chain b r) → ∃ q, accepts t (b + i) q = true.
Proof.
  induction r as [|c r IH]; intros b i Hat Hi; [simpl in Hi; lia|].
  destruct i as [|i].
  - exists (String c r). rewrite Nat.add_0_r.
    rewrite (chain_accepts t (String c r) b) by done.
    by apply bool_decide_eq_true_2.
  - destruct r as [|c' r']; [simpl in Hi; lia|].
    rewrite Nat.add_succ_r. apply (IH (S b) i).
    + intros j o Hj. specialize (Hat (S j) o Hj).
      by rewrite Nat.add_succ_r in Hat.
    + simpl in Hi |- *. lia.
Qed.

(** The first node of the chain below a split accepts the empty word and
    the word of the chain. *)
Lemma chain_from_accepts t r b q :
  r ≠ "" →
  (∀ i o, chain_from [("", VNum 1)] b r !! i = Some o → node_at t (b + i) = o) →
  accepts t b q = bool_decide (q = "") || bool_decide (q = r).
Proof.
  intros Hne Hat. destruct r as [|c r]; [done|].
  pose proof (Hat 0) as H0. rewrite Nat.add_0_r in H0.
  destruct r as [|c' r'].
  - specialize (H0 _ eq_refl). destruct q as [|k q]; simpl; rewrite H0.
    + unfold isTerminal. by rewrite js_get_set_ne.
    + rewrite js_get_set. case_decide as Hk.
      * injection Hk as ->. apply bool_decide_ext. naive_solver.
      * rewrite js_get_single, decide_False by done. symmetry.
        apply bool_decide_eq_false_2. naive_solver.
  - specialize (H0 _ eq_refl). destruct q as [|k q]; simpl; rewrite H0.
    + unfold isTerminal. by rewrite js_get_set_ne.
    + rewrite js_get_set. case_decide as Hk.
      * injection Hk as ->.
        rewrite (chain_accepts t (String c' r') (S b) q); [|done|].
        -- apply bool_decide_ext. naive_solver.
        -- intros i o Hi. specialize (Hat (S i) o Hi).
           by rewrite Nat.add_succ_r in Hat.
      * rewrite js_get_single, decide_False by done. symmetry.
        apply bool_decide_eq_false_2. naive_solver.
Qed.

Lemma chain_from_live t r b i :
  r ≠ "" →
  (∀ i o, chain_from [("", VNum 1)] b r !! i = Some o → node_at t (b + i) = o) →
  i < length (chain_from [("", VNum 1)] b r) →
  ∃ q, accepts t (b + i) q = true.
Proof.
  intros Hne Hat Hi. destruct i as [|i].
  - exists "". rewrite Nat.add_0_r.
    by rewrite (chain_from_accepts t r b "").
  - destruct r as [|c [|c' r']]; [done|simpl in Hi; lia|].
    rewrite Nat.add_succ_r. apply (chain_live t (String c' r') (S b) i).
    + intros j o Hj. specialize (Hat (S j) o Hj).
      by rewrite Nat.add_succ_r in Hat.
    + simpl in Hi |- *. lia.
Qed.

(** At the node where the descent ends, the step adds the rest of the word
    to the words accepted, provided that the children accept what they
    did. *)
Lemma effect_step t D z t' :
  step_at t D z t' → D < length (heap t) →
  (∀ k child q, js_get k (node_at t D) = VObj child →
                accepts t' child q = accepts t child q) →
  ∀ q, accepts t' D q = accepts t D q || bool_decide (q = z).
Proof.
  intros Hs HD Hch.
  assert (Hold : ∀ oD oD' k q,
            heap t' !! D = Some oD' → heap t !! D = Some oD →
            js_get (String k "") oD' = js_get (String k "") oD →
            accepts t' D (String k q) = accepts t D (String k q)).
  { intros oD oD' k q HD' HD0 Heq. simpl.
    rewrite (node_at_lookup _ _ _ HD'), (node_at_lookup _ _ _ HD0), Heq.
    destruct (js_get (String k "") oD) as [| | |ch] eqn:Hv; try done.
    eapply Hch. by rewrite (node_at_lookup _ _ _ HD0). }
  assert (Hlk : ∀ oD' fresh, heap (grow D oD' fresh t) !! D = Some oD').
  { intros oD' fresh. unfold grow.
    cbn [heap bump_wordCount set_wordCount set_heap].
    rewrite lookup_app_l by (by rewrite length_insert).
    by rewrite list_lookup_insert_eq. }
  destruct Hs as [oD HD0|oD c HD0 Hnk|oD c z HD0 Hnk Hne|oD c HD0 Hv
                 |oD c z HD0 Hv Hne]; intros q.
  - destruct q as [|k q].
    + simpl. rewrite node_at_grow_D by done. unfold isTerminal.
      rewrite js_get_set_eq. simpl. by rewrite orb_true_r.
    + rewrite (Hold oD _ k q (Hlk _ _) HD0) by (by rewrite js_get_set_ne).
      by rewrite orb_false_r.
  - destruct q as [|k q].
    + simpl. rewrite node_at_grow_D by done.
      rewrite (node_at_lookup _ _ _ HD0). unfold isTerminal.
      rewrite js_get_set_ne by done. by rewrite orb_false_r.
    + destruct (decide (k = c)) as [->|Hk].
      * simpl. rewrite node_at_grow_D by done.
        rewrite (node_at_lookup _ _ _ HD0).
        rewrite js_get_set_eq, (js_get_not_key _ oD) by done. simpl.
        apply bool_decide_ext. naive_solver.
      * rewrite (Hold oD _ k q (Hlk _ _) HD0)
          by (rewrite js_get_set_ne; [done|naive_solver]).
        rewrite (bool_decide_eq_false_2 (String k q = String c ""))
          by naive_solver.
        by rewrite orb_false_r.
  - destruct q as [|k q].
    + simpl. rewrite node_at_grow_D by done.
      rewrite (node_at_lookup _ _ _ HD0). unfold isTerminal.
      rewrite js_get_set_ne by done. by rewrite orb_false_r.
    + destruct (decide (k = c)) as [->|Hk].
      * simpl. rewrite node_at_grow_D by done.
        rewrite (node_at_lookup _ _ _ HD0).
        rewrite js_get_set_eq, (js_get_not_key _ oD) by done. simpl.
        rewrite (chain_accepts _ z); [|done|].
        -- apply bool_decide_ext. naive_solver.
        -- intros i o Hi. by apply node_at_grow_fresh.
      * rewrite (Hold oD _ k q (Hlk _ _) HD0)
          by (rewrite js_get_set_ne; [done|naive_solver]).
        rewrite (bool_decide_eq_false_2 (String k q = String c z))
          by naive_solver.
        by rewrite orb_false_r.
  - destruct (decide (q = String c "")) as [->|Hq].
    + simpl. by rewrite (node_at_lookup _ _ _ HD0), Hv.
    + rewrite bool_decide_eq_false_2 by done. by rewrite orb_false_r.
  - destruct q as [|k q].
    + simpl. rewrite node_at_grow_D by done.
      rewrite (node_at_lookup _ _ _ HD0). unfold isTerminal.
      rewrite js_get_set_ne, js_get_delete by done.
      rewrite decide_False by done. by rewrite orb_false_r.
    + destruct (decide (k = c)) as [->|Hk].
      * simpl. rewrite node_at_grow_D by done.
        rewrite (node_at_lookup _ _ _ HD0).
        rewrite js_get_set_eq, Hv.
        rewrite (chain_from_accepts _ z); [|done|].
        -- f_equal. apply bool_decide_ext. naive_solver.
        -- intros i o Hi. by apply node_at_grow_fresh.
      * rewrite (Hold oD _ k q (Hlk _ _) HD0).
        -- rewrite (bool_decide_eq_false_2 (String k q = String c z))
             by naive_solver.
           by rewrite orb_false_r.
        -- rewrite js_get_set_ne by naive_solver.
           rewrite js_get_delete. rewrite decide_False by naive_solver. done.
Qed.


(** * Signatures over the safe code units tell nodes apart *)

(** ** [join] *)

Ltac str_norm H :=
  repeat (rewrite str_app_nil_l in H || rewrite str_app_cons in H).

Lemma str_dash_split s1 : ∀ s2 r1 r2,
  word_over not_dash s1 = true → word_over not_dash s2 = true →
  s1 +:+ "-" +:+ r1 = s2 +:+ "-" +:+ r2 → s1 = s2 ∧ r1 = r2.
Proof.
  induction s1 as [|c s1 IH]; intros [|d s2] r1 r2 H1 H2 Heq;
    simpl in H1, H2.
  - str_norm Heq. by injection Heq as ->.
  - str_norm Heq. injection Heq as <- _. done.
  - str_norm Heq. injection Heq as -> _. done.
  - rewrite (str_app_cons c), (str_app_cons d) in Heq.
    injection Heq as -> Heq.
    apply andb_true_iff in H1 as [_ H1].
    apply andb_true_iff in H2 as [_ H2].
    destruct (IH _ _ _ H1 H2 Heq) as [-> ->]. done.
Qed.

Lemma str_no_dash s2 : ∀ s1 r,
  word_over not_dash s1 = true → s1 ≠ s2 +:+ "-" +:+ r.
Proof.
  induction s2 as [|d s2 IH]; intros [|c s1] r H1 Heq; simpl in H1.
  - by str_norm Heq.
  - str_norm Heq. injection Heq as -> _. done.
  - by rewrite str_app_cons in Heq.
  - rewrite str_app_cons in Heq. injection Heq as -> Heq.
    apply andb_true_iff in H1 as [_ H1]. by eapply IH.
Qed.

Lemma join_cons2 sep s s' l :
  join sep (s :: s' :: l) = s +:+ sep +:+ join sep (s' :: l).
Proof. done. Qed.

Lemma join_inj l1 : ∀ l2,
  Forall sig_elem l1 → Forall sig_elem l2 →
  join "-" l1 = join "-" l2 → l1 = l2.
Proof.
  induction l1 as [|s1 l1 IH]; intros [|s2 l2] H1 H2 Heq; try done.
  - apply Forall_cons in H2 as [[Hne _] _]. destruct l2 as [|s l2].
    + simpl in Heq. done.
    + rewrite join_cons2 in Heq. symmetry in Heq.
      by apply str_app_eq_nil in Heq as [? _].
  - apply Forall_cons in H1 as [[Hne _] _]. destruct l1 as [|s l1].
    + simpl in Heq. done.
    + rewrite join_cons2 in Heq. by apply str_app_eq_nil in Heq as [? _].
  - apply Forall_cons in H1 as [[Hn1 Hd1] H1].
    apply Forall_cons in H2 as [[Hn2 Hd2] H2].
    destruct l1 as [|s1' l1], l2 as [|s2' l2].
    + simpl in Heq. by subst.
    + rewrite join_cons2 in Heq. simpl in Heq.
      by apply str_no_dash in Heq.
    + rewrite join_cons2 in Heq. simpl in Heq. symmetry in Heq.
      by apply str_no_dash in Heq.
    + rewrite !join_cons2 in Heq.
      apply str_dash_split in Heq as [-> Heq]; [|done..].
      f_equal. by apply IH.
Qed.

(** ** Canonical ids in decimal *)

Lemma pretty_N_char_digit x : is_digit (pretty_N_char x) = true.
Proof. unfold pretty_N_char. by repeat case_match. Qed.

Lemma pretty_N_go_digits x : ∀ s,
  ∃ s', pretty_N_go x s = s' +:+ s ∧ word_over is_digit s' = true
        ∧ ((0 < x)%N → s' ≠ "").
Proof.
  induction (N.lt_wf_0 x) as [x _ IH]; intros s.
  assert (x = 0 ∨ 0 < x)%N as [->|Hx] by lia.
  - exists "". rewrite pretty_N_go_0. split; [done|]. split; [done|lia].
  - rewrite pretty_N_go_step by done.
    destruct (IH (x `div` 10)%N) with (s := String (pretty_N_char (x `mod` 10)) s)
      as (s' & -> & Hd & _); [by apply N.div_lt|].
    exists (s' +:+ String (pretty_N_char (x `mod` 10)) "").
    rewrite str_app_assoc. split; [done|]. split.
    + rewrite word_over_app, Hd. simpl. by rewrite pretty_N_char_digit.
    + intros _ Hnil. by apply str_app_eq_nil in Hnil as [_ ?].
Qed.

(** A canonical id prints as a digit followed by digits. *)
Lemma pretty_id_digits (n : Z) :
  (1 ≤ n)%Z →
  ∃ d s, pretty n = String d s ∧ is_digit d = true
         ∧ word_over is_digit s = true.
Proof.
  intros Hn. destruct n as [|p|p]; [lia| |lia].
  unfold pretty, pretty_Z, pretty, pretty_positive, pretty, pretty_N.
  rewrite decide_False by done.
  destruct (pretty_N_go_digits (N.pos p) "") as (s' & -> & Hd & Hne).
  rewrite str_app_nil_r. destruct s' as [|d s]; [by destruct Hne|].
  simpl in Hd. apply andb_true_iff in Hd as [? ?]. eauto.
Qed.

Lemma digit_not_dash c : is_digit c = true → not_dash c = true.
Proof.
  intros Hd. unfold not_dash. apply negb_true_iff, bool_decide_eq_false.
  by intros ->.
Qed.

Lemma digit_not_safe c : is_digit c = true → safe_char c = false.
Proof. intros Hd. unfold safe_char. rewrite Hd. by rewrite andb_false_r. Qed.

Lemma pretty_id_elem (n : Z) : (1 ≤ n)%Z → sig_elem (pretty n).
Proof.
  intros (d & s & -> & Hd & Hs)%pretty_id_digits. split; [done|].
  simpl. rewrite (digit_not_dash _ Hd). simpl.
  eapply word_over_impl; [|done]. apply digit_not_dash.
Qed.

Lemma safe_not_dash c : safe_char c = true → not_dash c = true.
Proof.
  unfold safe_char, not_dash. intros H.
  apply andb_true_iff in H as [H _]. apply andb_true_iff in H as [H _].
  by apply andb_true_iff in H as [_ H].
Qed.

Lemma safe_not_bang c : safe_char c = true → c ≠ "!"%char.
Proof.
  unfold safe_char. intros H.
  apply andb_true_iff in H as [H _]. apply andb_true_iff in H as [_ H].
  by apply negb_true_iff, bool_decide_eq_false in H.
Qed.

Lemma safe_not_us c : safe_char c = true → not_us c = true.
Proof.
  unfold safe_char. intros H.
  apply andb_true_iff in H as [H _]. apply andb_true_iff in H as [H _].
  by apply andb_true_iff in H as [H _].
Qed.

Lemma safe_elem c : safe_char c = true → sig_elem (String c "").
Proof. intros Hc. split; [done|]. simpl. by rewrite (safe_not_dash _ Hc). Qed.

(** ** The elements of a signature *)

Lemma sig_prop_elems t o p :
  sig_ready_prop t o p → Forall sig_elem (sig_prop t o p).
Proof.
  intros (c & -> & Hc & [Hv|(x & n & Hv & _ & Hid & Hn)]); unfold sig_prop;
    rewrite Hv.
  - apply Forall_singleton. by apply safe_elem.
  - apply Forall_cons. split; [by apply safe_elem|].
    apply Forall_singleton. rewrite Hid. simpl. by apply pretty_id_elem.
Qed.

Lemma sig_props_elems t o l :
  (∀ p, p ∈ l → sig_ready_prop t o p) →
  Forall sig_elem (flat_map (sig_prop t o) l).
Proof.
  induction l as [|p l IH]; intros Hl; [done|]. simpl.
  apply Forall_app. split.
  - apply sig_prop_elems, Hl. by left.
  - apply IH. intros q Hq. apply Hl. by right.
Qed.

Lemma sig_props_head t o l s rest :
  (∀ p, p ∈ l → sig_ready_prop t o p) →
  flat_map (sig_prop t o) l = s :: rest →
  ∃ c, s = String c "" ∧ safe_char c = true.
Proof.
  destruct l as [|p l]; [done|]. intros Hl.
  destruct (Hl p) as (c & -> & Hc & Hv); [by left|].
  simpl. unfold sig_prop at 1.
  destruct (js_get (String c "") o); simpl; intros [= <- _]; eauto.
Qed.

(** Equal elements, equal properties with equal values. *)
Lemma sig_props_inj t o1 o2 :
  (∀ a b, frz t a = true → frz t b = true →
          js_get "_c" (node_at t a) = js_get "_c" (node_at t b) → a = b) →
  ∀ l1 l2,
  (∀ p, p ∈ l1 → sig_ready_prop t o1 p) →
  (∀ p, p ∈ l2 → sig_ready_prop t o2 p) →
  flat_map (sig_prop t o1) l1 = flat_map (sig_prop t o2) l2 →
  l1 = l2 ∧ ∀ p, p ∈ l1 → js_get p o1 = js_get p o2.
Proof.
  intros Hid. induction l1 as [|p1 l1 IH]; intros [|p2 l2] H1 H2 Heq.
  - split; [done|]. by intros p ?%elem_of_nil.
  - simpl in Heq. destruct (H2 p2) as (c & -> & _); [by left|].
    unfold sig_prop at 1 in Heq. by destruct (js_get (String c "") o2).
  - simpl in Heq. destruct (H1 p1) as (c & -> & _); [by left|].
    unfold sig_prop at 1 in Heq. by destruct (js_get (String c "") o1).
  - assert (Hr1 : ∀ p, p ∈ l1 → sig_ready_prop t o1 p)
      by (intros p Hp; apply H1; by right).
    assert (Hr2 : ∀ p, p ∈ l2 → sig_ready_prop t o2 p)
      by (intros p Hp; apply H2; by right).
    assert (Hclash : ∀ o l n rest,
              (∀ p, p ∈ l → sig_ready_prop t o p) →
              (1 ≤ n)%Z → flat_map (sig_prop t o) l = pretty n :: rest → False).
    { intros o l n rest Hl Hn Hfm.
      destruct (sig_props_head _ _ _ _ _ Hl Hfm) as (c & Hc & Hsafe).
      destruct (pretty_id_digits n Hn) as (d & s & Hp & Hd & _).
      rewrite Hp in Hc. injection Hc as -> _.
      by rewrite (digit_not_safe _ Hd) in Hsafe. }
    destruct (H1 p1) as (c1 & -> & Hc1 & Hv1); [by left|].
    destruct (H2 p2) as (c2 & -> & Hc2 & Hv2); [by left|].
    simpl in Heq. unfold sig_prop at 1 3 in Heq.
    destruct Hv1 as [Hv1|(x & n & Hv1 & Hfx & Hix & Hn)];
      destruct Hv2 as [Hv2|(y & m & Hv2 & Hfy & Hiy & Hm)];
      rewrite Hv1, Hv2 in Heq; simpl in Heq.
    + injection Heq as <- Heq. destruct (IH _ Hr1 Hr2 Heq) as [-> Hval].
      split; [done|]. intros p [->|Hp]%elem_of_cons; [congruence|auto].
    + injection Heq as <- Heq. rewrite Hiy in Heq. simpl in Heq.
      exfalso. by eapply (Hclash o1 l1 m).
    + injection Heq as <- Heq. rewrite Hix in Heq. simpl in Heq.
      exfalso. symmetry in Heq. by eapply (Hclash o2 l2 n).
    + injection Heq as <- Hids Heq. rewrite Hix, Hiy in Hids. simpl in Hids.
      apply (inj pretty) in Hids. subst m.
      assert (x = y) as -> by (apply Hid; [done|done|congruence]).
      destruct (IH _ Hr1 Hr2 Heq) as [-> Hval].
      split; [done|]. intros p [->|Hp]%elem_of_cons; [congruence|auto].
Qed.

(** ** Equal signatures, equal properties *)

Lemma frz_valid t a : frz t a = true → ∃ o, heap t !! a = Some o ∧ frozen o = true.
Proof.
  unfold frz, node_at. destruct (heap t !! a) as [o|]; [eauto|done].
Qed.

Lemma frz_id ok t a :
  keys_ok ok t → frz t a = true →
  ∃ n, js_get "_c" (node_at t a) = VNum n ∧ (1 ≤ n < cNext t)%Z.
Proof.
  intros [_ Hk] Hf. destruct (frz_valid _ _ Hf) as (o & Ha & Hfo).
  rewrite (node_at_lookup _ _ _ Ha).
  assert (Hin : "_c" ∈ obj_keys o).
  { apply js_get_defined_key. intros Hu. unfold frozen in Hfo.
    by rewrite Hu in Hfo. }
  destruct (Hk _ _ _ Ha Hin) as [[? _]|[(_ & n & Hn & ?)|(c & ? & _)]];
    [done| |done].
  eauto.
Qed.

Lemma sig_ready_props t o p :
  keys_ok safe_char t → sig_ready t o → p ∈ nodeProps o false →
  sig_ready_prop t o p.
Proof.
  intros Hk [Hv Hf] (Hin & Lp & _)%elem_of_nodeProps.
  destruct (val_ok_label _ _ _ _ (Hv _ Hin) Lp) as (c & -> & Hc & Hval).
  exists c. split; [done|]. split; [done|].
  destruct Hval as [?|[x Hx]]; [by left|right].
  pose proof (Hf _ _ Hx) as Hfx.
  destruct (frz_id _ _ _ Hk Hfx) as (n & Hn & ? & _).
  exists x, n. done.
Qed.

Lemma sig_ready_flag t o :
  sig_ready t o → js_get "" o = if isTerminal o then VNum 1 else VUndef.
Proof.
  intros [Hv _]. unfold isTerminal.
  destruct (decide ("" ∈ obj_keys o)) as [Hin|Hnin].
  - destruct (Hv _ Hin) as [[_ ->]|[[? _]|(c & ? & _)]]; done.
  - by rewrite js_get_not_key.
Qed.

(** Two nodes ready for their signatures that get the same signature hold
    the same values under every name but [_c]. *)
Lemma sig_inj t o1 o2 :
  keys_ok safe_char t →
  (∀ a b, frz t a = true → frz t b = true →
          js_get "_c" (node_at t a) = js_get "_c" (node_at t b) → a = b) →
  sig_ready t o1 → sig_ready t o2 →
  sig_of t o1 = sig_of t o2 →
  ∀ k, k ≠ "_c" → js_get k o1 = js_get k o2.
Proof.
  intros Hk Hid Hr1 Hr2 Hsig.
  pose proof (λ p, sig_ready_props t o1 p Hk Hr1) as Hp1.
  pose proof (λ p, sig_ready_props t o2 p Hk Hr2) as Hp2.
  assert (Hbang : sig_elem "!") by done.
  apply join_inj in Hsig.
  2:{ apply Forall_app. split; [by destruct (isTerminal o1); constructor|].
      by apply sig_props_elems. }
  2:{ apply Forall_app. split; [by destruct (isTerminal o2); constructor|].
      by apply sig_props_elems. }
  assert (Hnb : ∀ o rest, (∀ p, p ∈ nodeProps o false → sig_ready_prop t o p) →
            flat_map (sig_prop t o) (nodeProps o false) ≠ "!" :: rest).
  { intros o rest Hp Hfm.
    destruct (sig_props_head _ _ _ _ _ Hp Hfm) as (c & [= <-] & Hc).
    by apply safe_not_bang in Hc. }
  assert (Hflag : isTerminal o1 = isTerminal o2
                  ∧ flat_map (sig_prop t o1) (nodeProps o1 false)
                    = flat_map (sig_prop t o2) (nodeProps o2 false)).
  { destruct (isTerminal o1), (isTerminal o2); simpl in Hsig.
    - by injection Hsig.
    - symmetry in Hsig. by apply Hnb in Hsig.
    - by apply Hnb in Hsig.
    - done. }
  destruct Hflag as [Hterm Hprops].
  apply sig_props_inj in Hprops as [Hl Hval]; [|done..].
  intros k Hkc.
  destruct (decide (k = "")) as [->|Hne].
  { by rewrite (sig_ready_flag t o1), (sig_ready_flag t o2), Hterm. }
  destruct (decide (k ∈ nodeProps o1 false)) as [Hin|Hnin]; [auto|].
  assert (Hnk : ∀ o, sig_ready t o → k ∉ nodeProps o false → k ∉ obj_keys o).
  { intros o [Hv _] Hn Hin. apply Hn. apply elem_of_nodeProps.
    split; [done|]. split; [|done].
    destruct (Hv _ Hin) as [[? _]|[[? _]|(c & -> & Hc & _)]]; [done..|].
    split; [done|]. simpl. by apply safe_not_us in Hc. }
  rewrite !js_get_not_key; [done| |]; apply Hnk; try done. by rewrite <- Hl.
Qed.


(** * [combineSuffixNode] keeps the words of every node *)

Lemma node_at_put node o t a :
  node < length (heap t) →
  node_at (put node o t) a = if decide (a = node) then o else node_at t a.
Proof.
  intros Hn. unfold node_at. case_decide as Ha.
  - subst. by rewrite lookup_put_eq.
  - by rewrite lookup_put_ne.
Qed.

Lemma edges_kept_refl t : edges_kept t t.
Proof. intros a k c Hv. by left. Qed.

Lemma frozen_kept_refl t : frozen_kept t t.
Proof. by intros a Hf. Qed.

Lemma frozen_kept_frz t t' a : frozen_kept t t' → frz t a = true → frz t' a = true.
Proof. intros Hfk Hf. unfold frz. rewrite (Hfk _ Hf). exact Hf. Qed.

Lemma frozen_kept_trans t1 t2 t3 :
  frozen_kept t1 t2 → frozen_kept t2 t3 → frozen_kept t1 t3.
Proof.
  intros H12 H23 a Hf. rewrite H23; [by apply H12|].
  by eapply frozen_kept_frz.
Qed.

Lemma edges_kept_trans t1 t2 t3 :
  edges_kept t1 t2 → edges_kept t2 t3 → frozen_kept t2 t3 →
  edges_kept t1 t3.
Proof.
  intros H12 H23 Hfk a k c Hv.
  destruct (H23 _ _ _ Hv) as [Hv2|?]; [|by right].
  destruct (H12 _ _ _ Hv2) as [?|Hf]; [by left|right].
  by eapply frozen_kept_frz.
Qed.

(** The signature reads the node and the canonical ids of its children. *)
Lemma sig_of_ext t t' o o' :
  isTerminal o' = isTerminal o →
  nodeProps o' false = nodeProps o false →
  (∀ p, p ∈ nodeProps o false → js_get p o' = js_get p o) →
  (∀ p c, js_get p o = VObj c →
          js_get "_c" (node_at t' c) = js_get "_c" (node_at t c)) →
  sig_of t' o' = sig_of t o.
Proof.
  intros Ht Hp Hv Hc. unfold sig_of. rewrite Ht, Hp. do 2 f_equal.
  assert (Hall : ∀ l, (∀ p, p ∈ l → p ∈ nodeProps o false) →
            flat_map (sig_prop t' o') l = flat_map (sig_prop t o) l).
  { induction l as [|p l IH]; intros Hl; [done|]. simpl.
    rewrite IH by (intros q Hq; apply Hl; by right). f_equal.
    unfold sig_prop. rewrite Hv by (apply Hl; by left).
    destruct (js_get p o) as [| | |c] eqn:Hpo; try done.
    by rewrite (Hc _ _ Hpo). }
  by apply Hall.
Qed.

Section combine_dawg.
Context (Q : nat → Prop).

(** Redirecting an edge of a node that is not frozen to a frozen node that
    accepts the same words as the old child. *)
Lemma redirect_dawg node prop shared o c t :
  reg_frozen t → dawg_inv t → protected Q t → ¬ Q node →
  heap t !! node = Some o → frozen o = false →
  label prop → js_get prop o = VObj c →
  frz t shared = true → (∀ q, accepts t shared q = accepts t c q) →
  let t' := put node (obj_set prop (VObj shared) o) t in
  dawg_inv t' ∧ protected Q t'
  ∧ (∀ a, Q a → node_at t' a = node_at t a)
  ∧ (∀ a q, accepts t' a q = accepts t a q)
  ∧ edges_kept t t' ∧ frozen_kept t t'.
Proof.
  intros Hr (HF & HU & HReg & HId & HRc & HIo) [HQ1 HQ2] HnQ Hn Hfo Lp Hv Hfs
    Hacc t'.
  pose proof (lookup_lt_Some _ _ _ Hn) as Hnlt.
  pose proof (node_at_lookup _ _ _ Hn) as Hno.
  set (o' := obj_set prop (VObj shared) o) in *.
  assert (Hat : ∀ a, node_at t' a = if decide (a = node) then o' else node_at t a).
  { intros a. by apply node_at_put. }
  assert (Hpc : prop ≠ "_c") by (by apply label_not_c).
  assert (Hc : ∀ a, js_get "_c" (node_at t' a) = js_get "_c" (node_at t a)).
  { intros a. rewrite Hat. case_decide; [|done]. subst a.
    unfold o'. by rewrite js_get_set_ne, Hno. }
  assert (Hfz : ∀ a, frz t' a = frz t a).
  { intros a. unfold frz, frozen. by rewrite Hc. }
  assert (Hfn : frz t node = false) by (unfold frz; by rewrite Hno).
  assert (Hedge : ∀ a k x, js_get k (node_at t' a) = VObj x →
            js_get k (node_at t a) = VObj x ∨ (a = node ∧ k = prop ∧ x = shared)).
  { intros a k x. rewrite Hat. case_decide as Ha; [|by left]. subst a.
    unfold o'. rewrite js_get_set. case_decide as Hkp.
    - intros [= <-]. by right.
    - rewrite Hno. by left. }
  assert (Hsame : ∀ a, frz t a = true → node_at t' a = node_at t a).
  { intros a Hf. rewrite Hat. case_decide; [|done]. subst a. congruence. }
  split_and!.
  - split_and!.
    + intros a k x Hf Hx. rewrite Hfz in Hf |- *.
      rewrite (Hsame _ Hf) in Hx. eauto.
    + intros a1 k1 a2 k2 x H1 H2 Hfx. rewrite Hfz in Hfx.
      destruct (Hedge _ _ _ H1) as [H1'|(_ & _ & ->)]; [|congruence].
      destruct (Hedge _ _ _ H2) as [H2'|(_ & _ & ->)]; [|congruence].
      eauto.
    + intros sig a Hs. change (suffixes t') with (suffixes t) in Hs.
      destruct (Hr _ _ Hs) as (oa & Ha & Hfa).
      assert (Hf : frz t a = true) by (unfold frz; by rewrite (node_at_lookup _ _ _ Ha)).
      rewrite (Hsame _ Hf). rewrite <- (HReg _ _ Hs).
      apply sig_of_ext; auto.
    + intros a b Ha Hb. rewrite !Hc. rewrite Hfz in Ha, Hb. eauto.
    + intros a Hf. rewrite Hfz in Hf. rewrite (Hsame _ Hf).
      change (suffixes t') with (suffixes t).
      rewrite (sig_of_ext t t' (node_at t a) (node_at t a)) by auto.
      by apply HRc.
    + intros a k x n m Hf Hx Hn' Hm. rewrite Hfz in Hf.
      rewrite (Hsame _ Hf) in Hx, Hn'. rewrite Hc in Hm. eauto.
  - split.
    + intros a Ha. rewrite Hfz. auto.
    + intros a k x Hf Hx Hqx. rewrite Hfz in Hf.
      destruct (Hedge _ _ _ Hx) as [Hx'|(_ & _ & ->)]; [eauto|].
      apply HQ1 in Hqx. congruence.
  - intros a Ha. rewrite Hat. case_decide; [|done]. by subst a.
  - intros a0 q0. revert q0 a0. apply accepts_ext.
    + intros a. rewrite Hat. case_decide; [|done]. subst a.
      unfold isTerminal, o'. rewrite js_get_set_ne, Hno; [done|].
      intros <-. by destruct Lp.
    + intros a k. destruct (js_get (String k "") (node_at t' a)) as [| | |x] eqn:Hx.
      1-3: left; rewrite Hat in Hx; case_decide as Ha; [|done]; subst a;
        unfold o' in Hx; rewrite js_get_set in Hx; case_decide; [done|];
        by rewrite Hno.
      destruct (Hedge _ _ _ Hx) as [Hx'|(-> & Hkp & ->)]; [by left|].
      right. exists shared, c. split; [done|]. split; [|done].
      by rewrite Hno, Hkp.
  - intros a k x Hx. destruct (Hedge _ _ _ Hx) as [?|(_ & _ & ->)]; [by left|].
    right. by rewrite Hfz.
  - done.
Qed.

(** Freezing a node whose children are frozen and registering it under
    its signature. *)
Lemma freeze_dawg node o sig t :
  keys_ok safe_char t → reg_frozen t → dawg_inv t → protected Q t →
  ¬ Q node → heap t !! node = Some o → frozen o = false →
  (∀ k c, js_get k o = VObj c → frz t c = true) →
  sig_of t o = sig → suffixes t !! sig = None →
  let t' := register sig node (put node (obj_set "_c" (VNum (cNext t)) o) t) in
  dawg_inv t' ∧ protected Q t'
  ∧ (∀ a, Q a → node_at t' a = node_at t a)
  ∧ (∀ a q, accepts t' a q = accepts t a q)
  ∧ edges_kept t t' ∧ frozen_kept t t'.
Proof.
  intros Hk Hr (HF & HU & HReg & HId & HRc & HIo) [HQ1 HQ2] HnQ Hn Hfo Hch
    Hsig Hnone t'.
  pose proof (lookup_lt_Some _ _ _ Hn) as Hnlt.
  pose proof (node_at_lookup _ _ _ Hn) as Hno.
  set (o' := obj_set "_c" (VNum (cNext t)) o) in *.
  assert (Hat : ∀ a, node_at t' a = if decide (a = node) then o' else node_at t a).
  { intros a. unfold t', register, node_at. cbn [heap].
    fold (node_at (put node o' t) a). by apply node_at_put. }
  assert (Hfn : frz t node = false) by (unfold frz; by rewrite Hno).
  assert (Hfn' : frz t' node = true).
  { unfold frz, frozen. rewrite Hat, decide_True by done. unfold o'.
    rewrite js_get_set_eq. simpl. destruct Hk as [Hcn _].
    apply negb_true_iff, Z.eqb_neq. lia. }
  assert (Hget : ∀ a k, k ≠ "_c" → js_get k (node_at t' a) = js_get k (node_at t a)).
  { intros a k Hkc. rewrite Hat. case_decide; [|done]. subst a.
    unfold o'. by rewrite js_get_set_ne, Hno. }
  assert (Hedge : ∀ a k x, js_get k (node_at t' a) = VObj x →
            js_get k (node_at t a) = VObj x).
  { intros a k x Hx. destruct (decide (k = "_c")) as [->|Hkc].
    - rewrite Hat in Hx. case_decide; [|done]. subst a. unfold o' in Hx.
      by rewrite js_get_set_eq in Hx.
    - by rewrite <- Hget. }
  assert (Hsame : ∀ a, a ≠ node → node_at t' a = node_at t a).
  { intros a Ha. rewrite Hat. by rewrite decide_False. }
  assert (Hfz : ∀ a, a ≠ node → frz t' a = frz t a).
  { intros a Ha. unfold frz. by rewrite Hsame. }
  assert (Hfz' : ∀ a, frz t' a = true → a = node ∨ (a ≠ node ∧ frz t a = true)).
  { intros a Hf. destruct (decide (a = node)); [by left|right].
    by rewrite <- Hfz. }
  assert (Hmono : ∀ a, frz t a = true → frz t' a = true).
  { intros a Hf. rewrite Hfz; [done|]. intros ->. congruence. }
  assert (Hsig' : ∀ a, a = node ∨ frz t a = true →
            sig_of t' (node_at t' a) = sig_of t (node_at t a)).
  { intros a Ha. apply sig_of_ext.
    - unfold isTerminal. by rewrite Hget.
    - rewrite Hat. case_decide; [|done]. subst a. rewrite Hno. unfold o'.
      by apply nodeProps_set_mark; [intros [_ ?]|].
    - intros p (_ & Lp & _)%elem_of_nodeProps. apply Hget.
      by apply label_not_c.
    - intros p x Hx.
      assert (Hfx : frz t x = true).
      { destruct Ha as [->|Ha]; [rewrite Hno in Hx|]; eauto. }
      rewrite Hsame; [done|]. intros ->. congruence. }
  split_and!.
  - split_and!.
    + intros a k x Hf Hx. apply Hedge in Hx. apply Hmono.
      apply Hfz' in Hf as [->|[_ Hf]]; [|eauto].
      rewrite Hno in Hx. eauto.
    + intros a1 k1 a2 k2 x H1 H2 Hfx.
      apply Hedge in H1, H2. eapply HU; [done..|].
      destruct (frz t x) eqn:Hf; [|done]. apply Hmono in Hf. congruence.
    + intros sg a. unfold t', register. cbn [suffixes].
      destruct (decide (sg = sig)) as [->|Hne].
      * rewrite lookup_insert_eq. intros [= <-].
        rewrite Hsig' by (by left). by rewrite Hno.
      * rewrite lookup_insert_ne by done. intros Hs.
        destruct (Hr _ _ Hs) as (oa & Ha & Hfa).
        rewrite Hsig'; [by apply HReg|]. right.
        unfold frz. by rewrite (node_at_lookup _ _ _ Ha).
    + assert (Hidn : js_get "_c" (node_at t' node) = VNum (cNext t)).
      { rewrite Hat, decide_True by done. unfold o'. by rewrite js_get_set_eq. }
      assert (Hlt : ∀ a, a ≠ node → frz t a = true →
                js_get "_c" (node_at t' a) ≠ VNum (cNext t)).
      { intros a Ha Hf. rewrite Hsame by done.
        destruct (frz_id _ _ _ Hk Hf) as (n & -> & Hn'). intros [=]. lia. }
      intros a b Ha Hb Hab.
      apply Hfz' in Ha as [->|[Ha Hfa]]; apply Hfz' in Hb as [->|[Hb Hfb]].
      * done.
      * rewrite Hidn in Hab. symmetry in Hab. by apply Hlt in Hab.
      * rewrite Hidn in Hab. by apply Hlt in Hab.
      * rewrite !Hsame in Hab by done. eauto.
    + intros a Hf. unfold t', register. cbn [suffixes].
      apply Hfz' in Hf as [->|[Ha Hf]].
      * rewrite Hsig' by (by left). rewrite Hno, Hsig.
        by rewrite lookup_insert_eq.
      * rewrite Hsig' by (by right). rewrite lookup_insert_ne; [by apply HRc|].
        intros Heq. specialize (HRc _ Hf). rewrite <- Heq in HRc. congruence.
    + intros a k x n m Hf Hx Hn' Hm. apply Hedge in Hx.
      apply Hfz' in Hf as [->|[Ha Hf]].
      * rewrite Hno in Hx. pose proof (Hch _ _ Hx) as Hfx.
        assert (x ≠ node) by (intros ->; congruence).
        rewrite Hsame in Hm by done.
        destruct (frz_id _ _ _ Hk Hfx) as (m' & Hm' & Hlt).
        rewrite Hat, decide_True in Hn' by done. unfold o' in Hn'.
        rewrite js_get_set_eq in Hn'. injection Hn' as <-.
        rewrite Hm' in Hm. injection Hm as <-. lia.
      * pose proof (HF _ _ _ Hf Hx) as Hfx.
        assert (x ≠ node) by (intros ->; congruence).
        rewrite Hsame in Hm, Hn' by done. eauto.
  - split.
    + intros a Ha. rewrite Hfz; [auto|]. by intros ->.
    + intros a k x Hf Hx Hqx. apply Hedge in Hx.
      assert (a ≠ node) by (intros ->; congruence).
      rewrite Hfz in Hf by done. eauto.
  - intros a Ha. apply Hsame. by intros ->.
  - intros a0 q0. revert q0 a0. apply accepts_ext.
    + intros a. unfold isTerminal. by rewrite Hget.
    + intros a k. left. by apply Hget.
  - intros a k x Hx. left. by apply Hedge.
  - intros a Hf. apply Hsame. intros ->. congruence.
Qed.

Lemma nodeProps_false_keys o o' :
  obj_keys o' = obj_keys o → nodeProps o' false = nodeProps o false.
Proof.
  intros Hk. unfold nodeProps. rewrite Hk. f_equal.
  apply list_filter_iff. intros k. naive_solver.
Qed.

Lemma combine_loop_dawg rec rank node f :
  (∀ c s oc r s',
     builder_inv s → keys_ok safe_char s → reg_frozen s → ranked rank s →
     dawg_inv s → protected Q s →
     heap s !! c = Some oc → frozen oc = true ∨ rank c + 2 ≤ f → ¬ Q c →
     rec c s = Some (r, s') →
     combine_rank_post safe_char rank s c r s' ∧ combine_dawg_post Q s c r s') →
  rank node + 1 ≤ f → ¬ Q node →
  ∀ props sig t o sig' t',
    builder_inv t → keys_ok safe_char t → reg_frozen t → ranked rank t →
    dawg_inv t → protected Q t →
    heap t !! node = Some o → frozen o = false →
    (∀ p, p ∈ props → p ∈ obj_keys o ∧ label p) → NoDup props →
    combine_loop rec node props sig t = Some (sig', t') →
    ∃ o', heap t' !! node = Some o' ∧ frozen o' = false
      ∧ builder_inv t' ∧ keys_ok safe_char t' ∧ reg_frozen t' ∧ ranked rank t'
      ∧ dawg_inv t' ∧ protected Q t'
      ∧ (∀ a, Q a → node_at t' a = node_at t a)
      ∧ (∀ a q, accepts t' a q = accepts t a q)
      ∧ edges_kept t t' ∧ frozen_kept t t'
      ∧ obj_keys o' = obj_keys o
      ∧ (∀ k, k ∉ props → js_get k o' = js_get k o)
      ∧ (∀ p c, p ∈ props → js_get p o' = VObj c → frz t' c = true)
      ∧ sig' = sig ++ flat_map (sig_prop t' o') props.
Proof.
  intros Hrec Hfn HnQ.
  induction props as [|prop props IH];
    intros sig t o sig' t' Hinv Hk Hr Hrk Hd HQ Hn Hfo Hprops Hnd Hloop.
  { injection Hloop as <- <-. exists o. split_and!; try done.
    - apply edges_kept_refl.
    - by intros p c ?%elem_of_nil.
    - by rewrite app_nil_r. }
  cbn [combine_loop] in Hloop. rewrite Hn in Hloop.
  cbn [mbind option_bind] in Hloop.
  destruct (Hprops prop) as [Hin Lp]; [by left|].
  apply NoDup_cons in Hnd as [Hnin Hnd].
  assert (Hrest : ∀ o', obj_keys o' = obj_keys o →
            ∀ p, p ∈ props → p ∈ obj_keys o' ∧ label p).
  { intros o' Hk' p Hp. destruct (Hprops p) as [? ?]; [by right|].
    split; [by rewrite Hk'|done]. }
  destruct (js_get prop o) as [| | |c] eqn:Hv.
  1-3: destruct (IH _ _ _ _ _ Hinv Hk Hr Hrk Hd HQ Hn Hfo (Hrest o eq_refl)
                   Hnd Hloop)
         as (o' & Hn' & Hfo' & Hinv' & Hk' & Hr' & Hrk' & Hd' & HQ' & HQf'
             & Hacc' & Hek' & Hfk' & Hkeys' & Hget' & Hch' & Hsig');
       exists o'; split_and!; try done;
       [intros k [? ?]%not_elem_of_cons; by apply Hget'
       |intros p x [->|Hp]%elem_of_cons Hx;
          [rewrite Hget', Hv in Hx by done; done|by eapply Hch']
       |rewrite Hsig', <- (assoc_L (++)); f_equal; simpl; f_equal;
          unfold sig_prop; by rewrite Hget', Hv by done].
  destruct (builder_inv_wf _ _ _ Hinv Hn) as [Hwf Hsm].
  pose proof (node_wf_get _ _ _ _ Hwf Hv) as Hclt.
  destruct (lookup_lt_is_Some_2 _ _ Hclt) as [oc Hc].
  assert (Hcf : frozen oc = true ∨ rank c + 2 ≤ f).
  { destruct (frozen oc) eqn:Hfc; [by left|right].
    destruct Hrk as [_ Hrk]. specialize (Hrk _ _ _ _ _ Hn Hfo Hv Hc Hfc). lia. }
  pose proof (node_at_lookup _ _ _ Hn) as Hno.
  assert (HnQc : ¬ Q c).
  { intros Hqc. apply HnQ. destruct HQ as [_ HQ2].
    apply (HQ2 node prop c); [unfold frz; by rewrite Hno|by rewrite Hno|done]. }
  destruct (rec c t) as [[shared t1]|] eqn:Hrc; [|done].
  cbn [mbind option_bind] in Hloop.
  destruct (Hrec _ _ _ _ _ Hinv Hk Hr Hrk Hd HQ Hc Hcf HnQc Hrc)
    as [(Hinv1 & Hk1 & Hr1 & Hrk1 & Hl1 & (os & Hs & Hfs) & Hun1 & Hfz1)
        (Hd1 & HQ1 & HQf1 & Hacc1 & Hrn1 & Hek1 & Hfk1 & _)].
  assert (Hn1 : heap t1 !! node = Some o).
  { destruct (frozen oc) eqn:Hfc.
    - destruct (Hfz1 _ Hc Hfc) as [-> _]. done.
    - apply Hun1; [done|]. right. destruct Hrk as [_ Hrk].
      exact (Hrk _ _ _ _ _ Hn Hfo Hv Hc Hfc). }
  unfold set_prop in Hloop. rewrite Hn1 in Hloop.
  cbn [mbind option_bind] in Hloop.
  destruct (redirect_inv safe_char rank node prop shared o c os t1)
    as (Hinv2 & Hk2 & Hr2 & Hrk2 & Hs2); [done..|].
  rewrite Hs2 in Hloop. cbn [mbind option_bind] in Hloop.
  assert (Hfs1 : frz t1 shared = true).
  { unfold frz. by rewrite (node_at_lookup _ _ _ Hs). }
  destruct (redirect_dawg node prop shared o c t1)
    as (Hd2 & HQ2 & HQf2 & Hacc2 & Hek2 & Hfk2); [done..|].
  set (o2 := obj_set prop (VObj shared) o) in *.
  set (t2 := put node o2 t1) in *.
  assert (Hn2 : heap t2 !! node = Some o2).
  { apply lookup_put_eq. by eapply lookup_lt_Some. }
  assert (Hfo2 : frozen o2 = false).
  { unfold o2. rewrite frozen_set_ne; [done|by apply label_not_c]. }
  assert (Hkeys2 : obj_keys o2 = obj_keys o).
  { unfold o2. by rewrite keys_set_has. }
  destruct (IH _ _ _ _ _ Hinv2 Hk2 Hr2 Hrk2 Hd2 HQ2 Hn2 Hfo2 (Hrest o2 Hkeys2)
              Hnd Hloop)
    as (o' & Hn' & Hfo' & Hinv' & Hk' & Hr' & Hrk' & Hd' & HQ' & HQf'
        & Hacc' & Hek' & Hfk' & Hkeys' & Hget' & Hch' & Hsig').
  assert (Hfs2 : frz t2 shared = true) by (by eapply frozen_kept_frz).
  assert (Hfs' : frz t' shared = true) by (by eapply frozen_kept_frz).
  assert (Hprop' : js_get prop o' = VObj shared).
  { rewrite Hget' by done. unfold o2. by rewrite js_get_set_eq. }
  exists o'. split_and!; try done.
  - intros a Ha. by rewrite HQf', HQf2, HQf1.
  - intros a q. by rewrite Hacc', Hacc2, Hacc1.
  - eapply edges_kept_trans; [|done|done].
    eapply edges_kept_trans; done.
  - eapply frozen_kept_trans; [|done]. eapply frozen_kept_trans; done.
  - congruence.
  - intros k [Hkp Hkn]%not_elem_of_cons. rewrite Hget' by done.
    unfold o2. by rewrite js_get_set_ne.
  - intros p x [->|Hp]%elem_of_cons Hx; [|by eapply Hch'].
    rewrite Hprop' in Hx. by injection Hx as <-.
  - rewrite Hsig', <- (assoc_L (++)). f_equal. simpl. unfold sig_prop at 2.
    rewrite Hprop'. simpl. do 3 f_equal.
    rewrite (Hfk' _ Hfs2), (Hfk2 _ Hfs1). by rewrite (node_at_lookup _ _ _ Hs).
Qed.

Lemma combine_dawg fuel : ∀ node t rank o r t',
  builder_inv t → keys_ok safe_char t → reg_frozen t → ranked rank t →
  dawg_inv t → protected Q t →
  heap t !! node = Some o → frozen o = true ∨ rank node + 2 ≤ fuel →
  ¬ Q node →
  combineSuffixNode fuel node t = Some (r, t') →
  combine_dawg_post Q t node r t'.
Proof.
  induction fuel as [|f IH];
    intros node t rank o r t' Hinv Hk Hr Hrk Hd HQ Hn Hcond HnQ Hc; [done|].
  cbn [combineSuffixNode] in Hc. rewrite Hn in Hc.
  cbn [mbind option_bind] in Hc. fold (frozen o) in Hc.
  destruct (frozen o) eqn:Hfo.
  { injection Hc as <- <-. unfold combine_dawg_post. split_and!; try done.
    apply edges_kept_refl. }
  destruct Hcond as [?|Hrank]; [done|].
  destruct (combine_loop (combineSuffixNode f) node (nodeProps o false)
              (if isTerminal o then ["!"] else []) t)
    as [[sig' t1]|] eqn:Hloop; [|done].
  cbn [mbind option_bind] in Hc.
  destruct (builder_inv_wf _ _ _ Hinv Hn) as [(Hnd & _) _].
  apply (combine_loop_dawg _ rank node f) with (o := o) in Hloop
    as (o1 & Hn1 & Hfo1 & Hinv1 & Hk1 & Hr1 & Hrk1 & Hd1 & HQ1 & HQf1
        & Hacc1 & Hek1 & Hfk1 & Hkeys1 & Hget1 & Hch1 & Hsig1);
    try done; try lia.
  2:{ intros c s oc r0 s0 ? ? ? ? ? ? Hoc Hcf ? Hrc. split.
      - destruct (combine_total safe_char f c s rank oc)
          as (r1 & s1 & Hc1 & Hpost); try done; try lia.
        rewrite Hrc in Hc1. by injection Hc1 as <- <-.
      - by eapply IH. }
  2:{ intros p [? [? _]]%elem_of_nodeProps. done. }
  2:{ by apply NoDup_nodeProps. }
  pose proof (node_at_lookup _ _ _ Hn1) as Hno1.
  assert (Hch : ∀ k c, js_get k o1 = VObj c → frz t1 c = true).
  { intros k c Hv. apply (Hch1 k); [|done].
    assert (Hin : k ∈ obj_keys o1).
    { apply js_get_defined_key. by rewrite Hv. }
    destruct Hk1 as [_ Hk1'].
    destruct (val_ok_obj _ _ _ _ _ (Hk1' _ _ _ Hn1 Hin) Hv) as (c0 & -> & Hc0).
    apply elem_of_nodeProps. split; [by rewrite <- Hkeys1|].
    split; [|done]. split; [done|]. simpl. by apply safe_not_us in Hc0. }
  assert (Hsig : sig_of t1 o1 = join "-" sig').
  { rewrite Hsig1. unfold sig_of. do 2 f_equal.
    - unfold isTerminal. rewrite Hget1; [done|].
      by intros (_ & [? _] & _)%elem_of_nodeProps.
    - f_equal. by apply nodeProps_false_keys. }
  destruct (suffixes t1 !! join "-" sig') as [shared|] eqn:Hsuf.
  - injection Hc as <- <-.
    assert (Hsame : ∀ k, k ≠ "_c" →
              js_get k (node_at t1 shared) = js_get k (node_at t1 node)).
    2:{ unfold combine_dawg_post. split_and!; try done.
        intros q. by apply accepts_same_props. }
    rewrite Hno1.
    destruct Hd1 as (HF1 & _ & HReg1 & HId1 & _).
    destruct (Hr1 _ _ Hsuf) as (os & Hs & Hfs).
    pose proof (node_at_lookup _ _ _ Hs) as Hso. rewrite Hso.
    apply (sig_inj t1); [done|done| | |].
    + split; [destruct Hk1 as [_ Hk1']; intros k Hin; exact (Hk1' _ _ _ Hs Hin)|].
      intros k c Hv. apply (HF1 shared k); [unfold frz; by rewrite Hso|].
      by rewrite Hso.
    + split; [destruct Hk1 as [_ Hk1']; intros k Hin; exact (Hk1' _ _ _ Hn1 Hin)|done].
    + rewrite Hsig. rewrite <- Hso. by apply HReg1.
  - unfold set_prop in Hc. rewrite Hn1 in Hc.
    cbn [mbind option_bind] in Hc. injection Hc as <- <-.
    destruct (freeze_dawg node o1 (join "-" sig') t1)
      as (Hd2 & HQ2 & HQf2 & Hacc2 & Hek2 & Hfk2); [done..|].
    unfold combine_dawg_post. split_and!; try done.
    + intros a Ha. by rewrite HQf2, HQf1.
    + intros a q. by rewrite Hacc2, Hacc1.
    + eapply edges_kept_trans; done.
    + eapply frozen_kept_trans; done.
Qed.

End combine_dawg.


(** * The order of [sort] on strings *)

Lemma ascii_compare_refl c : Ascii.compare c c = Eq.
Proof. unfold Ascii.compare. apply N.compare_refl. Qed.

Lemma ascii_compare_trans_lt a b c :
  Ascii.compare a b = Lt → Ascii.compare b c = Lt → Ascii.compare a c = Lt.
Proof.
  unfold Ascii.compare. rewrite !N.compare_lt_iff. lia.
Qed.

Lemma str_compare_refl s : String.compare s s = Eq.
Proof. induction s as [|c s IH]; [done|]. simpl. by rewrite ascii_compare_refl. Qed.

Lemma leb_refl s : String.leb s s = true.
Proof. unfold String.leb. by rewrite str_compare_refl. Qed.

Lemma leb_nil_l s : String.leb "" s = true.
Proof. by destruct s. Qed.

Lemma leb_nil_r s : String.leb s "" = true → s = "".
Proof. by destruct s. Qed.

Lemma leb_cons c a b : String.leb (String c a) (String c b) = String.leb a b.
Proof. unfold String.leb. simpl. by rewrite ascii_compare_refl. Qed.

Lemma leb_app_cancel p a b : String.leb (p +:+ a) (p +:+ b) = String.leb a b.
Proof.
  induction p as [|c p IH]; [done|]. by rewrite !str_app_cons, leb_cons.
Qed.

(** Between two words that begin with [c] there are only words that begin
    with [c]. *)
Lemma leb_between c u y z :
  String.leb (String c u) y = true → String.leb y (String c z) = true →
  ∃ y', y = String c y'.
Proof.
  destruct y as [|d y]; [done|]. unfold String.leb. simpl.
  rewrite (Ascii.compare_antisym d c).
  destruct (Ascii.compare c d) eqn:Hcd; simpl; try done.
  apply Ascii.compare_eq_iff in Hcd as ->. eauto.
Qed.

Lemma leb_trans s1 : ∀ s2 s3,
  String.leb s1 s2 = true → String.leb s2 s3 = true → String.leb s1 s3 = true.
Proof.
  induction s1 as [|a s1 IH]; intros s2 s3 H12 H23; [apply leb_nil_l|].
  destruct s2 as [|b s2]; [done|]. destruct s3 as [|c s3]; [done|].
  unfold String.leb in *. simpl in *.
  destruct (Ascii.compare a b) eqn:Hab; try done;
    destruct (Ascii.compare b c) eqn:Hbc; try done.
  - apply Ascii.compare_eq_iff in Hab as ->.
    apply Ascii.compare_eq_iff in Hbc as ->.
    rewrite ascii_compare_refl. by eapply IH.
  - apply Ascii.compare_eq_iff in Hab as ->. by rewrite Hbc.
  - apply Ascii.compare_eq_iff in Hbc as ->. by rewrite Hab.
  - by rewrite (ascii_compare_trans_lt _ _ _ Hab Hbc).
Qed.

(** ** [sort] *)

Lemma sort_insert_sorted p l :
  Sorted (λ x y, String.leb x y = true) l →
  Sorted (λ x y, String.leb x y = true) (sort_insert p l).
Proof.
  induction l as [|q l IH]; intros Hs; simpl.
  { repeat constructor. }
  destruct (String.leb p q) eqn:Hpq.
  - constructor; [done|]. by constructor.
  - assert (Hqp : String.leb q p = true).
    { destruct (String.leb_total p q) as [H|H]; [congruence|done]. }
    apply Sorted_inv in Hs as [Hs Hhd]. constructor; [by apply IH|].
    destruct l as [|q' l]; simpl.
    + by constructor.
    + apply HdRel_inv in Hhd. destruct (String.leb p q'); by constructor.
Qed.

Lemma sort_sorted l : Sorted (λ x y, String.leb x y = true) (sort l).
Proof.
  induction l as [|p l IH]; simpl; [constructor|]. by apply sort_insert_sorted.
Qed.

(** A list in ascending order without repetition is determined by its
    elements. *)
Lemma sorted_unique l1 : ∀ l2,
  Sorted (λ x y, String.leb x y = true) l1 →
  Sorted (λ x y, String.leb x y = true) l2 →
  NoDup l1 → NoDup l2 → (∀ x, x ∈ l1 ↔ x ∈ l2) → l1 = l2.
Proof.
  induction l1 as [|h1 l1 IH]; intros [|h2 l2] Hs1 Hs2 Hn1 Hn2 Heq.
  - done.
  - exfalso. eapply elem_of_nil, Heq. by left.
  - exfalso. eapply elem_of_nil, Heq. by left.
  - assert (Htr : Relations_1.Transitive (λ x y, String.leb x y = true)).
    { intros x y z. apply leb_trans. }
    apply (Sorted_StronglySorted Htr) in Hs1.
    apply (Sorted_StronglySorted Htr) in Hs2.
    apply StronglySorted_inv in Hs1 as [Hs1 Hf1].
    apply StronglySorted_inv in Hs2 as [Hs2 Hf2].
    apply NoDup_cons in Hn1 as [Hh1 Hn1]. apply NoDup_cons in Hn2 as [Hh2 Hn2].
    rewrite List.Forall_forall in Hf1, Hf2.
    assert (H21 : String.leb h2 h1 = true).
    { assert (Hin : h1 ∈ h2 :: l2) by (apply Heq; by left).
      apply elem_of_cons in Hin as [->|Hin]; [apply leb_refl|].
      apply Hf2. by apply list_elem_of_In. }
    assert (H12 : String.leb h1 h2 = true).
    { assert (Hin : h2 ∈ h1 :: l1) by (apply Heq; by left).
      apply elem_of_cons in Hin as [->|Hin]; [apply leb_refl|].
      apply Hf1. by apply list_elem_of_In. }
    assert (h1 = h2) as -> by (by apply String.leb_antisym).
    f_equal. apply IH; try done; try by apply StronglySorted_Sorted.
    intros x. specialize (Heq x). rewrite !elem_of_cons in Heq.
    split; intros Hx.
    + destruct (proj1 Heq (or_intror Hx)) as [->|?]; done.
    + destruct (proj2 Heq (or_intror Hx)) as [->|?]; done.
Qed.


(** * Descents through nodes that are not frozen *)

Lemma descends_app_inv t l1 : ∀ a x l2 D z,
  descends t a x (l1 ++ l2) D z →
  ∃ b y, descends t a x l1 b y ∧ descends t b y l2 D z.
Proof.
  induction l1 as [|[b0 c0] l1 IH]; intros a x l2 D z Hd.
  - exists a, x. split; [constructor|done].
  - simpl in Hd.
    inversion Hd as [|a' o c' z0 child l' D' z' Ha Hv Hd']; subst.
    destruct (IH _ _ _ _ _ Hd') as (b & y & H1 & H2).
    exists b, y. split; [|done]. by eapply descends_edge.
Qed.

Lemma descends_app t a x l1 b y l2 D z :
  descends t a x l1 b y → descends t b y l2 D z →
  descends t a x (l1 ++ l2) D z.
Proof.
  induction 1 as [|a o c z0 child l b z' Ha Hv _ IH]; intros H2; [done|].
  simpl. eapply descends_edge; [done|done|]. by apply IH.
Qed.

(** The descent up to an edge that it takes. *)
Lemma descends_elem t a x l D z b c :
  descends t a x l D z → (b, c) ∈ l →
  ∃ l1 l2 y, l = l1 ++ (b, c) :: l2 ∧ descends t a x l1 b (String c y).
Proof.
  intros Hd (l1 & l2 & ->)%list_elem_of_split.
  apply descends_app_inv in Hd as (b' & y & H1 & H2).
  inversion H2; subst. by exists l1, l2, z0.
Qed.

Lemma descends_node t a x l D z b :
  descends t a x l D z → b ∈ l.*1 ++ [D] →
  ∃ l1 y, descends t a x l1 b y ∧ length l1 ≤ length l.
Proof.
  intros Hd [Hb| ->%list_elem_of_singleton]%elem_of_app.
  - apply list_elem_of_fmap in Hb as ([b' c] & -> & Hin).
    destruct (descends_elem _ _ _ _ _ _ _ _ Hd Hin) as (l1 & l2 & y & -> & H1).
    exists l1, (String c y). split; [done|]. rewrite length_app. lia.
  - by exists l, z.
Qed.

Section spine.
Context (t : Trie) (rank : nat → nat).
Context (Hwf : heap_wf t) (Hrk : ranked rank t).

Lemma free_edge a o c x child :
  free_from t a (String c x) → heap t !! a = Some o →
  js_get (String c "") o = VObj child → free_from t child x.
Proof.
  intros Hf Ha Hv l D z Hd. apply (Hf ((a, c) :: l) D z).
  by eapply descends_edge.
Qed.

Lemma free_rank_edge a o c x child :
  free_from t a (String c x) → heap t !! a = Some o →
  js_get (String c "") o = VObj child → rank child < rank a.
Proof.
  intros Hf Ha Hv.
  assert (Hfa : frz t a = false) by (apply (Hf [] a (String c x)); constructor).
  assert (Hfc : frz t child = false).
  { apply (Hf [(a, c)] child x). eapply descends_edge; [done..|constructor]. }
  assert (Hclt : child < length (heap t)).
  { eapply node_at_edge_lt; [done|]. by rewrite (node_at_lookup _ _ _ Ha). }
  destruct (lookup_lt_is_Some_2 _ _ Hclt) as [oc Hc].
  destruct Hrk as [_ Hr]. eapply Hr; [exact Ha| |exact Hv|exact Hc|].
  - unfold frz in Hfa. by rewrite (node_at_lookup _ _ _ Ha) in Hfa.
  - unfold frz in Hfc. by rewrite (node_at_lookup _ _ _ Hc) in Hfc.
Qed.

Lemma descends_rank a x l D z :
  descends t a x l D z → free_from t a x →
  rank D ≤ rank a ∧ (l ≠ [] → rank D < rank a).
Proof.
  induction 1 as [|a o c z0 child l D z' Ha Hv _ IH]; intros Hf.
  - split; [done|]. by intros [].
  - pose proof (free_rank_edge _ _ _ _ _ Hf Ha Hv) as Hlt.
    destruct IH as [Hle _]; [by eapply free_edge|]. split; [lia|]. intros _. lia.
Qed.

(** Such a descent reaches a node once. *)
Lemma descends_unique a x l1 D z1 :
  descends t a x l1 D z1 → free_from t a x →
  ∀ l2 z2, descends t a x l2 D z2 → l1 = l2 ∧ z1 = z2.
Proof.
  induction 1 as [a x|a o c z0 child l D z' Ha Hv Hd IH]; intros Hf l2 z2 H2.
  - inversion H2 as [|a' o c z0 child l D' z' Ha Hv Hd']; subst; [done|].
    exfalso.
    pose proof (free_rank_edge _ _ _ _ _ Hf Ha Hv) as Hlt.
    destruct (descends_rank _ _ _ _ _ Hd') as [Hle _]; [by eapply free_edge|].
    lia.
  - inversion H2 as [|a' o' c' z0' child' l' D' z'' Ha' Hv' Hd']; subst.
    + exfalso.
      pose proof (free_rank_edge _ _ _ _ _ Hf Ha Hv) as Hlt.
      destruct (descends_rank _ _ _ _ _ Hd) as [Hle _]; [by eapply free_edge|].
      lia.
    + assert (o' = o) as -> by congruence.
      assert (child' = child) as -> by congruence.
      destruct (IH (free_edge _ _ _ _ _ Hf Ha Hv) _ _ Hd') as [-> ->]. done.
Qed.

(** A descent takes one edge at most out of each node, and does not come
    back to its end. *)
Lemma descends_one_edge a x l D z b c k :
  descends t a x l D z → free_from t a x → (b, c) ∈ l → (b, k) ∈ l → c = k.
Proof.
  intros Hd Hf Hc Hk.
  destruct (descends_elem _ _ _ _ _ _ _ _ Hd Hc) as (l1 & l2 & y & _ & H1).
  destruct (descends_elem _ _ _ _ _ _ _ _ Hd Hk) as (l1' & l2' & y' & _ & H1').
  destruct (descends_unique _ _ _ _ _ H1 Hf _ _ H1') as [_ [= -> _]]. done.
Qed.

Lemma descends_end_fresh a x l D z c :
  descends t a x l D z → free_from t a x → (D, c) ∉ l.
Proof.
  intros Hd Hf Hin.
  destruct (descends_elem _ _ _ _ _ _ _ _ Hd Hin) as (l1 & l2 & y & Hl & H1).
  destruct (descends_unique _ _ _ _ _ H1 Hf _ _ Hd) as [-> _].
  apply (f_equal length) in Hl. rewrite length_app in Hl. simpl in Hl. lia.
Qed.

End spine.


(** * One [_insert] of the next word in ascending order *)

Lemma node_at_grow_cases D oD' fresh t a :
  D < length (heap t) →
  (a = D ∧ node_at (grow D oD' fresh t) a = oD')
  ∨ (a ≠ D ∧ a < length (heap t)
     ∧ node_at (grow D oD' fresh t) a = node_at t a)
  ∨ (∃ i o, a = length (heap t) + i ∧ fresh !! i = Some o
            ∧ node_at (grow D oD' fresh t) a = o)
  ∨ (length (heap t) + length fresh ≤ a
     ∧ node_at (grow D oD' fresh t) a = []).
Proof.
  intros HD. destruct (decide (a = D)) as [->|Hne].
  { left. split; [done|]. by apply node_at_grow_D. }
  destruct (decide (a < length (heap t))) as [Hlt|Hge].
  { right; left. split; [done|]. split; [done|]. by apply node_at_grow_old. }
  right; right. destruct (fresh !! (a - length (heap t))) as [o|] eqn:Hi.
  - left. exists (a - length (heap t)), o. split; [lia|]. split; [done|].
    replace a with (length (heap t) + (a - length (heap t))) at 1 by lia.
    by apply node_at_grow_fresh.
  - right. apply lookup_ge_None in Hi. split; [lia|].
    apply node_at_ge. rewrite length_grow. lia.
Qed.

(** The shape of the DAWG survives a [grow] at a node that is not
    frozen. *)
Lemma dawg_inv_grow ok D oD oD' fresh t :
  heap_wf t → reg_frozen t → dawg_inv t →
  heap t !! D = Some oD → frozen oD = false →
  grow_ok ok (length (heap t)) oD oD' fresh →
  dawg_inv (grow D oD' fresh t)
  ∧ (∀ a, frz (grow D oD' fresh t) a = frz t a).
Proof.
  intros Hwf Hr (HF & HU & HReg & HId & HRc & HIo) HD Hfo Hg.
  pose proof (lookup_lt_Some _ _ _ HD) as HDlt.
  pose proof (node_at_lookup _ _ _ HD) as HDo.
  pose proof Hg as (_ & _ & He & He1 & Hfr).
  set (len := length (heap t)) in *.
  assert (Hfz : ∀ a, frz (grow D oD' fresh t) a = frz t a).
  { intros a. unfold frz.
    destruct (node_at_grow_cases D oD' fresh t a HDlt)
      as [[-> ->]|[(_ & _ & ->)|[(i & o & -> & Hi & ->)|[Hge ->]]]].
    - rewrite (frozen_grow _ _ _ _ _ Hg). by rewrite HDo.
    - done.
    - rewrite (fresh_not_frozen _ _ _ _ _ Hfr Hi).
      by rewrite node_at_ge by (fold len; lia).
    - by rewrite node_at_ge by (fold len; lia). }
  assert (Hlt : ∀ a, frz t a = true → a < len ∧ a ≠ D).
  { intros a Hf. destruct (frz_valid _ _ Hf) as (o & Ha & Hfa).
    split; [by eapply lookup_lt_Some|]. intros ->. congruence. }
  assert (Hc : ∀ a, frz t a = true → node_at (grow D oD' fresh t) a = node_at t a).
  { intros a [? ?]%Hlt. by apply node_at_grow_old. }
  assert (Hedge : ∀ a k c, js_get k (node_at (grow D oD' fresh t) a) = VObj c →
            (js_get k (node_at t a) = VObj c ∧ c < len)
            ∨ (a = D ∧ c = len ∧ js_get k oD' = VObj len)
            ∨ (∃ i o, a = len + i ∧ fresh !! i = Some o ∧ c = len + S i
                      ∧ js_get k o = VObj c)).
  { intros a k c.
    destruct (node_at_grow_cases D oD' fresh t a HDlt)
      as [[-> ->]|[(_ & _ & ->)|[(i & o & -> & Hi & ->)|[Hge ->]]]]; intros Hv.
    - destruct (He k c Hv) as [Hold|[-> _]].
      + left. rewrite HDo. split; [done|].
        eapply node_at_edge_lt; [done|]. by rewrite HDo.
      + right; left. done.
    - left. split; [done|]. by eapply node_at_edge_lt.
    - right; right. destruct (Hfr i o Hi) as (_ & H2 & _).
      destruct (H2 k c Hv) as [-> _]. by exists i, o.
    - done. }
  split; [|done]. split_and!.
  - intros a k c Hf Hv. rewrite Hfz in Hf |- *.
    rewrite (Hc _ Hf) in Hv. eauto.
  - intros a1 k1 a2 k2 c H1 H2 Hfc. rewrite Hfz in Hfc.
    destruct (Hedge _ _ _ H1)
      as [[H1' Hc1]|[(-> & -> & H1')|(i & o & -> & Hi & -> & H1')]];
    destruct (Hedge _ _ _ H2)
      as [[H2' Hc2]|[(-> & Hc2 & H2')|(j & o2 & -> & Hj & Hc2 & H2')]];
      try lia.
    + eauto.
    + split; [done|]. by apply He1.
    + assert (j = i) as -> by lia. assert (o2 = o) as -> by congruence.
      split; [done|]. destruct (Hfr i o Hi) as (_ & _ & H3). by eapply H3.
  - intros sig a Hs. change (suffixes (grow D oD' fresh t)) with (suffixes t) in Hs.
    destruct (Hr _ _ Hs) as (oa & Ha & Hfa).
    assert (Hf : frz t a = true).
    { unfold frz. by rewrite (node_at_lookup _ _ _ Ha). }
    rewrite (Hc _ Hf). rewrite <- (HReg _ _ Hs).
    apply sig_of_ext; try done. intros p c Hv. rewrite Hc; [done|]. eauto.
  - intros a b Ha Hb. rewrite Hfz in Ha, Hb. rewrite !Hc by done. eauto.
  - intros a Hf. rewrite Hfz in Hf. rewrite (Hc _ Hf).
    change (suffixes (grow D oD' fresh t)) with (suffixes t).
    rewrite (sig_of_ext t (grow D oD' fresh t) (node_at t a) (node_at t a));
      [by apply HRc|done..|].
    intros p c Hv. rewrite Hc; [done|]. eauto.
  - intros a k c n m Hf Hv Hn Hm. rewrite Hfz in Hf.
    rewrite (Hc _ Hf) in Hv, Hn. rewrite Hc in Hm by eauto. eauto.
Qed.

(** ** The new word runs along the path of the last one *)

Lemma descent_on_last ws t :
  sorted_inv ws t →
  ∀ a x l D z, descends t a x l D z →
  ∀ pre y0,
    (∀ q, accepts t a q = accepts t (root t) (pre +:+ q)) →
    lastWord t = pre +:+ y0 → String.leb y0 x = true →
    ∃ y, y0 = spelled l +:+ y ∧ descends t a y0 l D y.
Proof.
  intros (Ht & Hrf & _ & Hlang & Hbound & Hlive & _ & _).
  pose proof Ht as (Hinv & _).
  induction 1 as [a x|a o c z child l D z' Ha Hv Hd IH];
    intros pre y0 Hrel Hlast Hle.
  { exists y0. split; [done|constructor]. }
  destruct (builder_inv_wf _ _ _ Hinv Ha) as [Hwf _].
  pose proof (node_wf_get _ _ _ _ Hwf Hv) as Hclt.
  assert (Hcr : child ≠ root t).
  { intros ->. destruct Hrf as (_ & Hnr & _). by eapply Hnr. }
  destruct (Hlive _ Hclt Hcr) as [u Hu].
  assert (Hin : pre +:+ String c u ∈ ws).
  { apply (bool_decide_eq_true_1 (pre +:+ String c u ∈ ws)).
    rewrite <- Hlang, <- Hrel. simpl.
    by rewrite (node_at_lookup _ _ _ Ha), Hv. }
  apply Hbound in Hin. rewrite Hlast, leb_app_cancel in Hin.
  destruct (leb_between _ _ _ _ Hin Hle) as [y' ->].
  rewrite leb_cons in Hle.
  destruct (IH (pre +:+ String c "") y') as (y & -> & Hd'); [| |done|].
  - intros q. rewrite str_app_assoc, str_app_cons, str_app_nil_l.
    rewrite <- Hrel. simpl. by rewrite (node_at_lookup _ _ _ Ha), Hv.
  - rewrite Hlast. by rewrite str_app_assoc, str_app_cons, str_app_nil_l.
  - exists y. split; [done|]. by eapply descends_edge.
Qed.

Lemma next_word_free ws t w :
  sorted_inv ws t → String.leb (lastWord t) w = true → spine_free w t.
Proof.
  intros Hinv Hle l D z Hd.
  destruct (descent_on_last _ _ Hinv _ _ _ _ _ Hd "" (lastWord t))
    as (y & _ & Hd'); [done|done|done|].
  destruct Hinv as (_ & _ & _ & _ & _ & _ & Hsp & _). by eapply Hsp.
Qed.

Lemma node_at_edge t a k c :
  js_get k (node_at t a) = VObj c →
  ∃ o, heap t !! a = Some o ∧ js_get k o = VObj c.
Proof.
  unfold node_at. destruct (heap t !! a) as [o|]; [eauto|done].
Qed.

(** A descent through nodes that stay what they were and are not frozen
    stays free when its end does. *)
Lemma free_step t t1 a x l D z :
  descends t a x l D z →
  (∀ b c, (b, c) ∈ l → node_at t1 b = node_at t b ∧ frz t b = false) →
  free_from t1 D z → free_from t1 a x.
Proof.
  induction 1 as [a x|a o c z0 child l D z' Ha Hv Hd IH]; intros Hsame HD;
    [done|].
  destruct (Hsame a c) as [Hat Hfa]; [by left|].
  intros l1 D1 z1 Hd1.
  inversion Hd1 as [|a' o1 c' z0' child1 l' D' z'' Ha1 Hv1 Hd1']; subst.
  - unfold frz. rewrite Hat. exact Hfa.
  - rewrite (node_at_lookup _ _ _ Ha1), (node_at_lookup _ _ _ Ha) in Hat.
    subst o1. assert (child1 = child) as -> by congruence.
    eapply IH; [|done|done]. intros b c' Hb. apply (Hsame b c'). by right.
Qed.

(** A descent that starts at a new node stays among the new nodes. *)
Lemma fresh_descends ok D oD' fresh t a x l D1 z1 :
  D < length (heap t) → fresh_ok ok (length (heap t)) fresh →
  descends (grow D oD' fresh t) a x l D1 z1 →
  length (heap t) ≤ a → length (heap t) ≤ D1.
Proof.
  intros HD Hfr. induction 1 as [a x|a o c z0 child l D1 z' Ha Hv Hd IH];
    intros Hge; [done|].
  apply IH. pose proof (node_at_lookup _ _ _ Ha) as Hat.
  destruct (node_at_grow_cases D oD' fresh t a HD)
    as [[-> _]|[(_ & ? & _)|[(i & o' & -> & Hi & Ho)|[_ Ho]]]]; [lia|lia| |].
  - rewrite Hat in Ho. subst o'. destruct (Hfr i o Hi) as (_ & H2 & _).
    destruct (H2 _ _ Hv) as [-> _]. lia.
  - rewrite Hat in Ho. rewrite Ho in Hv. by simpl in Hv.
Qed.

(** Where the descent of [_insert] ends there is no edge for the next
    code unit. *)
Lemma step_no_edge t D c z t1 oD ch :
  step_at t D (String c z) t1 → heap t !! D = Some oD →
  js_get (String c "") oD ≠ VObj ch.
Proof.
  intros Hs HD Hv.
  inversion Hs as [| oD0 c0 HD0 Hnk|oD0 c0 z0 HD0 Hnk Hne|oD0 c0 HD0 Hv0
                  |oD0 c0 z0 HD0 Hv0 Hne]; subst;
    assert (oD0 = oD) as -> by congruence.
  - by rewrite js_get_not_key in Hv.
  - by rewrite js_get_not_key in Hv.
  - congruence.
  - congruence.
Qed.

(** The new nodes accept some word each. *)
Lemma step_fresh_live t D z t1 a :
  step_at t D z t1 → D < length (heap t) →
  length (heap t) ≤ a → a < length (heap t1) →
  ∃ q, accepts t1 a q = true.
Proof.
  intros Hs HD Hge Hlt.
  destruct Hs as [oD HD0|oD c HD0 Hnk|oD c z HD0 Hnk Hne|oD c HD0 Hv
                 |oD c z HD0 Hv Hne].
  - rewrite length_grow in Hlt. simpl in Hlt. lia.
  - rewrite length_grow in Hlt. simpl in Hlt. lia.
  - rewrite length_grow in Hlt.
    replace a with (length (heap t) + (a - length (heap t))) by lia.
    apply (chain_live _ z); [|lia].
    intros i o Hi. by apply node_at_grow_fresh.
  - lia.
  - rewrite length_grow in Hlt.
    replace a with (length (heap t) + (a - length (heap t))) by lia.
    apply (chain_from_live _ z); [done| |lia].
    intros i o Hi. by apply node_at_grow_fresh.
Qed.

(** Below the node where the descent ends there are only new nodes on
    the way of the rest of the word. *)
Lemma free_at_end ok t D z t1 :
  builder_inv t → step_at t D z t1 → word_over ok z = true →
  D < length (heap t) → frz t D = false →
  (∀ a, frz t1 a = frz t a) → free_from t1 D z.
Proof.
  intros Hinv Hs Hz HDlt HfD Hfz l1 D1 z1 Hd1. rewrite Hfz.
  inversion Hd1 as [|a' o1 c' z0' child1 l' D' z'' Ha1 Hv1 Hd1']; subst;
    [done|].
  destruct (step_at_grow ok _ _ _ _ Hinv Hz Hs)
    as [Heq|(oD & oD' & fresh & HD & Heq & Hg)]; subst t1.
  { exfalso. by eapply step_no_edge. }
  pose proof (node_at_grow_D D oD' fresh t HDlt) as HD'.
  rewrite (node_at_lookup _ _ _ Ha1) in HD'. subst o1.
  destruct Hg as (_ & _ & He & _ & Hfr).
  destruct (He _ _ Hv1) as [Hold|[-> _]].
  { exfalso. by eapply step_no_edge. }
  pose proof (fresh_descends _ _ _ _ _ _ _ _ _ _ HDlt Hfr Hd1') as Hge.
  unfold frz. rewrite node_at_ge; [done|]. by apply Hge.
Qed.

Section step.
Context (ws : list string) (t : Trie) (w : string) (rank : nat → nat).
Context (l : list (nat * ascii)) (D : nat) (z : string) (t1 : Trie).
Context (Hinv : sorted_inv ws t) (Hrk : ranked rank t).
Context (Hfree : spine_free w t).
Context (Hd : descends t (root t) w l D z) (Hs : step_at t D z t1).
Context (Hz : safe z = true).

Lemma step_binv : builder_inv t.
Proof. by destruct Hinv as ((? & _) & _). Qed.

Lemma step_wf : heap_wf t.
Proof. by destruct step_binv as (? & _). Qed.

Lemma step_D_valid : D < length (heap t).
Proof. eapply descends_valid; [apply step_wf|done|apply step_wf]. Qed.

Lemma step_root_free a k : js_get k (node_at t a) ≠ VObj (root t).
Proof.
  intros (o & Ha & Hv)%node_at_edge.
  destruct Hinv as (_ & (_ & Hnr & _) & _). by eapply Hnr.
Qed.

Lemma step_unique a1 k1 a2 k2 c :
  js_get k1 (node_at t a1) = VObj c → js_get k2 (node_at t a2) = VObj c →
  frz t c = false → a1 = a2 ∧ k1 = k2.
Proof. destruct Hinv as (_ & _ & (_ & HU & _) & _). apply HU. Qed.

Lemma step_grow :
  t1 = t ∨ ∃ oD oD' fresh,
    heap t !! D = Some oD ∧ t1 = grow D oD' fresh t
    ∧ grow_ok safe_char (length (heap t)) oD oD' fresh.
Proof. eapply step_at_grow; [apply step_binv|done|done]. Qed.

Lemma step_old a :
  a < length (heap t) → a ≠ D → node_at t1 a = node_at t a.
Proof.
  intros Ha Hne.
  destruct step_grow as [->|(oD & oD' & fresh & HD & -> & Hg)]; [done|].
  by apply node_at_grow_old.
Qed.

Lemma step_root : root t1 = root t.
Proof.
  by destruct step_grow as [->|(oD & oD' & fresh & HD & -> & Hg)].
Qed.

Lemma step_length : length (heap t) ≤ length (heap t1).
Proof.
  destruct step_grow as [->|(oD & oD' & fresh & HD & -> & Hg)]; [done|].
  rewrite length_grow. lia.
Qed.

Lemma step_path_free b : b ∈ l.*1 ++ [D] → frz t b = false.
Proof.
  intros Hb. destruct (descends_node _ _ _ _ _ _ _ Hd Hb) as (l1 & y & H1 & _).
  by eapply Hfree.
Qed.

Lemma step_path_valid b : b ∈ l.*1 ++ [D] → b < length (heap t).
Proof.
  intros Hb. destruct (descends_node _ _ _ _ _ _ _ Hd Hb) as (l1 & y & H1 & _).
  eapply descends_valid; [apply step_wf|done|apply step_wf].
Qed.

Lemma step_edge_in b c : (b, c) ∈ l → b ∈ l.*1 ++ [D].
Proof.
  intros Hb. apply elem_of_app. left. apply list_elem_of_fmap.
  by exists (b, c).
Qed.

Lemma step_path_same b c : (b, c) ∈ l → node_at t1 b = node_at t b.
Proof.
  intros Hb. apply step_old.
  - by eapply step_path_valid, step_edge_in.
  - intros ->. by eapply (descends_end_fresh t rank step_wf Hrk) in Hb.
Qed.

(** An edge into the path of the word leaves the path. *)
Lemma step_entered a k c :
  js_get k (node_at t a) = VObj c → c ∈ l.*1 ++ [D] →
  ∃ kc, k = String kc "" ∧ (a, kc) ∈ l.
Proof.
  intros Hv Hc.
  destruct (descends_entered _ _ _ _ _ _ _ Hd Hc) as [->|(p & kp & Hin & Hp)].
  { by apply step_root_free in Hv. }
  destruct (step_unique _ _ _ _ _ Hv Hp) as [-> ->];
    [by apply step_path_free|].
  by exists kp.
Qed.

Lemma step_frame q a :
  a ∉ l.*1 ++ [D] → a < length (heap t) → accepts t1 a q = accepts t a q.
Proof.
  revert q a. apply (accepts_frame t t1 (λ b, b ∈ l.*1 ++ [D])).
  - intros a Ha Hlt. apply step_old; [done|]. intros ->. apply Ha.
    apply elem_of_app. right. by apply list_elem_of_singleton.
  - intros a k c Ha Hlt Hv Hc.
    destruct (step_entered _ _ _ Hv Hc) as (kc & _ & Hin).
    by apply Ha, (step_edge_in a kc).
  - apply step_wf.
Qed.

Lemma step_off b c k child q :
  (b, c) ∈ l → k ≠ c → js_get (String k "") (node_at t b) = VObj child →
  accepts t1 child q = accepts t child q.
Proof.
  intros Hb Hk Hv. apply step_frame.
  - intros Hc. destruct (step_entered _ _ _ Hv Hc) as (kc & [= <-] & Hin).
    apply Hk. symmetry.
    by eapply (descends_one_edge t rank step_wf Hrk _ _ _ _ _ _ _ _ Hd).
  - eapply node_at_edge_lt; [apply step_wf|done].
Qed.

Lemma step_children k child q :
  js_get k (node_at t D) = VObj child →
  accepts t1 child q = accepts t child q.
Proof.
  intros Hv. apply step_frame.
  - intros Hc. destruct (step_entered _ _ _ Hv Hc) as (kc & _ & Hin).
    by eapply (descends_end_fresh t rank step_wf Hrk) in Hin.
  - eapply node_at_edge_lt; [apply step_wf|done].
Qed.

(** The root accepts one word more: the new one. *)
Lemma step_lang q :
  accepts t1 (root t) q = accepts t (root t) q || bool_decide (q = w).
Proof.
  eapply effect_descends; [exact Hd| | |].
  - apply step_path_same.
  - apply step_off.
  - apply effect_step; [done|apply step_D_valid|]. apply step_children.
Qed.

Lemma step_live_path b : b ∈ l.*1 ++ [D] → ∃ q, accepts t1 b q = true.
Proof.
  intros [Hb| ->%list_elem_of_singleton]%elem_of_app.
  - apply list_elem_of_fmap in Hb as ([b' c] & -> & Hin). simpl.
    pose proof Hin as (l1 & l2 & Hl)%list_elem_of_split.
    pose proof Hd as Hd'. rewrite Hl in Hd'.
    apply descends_app_inv in Hd' as (b0 & y & H1 & H2).
    assert (b0 = b') as -> by (by inversion H2).
    exists y. rewrite (effect_descends _ _ _ _ _ _ _ H2).
    + rewrite (bool_decide_eq_true_2 (y = y)) by done. apply orb_true_r.
    + intros b c' Hb. apply (step_path_same b c'). rewrite Hl.
      apply elem_of_app. by right.
    + intros b c' k child q Hb. apply (step_off b c'). rewrite Hl.
      apply elem_of_app. by right.
    + apply effect_step; [done|apply step_D_valid|]. apply step_children.
  - exists z. rewrite (effect_step t D z t1 Hs step_D_valid step_children).
    rewrite (bool_decide_eq_true_2 (z = z)) by done. apply orb_true_r.
Qed.

Lemma step_live a :
  a < length (heap t1) → a ≠ root t → ∃ q, accepts t1 a q = true.
Proof.
  intros Hlt Hne.
  destruct (decide (a < length (heap t))) as [Hold|Hnew].
  - destruct (decide (a ∈ l.*1 ++ [D])) as [Hin|Hnin].
    + by apply step_live_path.
    + destruct Hinv as (_ & _ & _ & _ & _ & Hlive & _).
      destruct (Hlive a Hold Hne) as [q Hq]. exists q.
      by rewrite step_frame.
  - eapply step_fresh_live; [done|apply step_D_valid|lia|done].
Qed.

Lemma step_dawg : dawg_inv t1 ∧ ∀ a, frz t1 a = frz t a.
Proof.
  destruct step_grow as [->|(oD & oD' & fresh & HD & -> & Hg)].
  { split; [|done]. by destruct Hinv as (_ & _ & ? & _). }
  eapply dawg_inv_grow; [apply step_wf| | |done| |done].
  - by destruct Hinv as ((_ & _ & ? & _) & _).
  - by destruct Hinv as (_ & _ & ? & _).
  - assert (Hf : frz t D = false).
    { apply step_path_free. apply elem_of_app. right.
      by apply list_elem_of_singleton. }
    unfold frz in Hf. by rewrite (node_at_lookup _ _ _ HD) in Hf.
Qed.

Lemma step_free : free_from t1 (root t) w.
Proof.
  destruct step_dawg as [_ Hfz].
  eapply free_step; [exact Hd| |].
  - intros b c Hb. split; [by eapply step_path_same|].
    by eapply step_path_free, step_edge_in.
  - eapply free_at_end; [apply step_binv|done|done|apply step_D_valid| |done].
    apply step_path_free. apply elem_of_app. right.
    by apply list_elem_of_singleton.
Qed.

End step.

Lemma descends_same_heap t t' :
  heap t' = heap t →
  ∀ a x l D z, descends t' a x l D z → descends t a x l D z.
Proof.
  intros Hh. induction 1 as [|a o c z child l D z' Ha Hv _ IH]; [constructor|].
  rewrite Hh in Ha. by eapply descends_edge.
Qed.

Lemma safe_char_us : safe_char "_" = false.
Proof. done. Qed.

(** [_insert] of the next word keeps the invariant, with the new word as
    the last one. *)
Lemma insert_step ws t w t1 :
  sorted_inv ws t → safe w = true →
  String.leb (lastWord t) w = true →
  _insert (S (String.length w)) w (root t) t = Some t1 →
  sorted_inv (w :: ws) (set_lastWord w t1).
Proof.
  intros Hinv Hw Hle Hi.
  pose proof Hinv as (Ht & Hrf & Hdg & Hlang & Hbound & Hlive & Hsp & Hsl).
  pose proof Ht as (Hb & Hk & Hr & rank & Hrk).
  destruct (_insert_descends safe_char safe_char_us _ _ _ _ _ Hb Hk Hw Hi)
    as (l & D & z & Hd & Hs & Hz & HD).
  pose proof (next_word_free _ _ _ Hinv Hle) as Hfree.
  pose proof (step_root ws t D z t1 Hinv Hs Hz) as Hroot.
  unfold sorted_inv. split_and!.
  - apply term_inv_lastWord.
    exact (term_inv__insert safe_char safe_char_us w t t1 Ht Hw Hi).
  - apply _insert_root_free in Hi as [Hrf1 _]; [|done].
    eapply root_free_meta; [| | |exact Hrf1]; done.
  - by destruct (step_dawg ws t w l D z t1).
  - intros q. rewrite (accepts_heap t1 (set_lastWord w t1)) by done.
    change (accepts t1 (root t1) q = bool_decide (q ∈ w :: ws)).
    rewrite Hroot, (step_lang ws t w rank l D z t1 Hinv Hrk Hfree Hd Hs Hz).
    rewrite Hlang.
    destruct (decide (q = w)) as [->|Hne].
    + rewrite (bool_decide_eq_true_2 (w = w)) by done.
      rewrite orb_true_r. symmetry. apply bool_decide_eq_true_2. by left.
    + rewrite (bool_decide_eq_false_2 (q = w)) by done. rewrite orb_false_r.
      apply bool_decide_ext. rewrite elem_of_cons. naive_solver.
  - intros x [->|Hx]%elem_of_cons; [apply leb_refl|].
    eapply leb_trans; [by apply Hbound|done].
  - intros a Ha Hne.
    setoid_rewrite (accepts_heap t1 (set_lastWord w t1)); [|done].
    change (a < length (heap t1)) in Ha. change (a ≠ root t1) in Hne.
    rewrite Hroot in Hne.
    exact (step_live ws t w rank l D z t1 Hinv Hrk Hfree Hd Hs Hz a Ha Hne).
  - intros l1 D1 z1 Hd1. change (frz t1 D1 = false).
    apply (descends_same_heap t1) in Hd1; [|done].
    change (descends t1 (root t1) w l1 D1 z1) in Hd1. rewrite Hroot in Hd1.
    exact (step_free ws t w rank l D z t1 Hinv Hrk Hfree Hd Hs Hz l1 D1 z1 Hd1).
  - done.
Qed.


(** * The node that [insert] freezes, and the whole [insert] *)

Section unique.
Context (ok : ascii → bool) (Hok : ok "_"%char = false).

Lemma find_edge_nil o : find_edge o "" = None.
Proof.
  apply find_edge_None. intros p (_ & [Hne _] & _)%elem_of_nodeProps.
  unfold starts. apply bool_decide_eq_false_2. by destruct p.
Qed.

(** The child property that a word over [ok] follows is its first code
    unit, when that holds a node. *)
Lemma find_edge_char t a o c q :
  heap_wf t → keys_ok ok t → heap t !! a = Some o → ok c = true →
  find_edge o (String c q) =
  if is_object (js_get (String c "") o) then Some (String c "") else None.
Proof.
  intros [Hwf _] [_ Hk] Ha Hc. set (k := String c "").
  assert (Hcu : c ≠ "_"%char) by (intros ->; congruence).
  assert (Lk : label k).
  { split; [done|]. simpl. by apply negb_true_iff, bool_decide_eq_false. }
  destruct (Hwf _ _ Ha) as (Hnd & Hpf & Hcl).
  assert (Hedge : ∀ p, find_edge o (String c q) = Some p → p = k).
  { intros p [Hp Hs]%find_edge_elem.
    apply elem_of_nodeProps in Hp as (Hin & Lp & _).
    destruct (val_ok_label ok _ _ _ (Hk _ _ _ Ha Hin) Lp) as (c' & -> & _).
    apply starts_spec in Hs as [s Hs]. by injection Hs as <-. }
  destruct (is_object (js_get k o)) eqn:Hobj.
  - apply find_edge_Some; [done|done|]. split.
    + apply elem_of_nodeProps. split; [|done].
      apply js_get_defined_key. intros Hu. by rewrite Hu in Hobj.
    + apply starts_spec. by exists q.
  - destruct (find_edge o (String c q)) as [p|] eqn:Hp; [|done].
    pose proof (Hedge _ eq_refl) as ->.
    apply find_edge_elem in Hp as [Hp _].
    apply elem_of_nodeProps in Hp as (_ & _ & Ho). specialize (Ho eq_refl).
    congruence.
Qed.

(** [uniqueNode] on a store of single-code-unit names. *)
Lemma uniqueNode_sem f word other a o t :
  heap_wf t → keys_ok ok t → heap t !! a = Some o →
  word_over ok word = true →
  uniqueNode (S f) word other a t =
  match word with
  | EmptyString => Some None
  | String c w' =>
      match js_get (String c "") o with
      | VObj child =>
          if starts (String c "") other
          then uniqueNode f w' (slice_from 1 other) child t
          else Some (Some child)
      | _ => Some None
      end
  end.
Proof.
  intros Hwf Hk Ha Hw. cbn [uniqueNode]. rewrite Ha.
  cbn [mbind option_bind]. rewrite unique_loop_find.
  change (head (filter (λ p, starts p word = true) (nodeProps o true)))
    with (find_edge o word).
  destruct word as [|c w']; [by rewrite find_edge_nil|].
  simpl in Hw. apply andb_true_iff in Hw as [Hc Hw].
  rewrite (find_edge_char t a o c w') by done.
  destruct (js_get (String c "") o) as [| | |child] eqn:Hv; try done.
  simpl. rewrite Hv. by destruct (starts (String c "") other).
Qed.

(** The node that [uniqueNode] returns hangs off the common descent of
    the two words, under the next code unit of the first, which is not
    the next code unit of the second. *)
Lemma uniqueNode_descends fuel : ∀ word other a t f,
  heap_wf t → keys_ok ok t → a < length (heap t) →
  word_over ok word = true →
  uniqueNode fuel word other a t = Some (Some f) →
  ∃ l b c w' xo,
    descends t a word l b (String c w') ∧ descends t a other l b xo
    ∧ js_get (String c "") (node_at t b) = VObj f
    ∧ ∀ x', xo ≠ String c x'.
Proof.
  induction fuel as [|fuel IH]; intros word other a t f Hwf Hk Ha Hw Hu;
    [done|].
  destruct (lookup_lt_is_Some_2 _ _ Ha) as [o Ho].
  rewrite (uniqueNode_sem fuel word other a o t) in Hu by done.
  destruct word as [|c w']; [done|].
  simpl in Hw. apply andb_true_iff in Hw as [Hc Hw].
  destruct (js_get (String c "") o) as [| | |child] eqn:Hv; try done.
  destruct (starts (String c "") other) eqn:Hst.
  - apply starts_spec in Hst as [s ->]. rewrite str_app_cons in Hu |- *.
    rewrite str_app_nil_l in Hu |- *. simpl in Hu.
    apply IH in Hu as (l & b & c1 & w1 & xo & H1 & H2 & H3 & H4);
      [|done|done| |done].
    + exists ((a, c) :: l), b, c1, w1, xo.
      split; [by eapply descends_edge|]. split; [by eapply descends_edge|].
      done.
    + eapply node_at_edge_lt; [done|]. by rewrite (node_at_lookup _ _ _ Ho).
  - injection Hu as <-. exists [], a, c, w', other.
    split; [constructor|]. split; [constructor|].
    split; [by rewrite (node_at_lookup _ _ _ Ho)|].
    intros x' ->. apply not_true_iff_false in Hst. apply Hst.
    apply starts_spec. by exists x'.
Qed.

End unique.

(** ** The path of the last word is out of reach of the canonicalizer *)

Lemma descends_nil_inv t a x D z : descends t a x [] D z → D = a ∧ z = x.
Proof. by inversion 1. Qed.

Lemma spine_entered ws t c :
  sorted_inv ws t → on_spine t c → c ≠ root t →
  ∃ l p kp z, descends t (root t) (lastWord t) l p (String kp z)
              ∧ js_get (String kp "") (node_at t p) = VObj c.
Proof.
  intros Hinv (l & z & Hd) Hne.
  destruct l as [|e l _] using rev_ind.
  { by apply descends_nil_inv in Hd as [-> _]. }
  destruct e as [p kp]. apply descends_snoc_inv in Hd as [Hd Hv].
  by exists l, p, kp, z.
Qed.

Lemma spine_protected ws t : sorted_inv ws t → protected (on_spine t) t.
Proof.
  intros Hinv.
  pose proof Hinv as (_ & (_ & Hnr & _) & (_ & HU & _) & _ & _ & _ & Hsp & _).
  split.
  - intros a (l & z & Hd). by eapply Hsp.
  - intros a k c Hfa Hv Hc.
    assert (Hne : c ≠ root t).
    { intros ->. apply node_at_edge in Hv as (o & Ha & Hv). by eapply Hnr. }
    destruct (spine_entered _ _ _ Hinv Hc Hne) as (l & p & kp & z & Hd & Hp).
    assert (Hfc : frz t c = false) by (destruct Hc as (? & ? & ?); by eapply Hsp).
    destruct (HU _ _ _ _ _ Hv Hp Hfc) as [-> _]. by exists l, (String kp z).
Qed.

Lemma unique_off_spine ws t fuel last f :
  sorted_inv ws t → safe last = true →
  uniqueNode fuel last (lastWord t) (root t) t = Some (Some f) →
  ¬ on_spine t f.
Proof.
  intros Hinv Hl Hu Hf.
  pose proof Hinv
    as (((Hwf & _) & Hk & _ & rank & Hrk) & (Hrlt & Hnr & _) & (_ & HU & _)
        & _ & _ & _ & Hsp & _).
  apply (uniqueNode_descends safe_char safe_char_us) in Hu
    as (l & b & c & w' & xo & H1 & H2 & H3 & H4); [|done..].
  assert (Hne : f ≠ root t).
  { intros ->. apply node_at_edge in H3 as (o & Ha & Hv). by eapply Hnr. }
  destruct (spine_entered _ _ _ Hinv Hf Hne) as (lf & p & kp & z & Hd & Hp).
  assert (Hff : frz t f = false) by (destruct Hf as (? & ? & ?); by eapply Hsp).
  destruct (HU _ _ _ _ _ H3 Hp Hff) as [-> [= ->]].
  destruct (descends_unique t rank Hwf Hrk _ _ _ _ _ H2 Hsp _ _ Hd)
    as [_ ->].
  by eapply H4.
Qed.

Lemma descends_on_spine t t2 :
  (∀ a, on_spine t a → node_at t2 a = node_at t a) →
  ∀ a x l D z, descends t2 a x l D z →
  ∀ l0, descends t (root t) (lastWord t) l0 a x →
        descends t (root t) (lastWord t) (l0 ++ l) D z.
Proof.
  intros Hsame. induction 1 as [|a o c z0 child l D z' Ha Hv _ IH];
    intros l0 H0; [by rewrite app_nil_r|].
  assert (Hat : node_at t2 a = node_at t a) by (apply Hsame; by exists l0, (String c z0)).
  rewrite (node_at_lookup _ _ _ Ha) in Hat.
  rewrite cons_middle, (assoc_L (++)). apply IH.
  apply descends_snoc; [done|]. by rewrite <- Hat.
Qed.

(** Freezing the node that [uniqueNode] returns keeps the invariant. *)
Lemma freeze_step ws t fuel last f r t2 :
  sorted_inv ws t → safe last = true →
  uniqueNode fuel last (lastWord t) (root t) t = Some (Some f) →
  combineSuffixNode (S (length (heap t))) f t = Some (r, t2) →
  sorted_inv ws t2.
Proof.
  intros Hinv Hl Hu Hc.
  pose proof Hinv as (Ht & Hrf & Hdg & Hlang & Hbound & Hlive & Hsp & Hsl).
  pose proof Ht as (Hb & Hk & Hr & rank & Hrk).
  pose proof (uniqueNode_valid _ _ _ _ _ _ (proj1 Hb) Hu) as Hflt.
  destruct (lookup_lt_is_Some_2 _ _ Hflt) as [o Ho].
  assert (Hcond : frozen o = true ∨ rank f + 2 ≤ S (length (heap t))).
  { right. destruct Hrk as [Hbd _]. specialize (Hbd _ Hflt). lia. }
  destruct (combine_total safe_char (S (length (heap t))) f t rank o)
    as (r' & t' & Hc' & Hb2 & Hk2 & Hr2 & Hrk2 & Hlen & _); try done; try lia.
  assert (t' = t2) as -> by congruence. clear Hc'.
  destruct (combine_dawg (on_spine t) (S (length (heap t))) f t rank o r t2)
    as (Hd2 & _ & HQf & Hacc & _); try done.
  { by eapply spine_protected. }
  { exact (unique_off_spine ws t fuel last f Hinv Hl Hu). }
  pose proof (combineSuffixNode_inv _ _ _ _ _ Hb Hc) as (_ & _ & _ & Hroot & _ & Hlast).
  destruct (combineSuffixNode_root_free _ _ _ _ _ Hrf
              (uniqueNode_not_root _ _ _ _ _ _ Hrf Hu) Hc) as (Hrf2 & _ & _).
  unfold sorted_inv. rewrite Hlast, Hroot, Hlen. split_and!; try done.
  - split_and!; eauto.
  - intros q. by rewrite Hacc.
  - intros a Ha Hne. destruct (Hlive a Ha Hne) as [q Hq]. exists q.
    by rewrite Hacc.
  - intros l D z Hd.
    assert (Hd' : descends t (root t) (lastWord t) ([] ++ l) D z).
    { eapply descends_on_spine; [done| |constructor].
      unfold spine_free in Hd. by rewrite Hroot in Hd. }
    simpl in Hd'.
    assert (HQ : on_spine t D) by (by exists l, z).
    unfold frz. rewrite (HQf _ HQ). by eapply Hsp.
Qed.

(** ** [insert] and [insertWords] on words in ascending order *)

Lemma insert_sorted ws t w :
  sorted_inv ws t → safe w = true →
  String.leb (lastWord t) w = true →
  ∃ t', insert w t = Some t' ∧ sorted_inv (w :: ws) t' ∧ lastWord t' = w.
Proof.
  intros Hinv Hw Hle.
  pose proof Hinv as (Ht & _ & _ & _ & _ & _ & _ & Hsl).
  destruct (insert_total_ok safe_char safe_char_us w t Ht Hw) as (t' & Hins & _).
  exists t'. split; [done|]. unfold insert in Hins.
  apply bind_Some in Hins as (t1 & Hi & Hins).
  pose proof (insert_step _ _ _ _ Hinv Hw Hle Hi) as Hinv1.
  pose proof (_insert_inv _ _ _ _ _ (proj1 Ht) Hi) as (_ & _ & _ & Hlast & _).
  cbv zeta in Hins. case_decide as Hpre; [by injection Hins as <-|].
  apply bind_Some in Hins as (fr & Hu & Hins).
  destruct fr as [f|]; [|by injection Hins as <-].
  apply bind_Some in Hins as ([r t2] & Hc & Hins). injection Hins as <-.
  split.
  - eapply (freeze_step _ (set_lastWord w t1)); [done| |exact Hu|exact Hc].
    by rewrite Hlast.
  - destruct Hinv1 as ((Hb1 & _) & _).
    by destruct (combineSuffixNode_inv _ _ _ _ _ Hb1 Hc)
      as (_ & _ & _ & _ & _ & ?).
Qed.

Lemma sorted_inv_new : sorted_inv [] new_Trie.
Proof.
  unfold sorted_inv. split_and!.
  - apply (term_inv_new safe_char).
  - apply new_Trie_root_free.
  - split_and!.
    + intros [|a] k c; [done|]. by destruct a.
    + intros [|a1] k1 a2 k2 c; [done|]. by destruct a1.
    + intros sig a. simpl. by rewrite lookup_empty.
    + intros [|a] b; [done|]. by destruct a.
    + intros [|a]; [done|]. by destruct a.
    + intros [|a] k c n m; [done|]. by destruct a.
  - intros [|c q]; done.
  - intros w ?%elem_of_nil. done.
  - intros a Ha Hne. simpl in *. lia.
  - intros l D z Hd. inversion Hd; subst. done.
  - done.
Qed.

Lemma insertWords_sorted words : ∀ ws t,
  sorted_inv ws t → Forall (λ w, safe w = true) words →
  Sorted (λ x y, String.leb x y = true) (lastWord t :: words) →
  ∃ t', insertWords words t = Some t'
        ∧ sorted_inv (reverse words ++ ws) t'.
Proof.
  induction words as [|w words IH]; intros ws t Hinv Hall Hso.
  { by exists t. }
  apply Forall_cons in Hall as [Hw Hall].
  apply Sorted_inv in Hso as [Hso Hhd]. apply HdRel_inv in Hhd.
  destruct (insert_sorted _ _ _ Hinv Hw Hhd) as (t1 & Hi & Hinv1 & Hlast).
  destruct (IH (w :: ws) t1 Hinv1 Hall) as (t' & Hins & Hinv').
  { by rewrite Hlast. }
  exists t'. split.
  - simpl. by rewrite Hi.
  - by rewrite reverse_cons, <- (assoc_L (++)).
Qed.

(** ** The answers of [isWord] under the invariant, and [optimize] *)

Lemma sorted_isWord ws t q :
  sorted_inv ws t → clean q = true →
  isWord q t = Some (bool_decide (q ∈ ws)).
Proof.
  intros (((Hwf & _) & Hk & _) & _ & _ & Hlang & _) Hq.
  unfold isWord. fold (member t (root t) q).
  rewrite (member_accepts safe_char) by (done || apply Hwf).
  by rewrite Hlang.
Qed.

Lemma build_sorted_inv words :
  Forall (λ w, safe w = true) words →
  Sorted (λ x y, String.leb x y = true) words →
  ∃ t, build words = Some t ∧ sorted_inv (reverse words) t.
Proof.
  intros Hall Hso.
  destruct (insertWords_sorted words [] new_Trie) as (t & Hb & Hinv);
    [apply sorted_inv_new|done| |].
  - constructor; [done|]. destruct words; constructor. apply leb_nil_l.
  - exists t. split; [done|]. by rewrite app_nil_r in Hinv.
Qed.

(** Once [combineSuffixNode(root)] has returned, the rest of [optimize]
    returns and keeps the answers of [isWord] on words without ['_']. *)
Lemma optimize_tail_isWord t r t1 :
  builder_inv t →
  combineSuffixNode (S (length (heap t))) (root t) t = Some (r, t1) →
  ∃ t', optimize t = Some t'
        ∧ ∀ w, clean w = true → isWord w t' = isWord w t1.
Proof.
  intros Hinv Hc.
  destruct (optimize_prepare_total _ _ _ Hinv Hc) as [p Hp].
  destruct (optimize_prepare_inv _ _ Hinv Hp)
    as (Hci & Hroot & r' & t1' & t2 & Hc' & Hinv1 & Hcd & ->).
  assert (r' = r ∧ t1' = t1) as [-> ->] by (split; congruence).
  destruct (countDegree_total (prepDFS t1))
    as (t2' & Hcd' & _ & Hm & Hmeta & _);
    [apply Hinv1|by apply builder_fresh|].
  assert (t2' = t2) as -> by congruence.
  destruct (collapse_total _ Hci) as (t' & log & _ & Hcol & Hpost).
  destruct Hpost as (_ & _ & Hmeta' & _ & _ & Hsame & _).
  exists t'. split.
  { unfold optimize. rewrite Hp. done. }
  intros w Hw. unfold isWord. fold (member t' (root t') w).
  rewrite (same_meta_root _ _ Hmeta'), (Hsame _ _ Hw).
  change (member (prepDFS t2) (root (prepDFS t2)) w)
    with (isFragment (S (String.length w)) w (root t2) (set_vCur (vCur t2 + 1) t2)).
  rewrite isFragment_set_vCur. fold (member t2 (root t2) w).
  rewrite (same_meta_root _ _ Hmeta), (member_marks _ _ _ _ Hm Hw).
  apply isFragment_set_vCur.
Qed.

Lemma sorted_optimize ws t :
  sorted_inv ws t →
  ∃ t', optimize t = Some t'
        ∧ ∀ q, clean q = true → isWord q t' = Some (bool_decide (q ∈ ws)).
Proof.
  intros (Ht & Hrf & Hdg & Hlang & _).
  pose proof Ht as (Hb & Hk & Hr & rank & Hrk).
  assert (Hroot : root t < length (heap t)) by apply Hb.
  destruct (lookup_lt_is_Some_2 _ _ Hroot) as [o Ho].
  assert (Hcond : frozen o = true ∨ rank (root t) + 2 ≤ S (length (heap t))).
  { right. destruct Hrk as [Hbd _]. specialize (Hbd _ Hroot). lia. }
  destruct (combine_total safe_char (S (length (heap t))) (root t) t rank o)
    as (r & t1 & Hc & Hb1 & Hk1 & _); try done; try lia.
  assert (HQ : protected (λ _, False) t).
  { split; [by intros a []|by intros a k c _ _ []]. }
  destruct (combine_dawg (λ _, False) (S (length (heap t))) (root t) t rank o r t1)
    as (_ & _ & _ & Hacc & _); try done; [by intros []|].
  destruct (optimize_tail_isWord _ _ _ Hb Hc) as (t' & Ho' & Hsame).
  exists t'. split; [done|]. intros q Hq. rewrite (Hsame _ Hq).
  pose proof (combineSuffixNode_inv _ _ _ _ _ Hb Hc) as (_ & _ & _ & Hr1 & _).
  unfold isWord. fold (member t1 (root t1) q).
  rewrite (member_accepts safe_char) by (done || apply Hb1).
  by rewrite Hr1, Hacc, Hlang.
Qed.


(** * The word count *)

Lemma ltb_leb a b : String.ltb a b = true → String.leb a b = true.
Proof. unfold String.ltb, String.leb. by destruct (String.compare a b). Qed.

Lemma leb_ltb_ne x a b :
  String.leb x a = true → String.ltb a b = true → x ≠ b.
Proof.
  unfold String.ltb, String.leb. intros Hxa Hab ->.
  rewrite String.compare_antisym in Hxa.
  by destruct (String.compare a b).
Qed.

Lemma combine_loop_wordCount rec node : ∀ props sig t sig' t',
  (∀ n t r t', rec n t = Some (r, t') → wordCount t' = wordCount t) →
  combine_loop rec node props sig t = Some (sig', t') →
  wordCount t' = wordCount t.
Proof.
  induction props as [|prop props IH]; intros sig t sig' t' Hrec Hloop.
  { by injection Hloop as <- <-. }
  simpl in Hloop. apply bind_Some in Hloop as (o & Ho & Hloop).
  destruct (js_get prop o) as [| | |child]; try by eapply IH.
  apply bind_Some in Hloop as ([shared t1] & Hr & Hloop).
  apply Hrec in Hr.
  apply bind_Some in Hloop as (t2 & Hset & Hloop).
  apply set_prop_inv in Hset as (o1 & Ho1 & ->).
  apply bind_Some in Hloop as (s & Hs & Hloop).
  apply IH in Hloop; [|done]. by rewrite Hloop.
Qed.

Lemma combineSuffixNode_wordCount fuel : ∀ node t r t',
  combineSuffixNode fuel node t = Some (r, t') → wordCount t' = wordCount t.
Proof.
  induction fuel as [|fuel IH]; intros node t r t' Hc; [done|].
  simpl in Hc. apply bind_Some in Hc as (o & Ho & Hc).
  destruct (truthy (js_get "_c" o)); [by injection Hc as <- <-|].
  apply bind_Some in Hc as ([sig t1] & Hloop & Hc).
  apply combine_loop_wordCount in Hloop; [|exact IH].
  destruct (suffixes t1 !! join "-" sig) as [shared|].
  { by injection Hc as <- <-. }
  apply bind_Some in Hc as (t2 & Hset & [= <- <-]).
  apply set_prop_inv in Hset as (o1 & Ho1 & ->). done.
Qed.

(** A word that is not there yet is counted once. *)
Lemma insert_sorted_count ws t w t' :
  sorted_inv ws t → safe w = true →
  String.leb (lastWord t) w = true → w ∉ ws →
  insert w t = Some t' → wordCount t' = (wordCount t + 1)%Z.
Proof.
  intros Hinv Hw Hle Hnew Hins.
  pose proof Hinv as (Ht & _ & _ & Hlang & _).
  pose proof Ht as (Hb & Hk & Hr & rank & Hrk).
  unfold insert in Hins. apply bind_Some in Hins as (t1 & Hi & Hins).
  assert (H1 : wordCount t1 = (wordCount t + 1)%Z).
  { destruct (_insert_descends safe_char safe_char_us _ _ _ _ _ Hb Hk Hw Hi)
      as (l & D & z & Hd & Hs & Hz & HD).
    pose proof (next_word_free _ _ _ Hinv Hle) as Hfree.
    pose proof (step_lang ws t w rank l D z t1 Hinv Hrk Hfree Hd Hs Hz w) as Hl.
    destruct Hs; try done. exfalso. apply Hnew.
    apply (bool_decide_eq_true_1 (w ∈ ws)). rewrite <- Hlang. rewrite Hl.
    rewrite (bool_decide_eq_true_2 (w = w)) by done. apply orb_true_r. }
  cbv zeta in Hins. case_decide; [by injection Hins as <-|].
  apply bind_Some in Hins as (fr & Hu & Hins).
  destruct fr as [f|]; [|by injection Hins as <-].
  apply bind_Some in Hins as ([r t2] & Hc & Hins). injection Hins as <-.
  apply combineSuffixNode_wordCount in Hc. by rewrite Hc.
Qed.

Lemma insertWords_sorted_count words : ∀ ws t,
  sorted_inv ws t → Forall (λ w, safe w = true) words →
  Sorted (λ x y, String.ltb x y = true) words →
  (∀ w, head words = Some w → (w ∉ ws) ∧ String.leb (lastWord t) w = true) →
  ∃ t', insertWords words t = Some t'
        ∧ wordCount t' = (wordCount t + Z.of_nat (length words))%Z.
Proof.
  induction words as [|w words IH]; intros ws t Hinv Hall Hso Hhd.
  { exists t. split; [done|]. simpl. lia. }
  apply Forall_cons in Hall as [Hw Hall].
  apply Sorted_inv in Hso as [Hso Hrel].
  destruct (Hhd w eq_refl) as [Hnew Hle].
  destruct (insert_sorted _ _ _ Hinv Hw Hle) as (t1 & Hi & Hinv1 & Hlast).
  pose proof (insert_sorted_count _ _ _ _ Hinv Hw Hle Hnew Hi) as Hcnt.
  destruct (IH (w :: ws) t1 Hinv1 Hall Hso) as (t' & Hins & Hcnt').
  { intros w2 Hw2. destruct words as [|w2' words]; [done|].
    injection Hw2 as ->. apply HdRel_inv in Hrel. rewrite Hlast.
    split; [|by apply ltb_leb].
    destruct Hinv1 as (_ & _ & _ & _ & Hbound & _). rewrite Hlast in Hbound.
    intros Hin. by eapply (leb_ltb_ne _ _ _ (Hbound _ Hin) Hrel). }
  exists t'. split; [simpl; by rewrite Hi|].
  rewrite Hcnt', Hcnt. simpl length. lia.
Qed.


(** * No two frozen nodes accept the same words *)

(** ** Every node but the root keeps a label *)

Section nonleaf.
Context (ok : ascii → bool) (Hok : ok "_"%char = false).

Lemma ok_label c : ok c = true → label (String c "").
Proof.
  intros Hc. split; [done|]. simpl. apply negb_true_iff, bool_decide_eq_false.
  intros ->. congruence.
Qed.

Lemma chain_label r : ∀ b i o,
  word_over ok r = true → chain b r !! i = Some o →
  ∃ k, label k ∧ k ∈ obj_keys o.
Proof.
  induction r as [|c r IH]; intros b i o Hr Hi; [done|].
  simpl in Hr. apply andb_true_iff in Hr as [Hc Hr].
  destruct r as [|c' r'].
  - destruct i; [|done]. injection Hi as <-. exists (String c "").
    split; [by apply ok_label|]. by left.
  - destruct i as [|i].
    + injection Hi as <-. exists (String c "").
      split; [by apply ok_label|]. by left.
    + by eapply (IH (S b) i).
Qed.

Lemma chain_from_label r b i o :
  r ≠ "" → word_over ok r = true →
  chain_from [("", VNum 1)] b r !! i = Some o →
  ∃ k, label k ∧ k ∈ obj_keys o.
Proof.
  intros Hne Hr Hi. destruct r as [|c r]; [done|].
  simpl in Hr. apply andb_true_iff in Hr as [Hc Hr].
  destruct r as [|c' r'].
  - destruct i; [|done]. injection Hi as <-. exists (String c "").
    split; [by apply ok_label|]. apply elem_of_keys_set. by left.
  - destruct i as [|i].
    + injection Hi as <-. exists (String c "").
      split; [by apply ok_label|]. apply elem_of_keys_set. by left.
    + by eapply (chain_label (String c' r') (S b) i).
Qed.

Lemma nonleaf_grow D oD oD' fresh t :
  nonleaf t → heap t !! D = Some oD →
  (∀ k, k ∈ obj_keys oD → k ∈ obj_keys oD') →
  (∀ i o, fresh !! i = Some o → ∃ k, label k ∧ k ∈ obj_keys o) →
  nonleaf (grow D oD' fresh t).
Proof.
  intros Hnl HD Hkeys Hfresh a o Ha Hne.
  change (root (grow D oD' fresh t)) with (root t) in Hne.
  apply lookup_grow in Ha as [[-> ->]|[(_ & _ & Ha)|(i & -> & Hi)]];
    [| | |by eapply lookup_lt_Some].
  - destruct (Hnl _ _ HD Hne) as (k & Lk & Hin). exists k. auto.
  - eauto.
  - eauto.
Qed.

Lemma step_nonleaf t D z t1 :
  step_at t D z t1 → word_over ok z = true → nonleaf t → nonleaf t1.
Proof.
  intros Hs Hz Hnl.
  destruct Hs as [oD HD|oD c HD Hnk|oD c z HD Hnk Hne|oD c HD Hv
                 |oD c z HD Hv Hne].
  - eapply nonleaf_grow; [done|done| |done].
    intros k Hk. apply elem_of_keys_set. by right.
  - eapply nonleaf_grow; [done|done| |done].
    intros k Hk. apply elem_of_keys_set. by right.
  - simpl in Hz. apply andb_true_iff in Hz as [_ Hz].
    eapply nonleaf_grow; [done|done| |].
    + intros k Hk. apply elem_of_keys_set. by right.
    + intros i o Hi. by eapply chain_label.
  - done.
  - simpl in Hz. apply andb_true_iff in Hz as [_ Hz].
    eapply nonleaf_grow; [done|done| |].
    + intros k Hk. apply elem_of_keys_set.
      destruct (decide (k = String c "")); [by left|right].
      by apply elem_of_keys_delete.
    + intros i o Hi. by eapply chain_from_label.
Qed.

Lemma combine_nonleaf fuel node t r t' :
  builder_inv t → nonleaf t →
  combineSuffixNode fuel node t = Some (r, t') → nonleaf t'.
Proof.
  intros Hinv Hnl Hc.
  destruct (combineSuffixNode_inv _ _ _ _ _ Hinv Hc)
    as (_ & [Hlen Hbk] & _ & Hroot & _).
  intros a o' Ha Hne. rewrite Hroot in Hne.
  assert (Hlt : a < length (heap t)).
  { rewrite <- Hlen. by eapply lookup_lt_Some. }
  destruct (lookup_lt_is_Some_2 _ _ Hlt) as [o Ho].
  destruct (Hbk _ _ Ho) as (o'' & Ha' & Hk).
  assert (o'' = o') as -> by congruence.
  destruct (Hnl _ _ Ho Hne) as (k & Lk & Hin). exists k. split; [done|].
  destruct (label_not_bookkeeping _ Lk) as (? & ? & ? & _). by apply Hk.
Qed.

Lemma insert_nonleaf w t t' :
  term_inv ok t → word_over ok w = true → nonleaf t →
  insert w t = Some t' → nonleaf t'.
Proof.
  intros Ht Hw Hnl Hins. pose proof Ht as (Hb & Hk & _).
  unfold insert in Hins. apply bind_Some in Hins as (t1 & Hi & Hins).
  assert (Hnl1 : nonleaf (set_lastWord w t1)).
  { destruct (_insert_descends ok Hok _ _ _ _ _ Hb Hk Hw Hi)
      as (l & D & z & _ & Hs & Hz & _).
    change (nonleaf t1). exact (step_nonleaf t D z t1 Hs Hz Hnl). }
  pose proof (_insert_inv _ _ _ _ _ Hb Hi) as (Hb1 & _).
  cbv zeta in Hins. case_decide; [by injection Hins as <-|].
  apply bind_Some in Hins as (fr & Hu & Hins).
  destruct fr as [f|]; [|by injection Hins as <-].
  apply bind_Some in Hins as ([r t2] & Hc & Hins). injection Hins as <-.
  eapply combine_nonleaf; [|exact Hnl1|exact Hc]. done.
Qed.

Lemma insertWords_term_nonleaf words : ∀ t t',
  term_inv ok t → Forall (λ w, word_over ok w = true) words → nonleaf t →
  insertWords words t = Some t' → nonleaf t'.
Proof.
  induction words as [|w words IH]; intros t t' Ht Hall Hnl Hins.
  { by injection Hins as <-. }
  apply Forall_cons in Hall as [Hw Hall]. simpl in Hins.
  apply bind_Some in Hins as (t1 & Hi & Hins).
  destruct (insert_total_ok ok Hok w t Ht Hw) as (t1' & Hi' & Ht1).
  assert (t1' = t1) as -> by congruence.
  eapply IH; [exact Ht1|done| |done].
  exact (insert_nonleaf w t t1 Ht Hw Hnl Hi).
Qed.

(** A word that a node accepts has no ['_']. *)
Lemma accepts_clean t :
  keys_ok ok t → ∀ q a, accepts t a q = true → clean q = true.
Proof.
  intros [_ Hk]. induction q as [|c q IH]; intros a Hq; [done|].
  simpl in Hq |- *.
  assert (Hc : js_get (String c "") (node_at t a) ≠ VUndef → c ≠ "_"%char).
  { intros Hv. unfold node_at in Hv.
    destruct (heap t !! a) as [o|] eqn:Ha; [|done].
    apply js_get_defined_key in Hv.
    destruct (Hk _ _ _ Ha Hv) as [[? _]|[[? _]|(c' & [= <-] & Hc' & _)]];
      [done..|].
    intros ->. congruence. }
  destruct (js_get (String c "") (node_at t a)) as [| | |x] eqn:Hv; [done| |done|].
  - apply bool_decide_eq_true in Hq as ->.
    rewrite bool_decide_eq_false_2 by (by apply Hc). done.
  - rewrite bool_decide_eq_false_2 by (by apply Hc). simpl. by eapply IH.
Qed.

End nonleaf.

(** ** Frozen nodes that accept the same words are the same node *)

Section minimal.
Context (t : Trie).
Context (Hk : keys_ok safe_char t) (Hwf : heap_wf t) (Hdg : dawg_inv t).
Context (Hnr : ∀ a o k, heap t !! a = Some o → js_get k o ≠ VObj (root t)).
Context (Hlive : ∀ a, a < length (heap t) → a ≠ root t →
                      ∃ q, accepts t a q = true).
Context (Hnl : nonleaf t).

Lemma min_child a k x :
  js_get k (node_at t a) = VObj x → x < length (heap t) ∧ x ≠ root t.
Proof.
  intros Hv. split; [by eapply node_at_edge_lt|].
  intros ->. apply node_at_edge in Hv as (o & Ha & Hv). by eapply Hnr.
Qed.

Lemma min_child_word x :
  x < length (heap t) → x ≠ root t →
  ∃ u, u ≠ "" ∧ accepts t x u = true.
Proof.
  intros Hx Hne. destruct (lookup_lt_is_Some_2 _ _ Hx) as [o Ho].
  destruct (Hnl _ _ Ho Hne) as (k & Lk & Hin).
  destruct Hk as [_ Hk'].
  destruct (val_ok_label _ _ _ _ (Hk' _ _ _ Ho Hin) Lk) as (c & -> & _ & Hv).
  destruct Hv as [Hv|[y Hv]].
  - exists (String c ""). split; [done|]. simpl.
    by rewrite (node_at_lookup _ _ _ Ho), Hv.
  - destruct (min_child x (String c "") y) as [Hy Hyr].
    { by rewrite (node_at_lookup _ _ _ Ho). }
    destruct (Hlive _ Hy Hyr) as [q Hq].
    exists (String c q). split; [done|]. simpl.
    by rewrite (node_at_lookup _ _ _ Ho), Hv.
Qed.

Lemma min_val_cases a k :
  k ≠ "_c" →
  js_get k (node_at t a) = VUndef
  ∨ (k = "" ∧ js_get k (node_at t a) = VNum 1)
  ∨ (∃ c, k = String c ""
          ∧ (js_get k (node_at t a) = VNum 1
             ∨ ∃ x, js_get k (node_at t a) = VObj x)).
Proof.
  intros Hkc. unfold node_at.
  destruct (heap t !! a) as [o|] eqn:Ha; [|by left]. simpl.
  destruct (decide (k ∈ obj_keys o)) as [Hin|Hnin];
    [|left; by apply js_get_not_key].
  destruct Hk as [_ Hk'].
  destruct (Hk' _ _ _ Ha Hin) as [[-> ->]|[[-> _]|(c & -> & _ & Hv)]].
  - right; left. done.
  - done.
  - right; right. exists c. done.
Qed.

(** Two nodes that accept the same words, and whose children are told
    apart by their words, hold the same values. *)
Lemma min_props a b :
  (∀ q, accepts t a q = accepts t b q) →
  (∀ k x y, js_get k (node_at t a) = VObj x →
            js_get k (node_at t b) = VObj y →
            (∀ q, accepts t x q = accepts t y q) → x = y) →
  ∀ k, k ≠ "_c" → js_get k (node_at t a) = js_get k (node_at t b).
Proof.
  intros Hl Hch k Hkc.
  assert (Hobj : ∀ n m c y,
            js_get (String c "") (node_at t m) = VObj y →
            (js_get (String c "") (node_at t n) = VUndef
             ∨ js_get (String c "") (node_at t n) = VNum 1) →
            ∃ u, accepts t m (String c u) = true
                 ∧ accepts t n (String c u) = false).
  { intros n m c y Hm Hn. destruct (min_child _ _ _ Hm) as [Hy Hyr].
    destruct (min_child_word y Hy Hyr) as (u & Hu & Hacc).
    exists u. simpl. rewrite Hm. split; [done|].
    destruct Hn as [->| ->]; [done|]. by apply bool_decide_eq_false_2. }
  destruct (min_val_cases a k Hkc) as [Ha|[[-> Ha]|(c & -> & Ha)]];
    destruct (min_val_cases b _ Hkc) as [Hb|[[? Hb]|(c' & Hc' & Hb)]];
    try done; try congruence.
  - (* undefined against the terminal flag *)
    subst k. specialize (Hl ""). simpl in Hl. unfold isTerminal in Hl.
    by rewrite Ha, Hb in Hl.
  - (* undefined against a code unit *)
    subst k. destruct Hb as [Hb|[y Hb]].
    + specialize (Hl (String c' "")). simpl in Hl. by rewrite Ha, Hb in Hl.
    + destruct (Hobj a b c' y Hb) as (u & H1 & H2); [by left|]. congruence.
  - specialize (Hl ""). simpl in Hl. unfold isTerminal in Hl.
    by rewrite Ha, Hb in Hl.
  - destruct Ha as [Ha|[x Ha]].
    + specialize (Hl (String c "")). simpl in Hl. by rewrite Ha, Hb in Hl.
    + destruct (Hobj b a c x Ha) as (u & H1 & H2); [by left|]. congruence.
  - injection Hc' as <-.
    destruct Ha as [Ha|[x Ha]]; destruct Hb as [Hb|[y Hb]].
    + congruence.
    + destruct (Hobj a b c y Hb) as (u & H1 & H2); [by right|]. congruence.
    + destruct (Hobj b a c x Ha) as (u & H1 & H2); [by right|]. congruence.
    + assert (x = y) as ->; [|congruence].
      eapply Hch; [done|done|]. intros q. specialize (Hl (String c q)).
      simpl in Hl. by rewrite Ha, Hb in Hl.
Qed.

Lemma min_same_sig a b oa ob :
  heap t !! a = Some oa → heap t !! b = Some ob →
  (∀ k, k ≠ "_c" → js_get k oa = js_get k ob) →
  sig_of t oa = sig_of t ob.
Proof.
  intros Ha Hb Hsame. destruct Hk as [_ Hk'].
  destruct Hwf as [Hwf' _].
  assert (Hkeys : ∀ n o m o', heap t !! n = Some o → heap t !! m = Some o' →
            (∀ k, k ≠ "_c" → js_get k o = js_get k o') →
            ∀ k, label k → k ∈ obj_keys o → k ∈ obj_keys o').
  { intros n o m o' Hn Hm Hs k Lk Hin. apply js_get_defined_key.
    rewrite <- Hs by (by apply label_not_c).
    destruct (val_ok_label _ _ _ _ (Hk' _ _ _ Hn Hin) Lk)
      as (c & _ & _ & [->|[x ->]]); done. }
  symmetry. apply sig_of_ext.
  - unfold isTerminal. by rewrite Hsame.
  - apply sorted_unique.
    + apply sort_sorted.
    + apply sort_sorted.
    + apply NoDup_nodeProps. by destruct (Hwf' _ _ Hb).
    + apply NoDup_nodeProps. by destruct (Hwf' _ _ Ha).
    + intros k. rewrite !elem_of_nodeProps. split.
      * intros (Hin & Lk & _). split; [|done].
        eapply (Hkeys b ob a oa); try done. intros k' ?. symmetry. auto.
      * intros (Hin & Lk & _). split; [|done].
        by eapply (Hkeys a oa b ob).
  - intros p (_ & Lp & _)%elem_of_nodeProps. symmetry. apply Hsame.
    by apply label_not_c.
  - done.
Qed.

Lemma frozen_distinct : ∀ (n : nat) a b m,
  frz t a = true → frz t b = true →
  js_get "_c" (node_at t a) = VNum m → (m ≤ Z.of_nat n)%Z →
  (∀ q, accepts t a q = accepts t b q) → a = b.
Proof.
  destruct Hdg as (HF & _ & _ & _ & HRc & HIo).
  induction n as [|n IH]; intros a b m Hfa Hfb Hm Hle Hl.
  { destruct (frz_id _ _ _ Hk Hfa) as (m' & Hm' & ? & _).
    rewrite Hm in Hm'. injection Hm' as <-. lia. }
  assert (Hprops : ∀ k, k ≠ "_c" →
            js_get k (node_at t a) = js_get k (node_at t b)).
  { apply min_props; [done|]. intros k x y Hx Hy Hxy.
    pose proof (HF _ _ _ Hfa Hx) as Hfx. pose proof (HF _ _ _ Hfb Hy) as Hfy.
    destruct (frz_id _ _ _ Hk Hfx) as (mx & Hmx & _).
    pose proof (HIo _ _ _ _ _ Hfa Hx Hm Hmx) as Hlt.
    apply (IH x y mx); try done. lia. }
  destruct (frz_valid _ _ Hfa) as (oa & Ha & _).
  destruct (frz_valid _ _ Hfb) as (ob & Hb & _).
  pose proof (HRc _ Hfa) as Hra. pose proof (HRc _ Hfb) as Hrb.
  rewrite (node_at_lookup _ _ _ Ha) in Hprops, Hra.
  rewrite (node_at_lookup _ _ _ Hb) in Hprops, Hrb.
  rewrite (min_same_sig a b oa ob Ha Hb Hprops) in Hra. congruence.
Qed.

End minimal.

(** ** The trie after the inserts, and after [combineSuffixNode(root)] *)

Lemma members_accepts t a b :
  heap_wf t → keys_ok safe_char t →
  a < length (heap t) → b < length (heap t) →
  (∀ q, clean q = true → member t a q = member t b q) →
  ∀ q, accepts t a q = accepts t b q.
Proof.
  intros Hwf Hk Ha Hb Hm q. destruct (clean q) eqn:Hq.
  - specialize (Hm q Hq).
    rewrite !(member_accepts safe_char) in Hm by done. by injection Hm.
  - destruct (accepts t a q) eqn:Hqa.
    { apply (accepts_clean safe_char safe_char_us t Hk) in Hqa. congruence. }
    destruct (accepts t b q) eqn:Hqb; [|done].
    apply (accepts_clean safe_char safe_char_us t Hk) in Hqb. congruence.
Qed.

Lemma frozen_distinct_members t a b :
  keys_ok safe_char t → heap_wf t → dawg_inv t →
  (∀ a o k, heap t !! a = Some o → js_get k o ≠ VObj (root t)) →
  (∀ a, a < length (heap t) → a ≠ root t → ∃ q, accepts t a q = true) →
  nonleaf t →
  frz t a = true → frz t b = true →
  (∀ q, clean q = true → member t a q = member t b q) → a = b.
Proof.
  intros Hk Hwf Hdg Hnr Hlive Hnl Hfa Hfb Hm.
  destruct (frz_id _ _ _ Hk Hfa) as (m & Hma & Hle & _).
  destruct (frz_valid _ _ Hfa) as (oa & Ha & _).
  destruct (frz_valid _ _ Hfb) as (ob & Hb & _).
  apply (frozen_distinct t Hk Hwf Hdg Hnr Hlive Hnl (Z.to_nat m) a b m);
    try done; [lia|].
  apply members_accepts; try done; by eapply lookup_lt_Some.
Qed.

Lemma nonleaf_new : nonleaf new_Trie.
Proof. intros [|a] o Ha Hne; [done|]. by destruct a. Qed.

Lemma build_nonleaf words t :
  Forall (λ w, safe w = true) words → build words = Some t → nonleaf t.
Proof.
  intros Hall Hb.
  eapply (insertWords_term_nonleaf safe_char safe_char_us words new_Trie);
    [apply term_inv_new|done|apply nonleaf_new|done].
Qed.

Lemma combine_loop_root_keeps rec node : ∀ props sig t sig' t',
  (∀ c s r s', root_free s → c ≠ root s → rec c s = Some (r, s') →
     root_free s' ∧ r ≠ root s ∧ root s' = root s) →
  root_free t → (∀ p, p ∈ props → String.length p ≤ 1) →
  combine_loop rec node props sig t = Some (sig', t') →
  root_free t' ∧ root t' = root t.
Proof.
  induction props as [|prop props IH]; intros sig t sig' t' Hrec Hrf Hlen Hloop.
  { by injection Hloop as <- <-. }
  assert (Hrest : ∀ p, p ∈ props → String.length p ≤ 1).
  { intros p Hp. apply Hlen. by right. }
  simpl in Hloop. apply bind_Some in Hloop as (o & Ho & Hloop).
  destruct (js_get prop o) as [| | |child] eqn:Hg; try by eapply IH.
  apply bind_Some in Hloop as ([shared t1] & Hr & Hloop).
  apply Hrec in Hr as (Hrf1 & Hsh & Hr1); [|done|].
  2:{ intros ->. destruct Hrf as (_ & H1 & _). by eapply H1. }
  apply bind_Some in Hloop as (t2 & Hset & Hloop).
  apply set_prop_root_free in Hset as (Hrf2 & Hr2 & _); [|done| |].
  - apply bind_Some in Hloop as (s & Hs & Hloop).
    apply IH in Hloop as (Hrf' & Hr'); [|done|done|done].
    split; [done|congruence].
  - intros [= ->]. congruence.
  - intros _. apply Hlen. by left.
Qed.

(** [combineSuffixNode(root)] leaves the root without a property that
    holds it. *)
Lemma combine_root_no_edge fuel t r t' :
  root_free t → builder_inv t →
  combineSuffixNode fuel (root t) t = Some (r, t') →
  ∀ a o k, heap t' !! a = Some o → js_get k o ≠ VObj (root t).
Proof.
  intros Hrf Hinv Hc. destruct fuel as [|fuel]; [done|].
  simpl in Hc. apply bind_Some in Hc as (o & Ho & Hc).
  destruct (truthy (js_get "_c" o)).
  { injection Hc as <- <-. by destruct Hrf as (_ & ? & _). }
  apply bind_Some in Hc as ([sig t1] & Hloop & Hc).
  apply combine_loop_root_keeps in Hloop as (Hrf1 & Hr1); [|
    intros c s r0 s'; apply combineSuffixNode_root_free|done|].
  2:{ intros p (Hin & _)%elem_of_nodeProps.
      destruct Hrf as (_ & _ & _ & H3). by eapply H3. }
  destruct Hrf1 as (_ & Hnr & _). rewrite Hr1 in Hnr.
  destruct (suffixes t1 !! join "-" sig) as [shared|].
  { by injection Hc as <- <-. }
  apply bind_Some in Hc as (t2 & Hset & [= <- <-]).
  apply set_prop_inv in Hset as (o1 & Ho1 & ->).
  intros a oa k Ha. cbn [heap register] in Ha.
  apply lookup_put in Ha as [[-> ->]|[_ Ha]]; [|eauto].
  rewrite js_get_set. case_decide; [done|eauto].
Qed.

(** The trie on which [optimize] goes on after its first statement. *)
Lemma combine_root_state ws t r t1 :
  sorted_inv ws t → nonleaf t →
  combineSuffixNode (S (length (heap t))) (root t) t = Some (r, t1) →
  keys_ok safe_char t1 ∧ heap_wf t1 ∧ dawg_inv t1
  ∧ (∀ a o k, heap t1 !! a = Some o → js_get k o ≠ VObj (root t1))
  ∧ (∀ a, a < length (heap t1) → a ≠ root t1 → ∃ q, accepts t1 a q = true)
  ∧ nonleaf t1
  ∧ (∀ k c, js_get k (node_at t1 (root t1)) = VObj c → frz t1 c = true).
Proof.
  intros (Ht & Hrf & Hdg & _ & _ & Hlive & _) Hnl Hc.
  pose proof Ht as (Hb & Hk & Hr & rank & Hrk).
  assert (Hroot : root t < length (heap t)) by apply Hb.
  destruct (lookup_lt_is_Some_2 _ _ Hroot) as [o Ho].
  assert (Hcond : frozen o = true ∨ rank (root t) + 2 ≤ S (length (heap t))).
  { right. destruct Hrk as [Hbd _]. specialize (Hbd _ Hroot). lia. }
  destruct (combine_total safe_char (S (length (heap t))) (root t) t rank o)
    as (r' & t' & Hc' & Hb1 & Hk1 & _ & _ & Hlen & (or & Hor & Hfr) & _);
    try done; try lia.
  assert (r' = r ∧ t' = t1) as [-> ->] by (split; congruence). clear Hc'.
  assert (HQ : protected (λ _, False) t).
  { split; [by intros a []|by intros a k c _ _ []]. }
  destruct (combine_dawg (λ _, False) (S (length (heap t))) (root t) t rank o r t1)
    as (Hd1 & _ & _ & Hacc & _ & _ & _ & Hsame); try done; [by intros []|].
  pose proof (combineSuffixNode_inv _ _ _ _ _ Hb Hc) as (_ & _ & _ & Hr1 & _).
  rewrite Hr1, Hlen. split_and!; try done.
  - apply Hb1.
  - by eapply combine_root_no_edge.
  - intros a Ha Hne. destruct (Hlive a Ha Hne) as [q Hq]. exists q.
    by rewrite Hacc.
  - exact (combine_nonleaf _ _ _ _ _ Hb Hnl Hc).
  - intros k c Hv. destruct Hd1 as (HF & _).
    apply (HF r k).
    + unfold frz. by rewrite (node_at_lookup _ _ _ Hor).
    + rewrite Hsame; [done|]. intros ->.
      apply node_at_edge in Hv as (o1 & Ho1 & Hv).
      destruct Hk1 as [_ Hk1'].
      assert (Hin : "_c" ∈ obj_keys o1).
      { apply js_get_defined_key. by rewrite Hv. }
      destruct (Hk1' _ _ _ Ho1 Hin) as [[? _]|[(_ & n & Hn & _)|(c' & ? & _)]];
        [done|congruence|done].
Qed.


(** * The in-degree of each node after [countDegree] *)

Lemma obj_marks_holds o o' a : obj_marks o o' → holds o' a = holds o a.
Proof.
  intros (Hp & Hg & _). unfold holds. rewrite Hp. f_equal.
  apply filter_ext_in. intros p Hin.
  pose proof (nodeProps_not_mark _ _ _ Hin). by rewrite Hg.
Qed.

Lemma visited_into_put n o o' t a :
  heap t !! n = Some o →
  visited_into (put n o' t) a + (if is_visited (vCur t) o then holds o a else 0)
  = visited_into t a + (if is_visited (vCur t) o' then holds o' a else 0).
Proof.
  intros H. unfold visited_into. simpl.
  by apply (sum_list_with_insert
              (λ o, if is_visited (vCur t) o then holds o a else 0)).
Qed.

Lemma count_loop_into rec fuel n :
  (∀ c s, heap_wf s → d_numeric s → c < length (heap s) → unvisited s < fuel →
          ∃ s', rec c s = Some s' ∧ count_post c s s' ∧ into_post c s s') →
  ∀ props s o,
    heap_wf s → d_numeric s → heap s !! n = Some o → unvisited s < fuel →
    (∀ p, p ∈ props → p ∈ nodeProps o true) →
    ∃ s', count_loop rec n props s = Some s'
      ∧ ∀ a, (degree (node_at s' a) - Z.of_nat (visited_into s' a)
              = degree (node_at s a) - Z.of_nat (visited_into s a)
                + Z.of_nat (length (filter (λ p, js_get p o = VObj a) props)))%Z.
Proof.
  intros Hrec. induction props as [|prop props IH]; intros s o Hwf Hd Hn Hfuel Hprops.
  { exists s. split; [done|]. intros a. simpl. lia. }
  simpl. rewrite Hn. simpl.
  assert (Hp : prop ∈ nodeProps o true) by (apply Hprops; by left).
  pose proof Hp as (Hpk & Lp & Hobj)%elem_of_nodeProps.
  specialize (Hobj eq_refl).
  destruct (js_get prop o) as [| | |child] eqn:Hg; try done.
  assert (Hchild : child < length (heap s)).
  { destruct Hwf as [Hwf _]. by destruct (Hwf _ _ Hn) as (_ & _ & Hcl); eauto. }
  destruct (Hrec child s Hwf Hd Hchild Hfuel)
    as (s1 & Hr & (Hwf1 & Hd1 & Hm1 & Hmeta1 & _ & Hmono1 & _) & Hin1).
  rewrite Hr. simpl.
  pose proof Hm1 as [Hlen1 Hm1'].
  destruct (Hm1' _ _ Hn) as (o1 & Hn1 & Hom1).
  pose proof Hom1 as (Hp1 & Hg1 & _).
  destruct (IH s1 o1) as (s' & Hloop & Hin'); try done.
  { eapply Nat.le_lt_trans; [|exact Hfuel].
    apply unvisited_mono; [done|by apply same_meta_vCur|done]. }
  { intros p Hin. rewrite Hp1. apply Hprops. by right. }
  exists s'. split; [done|]. intros a.
  specialize (Hin' a). specialize (Hin1 a).
  assert (Hrest : filter (λ p, js_get p o1 = VObj a) props
                  = filter (λ p, js_get p o = VObj a) props).
  { apply filter_ext_in. intros p Hin.
    assert (Hpin : p ∈ nodeProps o true) by (apply Hprops; by right).
    pose proof (nodeProps_not_mark _ _ _ Hpin). by rewrite Hg1. }
  rewrite Hrest in Hin'. rewrite filter_cons, Hg.
  destruct (decide (a = child)) as [->|Hne].
  - rewrite decide_True by done. simpl length. lia.
  - rewrite decide_False by congruence. lia.
Qed.

Lemma countDegree_into fuel : ∀ n t,
  heap_wf t → d_numeric t → n < length (heap t) → unvisited t < fuel →
  ∃ t', countDegree fuel n t = Some t' ∧ count_post n t t' ∧ into_post n t t'.
Proof.
  induction fuel as [|fuel IH]; intros n t Hwf Hd Hn Hfuel; [lia|].
  destruct (countDegree_spec (S fuel) n t Hwf Hd Hn Hfuel) as (t' & Hc & Hpost).
  exists t'. split; [done|]. split; [done|]. revert Hc. clear Hpost.
  apply lookup_lt_is_Some in Hn as [o Ho].
  simpl. rewrite Ho. simpl.
  destruct (bump_degree o (vCur t) (Hd _ _ Ho)) as (d & Hincr & Hdeg & Hmarks & Hvis).
  set (o1 := if decide (js_get "_d" o = VUndef)
             then obj_set "_d" (VNum 0) o else o) in *.
  rewrite Hincr. simpl.
  set (oA := obj_set "_d" (VNum d) o1) in *.
  set (t1 := put n oA t).
  assert (Hn_lt : n < length (heap t)) by (by eapply lookup_lt_Some).
  assert (Ho1 : heap t1 !! n = Some oA) by (by apply lookup_put_eq).
  assert (Hm1 : marks_only t t1) by (by apply marks_only_put with o).
  assert (Hwf1 : heap_wf t1) by (by apply (marks_only_wf t)).
  assert (Hd1 : d_numeric t1).
  { apply d_numeric_put; [done|]. right. exists d. apply js_get_set_eq. }
  assert (Hno : node_at t n = o) by (unfold node_at; by rewrite Ho).
  assert (HdA : degree oA = d) by apply degree_set_d.
  assert (HD1 : ∀ a, degree (node_at t1 a)
                     = (degree (node_at t a) + if decide (a = n) then 1 else 0)%Z).
  { intros a. unfold t1. rewrite node_at_put by done.
    case_decide as Ha; [subst a; rewrite Hno; lia|lia]. }
  assert (HW1 : ∀ a, visited_into t1 a = visited_into t a).
  { intros a. pose proof (visited_into_put n o oA t a Ho) as H. fold t1 in H.
    rewrite Hvis, (obj_marks_holds _ _ a Hmarks) in H. lia. }
  assert (HU1 : unvisited t1 = unvisited t).
  { pose proof (unvisited_put n o oA t Ho) as H. fold t1 in H.
    rewrite Hvis in H. lia. }
  unfold visited. fold t1. rewrite Ho1. simpl.
  change (vCur t1) with (vCur t).
  destruct (decide (js_get "_v" oA = VNum (vCur t))) as [Hseen|Hseen].
  { intros [= <-]. intros a. rewrite HD1, HW1. lia. }
  set (oB := obj_set "_v" (VNum (vCur t)) oA).
  set (t2 := put n oB t1).
  assert (HvA : is_visited (vCur t) oA = false) by (by apply bool_decide_eq_false).
  assert (HvB : is_visited (vCur t) oB = true) by apply is_visited_set_v.
  assert (HmB : obj_marks oA oB) by (apply obj_marks_set; auto using mark_v).
  assert (Hn1 : n < length (heap t1)) by (unfold t1; by rewrite length_put).
  assert (Ho2 : heap t2 !! n = Some oB) by (by apply lookup_put_eq).
  assert (Hm2 : marks_only t1 t2) by (by apply marks_only_put with oA).
  assert (Hwf2 : heap_wf t2) by (by apply (marks_only_wf t1)).
  assert (Hd2 : d_numeric t2).
  { apply d_numeric_put; [done|]. right. exists d. unfold oB.
    rewrite js_get_set_ne by done. apply js_get_set_eq. }
  assert (HD2 : ∀ a, degree (node_at t2 a) = degree (node_at t1 a)).
  { intros a. unfold t2. rewrite node_at_put by done.
    case_decide as Ha; [|done]. subst a.
    unfold node_at at 1. rewrite Ho1. apply degree_set_v. }
  assert (HW2 : ∀ a, visited_into t2 a = visited_into t a + holds o a).
  { intros a. pose proof (visited_into_put n oA oB t1 a Ho1) as H. fold t2 in H.
    change (vCur t1) with (vCur t) in H. rewrite HvA, HvB in H.
    rewrite (obj_marks_holds _ _ a HmB), (obj_marks_holds _ _ a Hmarks) in H.
    rewrite <- HW1. lia. }
  assert (HU2 : unvisited t2 + 1 = unvisited t).
  { pose proof (unvisited_put n oA oB t1 Ho1) as H. fold t2 in H.
    change (vCur t1) with (vCur t) in H. rewrite HvA, HvB in H. lia. }
  destruct (count_loop_into (countDegree fuel) fuel n IH (nodeProps oB true) t2 oB)
    as (t'' & Hloop & Hin); try done; try lia.
  intros Hc.
  change (heap t2 !! n ≫= (λ o0, count_loop (countDegree fuel) n
                                 (nodeProps o0 true) t2) = Some t') in Hc.
  rewrite Ho2 in Hc. simpl in Hc. rewrite Hloop in Hc. injection Hc as <-.
  intros a. specialize (Hin a). fold (holds oB a) in Hin.
  rewrite (obj_marks_holds _ _ a HmB), (obj_marks_holds _ _ a Hmarks) in Hin.
  rewrite HD2, HD1, HW2 in Hin. lia.
Qed.

Lemma fresh_visited_into t a : fresh_marks t → visited_into t a = 0.
Proof.
  intros Hf. unfold visited_into.
  assert (∀ o, o ∈ heap t → is_visited (vCur t) o = false) as H.
  { intros o (x & Hx)%list_elem_of_lookup. apply bool_decide_eq_false.
    by destruct (Hf _ _ Hx) as [_ ?]. }
  induction (heap t) as [|o h IH]; [done|]. simpl.
  rewrite (H o), IH; [done| |by left]. intros; apply H; by right.
Qed.

Lemma fresh_degree t a : fresh_marks t → degree (node_at t a) = 0%Z.
Proof.
  intros Hf. unfold node_at. destruct (heap t !! a) as [o|] eqn:Ha; [|done].
  simpl. unfold degree. by destruct (Hf _ _ Ha) as [-> _].
Qed.

(** From a fresh state the in-degree field of every node ends as the
    number of child properties of reachable nodes that hold it, plus one
    on the root. *)
Lemma countDegree_each t :
  heap_wf t → fresh_marks t →
  ∃ t', countDegree (S (length (heap t))) (root t) t = Some t'
    ∧ ∀ l a, NoDup l → (∀ x, x ∈ l ↔ reachable t' x) →
        degree (node_at t' a)
        = (Z.of_nat (count_into t' l a)
           + if decide (a = root t') then 1 else 0)%Z.
Proof.
  intros Hwf Hf.
  destruct (countDegree_total t Hwf Hf) as (t' & Hc & Hwf' & Hm & Hmeta & Hvr & _).
  destruct (countDegree_into (S (length (heap t))) (root t) t)
    as (t'' & Hc' & _ & Hin);
    [done|by apply fresh_d_numeric|apply Hwf|pose proof (unvisited_le t); lia|].
  assert (t'' = t') as -> by congruence.
  exists t'. split; [done|]. intros l a Hnd Hl.
  specialize (Hin a). rewrite (fresh_degree t a Hf), (fresh_visited_into t a Hf) in Hin.
  rewrite (same_meta_root _ _ Hmeta).
  assert (Hsum : count_into t' l a = visited_into t' a).
  { unfold count_into, visited_into, node_at.
    rewrite (sum_list_with_ext_in _
               (λ x, (λ o, if is_visited (vCur t') o then holds o a else 0)
                       (default ([] : object) (heap t' !! x)))).
    2:{ intros x Hx. apply Hl, Hvr in Hx as (o & Ho & Hv). rewrite Ho. simpl.
        by rewrite Hv. }
    apply (sum_listing (λ o, if is_visited (vCur t') o then holds o a else 0)).
    - done.
    - done.
    - intros x Hx. apply Hl, Hvr in Hx as (o & Ho & _). by eapply lookup_lt_Some.
    - intros x o Ho Hnl.
      destruct (is_visited (vCur t') o) eqn:Hv; [|done].
      exfalso. apply Hnl, Hl, Hvr. by exists o. }
  rewrite Hsum. lia.
Qed.


(** * The terminal flag of the root *)

(** ** Writes that leave the flag alone *)

Lemma flag_put n o' t :
  n < length (heap t) →
  (n = root t → js_get "" o' = js_get "" (node_at t (root t))) →
  js_get "" (node_at (put n o' t) (root t)) = js_get "" (node_at t (root t)).
Proof. intros Hn Ho. rewrite node_at_put by done. case_decide; auto. Qed.

Lemma set_prop_flag n k v t t' :
  set_prop n k v t = Some t' → (n = root t → k ≠ "") →
  js_get "" (node_at t' (root t')) = js_get "" (node_at t (root t))
  ∧ root t' = root t ∧ length (heap t') = length (heap t).
Proof.
  intros (o & Ho & ->)%set_prop_inv Hk.
  split; [|split; [done|apply length_put]].
  change (root (put n (obj_set k v o) t)) with (root t).
  apply flag_put; [by eapply lookup_lt_Some|].
  intros Heq. rewrite js_get_set_ne by (intros E; by apply Hk).
  subst n. by rewrite (node_at_lookup _ _ _ Ho).
Qed.

Lemma delete_prop_flag n k t t' :
  delete_prop n k t = Some t' → (n = root t → k ≠ "") →
  js_get "" (node_at t' (root t')) = js_get "" (node_at t (root t))
  ∧ root t' = root t ∧ length (heap t') = length (heap t).
Proof.
  intros (o & Ho & ->)%delete_prop_inv Hk.
  split; [|split; [done|apply length_put]].
  change (root (put n (obj_delete k o) t)) with (root t).
  apply flag_put; [by eapply lookup_lt_Some|].
  intros Heq. rewrite js_get_delete. rewrite decide_False by (intros E; by apply Hk).
  subst n. by rewrite (node_at_lookup _ _ _ Ho).
Qed.

Lemma flag_alloc t :
  root t < length (heap t) →
  js_get "" (node_at (set_heap (heap t ++ [[]]) t) (root t))
  = js_get "" (node_at t (root t)).
Proof. intros Hr. unfold node_at. cbn [heap set_heap]. by rewrite lookup_app_l. Qed.

Lemma addTerminal_flag prop : ∀ node t t',
  root t < length (heap t) → (node = root t → prop ≠ "") →
  addTerminal node prop t = Some t' →
  js_get "" (node_at t' (root t')) = js_get "" (node_at t (root t))
  ∧ root t' = root t ∧ length (heap t) ≤ length (heap t').
Proof.
  assert (Hleaf : ∀ node p t t', (node = root t → p ≠ "") →
    set_prop node p (VNum 1) t = Some t' →
    js_get "" (node_at t' (root t')) = js_get "" (node_at t (root t))
    ∧ root t' = root t ∧ length (heap t) ≤ length (heap t')).
  { intros node p t t' Hp Hs.
    apply set_prop_flag in Hs as (? & ? & ?); [|done]. split_and!; [done|done|lia]. }
  induction prop as [|c rest IH]; intros node t t' Hr Hne Hadd.
  { by eapply Hleaf. }
  destruct rest as [|c' rest'].
  { by eapply Hleaf. }
  rewrite addTerminal_cons in Hadd.
  apply bind_Some in Hadd as (t1 & Hs & Hadd).
  apply set_prop_flag in Hs as (Hf1 & Hr1 & Hl1); [|done].
  cbn [heap root set_heap] in Hf1, Hr1, Hl1.
  rewrite length_app in Hl1. simpl in Hl1.
  apply IH in Hadd as (Hf' & Hr' & Hl'); [| |].
  - split_and!; [|congruence|lia]. rewrite Hf', Hf1. by apply flag_alloc.
  - rewrite Hr1, Hl1. lia.
  - rewrite Hr1. intros Heq. lia.
Qed.

Lemma commonPrefix_nil_prop w : commonPrefix w "" = "".
Proof. by destruct w. Qed.

Lemma insert_split_flag word node prop v t t' :
  root t < length (heap t) → commonPrefix word prop ≠ "" →
  insert_split word node prop (commonPrefix word prop) v t = Some t' →
  js_get "" (node_at t' (root t')) = js_get "" (node_at t (root t))
  ∧ root t' = root t.
Proof.
  intros Hr Hpre Hsplit. unfold insert_split, alloc in Hsplit.
  assert (Hprop : prop ≠ "").
  { intros ->. by rewrite commonPrefix_nil_prop in Hpre. }
  apply bind_Some in Hsplit as (t1 & Hs1 & Hsplit).
  apply bind_Some in Hsplit as (t2 & Hadd & Hsplit).
  apply bind_Some in Hsplit as (t3 & Hdel & Hsplit).
  apply bind_Some in Hsplit as (t4 & Hs4 & [= <-]).
  apply set_prop_flag in Hs1 as (Hf1 & Hr1 & Hl1);
    [|cbn [root set_heap]; intros ?; lia].
  cbn [heap root set_heap] in Hf1, Hr1, Hl1.
  rewrite length_app in Hl1. simpl in Hl1.
  apply addTerminal_flag in Hadd as (Hf2 & Hr2 & Hl2);
    [|rewrite Hr1, Hl1; lia|rewrite Hr1; intros ?; lia].
  apply delete_prop_flag in Hdel as (Hf3 & Hr3 & Hl3); [|done].
  apply set_prop_flag in Hs4 as (Hf4 & Hr4 & Hl4); [|done].
  split.
  - change (js_get "" (node_at t4 (root t4)) = js_get "" (node_at t (root t))).
    rewrite Hf4, Hf3, Hf2, Hf1. by apply flag_alloc.
  - change (root t4 = root t). congruence.
Qed.

Lemma insert_loop_flag rec word node o keys t t' :
  (∀ w n t', n ≠ root t → rec w n t = Some t' →
     js_get "" (node_at t' (root t')) = js_get "" (node_at t (root t))
     ∧ root t' = root t) →
  root_free t → heap t !! node = Some o → (node = root t → word ≠ "") →
  insert_loop rec word node o keys t = Some t' →
  js_get "" (node_at t' (root t')) = js_get "" (node_at t (root t))
  ∧ root t' = root t.
Proof.
  intros Hrec Hrf Hnode Hw. induction keys as [|prop keys IH]; intros Hloop.
  { simpl in Hloop. apply bind_Some in Hloop as (t1 & Hadd & [= <-]).
    apply addTerminal_flag in Hadd as (Hf1 & Hr1 & _); [|apply Hrf|done].
    by split. }
  cbn [insert_loop] in Hloop.
  destruct (String.length (commonPrefix word prop) =? 0) eqn:Hlen; [by apply IH|].
  destruct (bool_decide (prop = commonPrefix word prop)
            && is_object (js_get prop o)).
  { destruct (js_get prop o) as [| | |child] eqn:Hg; try done.
    eapply Hrec; [|exact Hloop]. intros ->.
    destruct Hrf as (_ & H1 & _). by eapply H1. }
  destruct (bool_decide (prop = word) && is_number (js_get prop o)).
  { by injection Hloop as <-. }
  eapply insert_split_flag; [apply Hrf| |exact Hloop].
  intros E. rewrite E in Hlen. done.
Qed.

Lemma _insert_flag fuel : ∀ word node t t',
  root_free t → (node = root t → word ≠ "") →
  _insert fuel word node t = Some t' →
  js_get "" (node_at t' (root t')) = js_get "" (node_at t (root t))
  ∧ root t' = root t.
Proof.
  induction fuel as [|fuel IH]; intros word node t t' Hrf Hw Hins; [done|].
  simpl in Hins. apply bind_Some in Hins as (o & Ho & Hloop).
  eapply insert_loop_flag; [|done|done|done|done].
  intros w n t'' Hn. by apply IH.
Qed.

(** ** The canonicalizer writes no terminal flag *)

Lemma set_prop_flag_all n k v t t' :
  set_prop n k v t = Some t' → k ≠ "" →
  ∀ a, js_get "" (node_at t' a) = js_get "" (node_at t a).
Proof.
  intros (o & Ho & ->)%set_prop_inv Hk a.
  rewrite node_at_put by (by eapply lookup_lt_Some).
  case_decide as Ha; [|done]. subst a.
  rewrite js_get_set_ne by (intros E; by apply Hk).
  by rewrite (node_at_lookup _ _ _ Ho).
Qed.

Lemma combine_loop_flag rec node : ∀ props sig t sig' t',
  (∀ c s r s', rec c s = Some (r, s') →
     ∀ a, js_get "" (node_at s' a) = js_get "" (node_at s a)) →
  Forall (λ p, p ≠ "") props →
  combine_loop rec node props sig t = Some (sig', t') →
  ∀ a, js_get "" (node_at t' a) = js_get "" (node_at t a).
Proof.
  induction props as [|prop props IH]; intros sig t sig' t' Hrec Hall Hloop a.
  { by injection Hloop as <- <-. }
  apply Forall_cons in Hall as [Hp Hall].
  simpl in Hloop. apply bind_Some in Hloop as (o & Ho & Hloop).
  destruct (js_get prop o) as [| | |child] eqn:Hg; try by eapply IH.
  apply bind_Some in Hloop as ([shared t1] & Hr & Hloop).
  apply bind_Some in Hloop as (t2 & Hset & Hloop).
  apply bind_Some in Hloop as (s & Hs & Hloop).
  rewrite (IH _ _ _ _ Hrec Hall Hloop a).
  rewrite (set_prop_flag_all _ _ _ _ _ Hset Hp a).
  by apply (Hrec _ _ _ _ Hr).
Qed.

Lemma combineSuffixNode_flag fuel : ∀ node t r t',
  combineSuffixNode fuel node t = Some (r, t') →
  ∀ a, js_get "" (node_at t' a) = js_get "" (node_at t a).
Proof.
  induction fuel as [|fuel IH]; intros node t r t' Hc a; [done|].
  simpl in Hc. apply bind_Some in Hc as (o & Ho & Hc).
  destruct (truthy (js_get "_c" o)); [by injection Hc as <- <-|].
  apply bind_Some in Hc as ([sig t1] & Hloop & Hc).
  assert (H1 : ∀ a, js_get "" (node_at t1 a) = js_get "" (node_at t a)).
  { eapply combine_loop_flag; [exact IH| |exact Hloop].
    apply Forall_forall. intros p Hp.
    by apply elem_of_nodeProps in Hp as (_ & [? _] & _). }
  destruct (suffixes t1 !! join "-" sig) as [shared|].
  { injection Hc as <- <-. apply H1. }
  apply bind_Some in Hc as (t2 & Hset & [= <- <-]).
  rewrite <- H1.
  apply (set_prop_flag_all _ _ _ _ _ Hset). done.
Qed.

(** ** [insert] and the flag of the root *)

Lemma insert_loop_empty rec node o keys t :
  insert_loop rec "" node o keys t
  = t1 ← set_prop node "" (VNum 1) t; Some (bump_wordCount t1).
Proof. induction keys as [|prop keys IH]; [done|]. exact IH. Qed.

Lemma _insert_empty fuel node o t :
  heap t !! node = Some o →
  _insert (S fuel) "" node t
  = Some (bump_wordCount (put node (obj_set "" (VNum 1) o) t)).
Proof.
  intros Ho. cbn [_insert]. rewrite Ho. cbn [mbind option_bind].
  rewrite insert_loop_empty. unfold set_prop. rewrite Ho. done.
Qed.

Lemma insert_flag w t t' :
  root_free t → insert w t = Some t' →
  root t' = root t
  ∧ js_get "" (node_at t' (root t'))
    = if decide (w = "") then VNum 1 else js_get "" (node_at t (root t)).
Proof.
  intros Hrf Hins.
  destruct (insert_root_free _ _ _ Hrf Hins) as [_ Hroot]. split; [done|].
  rewrite Hroot. unfold insert in Hins.
  apply bind_Some in Hins as (t1 & Hi & Hins).
  assert (H1 : js_get "" (node_at t1 (root t))
               = if decide (w = "") then VNum 1
                 else js_get "" (node_at t (root t))).
  { destruct (decide (w = "")) as [->|Hw].
    - pose proof Hrf as (Hlt & _).
      destruct (lookup_lt_is_Some_2 _ _ Hlt) as [o Ho].
      cbn [String.length] in Hi. rewrite (_insert_empty _ _ _ _ Ho) in Hi.
      injection Hi as <-.
      change (js_get "" (node_at (put (root t) (obj_set "" (VNum 1) o) t) (root t))
              = VNum 1).
      rewrite node_at_put by done. rewrite decide_True by done.
      apply js_get_set_eq.
    - apply _insert_flag in Hi as [Hf Hr]; [|done|done]. by rewrite <- Hr at 1. }
  destruct (decide (commonPrefix w (lastWord t1) = lastWord t1));
    [by injection Hins as <-|].
  apply bind_Some in Hins as (freeze & Hu & Hins).
  destruct freeze as [freeze|]; [|by injection Hins as <-].
  apply bind_Some in Hins as ([r t2] & Hc & [= <-]).
  rewrite (combineSuffixNode_flag _ _ _ _ _ Hc). exact H1.
Qed.

Lemma insertWords_flag words : ∀ t t',
  root_free t → insertWords words t = Some t' →
  root t' = root t
  ∧ js_get "" (node_at t' (root t'))
    = if bool_decide ("" ∈ words) then VNum 1
      else js_get "" (node_at t (root t)).
Proof.
  induction words as [|w words IH]; intros t t' Hrf Hins.
  { injection Hins as <-. split; [done|]. rewrite bool_decide_eq_false_2; [done|].
    apply not_elem_of_nil. }
  simpl in Hins. apply bind_Some in Hins as (t1 & Hi & Hins).
  destruct (insert_root_free _ _ _ Hrf Hi) as [Hrf1 _].
  destruct (insert_flag _ _ _ Hrf Hi) as [Hr1 Hf1].
  destruct (IH _ _ Hrf1 Hins) as [Hr' Hf']. split; [congruence|].
  rewrite Hf', Hf1.
  destruct (decide (w = "")) as [->|Hw].
  - rewrite (bool_decide_eq_true_2 ("" ∈ "" :: words)) by (by left).
    by case_bool_decide.
  - case_bool_decide as Hin.
    + rewrite bool_decide_eq_true_2; [done|]. by right.
    + rewrite bool_decide_eq_false_2; [done|].
      rewrite not_elem_of_cons. split; [congruence|done].
Qed.

Lemma build_flag words t :
  build words = Some t →
  js_get "" (node_at t (root t))
  = if bool_decide ("" ∈ words) then VNum 1 else VUndef.
Proof.
  intros Hb. by destruct (insertWords_flag _ _ _ new_Trie_root_free Hb) as [_ ->].
Qed.

Lemma isWord_empty t :
  root t < length (heap t) →
  isWord "" t = Some (isTerminal (node_at t (root t))).
Proof.
  intros Hr. destruct (lookup_lt_is_Some_2 _ _ Hr) as [o Ho].
  unfold isWord. rewrite isFragment_unfold, Ho.
  by rewrite (node_at_lookup _ _ _ Ho).
Qed.

Lemma isWord_empty_inv t b :
  isWord "" t = Some b → isTerminal (node_at t (root t)) = b.
Proof.
  unfold isWord. rewrite isFragment_unfold.
  intros (o & Ho & [= <-])%bind_Some. by rewrite (node_at_lookup _ _ _ Ho).
Qed.

Lemma optimize_isWord_empty t t' :
  builder_inv t → optimize t = Some t' →
  isWord "" t' = Some (isTerminal (node_at t (root t))).
Proof.
  intros Hinv Ho. pose proof Ho as Ho'. unfold optimize in Ho'.
  apply bind_Some in Ho' as (p & Hp & _).
  destruct (optimize_prepare_inv _ _ Hinv Hp)
    as (_ & _ & r & t1 & t2 & Hc & Hinv1 & _).
  destruct (optimize_tail_isWord _ _ _ Hinv Hc) as (t'' & Ho'' & Hsame).
  assert (t'' = t') as -> by congruence.
  rewrite (Hsame "") by done.
  rewrite isWord_empty by apply Hinv1.
  destruct (combineSuffixNode_inv _ _ _ _ _ Hinv Hc) as (_ & _ & _ & Hr & _).
  rewrite Hr. unfold isTerminal. by rewrite (combineSuffixNode_flag _ _ _ _ _ Hc).
Qed.


(** * The node that [uniqueNode] returns, by the edges of the store *)









(** * The properties of the specification *)

Lemma isWord_member w t : isWord w t = member t (root t) w.
Proof. done. Qed.

(** ** Chain-collapse safety *)

(** C1, as stated, fails on a query in the namespace of the bookkeeping
    fields: on the empty dictionary [isWord("_v")] is [true] before
    [collapseChains] (the root's visit stamp is 1) and [false] after it
    (the stamp is 2). *)
Lemma collapseChains_changes_isWord_v :
  ∃ t p t',
    build [] = Some t
    ∧ optimize_prepare t = Some p
    ∧ collapseChains (S (length (heap p))) (root p) p = Some t'
    ∧ optimize t = Some t'
    ∧ isWord "_v" p = Some true
    ∧ isWord "_v" t' = Some false.
Proof.
  eexists _, _, _. split; [vm_compute; reflexivity|].
  split; [vm_compute; reflexivity|].
  split; [vm_compute; reflexivity|].
  split; [vm_compute; reflexivity|].
  split; vm_compute; reflexivity.
Qed.

(** C1 (amended): for every list of inserted words, [collapseChains], run
    as the last step of [optimize], returns, and [isWord(w)] has the same
    (defined) result before and after it for every query [w] that does not
    contain the character ['_'] (with one, anywhere in [w], the query can
    end on a visit stamp [_v], which [collapseChains] rewrites). *)
Theorem collapseChains_preserves_isWord words t p :
  build words = Some t → optimize_prepare t = Some p →
  ∃ t', collapseChains (S (length (heap p))) (root p) p = Some t'
        ∧ optimize t = Some t'
        ∧ ∀ w, clean w = true →
               isWord w t' = isWord w p ∧ is_Some (isWord w p).
Proof.
  intros Hb Hp. destruct (build_inv _ _ Hb) as (Hinv & _).
  destruct (optimize_prepare_inv _ _ Hinv Hp) as (Hci & Hroot & _).
  destruct (collapse_total p Hci) as (t' & log & _ & Hc & Hpost).
  exists t'. split; [done|]. split.
  { unfold optimize. rewrite Hp. done. }
  intros w Hw. destruct Hpost as (_ & _ & Hmeta & _ & _ & Hsame & _).
  split.
  - rewrite !isWord_member, (same_meta_root _ _ Hmeta). by apply Hsame.
  - rewrite isWord_member. apply member_is_Some; apply Hci.
Qed.

Lemma collapseChains_preserves_isWord_witness :
  ∃ t p,
    build ["ab"; "abc"; "b"] = Some t ∧ optimize_prepare t = Some p
    ∧ ∃ t', collapseChains (S (length (heap p))) (root p) p = Some t'
            ∧ optimize t = Some t'
            ∧ ∀ w, clean w = true →
                   isWord w t' = isWord w p ∧ is_Some (isWord w p).
Proof.
  eexists _, _. split; [vm_compute; reflexivity|].
  split; [vm_compute; reflexivity|].
  apply (collapseChains_preserves_isWord ["ab"; "abc"; "b"]);
    [vm_compute; reflexivity|vm_compute; reflexivity].
Defined.

(** ** The canonicalizer *)

(** C2 fails in the code: the signature of a node joins property names and
    child ids with ['-'] and has no mark for an inline terminal, so the
    node [{0: 1, 1: 1}] (the suffixes "0" and "1") has the signature
    ["0-1"] of the frozen node [{0: {x: 1}}] whose child has id 1 (the
    suffix "0x"). After ["a0x"; "c0"; "c1"] the canonicalizer, given the
    child [c] of the root, returns the child [a]: "0" is a suffix of the
    argument and not of the result, "0x" of the result and not of the
    argument, and the first step of [optimize] turns [isWord("c0")] from
    [true] to [false]. *)
Theorem combineSuffixNode_signature_collision :
  ∃ t t' p,
    build ["a0x"; "c0"; "c1"] = Some t
    ∧ js_get "c" (node_at t (root t)) = VObj 3
    ∧ js_get "a" (node_at t (root t)) = VObj 1
    ∧ combineSuffixNode (S (length (heap t))) 3 t = Some (1, t')
    ∧ member t 3 "0" = Some true ∧ member t' 1 "0" = Some false
    ∧ member t 3 "0x" = Some false ∧ member t' 1 "0x" = Some true
    ∧ optimize_prepare t = Some p
    ∧ isWord "c0" t = Some true ∧ isWord "c0" p = Some false.
Proof.
  eexists _, _, _. split; [vm_compute; reflexivity|].
  split; [vm_compute; reflexivity|].
  split; [vm_compute; reflexivity|].
  split; [vm_compute; reflexivity|].
  split; [vm_compute; reflexivity|].
  split; [vm_compute; reflexivity|].
  split; [vm_compute; reflexivity|].
  split; [vm_compute; reflexivity|].
  split; [vm_compute; reflexivity|].
  split; vm_compute; reflexivity.
Qed.

(** ** In-degree counting *)

Lemma reachable_root_only t a :
  nodeProps (node_at t (root t)) true = [] → reachable t a → a = root t.
Proof.
  intros Hnp Hr. unfold reachable in Hr.
  apply rtc_inv in Hr as [->|(c & (o & prop & Ho & Hin & _) & _)]; [done|].
  unfold node_at in Hnp. rewrite Ho in Hnp. simpl in Hnp.
  rewrite Hnp in Hin. by apply elem_of_nil in Hin.
Qed.

(** C3, as stated, fails on the empty dictionary: the only reachable node
    is the root, its in-degree field is 1 after [countDegree], and the
    DAWG has no edge. *)
Lemma countDegree_root_counted :
  ∃ t r t1 t2,
    build [] = Some t
    ∧ combineSuffixNode (S (length (heap t))) (root t) t = Some (r, t1)
    ∧ countDegree (S (length (heap (prepDFS t1)))) (root (prepDFS t1))
        (prepDFS t1) = Some t2
    ∧ NoDup [0] ∧ (∀ a, a ∈ [0] ↔ reachable t2 a)
    ∧ sum_degrees t2 [0] = 1%Z ∧ count_edges t2 [0] = 0.
Proof.
  eexists _, _, _, _. split; [vm_compute; reflexivity|].
  split; [vm_compute; reflexivity|].
  split; [vm_compute; reflexivity|].
  split; [apply NoDup_singleton|].
  split; [|split; vm_compute; reflexivity].
  intros a. rewrite list_elem_of_singleton. split.
  - intros ->. apply rtc_refl.
  - intros Hr. by apply reachable_root_only in Hr.
Qed.

(** C3 (amended): after [countDegree] has run from the root over the
    canonicalized DAWG with a fresh visit epoch (it always returns), the
    reachable nodes can be listed, and over every such list the sum of the
    in-degree fields is the number of edges between the nodes plus one:
    the call on the root counts the root once. *)
Theorem countDegree_sum_degrees words t r t1 :
  build words = Some t →
  combineSuffixNode (S (length (heap t))) (root t) t = Some (r, t1) →
  ∃ t2,
    countDegree (S (length (heap (prepDFS t1)))) (root (prepDFS t1))
      (prepDFS t1) = Some t2
    ∧ (∃ l, NoDup l ∧ ∀ a, a ∈ l ↔ reachable t2 a)
    ∧ ∀ l, NoDup l → (∀ a, a ∈ l ↔ reachable t2 a) →
           sum_degrees t2 l = (Z.of_nat (count_edges t2 l) + 1)%Z.
Proof.
  intros Hb Hc. destruct (build_inv _ _ Hb) as (Hinv & _).
  pose proof (combineSuffixNode_inv _ _ _ _ _ Hinv Hc) as (Hinv1 & _).
  destruct (countDegree_total (prepDFS t1))
    as (t2 & Hcd & _ & _ & _ & Hvis & Hsum);
    [apply Hinv1|by apply builder_fresh|].
  exists t2. split; [done|]. split; [|done].
  destruct (visited_listing t2) as (l & Hnd & Hl).
  exists l. split; [done|]. intros a. by rewrite Hl.
Qed.

Lemma countDegree_sum_degrees_witness :
  ∃ t r t1,
    build ["ab"; "cb"] = Some t
    ∧ combineSuffixNode (S (length (heap t))) (root t) t = Some (r, t1)
    ∧ ∃ t2,
        countDegree (S (length (heap (prepDFS t1)))) (root (prepDFS t1))
          (prepDFS t1) = Some t2
        ∧ (∃ l, NoDup l ∧ ∀ a, a ∈ l ↔ reachable t2 a)
        ∧ ∀ l, NoDup l → (∀ a, a ∈ l ↔ reachable t2 a) →
               sum_degrees t2 l = (Z.of_nat (count_edges t2 l) + 1)%Z.
Proof.
  eexists _, _, _. split; [vm_compute; reflexivity|].
  split; [vm_compute; reflexivity|].
  eapply (countDegree_sum_degrees ["ab"; "cb"]);
    [vm_compute; reflexivity|vm_compute; reflexivity].
Defined.

(** ** What [collapseChains] hoists *)

(** C4, as stated, fails: after ["ab"] the child of the root is
    [{b: 1}], one inline terminal and no outgoing edge, and
    [collapseChains] hoists it (the root becomes [{ab: 1}]). *)
Lemma collapseChains_hoists_inline_terminal :
  ∃ t p t' h,
    build ["ab"] = Some t
    ∧ optimize_prepare t = Some p
    ∧ collapseChains_log (S (length (heap p))) (root p) p = Some (t', [h])
    ∧ collapseChains (S (length (heap p))) (root p) p = Some t'
    ∧ nodeProps (h_shape h) true = []
    ∧ nodeProps (h_shape h) false = ["b"]
    ∧ js_get "b" (h_shape h) = VNum 1
    ∧ ¬ spec_singleton (h_shape h)
    ∧ js_get "ab" (node_at t' (root t')) = VNum 1.
Proof.
  eexists _, _, _, _. split; [vm_compute; reflexivity|].
  split; [vm_compute; reflexivity|].
  split; [vm_compute; reflexivity|].
  split; [vm_compute; reflexivity|].
  split; [vm_compute; reflexivity|].
  split; [vm_compute; reflexivity|].
  split; [vm_compute; reflexivity|].
  split; [|vm_compute; reflexivity].
  intros (g & Hg & _). vm_compute in Hg. discriminate.
Qed.

(** Property names that begin with ['_'] are not counted either, whatever
    they hold. After ["a_x"; "ab"] the child of the root is
    [{_: {x: 1}, b: 1}]: an edge under ['_'] and an inline terminal.
    [nodeProps] lists ["b"] alone, and [collapseChains] hoists the child
    (the root becomes [{ab: 1}]). *)
Remark collapseChains_skips_underscore_edge :
  ∃ t p t' h,
    build ["a_x"; "ab"] = Some t
    ∧ optimize_prepare t = Some p
    ∧ collapseChains_log (S (length (heap p))) (root p) p = Some (t', [h])
    ∧ collapseChains (S (length (heap p))) (root p) p = Some t'
    ∧ obj_keys (h_shape h) = ["_"; "b"; "_c"; "_d"; "_v"; "_g"]
    ∧ js_get "_" (h_shape h) = VObj 2
    ∧ js_get "b" (h_shape h) = VNum 1
    ∧ nodeProps (h_shape h) false = ["b"]
    ∧ js_get "ab" (node_at t' (root t')) = VNum 1.
Proof.
  eexists _, _, _, _. split; [vm_compute; reflexivity|].
  split; [vm_compute; reflexivity|].
  split; [vm_compute; reflexivity|].
  split; [vm_compute; reflexivity|].
  split; [vm_compute; reflexivity|].
  split; [vm_compute; reflexivity|].
  split; [vm_compute; reflexivity|].
  split; vm_compute; reflexivity.
Qed.

(** C4 (amended): [collapseChains] hoists a child only when exactly one of
    the child's property names is neither empty nor begins with ['_'] (the
    names that [nodeProps] lists; the property is an edge or an inline
    terminal, and it is the one that [_g] names), the child has no terminal
    flag, and either its in-degree field is 1 or that name has length 1.
    Properties whose names begin with ['_'] are not counted, whatever they
    hold. The log lists every execution of the hoisting statements of
    [collapseChains], which returns. *)
Theorem collapseChains_hoists_single_property words t p :
  build words = Some t → optimize_prepare t = Some p →
  ∃ t' log,
    collapseChains_log (S (length (heap p))) (root p) p = Some (t', log)
    ∧ collapseChains (S (length (heap p))) (root p) p = Some t'
    ∧ Forall hoist_single log.
Proof.
  intros Hb Hp. destruct (build_inv _ _ Hb) as (Hinv & _).
  destruct (optimize_prepare_inv _ _ Hinv Hp) as (Hci & _).
  destruct (collapse_total p Hci) as (t' & log & Hlog & Hc & Hpost).
  exists t', log. split; [done|]. split; [done|].
  destruct Hpost as (_ & _ & _ & _ & _ & _ & Hok).
  eapply Forall_impl; [exact Hok|].
  intros h (g & Hg & Hprops & Hterm & Hd). exists g.
  assert (Hin : ∀ k, k ∈ nodeProps (h_shape h) false ↔ k = g).
  { intros k. rewrite Hprops. apply list_elem_of_singleton. }
  pose proof (proj2 (Hin g) eq_refl) as Hgin.
  apply elem_of_nodeProps in Hgin as (Hgk & [Hgne Hgu] & _).
  split_and!; try done.
  intros k Hk. destruct (decide (k = "")) as [|Hne]; [auto|].
  destruct (not_underscore k) eqn:Hu; [|auto].
  left. apply Hin, elem_of_nodeProps. by repeat split.
Qed.

Lemma collapseChains_hoists_single_property_witness :
  ∃ t p,
    build ["abc"; "abd"] = Some t ∧ optimize_prepare t = Some p
    ∧ ∃ t' log,
        collapseChains_log (S (length (heap p))) (root p) p = Some (t', log)
        ∧ collapseChains (S (length (heap p))) (root p) p = Some t'
        ∧ Forall hoist_single log.
Proof.
  eexists _, _. split; [vm_compute; reflexivity|].
  split; [vm_compute; reflexivity|].
  eapply (collapseChains_hoists_single_property ["abc"; "abd"]);
    [vm_compute; reflexivity|vm_compute; reflexivity].
Defined.

(** ** Validation *)

(** C5, as stated, fails: nothing in [insert] looks at the characters of a
    word. A word made of punctuation, a control character and a byte
    outside ASCII is inserted and is then a word of the dictionary. *)
Lemma insert_accepts_any_character :
  ∃ t,
    insert (String "," (String ";" (String "!" (String "001"
              (String "200" "")))))
      new_Trie = Some t
    ∧ isWord (String "," (String ";" (String "!" (String "001"
              (String "200" ""))))) t = Some true.
Proof. eexists. split; [vm_compute; reflexivity|vm_compute; reflexivity]. Qed.

(** C5 (amended): [insert] validates nothing. In every state that inserts
    lead to, the insertion into the trie returns for every word, whatever
    its characters; and the whole of [insert] returns whenever the
    previous word is a prefix of the new one, as on the first insert. *)
Theorem insert_validates_nothing words t word :
  build words = Some t →
  is_Some (_insert (S (String.length word)) word (root t) t)
  ∧ (starts (lastWord t) word = true → is_Some (insert word t)).
Proof.
  intros Hb. destruct (build_inv _ _ Hb) as (Hinv & _). split.
  - apply _insert_total; [apply Hinv|apply Hinv|lia].
  - by apply insert_total_prefix.
Qed.

Lemma insert_validates_nothing_witness :
  is_Some (_insert (S (String.length ";!")) ";!" (root new_Trie) new_Trie)
  ∧ (starts (lastWord new_Trie) ";!" = true →
     is_Some (insert ";!" new_Trie)).
Proof. apply (insert_validates_nothing [] new_Trie ";!"). reflexivity. Defined.

(** ** Invariant 1 *)

(** C6: after every sequence of inserts, and still after [optimize] with
    its [collapseChains], at most one label (edge label or inline
    terminal) of any node of the store begins with a given character. *)
Theorem labels_prefix_free words t :
  build words = Some t →
  (∀ a o, heap t !! a = Some o → prefix_free o)
  ∧ ∀ t', optimize t = Some t' →
          ∀ a o, heap t' !! a = Some o → prefix_free o.
Proof.
  intros Hb. destruct (build_inv _ _ Hb) as (Hinv & _). split.
  - intros a o Ha. destruct Hinv as ([Hwf _] & _).
    by destruct (Hwf _ _ Ha) as (_ & ? & _).
  - intros t' Ho a o Ha. unfold optimize in Ho.
    apply bind_Some in Ho as (p & Hp & Hc).
    destruct (optimize_prepare_inv _ _ Hinv Hp) as (Hci & _).
    destruct (collapse_total p Hci) as (t'' & log & _ & Hc' & Hpost).
    assert (t'' = t') as -> by congruence.
    destruct Hpost as (([Hwf _] & _) & _).
    by destruct (Hwf _ _ Ha) as (_ & ? & _).
Qed.

Lemma labels_prefix_free_witness :
  ∃ t,
    build ["bat"; "bath"; "cat"] = Some t
    ∧ (∀ a o, heap t !! a = Some o → prefix_free o)
    ∧ ∀ t', optimize t = Some t' →
            ∀ a o, heap t' !! a = Some o → prefix_free o.
Proof.
  eexists. split; [vm_compute; reflexivity|].
  apply (labels_prefix_free ["bat"; "bath"; "cat"]). vm_compute; reflexivity.
Defined.

(** ** The unique node *)




(** ** Duplicates *)

(** C8 fails in the code: inserting a word again runs the search for the
    unique node and the canonicalizer again, and the canonicalizer merges
    nodes by a signature that does not tell them apart (the defect behind
    C2). After ["a0x"; "cd0"; "cd1"] the word "a0x" is in the dictionary;
    inserting it once more turns [isWord("cd0")] from [true] to
    [false]. *)
Theorem insert_duplicate_changes_isWord :
  ∃ t t',
    build ["a0x"; "cd0"; "cd1"] = Some t
    ∧ isWord "a0x" t = Some true
    ∧ insert "a0x" t = Some t'
    ∧ isWord "cd0" t = Some true
    ∧ isWord "cd0" t' = Some false.
Proof.
  eexists _, _. split; [vm_compute; reflexivity|].
  split; [vm_compute; reflexivity|].
  split; [vm_compute; reflexivity|].
  split; vm_compute; reflexivity.
Qed.

(** The instance of the spec does hold: ["foo"] three times leaves the
    store that ["foo"] once leaves, so [isWord] answers alike. *)
Lemma insert_foo_thrice :
  ∃ t1 t3,
    build ["foo"] = Some t1 ∧ build ["foo"; "foo"; "foo"] = Some t3
    ∧ ∀ w, isWord w t3 = isWord w t1.
Proof.
  eexists _, _. split; [vm_compute; reflexivity|].
  split; [vm_compute; reflexivity|]. done.
Qed.

(** ** The empty word *)

(** C9: inserting the empty string marks the root terminal. In every
    state that inserts lead to, the root carries the terminal flag (the
    number 1 under the empty name) exactly when the empty string is among
    the words inserted, and [isWord("")] answers accordingly, before and
    after [optimize]; the insertion of the empty string into the trie
    returns with the flag set; [insert("")] returns when no word has the
    code unit ['_'], and whenever it returns the root is terminal and
    [isWord("")] is [true]. After building from the one word [""], the
    root has the terminal flag, [isWord("")] is [true] and [isWord] of
    every other word is [false] (after [optimize]: of every other word
    without ['_'], among them ["x"]). *)
Theorem empty_word_marks_root :
  (∀ words t,
     build words = Some t →
     js_get "" (node_at t (root t))
     = (if bool_decide ("" ∈ words) then VNum 1 else VUndef)
     ∧ isTerminal (node_at t (root t)) = bool_decide ("" ∈ words)
     ∧ isWord "" t = Some (bool_decide ("" ∈ words))
     ∧ (∀ t', optimize t = Some t' →
          isTerminal (node_at t' (root t')) = bool_decide ("" ∈ words)
          ∧ isWord "" t' = Some (bool_decide ("" ∈ words)))
     ∧ (∃ t1, _insert 1 "" (root t) t = Some t1
              ∧ js_get "" (node_at t1 (root t1)) = VNum 1)
     ∧ (Forall (λ w, clean w = true) words → is_Some (insert "" t))
     ∧ (∀ t', insert "" t = Some t' →
          isTerminal (node_at t' (root t')) = true
          ∧ isWord "" t' = Some true))
  ∧ (∃ t t',
       build [""] = Some t
       ∧ isTerminal (node_at t (root t)) = true
       ∧ isWord "" t = Some true ∧ isWord "x" t = Some false
       ∧ (∀ c rest, isWord (String c rest) t = Some false)
       ∧ optimize t = Some t'
       ∧ isTerminal (node_at t' (root t')) = true
       ∧ isWord "" t' = Some true ∧ isWord "x" t' = Some false
       ∧ (∀ c rest, clean (String c rest) = true →
                    isWord (String c rest) t' = Some false)).
Proof.
  split.
  - intros words t Hb. destruct (build_inv _ _ Hb) as (Hinv & _).
    pose proof (build_root_free _ _ Hb) as Hrf.
    pose proof (build_flag _ _ Hb) as Hflag.
    assert (Hterm : isTerminal (node_at t (root t)) = bool_decide ("" ∈ words)).
    { unfold isTerminal. rewrite Hflag. by case_bool_decide. }
    assert (Hins : ∀ t', insert "" t = Some t' →
              isTerminal (node_at t' (root t')) = true
              ∧ isWord "" t' = Some true).
    { intros t' Hi. destruct (insert_flag _ _ _ Hrf Hi) as [_ Hf].
      rewrite decide_True in Hf by done.
      assert (Ht : isTerminal (node_at t' (root t')) = true).
      { unfold isTerminal. by rewrite Hf. }
      split; [done|]. rewrite isWord_empty; [by rewrite Ht|].
      destruct (insert_inv _ _ _ Hinv Hi) as (Hinv' & _). apply Hinv'. }
    split; [done|]. split; [done|]. split.
    { rewrite isWord_empty by apply Hinv. by rewrite Hterm. }
    split.
    { intros t' Ho. pose proof (optimize_isWord_empty _ _ Hinv Ho) as Hw.
      rewrite Hterm in Hw. split; [by apply isWord_empty_inv|done]. }
    split.
    { destruct (lookup_lt_is_Some_2 (heap t) (root t)) as [o Ho]; [apply Hinv|].
      eexists. split; [by apply _insert_empty|].
      change (js_get "" (node_at (put (root t) (obj_set "" (VNum 1) o) t) (root t))
              = VNum 1).
      rewrite node_at_put by apply Hinv. rewrite decide_True by done.
      apply js_get_set_eq. }
    split; [|done].
    intros Hall.
    destruct (insertWords_total_ok not_us eq_refl words new_Trie)
      as (t0 & Hb0 & Ht0).
    { apply term_inv_new. }
    { eapply Forall_impl; [done|]. intros w Hw. by rewrite <- clean_word_over. }
    assert (t0 = t) as -> by (unfold build in Hb; congruence).
    destruct (insert_total_ok not_us eq_refl "" t Ht0) as (t' & Hi & _); [done|].
    by exists t'.
  - eexists _, _. split; [vm_compute; reflexivity|].
    split; [vm_compute; reflexivity|].
    split; [vm_compute; reflexivity|].
    split; [vm_compute; reflexivity|].
    split.
    { intros c rest. unfold isWord. rewrite isFragment_unfold. done. }
    split; [vm_compute; reflexivity|].
    split; [vm_compute; reflexivity|].
    split; [vm_compute; reflexivity|].
    split; [vm_compute; reflexivity|].
    intros c rest Hcl. unfold isWord. rewrite isFragment_unfold.
    cbn [heap root lookup list_lookup mbind option_bind String.length Nat.eqb].
    rewrite js_get_not_key.
    + rewrite decide_False by done. done.
    + cbn [obj_keys fmap list_fmap fst]. simpl in Hcl.
      apply andb_true_iff in Hcl as [Hc _].
      intros Hin. set_unfold in Hin.
      destruct Hin as [?|[?|[?|[?|[]]]]]; simplify_eq; done.
Qed.

Lemma empty_word_marks_root_witness :
  ∃ t,
    build ["a"; ""] = Some t
    ∧ isTerminal (node_at t (root t)) = bool_decide ("" ∈ ["a"; ""])
    ∧ isWord "" t = Some (bool_decide ("" ∈ ["a"; ""])).
Proof.
  eexists. split; [vm_compute; reflexivity|].
  destruct (proj1 empty_word_marks_root ["a"; ""] _ eq_refl)
    as (_ & H1 & H2 & _).
  split; [exact H1|exact H2].
Defined.

(** ** Words in the namespace of the bookkeeping fields *)

(** C10: a word of at least two characters that begins with ['_'] is
    accepted by [insert] on a fresh builder, where the root then has the
    one property ['_'], which [nodeProps] skips; and in every state that
    inserts lead to, [isWord] of that word is [false] right after the word
    is inserted. *)
Theorem underscore_word_not_found c rest :
  (∃ t, insert (String "_" (String c rest)) new_Trie = Some t
        ∧ heap t !! root t = Some [("_", VObj 1)]
        ∧ nodeProps [("_", VObj 1)] true = []
        ∧ isWord (String "_" (String c rest)) t = Some false)
  ∧ ∀ words t t',
      build words = Some t →
      insert (String "_" (String c rest)) t = Some t' →
      isWord (String "_" (String c rest)) t' = Some false.
Proof.
  split.
  2:{ intros words t t' Hb Hi. apply underscore_not_word.
      apply build_root_free in Hb. by apply insert_root_free in Hi as [? _]. }
  set (w := String "_" (String c rest)).
  set (t1 := put 0 [("_", VObj 1)] (set_heap [[]; []] new_Trie)).
  destruct (addTerminal_total (String c rest) 1 t1) as [t2 Ht2]; [simpl; lia|].
  pose proof (addTerminal_frame _ _ _ _ Ht2) as ([h ->] & _ & Hf).
  specialize (Hf 0). cbn [heap set_heap] in Hf.
  assert (H0 : h !! 0 = Some [("_", VObj 1)]).
  { etrans; [apply Hf; simpl; lia|done]. }
  exists (set_lastWord w (bump_wordCount (set_heap h t1))).
  assert (Ha : addTerminal 0 w new_Trie = Some (set_heap h t1)).
  { unfold w. rewrite addTerminal_cons. unfold alloc.
    change (set_prop 0 "_" _ _) with (Some t1). exact Ht2. }
  split; [|split; [done|split; [done|]]].
  - unfold insert. cbn [_insert String.length]. simpl heap. simpl root.
    cbn [lookup list_lookup mbind option_bind obj_keys fmap list_fmap insert_loop].
    rewrite Ha. cbn [mbind option_bind].
    rewrite decide_True; [done|]. simpl. by destruct w.
  - unfold isWord. rewrite isFragment_unfold.
    change (heap _ !! root _) with (h !! 0). unfold object in *.
    rewrite H0. done.
Qed.


(** * Further properties of the code *)

(** ** [isWord] always answers *)

(** After every sequence of inserts, and still after [optimize],
    [isWord(w)] returns a boolean for every string [w]: it never reads a
    property of [undefined] and its recursion ends. *)
Theorem isWord_returns words t :
  build words = Some t →
  (∀ w, is_Some (isWord w t))
  ∧ ∀ t', optimize t = Some t' → ∀ w, is_Some (isWord w t').
Proof.
  intros Hb. destruct (build_inv _ _ Hb) as (Hinv & _). split.
  - intros w. rewrite isWord_member. apply member_is_Some; apply Hinv.
  - intros t' Ho w. unfold optimize in Ho.
    apply bind_Some in Ho as (p & Hp & Hc).
    destruct (optimize_prepare_inv _ _ Hinv Hp) as (Hci & _).
    destruct (collapse_total p Hci) as (t'' & log & _ & Hc' & Hpost).
    assert (t'' = t') as -> by congruence.
    destruct Hpost as ((Hwf & _) & _).
    rewrite isWord_member. apply member_is_Some; apply Hwf.
Qed.

Lemma isWord_returns_witness :
  ∃ t,
    build ["car"; "cat"; "do"] = Some t
    ∧ (∀ w, is_Some (isWord w t))
    ∧ ∀ t', optimize t = Some t' → ∀ w, is_Some (isWord w t').
Proof.
  eexists. split; [vm_compute; reflexivity|].
  apply (isWord_returns ["car"; "cat"; "do"]). vm_compute; reflexivity.
Defined.

(** ** The steps of [optimize] after the canonicalizer *)

(** Once [combineSuffixNode(root)] has returned, the rest of [optimize]
    ([prepDFS], [countDegree], [prepDFS], [collapseChains]) returns, and
    [countDegree] with its visit stamps changes no answer of [isWord] for a
    word without ['_'], nor does the whole rest of [optimize]. *)
Theorem optimize_tail_keeps_isWord words t r t1 :
  build words = Some t →
  combineSuffixNode (S (length (heap t))) (root t) t = Some (r, t1) →
  ∃ t2 t',
    countDegree (S (length (heap (prepDFS t1)))) (root (prepDFS t1))
      (prepDFS t1) = Some t2
    ∧ optimize t = Some t'
    ∧ ∀ w, clean w = true →
           isWord w t2 = isWord w t1 ∧ isWord w t' = isWord w t1.
Proof.
  intros Hb Hc. destruct (build_inv _ _ Hb) as (Hinv & _).
  destruct (optimize_prepare_total _ _ _ Hinv Hc) as [p Hp].
  destruct (optimize_prepare_inv _ _ Hinv Hp)
    as (Hci & Hroot & r' & t1' & t2 & Hc' & Hinv1 & Hcd & ->).
  assert (r' = r ∧ t1' = t1) as [-> ->] by (split; congruence).
  destruct (countDegree_total (prepDFS t1))
    as (t2' & Hcd' & _ & Hm & Hmeta & _);
    [apply Hinv1|by apply builder_fresh|].
  assert (t2' = t2) as -> by congruence.
  destruct (collapse_total _ Hci) as (t' & log & _ & Hcol & Hpost).
  destruct Hpost as (_ & _ & Hmeta' & _ & _ & Hsame & _).
  exists t2, t'. split; [done|]. split.
  { unfold optimize. rewrite Hp. done. }
  intros w Hw.
  assert (H2 : isWord w t2 = isWord w t1).
  { rewrite !isWord_member, (same_meta_root _ _ Hmeta).
    rewrite (member_marks _ _ _ _ Hm Hw). apply isFragment_set_vCur. }
  split; [done|]. rewrite <- H2.
  rewrite !isWord_member, (same_meta_root _ _ Hmeta').
  rewrite (Hsame _ _ Hw). apply isFragment_set_vCur.
Qed.

Lemma optimize_tail_keeps_isWord_witness :
  ∃ t r t1,
    build ["car"; "cat"; "do"] = Some t
    ∧ combineSuffixNode (S (length (heap t))) (root t) t = Some (r, t1)
    ∧ ∃ t2 t',
        countDegree (S (length (heap (prepDFS t1)))) (root (prepDFS t1))
          (prepDFS t1) = Some t2
        ∧ optimize t = Some t'
        ∧ ∀ w, clean w = true →
               isWord w t2 = isWord w t1 ∧ isWord w t' = isWord w t1.
Proof.
  eexists _, _, _. split; [vm_compute; reflexivity|].
  split; [vm_compute; reflexivity|].
  eapply (optimize_tail_keeps_isWord ["car"; "cat"; "do"]);
    [vm_compute; reflexivity|vm_compute; reflexivity].
Defined.

(** ** What the builder keeps before [optimize] *)

(** After every sequence of inserts each property name of each node is a
    single code unit, the empty string (the terminal flag) or [_c]:
    [addTerminal] and the split of [_insert] never store a longer label. *)
Theorem builder_labels_single_char words t :
  build words = Some t →
  ∀ a o k, heap t !! a = Some o → k ∈ obj_keys o →
           String.length k ≤ 1 ∨ k = "_c".
Proof.
  intros Hb a o k Ha Hk. destruct (build_inv _ _ Hb) as ((_ & Hsm & _) & _).
  by apply (Hsm _ _ Ha).
Qed.

Lemma builder_labels_single_char_witness :
  ∃ t,
    build ["car"; "cat"; "do"] = Some t
    ∧ ∀ a o k, heap t !! a = Some o → k ∈ obj_keys o →
               String.length k ≤ 1 ∨ k = "_c".
Proof.
  eexists. split; [vm_compute; reflexivity|].
  apply (builder_labels_single_char ["car"; "cat"; "do"]).
  vm_compute; reflexivity.
Defined.

(** The inserts never freeze the root: after every sequence of inserts
    the root has no canonical id [_c], no property of any node holds the
    root, and the registry of frozen nodes does not hold it
    ([uniqueNode] returns a child, never the root). *)
Theorem builder_root_not_frozen words t :
  build words = Some t →
  js_get "_c" (node_at t (root t)) = VUndef
  ∧ (∀ a o k, heap t !! a = Some o → js_get k o ≠ VObj (root t))
  ∧ (∀ sig, suffixes t !! sig ≠ Some (root t)).
Proof.
  intros Hb. destruct (build_root_free _ _ Hb) as (Hlt & H1 & H2 & H3).
  split; [|done]. unfold node_at.
  destruct (lookup_lt_is_Some_2 _ _ Hlt) as [o Ho]. rewrite Ho. simpl.
  apply js_get_not_key. intros Hin. specialize (H3 _ _ Ho Hin). simpl in H3. lia.
Qed.

Lemma builder_root_not_frozen_witness :
  ∃ t,
    build ["car"; "cat"; "do"] = Some t
    ∧ js_get "_c" (node_at t (root t)) = VUndef
    ∧ (∀ a o k, heap t !! a = Some o → js_get k o ≠ VObj (root t))
    ∧ (∀ sig, suffixes t !! sig ≠ Some (root t)).
Proof.
  eexists. split; [vm_compute; reflexivity|].
  apply (builder_root_not_frozen ["car"; "cat"; "do"]). vm_compute; reflexivity.
Defined.

(** ** The builder and [optimize] return *)

(** For words without the code unit '_', [insertWords] on a new trie
    returns a trie, and [optimize] on that trie returns as well: no insert
    reads a property of [undefined], and the recursions of [_insert],
    [uniqueNode], [combineSuffixNode], [countDegree] and [collapseChains]
    all end (the frozen nodes and the edges between nodes not yet frozen
    form no cycle). *)
Theorem build_optimize_return words :
  Forall (λ w, clean w = true) words →
  ∃ t t', build words = Some t ∧ optimize t = Some t'.
Proof.
  intros Hall.
  destruct (insertWords_total_ok not_us eq_refl words new_Trie) as (t & Hb & Ht).
  - apply term_inv_new.
  - eapply Forall_impl; [done|]. intros w Hw. by rewrite <- clean_word_over.
  - destruct (optimize_total_ok not_us t Ht) as [t' Ho]. by exists t, t'.
Qed.

Lemma build_optimize_return_witness :
  Forall (λ w, clean w = true) ["tap"; "taps"; "top"; "tops"]
  ∧ ∃ t t', build ["tap"; "taps"; "top"; "tops"] = Some t ∧ optimize t = Some t'.
Proof.
  split; [by repeat constructor|].
  apply (build_optimize_return ["tap"; "taps"; "top"; "tops"]).
  by repeat constructor.
Defined.

(** ** Words in ascending order over the safe code units *)

(** When the words come in ascending code-unit order (duplicates allowed)
    and contain none of the code units ['_'], ['-'], ['!'] and the digits,
    the inserts return a trie on which [isWord] answers exactly membership
    in the list, for every query without ['_']: the freezing and sharing
    of suffixes that [insert] does on the way lose no word and add none. *)
Theorem build_sorted_isWord words :
  Forall (λ w, safe w = true) words →
  Sorted (λ x y, String.leb x y = true) words →
  ∃ t, build words = Some t
       ∧ ∀ q, clean q = true → isWord q t = Some (bool_decide (q ∈ words)).
Proof.
  intros Hall Hso.
  destruct (build_sorted_inv words Hall Hso) as (t & Hb & Hinv).
  exists t. split; [done|]. intros q Hq.
  rewrite (sorted_isWord _ _ _ Hinv Hq).
  f_equal. apply bool_decide_ext. by rewrite elem_of_reverse.
Qed.

Lemma build_sorted_isWord_witness :
  Forall (λ w, safe w = true) ["tap"; "taps"; "top"; "tops"]
  ∧ Sorted (λ x y, String.leb x y = true) ["tap"; "taps"; "top"; "tops"]
  ∧ ∃ t, build ["tap"; "taps"; "top"; "tops"] = Some t
         ∧ ∀ q, clean q = true →
                isWord q t
                = Some (bool_decide (q ∈ ["tap"; "taps"; "top"; "tops"])).
Proof.
  split; [by repeat constructor|]. split; [by repeat constructor|].
  apply (build_sorted_isWord ["tap"; "taps"; "top"; "tops"]);
    by repeat constructor.
Defined.

(** Under the same conditions [optimize] returns as well, and on the
    optimized trie (suffixes shared from the root, chains collapsed)
    [isWord] still answers exactly membership in the list for every query
    without ['_']. *)
Theorem optimize_sorted_isWord words :
  Forall (λ w, safe w = true) words →
  Sorted (λ x y, String.leb x y = true) words →
  ∃ t t', build words = Some t ∧ optimize t = Some t'
          ∧ ∀ q, clean q = true →
                 isWord q t' = Some (bool_decide (q ∈ words)).
Proof.
  intros Hall Hso.
  destruct (build_sorted_inv words Hall Hso) as (t & Hb & Hinv).
  destruct (sorted_optimize _ _ Hinv) as (t' & Ho & Hw).
  exists t, t'. split; [done|]. split; [done|]. intros q Hq.
  rewrite (Hw _ Hq). f_equal. apply bool_decide_ext. by rewrite elem_of_reverse.
Qed.

Lemma optimize_sorted_isWord_witness :
  Forall (λ w, safe w = true) ["tap"; "taps"; "top"; "tops"]
  ∧ Sorted (λ x y, String.leb x y = true) ["tap"; "taps"; "top"; "tops"]
  ∧ ∃ t t', build ["tap"; "taps"; "top"; "tops"] = Some t
            ∧ optimize t = Some t'
            ∧ ∀ q, clean q = true →
                   isWord q t'
                   = Some (bool_decide (q ∈ ["tap"; "taps"; "top"; "tops"])).
Proof.
  split; [by repeat constructor|]. split; [by repeat constructor|].
  apply (optimize_sorted_isWord ["tap"; "taps"; "top"; "tops"]);
    by repeat constructor.
Defined.

(** ** The word count *)

(** For words in strictly ascending order over the safe code units,
    [wordCount] ends as the number of words: no insert takes the branch
    that returns without counting, and freezing counts nothing. *)
Theorem build_sorted_wordCount words :
  Forall (λ w, safe w = true) words →
  Sorted (λ x y, String.ltb x y = true) words →
  ∃ t, build words = Some t ∧ wordCount t = Z.of_nat (length words).
Proof.
  intros Hall Hso.
  destruct (insertWords_sorted_count words [] new_Trie) as (t & Hb & Hc);
    [apply sorted_inv_new|done|done| |].
  - intros w _. split; [by intros ?%elem_of_nil|apply leb_nil_l].
  - exists t. split; [done|]. rewrite Hc. simpl. lia.
Qed.

Lemma build_sorted_wordCount_witness :
  Forall (λ w, safe w = true) ["tap"; "taps"; "top"; "tops"]
  ∧ Sorted (λ x y, String.ltb x y = true) ["tap"; "taps"; "top"; "tops"]
  ∧ ∃ t, build ["tap"; "taps"; "top"; "tops"] = Some t
         ∧ wordCount t = Z.of_nat (length ["tap"; "taps"; "top"; "tops"]).
Proof.
  split; [by repeat constructor|]. split; [by repeat constructor|].
  apply (build_sorted_wordCount ["tap"; "taps"; "top"; "tops"]);
    by repeat constructor.
Defined.

(** ** What [combineSuffixNode] returns *)

(** On a trie built from words in ascending order over the safe code
    units, [combineSuffixNode(node)] returns for every node: the node
    returned is frozen, it holds under every name other than [_c] exactly
    what [node] then holds (so sharing it in place of [node] is sound),
    and [isFragment] answers at every node what it answered before, for
    every word without ['_']. *)
Theorem combineSuffixNode_returns_equal_node words t node :
  Forall (λ w, safe w = true) words →
  Sorted (λ x y, String.leb x y = true) words →
  build words = Some t → node < length (heap t) →
  ∃ r t',
    combineSuffixNode (S (length (heap t))) node t = Some (r, t')
    ∧ truthy (js_get "_c" (node_at t' r)) = true
    ∧ (∀ k, k ≠ "_c" → js_get k (node_at t' r) = js_get k (node_at t' node))
    ∧ ∀ a q, a < length (heap t) → clean q = true →
             member t' a q = member t a q.
Proof.
  intros Hall Hso Hb Hn.
  destruct (build_sorted_inv words Hall Hso) as (t0 & Hb0 & Hinv).
  assert (t0 = t) as -> by congruence.
  destruct Hinv as (Ht & _ & Hdg & _).
  pose proof Ht as (Hbi & Hk & Hr & rank & Hrk).
  destruct (lookup_lt_is_Some_2 _ _ Hn) as [o Ho].
  assert (Hcond : frozen o = true ∨ rank node + 2 ≤ S (length (heap t))).
  { right. destruct Hrk as [Hbd _]. specialize (Hbd _ Hn). lia. }
  destruct (combine_total safe_char (S (length (heap t))) node t rank o)
    as (r & t' & Hc & Hb1 & Hk1 & _ & _ & Hlen & (or & Hor & Hfr) & _);
    try done; try lia.
  assert (HQ : protected (λ _, False) t).
  { split; [by intros a []|by intros a k c _ _ []]. }
  destruct (combine_dawg (λ _, False) (S (length (heap t))) node t rank o r t')
    as (_ & _ & _ & Hacc & _ & _ & _ & Hsame); try done; [by intros []|].
  exists r, t'. split; [done|]. split; [by rewrite (node_at_lookup _ _ _ Hor)|].
  split; [done|]. intros a q Ha Hq.
  rewrite !(member_accepts safe_char) by (done || lia || apply Hb1 || apply Hbi).
  by rewrite Hacc.
Qed.

Lemma combineSuffixNode_returns_equal_node_witness :
  ∃ t,
    Forall (λ w, safe w = true) ["tap"; "taps"; "top"; "tops"]
    ∧ Sorted (λ x y, String.leb x y = true) ["tap"; "taps"; "top"; "tops"]
    ∧ build ["tap"; "taps"; "top"; "tops"] = Some t
    ∧ 0 < length (heap t)
    ∧ ∃ r t',
        combineSuffixNode (S (length (heap t))) 0 t = Some (r, t')
        ∧ truthy (js_get "_c" (node_at t' r)) = true
        ∧ (∀ k, k ≠ "_c" → js_get k (node_at t' r) = js_get k (node_at t' 0))
        ∧ ∀ a q, a < length (heap t) → clean q = true →
                 member t' a q = member t a q.
Proof.
  eexists. split; [by repeat constructor|]. split; [by repeat constructor|].
  split; [vm_compute; reflexivity|]. split; [vm_compute; lia|].
  eapply (combineSuffixNode_returns_equal_node ["tap"; "taps"; "top"; "tops"]);
    [by repeat constructor|by repeat constructor|vm_compute; reflexivity
    |vm_compute; lia].
Defined.

(** ** The registry of frozen nodes *)

(** On a trie built from words in ascending order over the safe code
    units: every node of the registry is frozen and filed under the
    signature that [combineSuffixNode] computes for it now; the children
    of a frozen node are frozen; no two frozen nodes carry the same
    canonical id; and a node that is not frozen is held by one property
    at most, so that an [_insert] into it changes no other subtree. *)
Theorem build_sorted_registry words t :
  Forall (λ w, safe w = true) words →
  Sorted (λ x y, String.leb x y = true) words →
  build words = Some t →
  (∀ sig a, suffixes t !! sig = Some a →
            frz t a = true ∧ sig_of t (node_at t a) = sig)
  ∧ (∀ a k c, frz t a = true → js_get k (node_at t a) = VObj c →
              frz t c = true)
  ∧ (∀ a b, frz t a = true → frz t b = true →
            js_get "_c" (node_at t a) = js_get "_c" (node_at t b) → a = b)
  ∧ (∀ a1 k1 a2 k2 c,
       js_get k1 (node_at t a1) = VObj c → js_get k2 (node_at t a2) = VObj c →
       frz t c = false → a1 = a2 ∧ k1 = k2).
Proof.
  intros Hall Hso Hb.
  destruct (build_sorted_inv words Hall Hso) as (t0 & Hb0 & Hinv).
  assert (t0 = t) as -> by congruence.
  destruct Hinv as ((_ & _ & Hr & _) & _ & (HF & HU & HReg & HId & _) & _).
  split_and!; try done.
  intros sig a Hs. split; [|by apply HReg].
  destruct (Hr _ _ Hs) as (o & Ha & Hf). unfold frz.
  by rewrite (node_at_lookup _ _ _ Ha).
Qed.

Lemma build_sorted_registry_witness :
  ∃ t,
    Forall (λ w, safe w = true) ["tap"; "taps"; "top"; "tops"]
    ∧ Sorted (λ x y, String.leb x y = true) ["tap"; "taps"; "top"; "tops"]
    ∧ build ["tap"; "taps"; "top"; "tops"] = Some t
    ∧ (∀ sig a, suffixes t !! sig = Some a →
                frz t a = true ∧ sig_of t (node_at t a) = sig)
    ∧ (∀ a k c, frz t a = true → js_get k (node_at t a) = VObj c →
                frz t c = true)
    ∧ (∀ a b, frz t a = true → frz t b = true →
              js_get "_c" (node_at t a) = js_get "_c" (node_at t b) → a = b)
    ∧ (∀ a1 k1 a2 k2 c,
         js_get k1 (node_at t a1) = VObj c →
         js_get k2 (node_at t a2) = VObj c →
         frz t c = false → a1 = a2 ∧ k1 = k2).
Proof.
  eexists. split; [by repeat constructor|]. split; [by repeat constructor|].
  split; [vm_compute; reflexivity|].
  eapply (build_sorted_registry ["tap"; "taps"; "top"; "tops"]);
    [by repeat constructor|by repeat constructor|vm_compute; reflexivity].
Defined.

(** ** Sharing is complete among the frozen nodes *)

(** On a trie built from words in ascending order over the safe code
    units, two frozen nodes at which [isFragment] gives the same answers
    for every word without ['_'] are one node: the registry of signatures
    lets no suffix set be frozen twice. *)
Theorem build_sorted_frozen_distinct words t a b :
  Forall (λ w, safe w = true) words →
  Sorted (λ x y, String.leb x y = true) words →
  build words = Some t →
  frz t a = true → frz t b = true →
  (∀ q, clean q = true → member t a q = member t b q) →
  a = b.
Proof.
  intros Hall Hso Hb Hfa Hfb Hm.
  destruct (build_sorted_inv words Hall Hso) as (t0 & Hb0 & Hinv).
  assert (t0 = t) as -> by congruence.
  pose proof (build_nonleaf _ _ Hall Hb) as Hnl.
  destruct Hinv as (((Hwf & _) & Hk & _) & (_ & Hnr & _) & Hdg & _ & _ & Hlive & _).
  by eapply frozen_distinct_members.
Qed.

Lemma build_sorted_frozen_distinct_witness :
  ∃ t,
    Forall (λ w, safe w = true) ["tap"; "taps"; "top"; "tops"]
    ∧ Sorted (λ x y, String.leb x y = true) ["tap"; "taps"; "top"; "tops"]
    ∧ build ["tap"; "taps"; "top"; "tops"] = Some t
    ∧ frz t 3 = true
    ∧ (∀ q, clean q = true → member t 3 q = member t 3 q)
    ∧ 3 = 3.
Proof.
  eexists. split; [by repeat constructor|]. split; [by repeat constructor|].
  split; [vm_compute; reflexivity|]. split; [vm_compute; reflexivity|].
  split; [done|].
  eapply (build_sorted_frozen_distinct ["tap"; "taps"; "top"; "tops"] _ 3 3);
    [by repeat constructor|by repeat constructor|vm_compute; reflexivity
    |vm_compute; reflexivity|vm_compute; reflexivity|done].
Defined.

(** After the first statement of [optimize], [combineSuffixNode(root)],
    on such a trie: every node that a property of the root or of a frozen
    node holds is frozen, and two frozen nodes at which [isFragment] gives
    the same answers for every word without ['_'] are one node. Below the
    root the graph is the minimal one for the words. *)
Theorem optimize_root_minimal words t r t1 :
  Forall (λ w, safe w = true) words →
  Sorted (λ x y, String.leb x y = true) words →
  build words = Some t →
  combineSuffixNode (S (length (heap t))) (root t) t = Some (r, t1) →
  (∀ k c, js_get k (node_at t1 (root t1)) = VObj c → frz t1 c = true)
  ∧ (∀ a k c, frz t1 a = true → js_get k (node_at t1 a) = VObj c →
              frz t1 c = true)
  ∧ (∀ a b, frz t1 a = true → frz t1 b = true →
            (∀ q, clean q = true → member t1 a q = member t1 b q) →
            a = b).
Proof.
  intros Hall Hso Hb Hc.
  destruct (build_sorted_inv words Hall Hso) as (t0 & Hb0 & Hinv).
  assert (t0 = t) as -> by congruence.
  pose proof (build_nonleaf _ _ Hall Hb) as Hnl.
  destruct (combine_root_state _ _ _ _ Hinv Hnl Hc)
    as (Hk1 & Hwf1 & Hd1 & Hnr1 & Hlive1 & Hnl1 & Hch1).
  split; [done|]. split; [by destruct Hd1 as (HF & _)|].
  intros a b Hfa Hfb Hm. by eapply frozen_distinct_members.
Qed.

Lemma optimize_root_minimal_witness :
  ∃ t r t1,
    Forall (λ w, safe w = true) ["tap"; "taps"; "top"; "tops"]
    ∧ Sorted (λ x y, String.leb x y = true) ["tap"; "taps"; "top"; "tops"]
    ∧ build ["tap"; "taps"; "top"; "tops"] = Some t
    ∧ combineSuffixNode (S (length (heap t))) (root t) t = Some (r, t1)
    ∧ (∀ k c, js_get k (node_at t1 (root t1)) = VObj c → frz t1 c = true)
    ∧ (∀ a k c, frz t1 a = true → js_get k (node_at t1 a) = VObj c →
                frz t1 c = true)
    ∧ (∀ a b, frz t1 a = true → frz t1 b = true →
              (∀ q, clean q = true → member t1 a q = member t1 b q) →
              a = b).
Proof.
  eexists _, _, _. split; [by repeat constructor|].
  split; [by repeat constructor|]. split; [vm_compute; reflexivity|].
  split; [vm_compute; reflexivity|].
  eapply (optimize_root_minimal ["tap"; "taps"; "top"; "tops"]);
    [by repeat constructor|by repeat constructor|vm_compute; reflexivity
    |vm_compute; reflexivity].
Defined.

(** ** The in-degree of each node *)

(** After [countDegree] has run from the root over the canonicalized DAWG
    with a fresh visit epoch (it always returns), the reachable nodes can
    be listed, and the in-degree field of every node [a] of the store is
    the number of child properties of reachable nodes that hold [a], plus
    one if [a] is the root: the field of an unreachable node counts
    nothing. *)
Theorem countDegree_node_degree words t r t1 :
  build words = Some t →
  combineSuffixNode (S (length (heap t))) (root t) t = Some (r, t1) →
  ∃ t2,
    countDegree (S (length (heap (prepDFS t1)))) (root (prepDFS t1))
      (prepDFS t1) = Some t2
    ∧ (∃ l, NoDup l ∧ ∀ x, x ∈ l ↔ reachable t2 x)
    ∧ ∀ l a, NoDup l → (∀ x, x ∈ l ↔ reachable t2 x) →
             degree (node_at t2 a)
             = (Z.of_nat (count_into t2 l a)
                + if decide (a = root t2) then 1 else 0)%Z.
Proof.
  intros Hb Hc. destruct (build_inv _ _ Hb) as (Hinv & _).
  pose proof (combineSuffixNode_inv _ _ _ _ _ Hinv Hc) as (Hinv1 & _).
  destruct (countDegree_total (prepDFS t1))
    as (t2 & Hcd & _ & _ & _ & Hvis & _);
    [apply Hinv1|by apply builder_fresh|].
  destruct (countDegree_each (prepDFS t1)) as (t2' & Hcd' & Heach);
    [apply Hinv1|by apply builder_fresh|].
  assert (t2' = t2) as -> by congruence.
  exists t2. split; [done|]. split; [|done].
  destruct (visited_listing t2) as (l & Hnd & Hl).
  exists l. split; [done|]. intros a. by rewrite Hl.
Qed.

Lemma countDegree_node_degree_witness :
  ∃ t r t1,
    build ["tap"; "taps"; "top"; "tops"] = Some t
    ∧ combineSuffixNode (S (length (heap t))) (root t) t = Some (r, t1)
    ∧ ∃ t2,
        countDegree (S (length (heap (prepDFS t1)))) (root (prepDFS t1))
          (prepDFS t1) = Some t2
        ∧ (∃ l, NoDup l ∧ ∀ x, x ∈ l ↔ reachable t2 x)
        ∧ ∀ l a, NoDup l → (∀ x, x ∈ l ↔ reachable t2 x) →
                 degree (node_at t2 a)
                 = (Z.of_nat (count_into t2 l a)
                    + if decide (a = root t2) then 1 else 0)%Z.
Proof.
  eexists _, _, _. split; [vm_compute; reflexivity|].
  split; [vm_compute; reflexivity|].
  eapply (countDegree_node_degree ["tap"; "taps"; "top"; "tops"]);
    [vm_compute; reflexivity|vm_compute; reflexivity].
Defined.
